(** * PINTOS file-system core: buffer cache, inode layer, path tokenizer

    A shallow embedding of [filesys/cache.c], [filesys/inode.c],
    [filesys/path.c] and [filesys/fd.c].  Machine integers are [Z], a sector
    is a list of 512 bytes, the intrusive lists of the kernel are Rocq lists
    and maps from sector numbers are [gmap]s.  Locks are not modelled: every
    operation is taken as one atomic step of the thread that holds them. *)

From stdpp Require Import gmap strings list fin_maps sorting.
From Stdlib Require Import ZArith Lia Ascii.

Open Scope Z_scope.

(** ** Part I: the embedding *)

(** *** filesys/path.c: the tokenizer *)

Module Path.

(** directory.h is not among the sources; the value is the one of the
    specification. *)
Definition NAME_MAX : nat := 14.

(** [while ( *src == '/') src++;] *)
Fixpoint skip_slashes (src : string) : string :=
  match src with
  | String c rest => if Ascii.eqb c "/"%char then skip_slashes rest else src
  | EmptyString => src
  end.

(** The copy loop of [get_next_part].  [dst] holds the characters already
    stored in [part]; the first component of the result is the source
    pointer after the loop, or [None] when the loop left with [return -1]. *)
Fixpoint copy_part (src : string) (dst : string) : option string * string :=
  match src with
  | EmptyString => (Some src, dst)
  | String c rest =>
      if Ascii.eqb c "/"%char then (Some src, dst)
      else if (String.length dst <? NAME_MAX)%nat
           then copy_part rest (dst +:+ String c EmptyString)
           else (None, dst)
  end.

(** [get_next_part part srcp] returns the returned integer, the contents of
    [part] and the value of [*srcp] at return.  A C string is modelled by
    the characters before its terminator. *)
Definition get_next_part (part : string) (srcp : string) : Z * string * string :=
  match skip_slashes srcp with
  | EmptyString => (0, part, srcp)
  | src =>
      match copy_part src EmptyString with
      | (Some src', dst) => (1, dst, src')
      | (None, dst) => (-1, dst, srcp)
      end
  end.

(** [n] copies of the character '/'. *)
Fixpoint slashes (n : nat) : string :=
  match n with
  | O => EmptyString
  | S n' => String "/"%char (slashes n')
  end.

(** The string does not begin with '/'. *)
Definition no_leading_slash (s : string) : Prop :=
  match s with
  | String c _ => c <> "/"%char
  | EmptyString => True
  end.

(** No character of the string is '/'. *)
Fixpoint slash_free (s : string) : Prop :=
  match s with
  | String c rest => c <> "/"%char /\ slash_free rest
  | EmptyString => True
  end.

(** The string is empty or begins with '/'. *)
Definition at_separator (s : string) : Prop :=
  match s with
  | String c _ => c = "/"%char
  | EmptyString => True
  end.

(** The components of a path: its maximal runs of characters other than
    '/'.  [cur] is the run being read. *)
Fixpoint components_from (s cur : string) : list string :=
  match s with
  | EmptyString =>
      match cur with
      | EmptyString => []
      | _ => [cur]
      end
  | String c rest =>
      if Ascii.eqb c "/"%char then
        match cur with
        | EmptyString => components_from rest EmptyString
        | _ => cur :: components_from rest EmptyString
        end
      else components_from rest (cur +:+ String c EmptyString)
  end.

Definition components (s : string) : list string :=
  components_from s EmptyString.

(** The component fits the buffer [part]. *)
Definition fits (c : string) : bool := (String.length c <=? NAME_MAX)%nat.

End Path.

(** *** filesys/cache.c: the buffer cache *)

Module Cache.

(** devices/block.h is not among the sources; the sector size is the one of
    the specification. *)
Definition BLOCK_SECTOR_SIZE : Z := 512.

Definition MAX_CACHE_SECTORS : nat := 64.

(** [struct cache_block].  [block] is the address of the device, [buffer]
    the bytes of the sector. *)
Record cache_block := mk_cache_block {
  dirty : bool;
  free : bool;
  block : Z;
  sector : Z;
  buffer : list Z;
  last_touched : Z
}.

(** What reaches the block device, in the order it happens. *)
Inductive io_event :=
| IoRead (dev sec : Z)
| IoWrite (dev sec : Z) (data : list Z).

(** The cache, the contents of the block devices and the log of the device
    operations issued so far. *)
Record world := mk_world {
  cache_blocks : list cache_block;
  device : gmap (Z * Z) (list Z);
  io_log : list io_event
}.

Definition zero_sector : list Z := repeat 0 (Z.to_nat BLOCK_SECTOR_SIZE).

(** Modelled from the spec: [block_read] of devices/block.c, which is not
    among the sources, is a fixed-size sector read; a sector never written
    reads as zeros. *)
Definition block_read (w : world) (blk sec : Z) : world * list Z :=
  (mk_world (cache_blocks w) (device w) (io_log w ++ [IoRead blk sec]),
   default zero_sector (device w !! (blk, sec))).

(** Modelled from the spec: [block_write] of devices/block.c, a fixed-size
    sector write. *)
Definition block_write (w : world) (blk sec : Z) (data : list Z) : world :=
  mk_world (cache_blocks w) (<[(blk, sec) := data]> (device w))
           (io_log w ++ [IoWrite blk sec data]).

Definition set_cache_blocks (w : world) (l : list cache_block) : world :=
  mk_world l (device w) (io_log w).

(** [memcpy (dst + ofs, src, n)] on a byte array. *)
Definition memcpy_into (dst : list Z) (ofs : Z) (src : list Z) (n : Z) : list Z :=
  take (Z.to_nat ofs) dst ++ take (Z.to_nat n) src
       ++ drop (Z.to_nat ofs + Z.to_nat n) dst.

(** [memcpy (out, src + ofs, n)]: the bytes that arrive in [out]. *)
Definition memcpy_from (src : list Z) (ofs : Z) (n : Z) : list Z :=
  take (Z.to_nat n) (drop (Z.to_nat ofs) src).

Definition cache_nru_sort (a b : cache_block) : bool :=
  last_touched a <? last_touched b.

(** Modelled from the spec: [list_min] of lib/kernel/list.c, which is not
    among the sources: the position of the first element that no other
    element is less than (the entry with the minimum [last_touched]). *)
Fixpoint list_min_from {A : Type} (less : A -> A -> bool)
    (l : list A) (i : nat) (mi : nat) (m : A) : nat :=
  match l with
  | [] => mi
  | e :: l' =>
      if less e m then list_min_from less l' (S i) i e
      else list_min_from less l' (S i) mi m
  end.

Definition list_min {A : Type} (less : A -> A -> bool) (l : list A) : option nat :=
  match l with
  | [] => None
  | m :: l' => Some (list_min_from less l' 1%nat 0%nat m)
  end.

(** Modelled from the spec: [list_sort] of lib/kernel/list.c, which is not
    among the sources: a stable sort into nondecreasing order of the
    comparison function (the oldest entry first). *)
Fixpoint list_insert_sorted {A : Type} (less : A -> A -> bool) (x : A) (l : list A) : list A :=
  match l with
  | [] => [x]
  | y :: l' => if less y x then y :: list_insert_sorted less x l' else x :: y :: l'
  end.

Definition list_sort {A : Type} (less : A -> A -> bool) (l : list A) : list A :=
  foldr (list_insert_sorted less) [] l.

(** [block_cache_nru_evict]: the position of the victim and the state once
    the victim is written back (when in use and dirty) and marked free and
    clean. *)
Definition block_cache_nru_evict (w : world) : option (nat * world) :=
  match list_min cache_nru_sort (cache_blocks w) with
  | None => None
  | Some e =>
      match cache_blocks w !! e with
      | None => None
      | Some b =>
          let w1 := if negb (free b) && dirty b
                    then block_write w (block b) (sector b) (buffer b) else w in
          let b' := mk_cache_block false true (block b) (sector b) (buffer b)
                                   (last_touched b) in
          Some (e, set_cache_blocks w1 (<[e := b']> (cache_blocks w1)))
      end
  end.

(** [block_cache_init].  [timer_ticks i] is the value the timer returns in
    iteration [i] of the loop.  The fields that [malloc] leaves undefined
    are never read while [free] is set; they are given as zeros. *)
Definition block_cache_init (timer_ticks : nat -> Z) : list cache_block :=
  map (fun i => mk_cache_block false true 0 0 zero_sector (timer_ticks i))
      (seq 0 MAX_CACHE_SECTORS).

(** The test of the lookup loops: the entry is in use and holds the sector. *)
Definition holds_sector (blk sec : Z) (b : cache_block) : bool :=
  negb (free b) && (block b =? blk) && (sector b =? sec).

(** The lookup loop: the first entry that holds the sector, with its
    position in the list. *)
Fixpoint find_block (blk sec : Z) (l : list cache_block) (i : nat)
    : option (nat * cache_block) :=
  match l with
  | [] => None
  | b :: l' =>
      if holds_sector blk sec b then Some (i, b)
      else find_block blk sec l' (S i)
  end.

(** [block_cache_read_offset].  [now] is the value of [timer_ticks ()];
    [None] is the failed assertion.  The second component is what is copied
    to the caller's buffer. *)
Definition block_cache_read_offset (w : world) (blk sec : Z)
    (sector_ofs chunk_size : Z) (now : Z) : option (world * list Z) :=
  if negb (chunk_size + sector_ofs <=? BLOCK_SECTOR_SIZE) then None else
  match find_block blk sec (cache_blocks w) 0 with
  | Some (e, b) =>
      let out := memcpy_from (buffer b) sector_ofs chunk_size in
      let b' := mk_cache_block (dirty b) (free b) (block b) (sector b)
                               (buffer b) now in
      Some (set_cache_blocks w
              (list_sort cache_nru_sort (<[e := b']> (cache_blocks w))), out)
  | None =>
      match block_cache_nru_evict w with
      | None => None
      | Some (e, w1) =>
          let '(w2, data) := block_read w1 blk sec in
          let out := memcpy_from data sector_ofs chunk_size in
          let b' := mk_cache_block false false blk sec data now in
          Some (set_cache_blocks w2
                  (list_sort cache_nru_sort (<[e := b']> (cache_blocks w2))), out)
      end
  end.

Definition block_cache_read (w : world) (blk sec : Z) (now : Z)
    : option (world * list Z) :=
  block_cache_read_offset w blk sec 0 BLOCK_SECTOR_SIZE now.

(** [block_cache_write_offset]; [src] is the caller's buffer. *)
Definition block_cache_write_offset (w : world) (blk sec : Z) (src : list Z)
    (sector_ofs chunk_size : Z) (now : Z) : option world :=
  if negb (chunk_size + sector_ofs <=? BLOCK_SECTOR_SIZE) then None else
  match find_block blk sec (cache_blocks w) 0 with
  | Some (e, b) =>
      let b' := mk_cache_block true (free b) (block b) (sector b)
                  (memcpy_into (buffer b) sector_ofs src chunk_size) now in
      Some (set_cache_blocks w
              (list_sort cache_nru_sort (<[e := b']> (cache_blocks w))))
  | None =>
      match block_cache_nru_evict w with
      | None => None
      | Some (e, w1) =>
          let '(w2, data) := block_read w1 blk sec in
          let data' := memcpy_into data sector_ofs src chunk_size in
          let w3 := block_write w2 blk sec data' in
          let b' := mk_cache_block false false blk sec data' now in
          Some (set_cache_blocks w3
                  (list_sort cache_nru_sort (<[e := b']> (cache_blocks w3))))
      end
  end.

Definition block_cache_write (w : world) (blk sec : Z) (src : list Z) (now : Z)
    : option world :=
  block_cache_write_offset w blk sec src 0 BLOCK_SECTOR_SIZE now.

(** The loop of [block_cache_fflush] over the entries from [i] on. *)
Fixpoint fflush_from (n : nat) (i : nat) (w : world) : world :=
  match n with
  | O => w
  | S n' =>
      match cache_blocks w !! i with
      | None => w
      | Some b =>
          if negb (free b) && dirty b then
            let w1 := block_write w (block b) (sector b) (buffer b) in
            let b' := mk_cache_block false (free b) (block b) (sector b)
                                     (buffer b) (last_touched b) in
            fflush_from n' (S i) (set_cache_blocks w1 (<[i := b']> (cache_blocks w1)))
          else fflush_from n' (S i) w
      end
  end.

Definition block_cache_fflush (w : world) : world :=
  fflush_from (length (cache_blocks w)) 0 w.

(** The states the cache goes through: [block_cache_init] under a timer
    that does not run backwards, then any sequence of completed
    operations. *)
Inductive reachable : world -> Prop :=
| reach_init (timer_ticks : nat -> Z) (dev : gmap (Z * Z) (list Z)) (log : list io_event) :
    (forall i j : nat, (i <= j)%nat -> timer_ticks i <= timer_ticks j) ->
    reachable (mk_world (block_cache_init timer_ticks) dev log)
| reach_read_offset w blk sec ofs len now w' out :
    reachable w ->
    block_cache_read_offset w blk sec ofs len now = Some (w', out) ->
    reachable w'
| reach_read w blk sec now w' out :
    reachable w ->
    block_cache_read w blk sec now = Some (w', out) ->
    reachable w'
| reach_write_offset w blk sec src ofs len now w' :
    reachable w ->
    block_cache_write_offset w blk sec src ofs len now = Some w' ->
    reachable w'
| reach_write w blk sec src now w' :
    reachable w ->
    block_cache_write w blk sec src now = Some w' ->
    reachable w'
| reach_fflush w :
    reachable w ->
    reachable (block_cache_fflush w).

(** The list is in nondecreasing order of [last_touched]. *)
Definition oldest_first (l : list cache_block) : Prop :=
  forall (i j : nat) (a b : cache_block),
    (i <= j)%nat -> l !! i = Some a -> l !! j = Some b ->
    last_touched a <= last_touched b.

(** What the victim [v] sends to the device when it is evicted: its
    sector, when it is in use and dirty. *)
Definition written_back (v : cache_block) : list io_event :=
  if negb (free v) && dirty v
  then [IoWrite (block v) (sector v) (buffer v)] else [].

Definition device_after_evict (w : world) (v : cache_block) : gmap (Z * Z) (list Z) :=
  if negb (free v) && dirty v
  then <[(block v, sector v) := buffer v]> (device w) else device w.

(** The state in which the operations start: a cache fresh from
    [block_cache_init] in front of an empty device. *)
Definition fresh_world : world :=
  mk_world (block_cache_init (fun i => Z.of_nat i)) ∅ [].

(** The time stamps of the entries, in list order. *)
Definition stamps (l : list cache_block) : list Z := last_touched <$> l.

(** The invariant of the reachable states. *)
Definition cache_inv (w : world) : Prop :=
  length (cache_blocks w) = MAX_CACHE_SECTORS /\
  StronglySorted Z.le (stamps (cache_blocks w)).

(** [block_cache_free]: every entry is popped and freed; nothing goes to
    the device. *)
Definition block_cache_free (w : world) : world := set_cache_blocks w [].

(** **** The cache as its callers see it *)

(** The device and sector an entry caches, when the entry is in use. *)
Definition key_of (b : cache_block) : option (Z * Z) :=
  if free b then None else Some (block b, sector b).

Definition keys (l : list cache_block) : list (Z * Z) := omap key_of l.

(** The buffer the lookup loop finds for the sector, if it finds one. *)
Definition cached (l : list cache_block) (blk sec : Z) : option (list Z) :=
  match find_block blk sec l 0 with
  | Some (_, b) => Some (buffer b)
  | None => None
  end.

(** The contents of the sector for a caller of the cache: the cached
    buffer when the sector is cached, what the device holds otherwise. *)
Definition view (w : world) (blk sec : Z) : list Z :=
  default (default zero_sector (device w !! (blk, sec)))
          (cached (cache_blocks w) blk sec).

(** An entry in use that is not dirty holds what the device holds. *)
Definition clean_agrees (w : world) (b : cache_block) : Prop :=
  free b = false -> dirty b = false ->
  buffer b = default zero_sector (device w !! (block b, sector b)).

(** No sector is cached twice, and the clean entries agree with the
    device. *)
Definition coherent (w : world) : Prop :=
  NoDup (keys (cache_blocks w)) /\ Forall (clean_agrees w) (cache_blocks w).

(** The operations of the cache on a sector, with the value of the timer
    at the operation. *)
Inductive cache_op :=
| OpRead (blk sec ofs len now : Z)
| OpWrite (blk sec : Z) (src : list Z) (ofs len now : Z)
| OpFlush.

(** A sequence of operations, one after the other; [None] when an
    assertion fails on the way. *)
Fixpoint run_ops (ops : list cache_op) (w : world) : option world :=
  match ops with
  | [] => Some w
  | OpRead blk sec ofs len now :: ops' =>
      match block_cache_read_offset w blk sec ofs len now with
      | Some (w', _) => run_ops ops' w'
      | None => None
      end
  | OpWrite blk sec src ofs len now :: ops' =>
      match block_cache_write_offset w blk sec src ofs len now with
      | Some w' => run_ops ops' w'
      | None => None
      end
  | OpFlush :: ops' => run_ops ops' (block_cache_fflush w)
  end.

(** The operation writes to the sector. *)
Definition writes_to (blk sec : Z) (op : cache_op) : Prop :=
  match op with
  | OpWrite blk' sec' _ _ _ _ => blk' = blk /\ sec' = sec
  | _ => False
  end.

(** The assertion at the head of the operation holds. *)
Definition in_sector (op : cache_op) : Prop :=
  match op with
  | OpRead _ _ ofs len _ => len + ofs <= BLOCK_SECTOR_SIZE
  | OpWrite _ _ _ ofs len _ => len + ofs <= BLOCK_SECTOR_SIZE
  | OpFlush => True
  end.

(** The writes the flush loop issues for the entries of a list, in list
    order. *)
Definition flush_writes (l : list cache_block) : list io_event :=
  flat_map written_back l.

(** The fresh cache after a write of sector 5 of device 1, and after a
    second write of the same sector. *)
Definition written_world : world :=
  default fresh_world (block_cache_write fresh_world 1 5 (repeat 7 512%nat) 70).

Definition dirty_world : world :=
  default fresh_world (block_cache_write written_world 1 5 (repeat 9 512%nat) 71).

End Cache.

(** *** filesys/free-map.c *)

Module FreeMap.

(** Modelled from the spec: free-map.c is not among the sources.  The free
    map is a bitmap with one bit per sector of the device, set while the
    sector is in use.  [free_map_allocate (1, &sector)] takes the first
    free sector and fails when there is none; [free_map_release (sector, 1)]
    clears the bit of the sector. *)
Fixpoint scan (fm : list bool) (i : nat) : option nat :=
  match fm with
  | [] => None
  | b :: fm' => if b then scan fm' (S i) else Some i
  end.

Definition free_map_allocate (fm : list bool) : option (Z * list bool) :=
  match scan fm 0 with
  | Some i => Some (Z.of_nat i, <[i := true]> fm)
  | None => None
  end.

Definition free_map_release (fm : list bool) (sector : Z) : list bool :=
  <[Z.to_nat sector := false]> fm.

(** The number of free sectors. *)
Fixpoint free_count (fm : list bool) : nat :=
  match fm with
  | [] => O
  | b :: fm' => if b then free_count fm' else S (free_count fm')
  end.

End FreeMap.

(** *** filesys/inode.c *)

Module Inode.
Import FreeMap.

Definition BLOCK_SECTOR_SIZE : Z := 512.

Definition INODE_MAGIC : Z := 0x494e4f44.

(** [struct inode_disk].  [type] is the value of the [enum inode_type],
    whose declaration (inode.h) is not among the sources. *)
Record inode_disk := mk_inode_disk {
  length : Z;
  magic : Z;
  direct_pointer : list Z;
  indirect_pointer : Z;
  doubly_indirect_pointer : Z;
  type : Z;
  unused : list Z
}.

(** [struct inode], without its locks and condition variable. *)
Record inode := mk_inode {
  sector : Z;
  open_cnt : Z;
  removed : bool;
  deny_write_cnt : Z;
  writers : Z
}.

(** The free map and the sectors of [fs_device] as the inode layer sees
    them through [block_cache_read] and [block_cache_write]. *)
Record disk := mk_disk {
  free_map : list bool;
  sectors : gmap Z (list Z)
}.

(** **** Sectors as arrays of little-endian 32-bit words *)

Definition word_bytes (w : Z) : list Z :=
  [w mod 256; (w / 256) mod 256; (w / 65536) mod 256; (w / 16777216) mod 256].

Definition bytes_of_words (ws : list Z) : list Z := flat_map word_bytes ws.

Fixpoint words_of_bytes (bs : list Z) : list Z :=
  match bs with
  | b0 :: b1 :: b2 :: b3 :: rest =>
      (b0 + 256 * b1 + 65536 * b2 + 16777216 * b3) :: words_of_bytes rest
  | _ => []
  end.

(** The value of a 32-bit word read as [off_t] (a signed 32-bit integer),
    and back. *)
Definition off_t_of_word (w : Z) : Z := if w <? 2 ^ 31 then w else w - 2 ^ 32.
Definition word_of_off_t (n : Z) : Z := n mod 2 ^ 32.

(** [a[i]] for an array of sector numbers. *)
Definition entry (a : list Z) (i : Z) : Z := default 0 (a !! Z.to_nat i).

Definition sector_of_inode (d : inode_disk) : list Z :=
  bytes_of_words
    ([word_of_off_t (length d); magic d] ++ direct_pointer d
       ++ [indirect_pointer d; doubly_indirect_pointer d; type d] ++ unused d).

Definition inode_of_sector (bs : list Z) : inode_disk :=
  let ws := words_of_bytes bs in
  mk_inode_disk (off_t_of_word (entry ws 0)) (entry ws 1)
                (take 12 (drop 2 ws)) (entry ws 14) (entry ws 15) (entry ws 16)
                (drop 17 ws).

(** **** The cache, seen from the inode layer *)

Definition zeros : list Z := repeat 0 (Z.to_nat BLOCK_SECTOR_SIZE).

Definition block_cache_read (st : gmap Z (list Z)) (sec : Z) : list Z :=
  default zeros (st !! sec).

Definition block_cache_write (st : gmap Z (list Z)) (sec : Z) (data : list Z)
    : gmap Z (list Z) :=
  <[sec := data]> st.

(** [None] is the failed assertion at the head of the function. *)
Definition block_cache_read_offset (st : gmap Z (list Z)) (sec : Z)
    (sector_ofs chunk_size : Z) : option (list Z) :=
  if chunk_size + sector_ofs <=? BLOCK_SECTOR_SIZE
  then Some (Cache.memcpy_from (block_cache_read st sec) sector_ofs chunk_size)
  else None.

Definition block_cache_write_offset (st : gmap Z (list Z)) (sec : Z)
    (src : list Z) (sector_ofs chunk_size : Z) : option (gmap Z (list Z)) :=
  if chunk_size + sector_ofs <=? BLOCK_SECTOR_SIZE
  then Some (<[sec := Cache.memcpy_into (block_cache_read st sec)
                        sector_ofs src chunk_size]> st)
  else None.

(** **** [byte_to_sector] *)

(** [None]: control reaches the end of the function, which then returns no
    value. *)
Definition byte_to_sector (st : gmap Z (list Z)) (ino : inode) (pos : Z) : option Z :=
  let data := inode_of_sector (block_cache_read st (sector ino)) in
  if pos <? length data then
    if pos <? 12 * BLOCK_SECTOR_SIZE then
      Some (entry (direct_pointer data) (pos ÷ BLOCK_SECTOR_SIZE))
    else if pos <? (12 + 128) * BLOCK_SECTOR_SIZE then
      let extra := pos - 12 * BLOCK_SECTOR_SIZE in
      let buffer := words_of_bytes (block_cache_read st (indirect_pointer data)) in
      Some (entry buffer (extra ÷ BLOCK_SECTOR_SIZE))
    else if pos <? (12 + 128 + 128 * 128) * BLOCK_SECTOR_SIZE then
      let extra := pos - (12 + 128) * BLOCK_SECTOR_SIZE in
      let buffer :=
        words_of_bytes (block_cache_read st (doubly_indirect_pointer data)) in
      let indirect := entry buffer (extra ÷ BLOCK_SECTOR_SIZE ÷ 128) in
      let buffer' := words_of_bytes (block_cache_read st indirect) in
      Some (entry buffer' (Z.rem (extra ÷ BLOCK_SECTOR_SIZE) 128))
    else None
  else Some (2 ^ 32 - 1).

(** **** [inode_resize] *)

(** How a pass over the extent tree ends: at its end, or at a failed
    [free_map_allocate], in both cases with the state reached so far. *)
Inductive outcome (A : Type) : Type :=
| Done (a : A)
| NoSpace (a : A).
Arguments Done {A} a.
Arguments NoSpace {A} a.

(** The body of the three leaf loops, for the slot of the sector at
    position [pos] of the file.  The result is the new value of the slot. *)
Definition resize_slot (len pos : Z) (dk : disk) (slot : Z) : outcome (disk * Z) :=
  let '(dk1, slot1) :=
    if (len <=? BLOCK_SECTOR_SIZE * pos) && negb (slot =? 0)
    then (mk_disk (free_map_release (free_map dk) slot) (sectors dk), 0)
    else (dk, slot) in
  if (BLOCK_SECTOR_SIZE * pos <? len) && (slot1 =? 0) then
    match free_map_allocate (free_map dk1) with
    | None => NoSpace (dk1, slot1)
    | Some (sec, fm) =>
        Done (mk_disk fm (block_cache_write (sectors dk1) sec zeros), sec)
    end
  else Done (dk1, slot1).

(** A leaf loop: [n] iterations from index [i] on, over the slots of the
    sectors at positions [base + i], [base + i + 1], ... of the file. *)
Fixpoint resize_leaves (n : nat) (i : nat) (len base : Z) (dk : disk)
    (slots : list Z) : outcome (disk * list Z) :=
  match n with
  | O => Done (dk, slots)
  | S n' =>
      match resize_slot len (base + Z.of_nat i) dk (entry slots (Z.of_nat i)) with
      | NoSpace (dk', v) => NoSpace (dk', <[i := v]> slots)
      | Done (dk', v) => resize_leaves n' (S i) len base dk' (<[i := v]> slots)
      end
  end.

(** The loop over the entries of the doubly-indirect block, [n] iterations
    from index [i] on. *)
Fixpoint resize_doubly (n : nat) (i : nat) (len : Z) (dk : disk)
    (buffer : list Z) : outcome (disk * list Z) :=
  match n with
  | O => Done (dk, buffer)
  | S n' =>
      let base := 12 + 128 + 128 * Z.of_nat i in
      if (entry buffer (Z.of_nat i) =? 0) && (len <=? base * BLOCK_SECTOR_SIZE)
      then Done (dk, buffer)
      else
        let first :=
          if entry buffer (Z.of_nat i) =? 0 then
            match free_map_allocate (free_map dk) with
            | None => NoSpace (dk, buffer, [])
            | Some (sec, fm) =>
                Done (mk_disk fm (block_cache_write (sectors dk) sec zeros),
                      <[i := sec]> buffer, repeat 0 128%nat)
            end
          else
            Done (dk, buffer,
                  words_of_bytes
                    (block_cache_read (sectors dk) (entry buffer (Z.of_nat i)))) in
        match first with
        | NoSpace (dk1, buffer1, _) => NoSpace (dk1, buffer1)
        | Done (dk1, buffer1, inside_buffer) =>
            match resize_leaves 128 0 len base dk1 inside_buffer with
            | NoSpace (dk2, _) => NoSpace (dk2, buffer1)
            | Done (dk2, inside_buffer') =>
                if negb (entry buffer1 (Z.of_nat i) =? 0)
                   && (len <=? base * BLOCK_SECTOR_SIZE)
                then
                  resize_doubly n' (S i) len
                    (mk_disk (free_map_release (free_map dk2)
                                               (entry buffer1 (Z.of_nat i)))
                             (sectors dk2))
                    (<[i := 0]> buffer1)
                else
                  resize_doubly n' (S i) len
                    (mk_disk (free_map dk2)
                       (block_cache_write (sectors dk2)
                          (entry buffer1 (Z.of_nat i))
                          (bytes_of_words inside_buffer')))
                    buffer1
            end
        end
  end.

Definition set_length (d : inode_disk) (len : Z) : inode_disk :=
  mk_inode_disk len (magic d) (direct_pointer d) (indirect_pointer d)
                (doubly_indirect_pointer d) (type d) (unused d).

Definition set_direct (d : inode_disk) (dp : list Z) : inode_disk :=
  mk_inode_disk (length d) (magic d) dp (indirect_pointer d)
                (doubly_indirect_pointer d) (type d) (unused d).

Definition set_indirect (d : inode_disk) (p : Z) : inode_disk :=
  mk_inode_disk (length d) (magic d) (direct_pointer d) p
                (doubly_indirect_pointer d) (type d) (unused d).

Definition set_doubly (d : inode_disk) (p : Z) : inode_disk :=
  mk_inode_disk (length d) (magic d) (direct_pointer d) (indirect_pointer d)
                p (type d) (unused d).

(** The segment of [inode_resize] for the doubly-indirect pointer. *)
Definition resize_doubly_segment (dk : disk) (d : inode_disk) (len : Z)
    : outcome (disk * inode_disk) :=
  let first :=
    if doubly_indirect_pointer d =? 0 then
      match free_map_allocate (free_map dk) with
      | None => NoSpace (dk, d, [])
      | Some (sec, fm) =>
          Done (mk_disk fm (block_cache_write (sectors dk) sec zeros),
                set_doubly d sec, repeat 0 128%nat)
      end
    else
      Done (dk, d,
            words_of_bytes (block_cache_read (sectors dk) (doubly_indirect_pointer d))) in
  match first with
  | NoSpace (dk1, d1, _) => NoSpace (dk1, d1)
  | Done (dk1, d1, buffer) =>
      match resize_doubly 128 0 len dk1 buffer with
      | NoSpace (dk2, _) => NoSpace (dk2, d1)
      | Done (dk2, buffer') =>
          if negb (doubly_indirect_pointer d1 =? 0)
             && (len <=? (12 + 128) * BLOCK_SECTOR_SIZE)
          then
            Done (mk_disk (free_map_release (free_map dk2) (doubly_indirect_pointer d1))
                          (sectors dk2),
                  set_length (set_doubly d1 0) len)
          else
            Done (mk_disk (free_map dk2)
                    (block_cache_write (sectors dk2) (doubly_indirect_pointer d1)
                       (bytes_of_words buffer')),
                  set_length d1 len)
      end
  end.

(** The segment of [inode_resize] for the indirect pointer, followed by the
    segment for the doubly-indirect pointer. *)
Definition resize_indirect_segment (dk : disk) (d : inode_disk) (len : Z)
    : outcome (disk * inode_disk) :=
  let first :=
    if indirect_pointer d =? 0 then
      match free_map_allocate (free_map dk) with
      | None => NoSpace (dk, d, [])
      | Some (sec, fm) =>
          Done (mk_disk fm (block_cache_write (sectors dk) sec zeros),
                set_indirect d sec, repeat 0 128%nat)
      end
    else
      Done (dk, d,
            words_of_bytes (block_cache_read (sectors dk) (indirect_pointer d))) in
  match first with
  | NoSpace (dk1, d1, _) => NoSpace (dk1, d1)
  | Done (dk1, d1, buffer) =>
      match resize_leaves 128 0 len 12 dk1 buffer with
      | NoSpace (dk2, _) => NoSpace (dk2, d1)
      | Done (dk2, buffer') =>
          let '(dk3, d3) :=
            if negb (indirect_pointer d1 =? 0) && (len <=? 12 * 512)
            then (mk_disk (free_map_release (free_map dk2) (indirect_pointer d1))
                          (sectors dk2),
                  set_indirect d1 0)
            else (mk_disk (free_map dk2)
                    (block_cache_write (sectors dk2) (indirect_pointer d1)
                       (bytes_of_words buffer')),
                  d1) in
          if (doubly_indirect_pointer d3 =? 0)
             && (len <=? (12 + 128) * BLOCK_SECTOR_SIZE)
          then Done (dk3, set_length d3 len)
          else resize_doubly_segment dk3 d3 len
      end
  end.

(** One activation of [inode_resize], up to its [return true] or to the
    failed allocation. *)
Definition resize_pass (dk : disk) (d : inode_disk) (len : Z)
    : outcome (disk * inode_disk) :=
  match resize_leaves 12 0 len 0 dk (direct_pointer d) with
  | NoSpace (dk1, dp) => NoSpace (dk1, set_direct d dp)
  | Done (dk1, dp) =>
      let d1 := set_direct d dp in
      if (indirect_pointer d1 =? 0) && (len <=? 12 * BLOCK_SECTOR_SIZE)
      then Done (dk1, set_length d1 len)
      else resize_indirect_segment dk1 d1 len
  end.

(** [inode_resize].  After a failed allocation the function calls itself
    with the length the inode has and returns false; [fuel] bounds the
    depth of these calls and [None] is a depth beyond it. *)
Fixpoint inode_resize (fuel : nat) (dk : disk) (d : inode_disk) (len : Z)
    {struct fuel} : option (bool * disk * inode_disk) :=
  match resize_pass dk d len with
  | Done (dk', d') => Some (true, dk', d')
  | NoSpace (dk', d') =>
      match fuel with
      | O => None
      | S fuel' =>
          match inode_resize fuel' dk' d' (length d') with
          | Some (_, dk'', d'') => Some (false, dk'', d'')
          | None => None
          end
      end
  end.

(** **** [inode_create], [inode_open], [inode_close], [inode_remove] *)

(** [None]: the assertion on the length fails, or [inode_resize] runs out
    of [fuel]. *)
Definition inode_create (fuel : nat) (dk : disk) (sec : Z) (len : Z) (typ : Z)
    : option (bool * disk) :=
  if len <? 0 then None else
  let disk_inode := mk_inode_disk 0 INODE_MAGIC (repeat 0 12%nat) 0 0 typ
                                  (repeat 0 111%nat) in
  match inode_resize fuel dk disk_inode len with
  | None => None
  | Some (success, dk', disk_inode') =>
      Some (success,
            mk_disk (free_map dk')
                    (block_cache_write (sectors dk') sec (sector_of_inode disk_inode')))
  end.

(** The file system: the disk and the list [open_inodes].  A
    [struct inode *] is modelled by the sector of the inode, which
    [inode_open] keeps unique in the list. *)
Record fsys := mk_fsys {
  fs_disk : disk;
  open_inodes : list inode
}.

Fixpoint find_inode (sec : Z) (l : list inode) : option inode :=
  match l with
  | [] => None
  | ino :: l' => if sector ino =? sec then Some ino else find_inode sec l'
  end.

(** Assignment to the fields of the open inode at sector [sec]. *)
Fixpoint update_inode (sec : Z) (f : inode -> inode) (l : list inode) : list inode :=
  match l with
  | [] => []
  | ino :: l' =>
      if sector ino =? sec then f ino :: l' else ino :: update_inode sec f l'
  end.

(** [list_remove (&inode->elem)]. *)
Fixpoint remove_inode (sec : Z) (l : list inode) : list inode :=
  match l with
  | [] => []
  | ino :: l' => if sector ino =? sec then l' else ino :: remove_inode sec l'
  end.

Definition inode_reopen (fs : fsys) (sec : Z) : fsys :=
  mk_fsys (fs_disk fs)
    (update_inode sec
       (fun ino => mk_inode (sector ino) (open_cnt ino + 1) (removed ino)
                            (deny_write_cnt ino) (writers ino))
       (open_inodes fs)).

Definition inode_open (fs : fsys) (sec : Z) : fsys :=
  match find_inode sec (open_inodes fs) with
  | Some _ => inode_reopen fs sec
  | None => mk_fsys (fs_disk fs) (mk_inode sec 1 false 0 0 :: open_inodes fs)
  end.

(** [inode->removed = true]. *)
Definition set_removed (ino : inode) : inode :=
  mk_inode (sector ino) (open_cnt ino) true (deny_write_cnt ino) (writers ino).

Definition inode_remove (fs : fsys) (sec : Z) : fsys :=
  mk_fsys (fs_disk fs) (update_inode sec set_removed (open_inodes fs)).

(** [inode_close] of the open inode at sector [sec]; [None] when
    [inode_resize] runs out of [fuel]. *)
Definition inode_close (fuel : nat) (fs : fsys) (sec : Z) : option fsys :=
  match find_inode sec (open_inodes fs) with
  | None => Some fs
  | Some ino =>
      if open_cnt ino - 1 =? 0 then
        let l := remove_inode sec (open_inodes fs) in
        if removed ino then
          let disk_inode :=
            inode_of_sector (block_cache_read (sectors (fs_disk fs)) (sector ino)) in
          match inode_resize fuel (fs_disk fs) disk_inode 0 with
          | None => None
          | Some (_, dk, _) =>
              Some (mk_fsys (mk_disk (free_map_release (free_map dk) (sector ino))
                                     (sectors dk)) l)
          end
        else Some (mk_fsys (fs_disk fs) l)
      else
        Some (mk_fsys (fs_disk fs)
                (update_inode sec
                   (fun ino => mk_inode (sector ino) (open_cnt ino - 1) (removed ino)
                                        (deny_write_cnt ino) (writers ino))
                   (open_inodes fs)))
  end.

(** **** [inode_read_at], [inode_write_at] *)

Definition inode_length (st : gmap Z (list Z)) (ino : inode) : Z :=
  length (inode_of_sector (block_cache_read st (sector ino))).

(** How a copy loop ends: at its end, at a failed assertion of the cache,
    with a sector number that [byte_to_sector] did not return, or out of
    fuel. *)
Inductive io_result (A : Type) : Type :=
| IoDone (a : A)
| AssertFailed
| NoSector
| OutOfFuel.
Arguments IoDone {A} a.
Arguments AssertFailed {A}.
Arguments NoSector {A}.
Arguments OutOfFuel {A}.

(** [sector_ofs] and [chunk_size] of one iteration of the copy loops. *)
Definition chunk_of (size offset inode_len : Z) : Z * Z :=
  let sector_ofs := Z.rem offset BLOCK_SECTOR_SIZE in
  let inode_left := inode_len - offset in
  let sector_left := BLOCK_SECTOR_SIZE - sector_ofs in
  let min_left := if inode_left <? sector_left then inode_left else sector_left in
  let chunk_size := if size <? min_left then size else min_left in
  (sector_ofs, chunk_size).

(** The loop of [inode_read_at]; [buffer] holds the bytes copied so far. *)
Fixpoint read_loop (fuel : nat) (st : gmap Z (list Z)) (ino : inode)
    (size offset bytes_read : Z) (buffer : list Z) : io_result (Z * list Z) :=
  if size <=? 0 then IoDone (bytes_read, buffer) else
  match fuel with
  | O => OutOfFuel
  | S fuel' =>
      let sector_idx := byte_to_sector st ino offset in
      let '(sector_ofs, chunk_size) := chunk_of size offset (inode_length st ino) in
      if chunk_size <=? 0 then IoDone (bytes_read, buffer) else
      match sector_idx with
      | None => NoSector
      | Some idx =>
          if (sector_ofs =? 0) && (chunk_size =? BLOCK_SECTOR_SIZE) then
            read_loop fuel' st ino (size - chunk_size) (offset + chunk_size)
                      (bytes_read + chunk_size) (buffer ++ block_cache_read st idx)
          else
            match block_cache_read_offset st idx sector_ofs chunk_size with
            | None => AssertFailed
            | Some bytes =>
                read_loop fuel' st ino (size - chunk_size) (offset + chunk_size)
                          (bytes_read + chunk_size) (buffer ++ bytes)
            end
      end
  end.

(** Every iteration copies at least one byte, so [size] iterations are
    enough. *)
Definition inode_read_at (st : gmap Z (list Z)) (ino : inode) (size offset : Z)
    : io_result (Z * list Z) :=
  read_loop (Z.to_nat size) st ino size offset 0 [].

(** The loop of [inode_write_at]; [buffer] is the caller's buffer. *)
Fixpoint write_loop (fuel : nat) (st : gmap Z (list Z)) (ino : inode)
    (buffer : list Z) (size offset bytes_written : Z)
    : io_result (Z * gmap Z (list Z)) :=
  if size <=? 0 then IoDone (bytes_written, st) else
  match fuel with
  | O => OutOfFuel
  | S fuel' =>
      let sector_idx := byte_to_sector st ino offset in
      let '(sector_ofs, chunk_size) := chunk_of size offset (inode_length st ino) in
      if chunk_size <=? 0 then IoDone (bytes_written, st) else
      match sector_idx with
      | None => NoSector
      | Some idx =>
          let src := drop (Z.to_nat bytes_written) buffer in
          if (sector_ofs =? 0) && (chunk_size =? BLOCK_SECTOR_SIZE) then
            write_loop fuel'
              (block_cache_write st idx (take (Z.to_nat BLOCK_SECTOR_SIZE) src))
              ino buffer (size - chunk_size) (offset + chunk_size)
              (bytes_written + chunk_size)
          else
            match block_cache_write_offset st idx src sector_ofs chunk_size with
            | None => AssertFailed
            | Some st' =>
                write_loop fuel' st' ino buffer (size - chunk_size)
                           (offset + chunk_size) (bytes_written + chunk_size)
            end
      end
  end.

(** [inode_write_at]; [fuel] is the one of [inode_resize]. *)
Definition inode_write_at (fuel : nat) (dk : disk) (ino : inode)
    (buffer : list Z) (size offset : Z) : io_result (Z * disk) :=
  if negb (deny_write_cnt ino =? 0) then IoDone (0, dk) else
  let disk_inode := inode_of_sector (block_cache_read (sectors dk) (sector ino)) in
  let grown :=
    if length disk_inode <? size + offset then
      match inode_resize fuel dk disk_inode (size + offset) with
      | None => None
      | Some (_, dk', disk_inode') =>
          Some (mk_disk (free_map dk')
                  (block_cache_write (sectors dk') (sector ino)
                                     (sector_of_inode disk_inode')))
      end
    else Some dk in
  match grown with
  | None => OutOfFuel
  | Some dk1 =>
      match write_loop (Z.to_nat size) (sectors dk1) ino buffer size offset 0 with
      | IoDone (n, st) => IoDone (n, mk_disk (free_map dk1) st)
      | AssertFailed => AssertFailed
      | NoSector => NoSector
      | OutOfFuel => OutOfFuel
      end
  end.

(** An inode fresh from the [calloc] of [inode_create]. *)
Definition empty_inode (typ : Z) : inode_disk :=
  mk_inode_disk 0 INODE_MAGIC (repeat 0 12%nat) 0 0 typ (repeat 0 111%nat).

(** A device of [2 + n] sectors of which the first two (free map and root
    directory) are in use. *)
Definition blank_disk (n : Z) : disk :=
  mk_disk ([true; true] ++ repeat false (Z.to_nat n)) ∅.

(** **** The sectors of an extent tree *)

(** The entries [a[0]], ..., [a[n-1]] of an array of sector numbers. *)
Definition slots_of (n : nat) (a : list Z) : list Z :=
  (fun k : nat => entry a (Z.of_nat k)) <$> seq 0 n.

(** The pointers that are set. *)
Definition allocated (slots : list Z) : list Z :=
  filter (fun s : Z => s <> 0) slots.

(** A sector read as an array of 128 sector numbers. *)
Definition pointer_block (st : gmap Z (list Z)) (p : Z) : list Z :=
  words_of_bytes (block_cache_read st p).

(** The sectors under the indirect block at [p], and the block itself. *)
Definition indirect_sectors (st : gmap Z (list Z)) (p : Z) : list Z :=
  if p =? 0 then [] else allocated (slots_of 128 (pointer_block st p)) ++ [p].

(** The sectors under the doubly-indirect block at [p], its indirect
    blocks, and the block itself. *)
Definition doubly_sectors (st : gmap Z (list Z)) (p : Z) : list Z :=
  if p =? 0 then []
  else flat_map (indirect_sectors st) (slots_of 128 (pointer_block st p)) ++ [p].

(** Every sector of the extent tree of [d]: data sectors and index
    blocks. *)
Definition extent_sectors (st : gmap Z (list Z)) (d : inode_disk) : list Z :=
  allocated (slots_of 12 (direct_pointer d))
    ++ indirect_sectors st (indirect_pointer d)
    ++ doubly_sectors st (doubly_indirect_pointer d).

(** [free_map_release] of every sector of a list. *)
Definition release_all (l : list Z) (fm : list bool) : list bool :=
  foldl free_map_release fm l.

(** In the list no pointer that is set comes after one that is not. *)
Fixpoint front_loaded (l : list Z) : bool :=
  match l with
  | [] => true
  | x :: l' => if x =? 0 then forallb (fun y => y =? 0) l' else front_loaded l'
  end.

(** The extent tree of the inode [d] stored at sector [sec] is well
    formed: there is a doubly-indirect block only together with an
    indirect block, the pointers of the doubly-indirect block are set from
    the front, no sector occurs twice in the tree, and every sector of the
    tree and [sec] itself is in use in the free map. *)
Definition tree_ok (fm : list bool) (st : gmap Z (list Z)) (sec : Z)
    (d : inode_disk) : Prop :=
  (doubly_indirect_pointer d <> 0 -> indirect_pointer d <> 0) /\
  (doubly_indirect_pointer d <> 0 ->
   front_loaded (slots_of 128 (pointer_block st (doubly_indirect_pointer d))) = true) /\
  NoDup (sec :: extent_sectors st d) /\
  Forall (fun s => 0 <= s /\ fm !! Z.to_nat s = Some true)
         (sec :: extent_sectors st d).

(** A file of 13 sectors and one byte, created at sector 2 of a blank
    device of 32 sectors and opened once. *)
Definition sample_fs : fsys :=
  match inode_create 1 (mk_disk (<[2%nat := true]> (free_map (blank_disk 30))) ∅)
                     2 (13 * 512 + 1) 0 with
  | Some (_, dk) => inode_open (mk_fsys dk []) 2
  | None => mk_fsys (blank_disk 30) []
  end.

(** **** Sectors taken from the free map *)

(** The sectors of the list are distinct, none is sector 0, and all are
    free in the free map. *)
Definition fresh_in (fm : list bool) (news : list Z) : Prop :=
  NoDup news /\ Forall (fun s => 0 < s /\ fm !! Z.to_nat s = Some false) news.

(** The free map with the sectors of the list in use. *)
Definition mark_all (news : list Z) (fm : list bool) : list bool :=
  foldl (fun f s => <[Z.to_nat s := true]> f) fm news.

(** From [dk] to [dk'] the sectors [news] were allocated, and no other
    sector was written. *)
Definition allocs (dk : disk) (news : list Z) (dk' : disk) : Prop :=
  fresh_in (free_map dk) news /\
  free_map dk' = mark_all news (free_map dk) /\
  (forall k, k ∉ news -> sectors dk' !! k = sectors dk !! k).

(** **** The shape of an extent tree *)

(** An array of [n] sector numbers that begins with [l] and has zeros
    behind. *)
Definition full (l : list Z) (n : nat) : list Z :=
  l ++ repeat 0 (n - List.length l)%nat.

(** The sector [p] holds the pointers [l], and zeros behind them. *)
Definition holds_block (st : gmap Z (list Z)) (p : Z) (l : list Z) : Prop :=
  (List.length l <= 128)%nat /\ st !! p = Some (bytes_of_words (full l 128)).

(** An extent tree: the direct sectors [ds]; with an indirect block [p],
    the sectors [ls] under it; with a doubly-indirect block [q], its
    indirect blocks, each with the sectors under it. *)
Inductive tree_shape :=
| Direct (ds : list Z)
| Indirect (ds : list Z) (p : Z) (ls : list Z)
| Doubly (ds : list Z) (p : Z) (ls : list Z) (q : Z) (blocks : list (Z * list Z)).

(** The sectors of a tree in the order in which [inode_resize] allocates
    them, and in the order in which it releases them. *)
Definition alloc_order (t : tree_shape) : list Z :=
  match t with
  | Direct ds => ds
  | Indirect ds p ls => ds ++ p :: ls
  | Doubly ds p ls q blocks =>
      ds ++ (p :: ls) ++ q :: flat_map (fun bl => fst bl :: snd bl) blocks
  end.

Definition release_order (t : tree_shape) : list Z :=
  match t with
  | Direct ds => ds
  | Indirect ds p ls => ds ++ ls ++ [p]
  | Doubly ds p ls q blocks =>
      ds ++ (ls ++ [p]) ++ flat_map (fun bl => snd bl ++ [fst bl]) blocks ++ [q]
  end.

(** The inode [d] and the sectors [st] hold the tree [t]. *)
Definition built (st : gmap Z (list Z)) (d : inode_disk) (t : tree_shape) : Prop :=
  match t with
  | Direct ds =>
      (List.length ds <= 12)%nat /\ direct_pointer d = full ds 12 /\
      indirect_pointer d = 0 /\ doubly_indirect_pointer d = 0
  | Indirect ds p ls =>
      (List.length ds <= 12)%nat /\ direct_pointer d = full ds 12 /\
      indirect_pointer d = p /\ holds_block st p ls /\
      doubly_indirect_pointer d = 0
  | Doubly ds p ls q blocks =>
      (List.length ds <= 12)%nat /\ direct_pointer d = full ds 12 /\
      indirect_pointer d = p /\ holds_block st p ls /\
      doubly_indirect_pointer d = q /\ holds_block st q (fst <$> blocks) /\
      Forall (fun bl => holds_block st (fst bl) (snd bl)) blocks
  end.

(** No pointer of the inode is set. *)
Definition unallocated (d : inode_disk) : Prop :=
  direct_pointer d = repeat 0 12%nat /\ indirect_pointer d = 0 /\
  doubly_indirect_pointer d = 0.

(** The fields of the inode fit the words of the sector that stores
    them. *)
Definition fits_sector (d : inode_disk) : Prop :=
  - 2 ^ 31 <= length d < 2 ^ 31 /\
  List.length (direct_pointer d) = 12%nat /\
  Forall (fun w => 0 <= w < 2 ^ 32)
         ([magic d] ++ direct_pointer d
            ++ [indirect_pointer d; doubly_indirect_pointer d; type d] ++ unused d).

(** A sector number that fits a 32-bit word and is not 0. *)
Definition sector_number (s : Z) : Prop := 0 < s < 2 ^ 32.

(** The capacity of the extent tree, in sectors and in bytes. *)
Definition MAX_SECTORS : Z := 12 + 128 + 128 * 128.
Definition MAX_LENGTH : Z := MAX_SECTORS * BLOCK_SECTOR_SIZE.

(** [bytes_to_sectors]: [DIV_ROUND_UP (size, BLOCK_SECTOR_SIZE)]. *)
Definition bytes_to_sectors (size : Z) : Z :=
  (size + BLOCK_SECTOR_SIZE - 1) ÷ BLOCK_SECTOR_SIZE.

(** The sectors of the extent tree of a file of [len] bytes, for [len] up
    to the capacity: its data sectors, the indirect block and, past 140
    sectors, the doubly-indirect block with one indirect block for every
    128 sectors begun. *)
Definition tree_sectors (len : Z) : Z :=
  let n := bytes_to_sectors len in
  n + (if 12 <? n then 1 else 0)
    + (if 12 + 128 <? n then 1 + (n - (12 + 128) + 127) / 128 else 0).

(** Allocations that a leaf loop of [n] iterations can ask for, when its
    first slot is the one of sector [base] of a file of [D] sectors. *)
Definition leaves_need (n : nat) (base D : Z) : nat :=
  Z.to_nat (Z.min (Z.of_nat n) (Z.max 0 (D - base))).

(** The same for [n] iterations, from index [i] on, of the loop over the
    doubly-indirect block. *)
Fixpoint doubly_need (n i : nat) (D : Z) : nat :=
  match n with
  | O => O
  | S n' =>
      let base := 12 + 128 + 128 * Z.of_nat i in
      ((if Z.ltb base D then S (leaves_need 128 base D) else O)
       + doubly_need n' (S i) D)%nat
  end.

(** The same for a whole activation of [inode_resize]. *)
Definition pass_need (D : Z) : nat :=
  (leaves_need 12 0 D
   + (if Z.ltb 12 D then 1 else 0) + leaves_need 128 12 D
   + (if Z.ltb 140 D then 1 else 0) + doubly_need 128 0 D)%nat.

(** **** The remaining operations of the inode layer *)

Definition inode_init (dk : disk) : fsys := mk_fsys dk [].

Definition inode_get_inumber (ino : inode) : Z := sector ino.

Definition inode_open_cnt (ino : inode) : Z := open_cnt ino.

(** [inode_type]: the type field of the inode on disk. *)
Definition inode_type (st : gmap Z (list Z)) (ino : inode) : Z :=
  type (inode_of_sector (block_cache_read st (sector ino))).

(** [inode_deny_write]; [None] is the failed assertion after the
    increment. *)
Definition inode_deny_write (ino : inode) : option inode :=
  let ino' := mk_inode (sector ino) (open_cnt ino) (removed ino)
                       (deny_write_cnt ino + 1) (writers ino) in
  if deny_write_cnt ino' <=? open_cnt ino' then Some ino' else None.

(** [inode_allow_write]; [None] is a failed assertion at its head. *)
Definition inode_allow_write (ino : inode) : option inode :=
  if (0 <? deny_write_cnt ino) && (deny_write_cnt ino <=? open_cnt ino)
  then Some (mk_inode (sector ino) (open_cnt ino) (removed ino)
                      (deny_write_cnt ino - 1) (writers ino))
  else None.

(** From [fm] to [fm'] sectors were released and none was taken. *)
Definition only_released (fm fm' : list bool) : Prop :=
  List.length fm' = List.length fm /\
  forall i : nat, fm' !! i = Some true -> fm !! i = Some true.

(** Every sector of the store has 512 bytes. *)
Definition whole_sectors (st : gmap Z (list Z)) : Prop :=
  forall (k : Z) (v : list Z), st !! k = Some v -> List.length v = 512%nat.

(** The index blocks that [byte_to_sector] reads on its way to sector [n]
    of the file. *)
Definition index_to (st : gmap Z (list Z)) (d : inode_disk) (n : Z) : list Z :=
  if n <? 12 then []
  else if n <? 12 + 128 then [indirect_pointer d]
  else [doubly_indirect_pointer d;
        entry (pointer_block st (doubly_indirect_pointer d)) ((n - (12 + 128)) ÷ 128)].

(** Sector [n] of the file is allocated: [byte_to_sector] finds a sector
    for its first byte, and neither that sector nor an index block on the
    way to it is sector 0. *)
Definition allocated_sector (st : gmap Z (list Z)) (ino : inode) (n : Z) : Prop :=
  Forall (fun s => s <> 0)
         (index_to st (inode_of_sector (block_cache_read st (sector ino))) n) /\
  exists s, byte_to_sector st ino (n * BLOCK_SECTOR_SIZE) = Some s /\ s <> 0.

(** Every open inode has an opener. *)
Definition all_open (l : list inode) : Prop :=
  Forall (fun ino => 0 < open_cnt ino) l.

End Inode.

(** *** filesys/path.c and filesys/fd.c: name space and [sys_remove] *)

Module Fs.
Import Path.

(** filesys.h is not among the sources; the root directory is at sector 1
    in the specification. *)
Definition ROOT_DIR_SECTOR : Z := 1.

(** An entry of a directory, as in the specification. *)
Record dir_entry := mk_dir_entry {
  inode_sector : Z;
  name : string;
  in_use : bool
}.

(** What [inode_type] tells of the inode at a sector, with the entries of
    a directory in place of the data sectors that hold them. *)
Inductive node :=
| File
| Directory (entries : list dir_entry).

(** The position of the first entry in use with the given name. *)
Fixpoint find_entry (nm : string) (es : list dir_entry) (i : nat) : option nat :=
  match es with
  | [] => None
  | e :: es' =>
      if in_use e && String.eqb (name e) nm then Some i
      else find_entry nm es' (S i)
  end.

(** Modelled from the spec: [dir_open] of directory.c, which is not among
    the sources, opens an inode as a directory; it gives no directory for
    a null inode and for an inode that is not a directory.  A directory
    handle is modelled by the sector of its inode. *)
Definition dir_open (ns : gmap Z node) (inode : option Z) : option Z :=
  match inode with
  | None => None
  | Some sec =>
      match ns !! sec with
      | Some (Directory _) => Some sec
      | _ => None
      end
  end.

(** Modelled from the spec: [dir_open_root] and [dir_reopen] of
    directory.c open the root directory and the inode of a directory
    again. *)
Definition dir_open_root (ns : gmap Z node) : option Z :=
  dir_open ns (Some ROOT_DIR_SECTOR).

Definition dir_reopen (ns : gmap Z node) (dir : Z) : option Z :=
  dir_open ns (Some dir).

(** Modelled from the spec: [dir_lookup] of directory.c scans the entries
    of the directory and, on a match, opens the inode of the entry. *)
Definition dir_lookup (ns : gmap Z node) (dir : Z) (nm : string) : option Z :=
  match ns !! dir with
  | Some (Directory es) =>
      match find_entry nm es 0 with
      | Some i => inode_sector <$> es !! i
      | None => None
      end
  | _ => None
  end.

(** Modelled from the spec: [dir_readdir] of directory.c goes through the
    entries from the cursor of the handle on, skips those not in use and
    gives the name of the next one, or nothing at the end.  The result
    carries the new cursor. *)
Fixpoint readdir_from (es : list dir_entry) (pos : nat) : option (string * nat) :=
  match es with
  | [] => None
  | e :: es' => if in_use e then Some (name e, S pos) else readdir_from es' (S pos)
  end.

Definition dir_readdir (ns : gmap Z node) (dir : Z) (pos : nat)
    : option (string * nat) :=
  match ns !! dir with
  | Some (Directory es) => readdir_from (drop pos es) pos
  | _ => None
  end.


(** The loop of [path_basename].  Every successful [get_next_part] takes
    at least one character, so one more iteration than the path has
    characters is enough; [None] is the null pointer. *)
Fixpoint basename_loop (fuel : nat) (part path : string) : option string :=
  match fuel with
  | O => None
  | S fuel' =>
      let '(res, part', path') := get_next_part part path in
      if res =? -1 then None
      else if res =? 0 then Some part'
      else basename_loop fuel' part' path'
  end.

Definition path_basename (path : string) : option string :=
  basename_loop (S (String.length path)) EmptyString path.

(** The loop of [path_dir]. *)
Fixpoint dir_loop (fuel : nat) (ns : gmap Z node) (dir : Z)
    (part path_dirname : string) : option Z :=
  match fuel with
  | O => None
  | S fuel' =>
      let '(res, part', path_dirname') := get_next_part part path_dirname in
      if res =? -1 then None
      else if res =? 0 then Some dir
      else
        match dir_lookup ns dir part' with
        | None => None
        | Some inode =>
            match dir_open ns (Some inode) with
            | None => None
            | Some temp_dir => dir_loop fuel' ns temp_dir part' path_dirname'
            end
        end
  end.

(** [path[0] == '/']. *)
Definition is_absolute (path : string) : bool :=
  match path with
  | String c _ => Ascii.eqb c "/"%char
  | EmptyString => false
  end.

(** [path_dir]; [cwd] is the working directory of the thread, if any. *)
Definition path_dir (ns : gmap Z node) (cwd : option Z) (path : string) : option Z :=
  match path_basename path with
  | None => None
  | Some basename =>
      let dir :=
        match cwd with
        | None => dir_open_root ns
        | Some c => if is_absolute path then dir_open_root ns else dir_reopen ns c
        end in
      match dir with
      | None => None
      | Some dir =>
          let path_dirname :=
            String.substring 0 (String.length path - String.length basename) path in
          if (String.length path_dirname =? 0)%nat then Some dir
          else dir_loop (S (String.length path_dirname)) ns dir EmptyString path_dirname
      end
  end.

(** [path_inode]; an inode is modelled by its sector. *)
Definition path_inode (ns : gmap Z node) (cwd : option Z) (path : string) : option Z :=
  match path_basename path with
  | None => None
  | Some nm =>
      match path_dir ns cwd path with
      | None => None
      | Some dir =>
          if (String.length nm =? 0)%nat then Some dir else dir_lookup ns dir nm
      end
  end.

(** The loop of [path_is_empty_dir] over the clone of the directory. *)
Fixpoint empty_loop (fuel : nat) (ns : gmap Z node) (clone : Z) (pos : nat) : bool :=
  match fuel with
  | O => false
  | S fuel' =>
      match dir_readdir ns clone pos with
      | None => true
      | Some (nm, pos') =>
          if String.eqb nm "." || String.eqb nm ".."
          then empty_loop fuel' ns clone pos'
          else false
      end
  end.

(** [path_is_empty_dir]: the cursor moves on with every name read, so one
    more iteration than the directory has entries is enough. *)
Definition path_is_empty_dir (ns : gmap Z node) (dir : Z) : bool :=
  match dir_reopen ns dir, ns !! dir with
  | Some clone, Some (Directory es) => empty_loop (S (length es)) ns clone 0
  | _, _ => false
  end.



(** [path_exists]. *)
Definition path_exists (ns : gmap Z node) (cwd : option Z) (path : string) : bool :=
  match path_inode ns cwd path with
  | Some _ => true
  | None => false
  end.

(** The directory in which [path_dir] starts. *)
Definition start_dir (ns : gmap Z node) (cwd : option Z) (path : string) : option Z :=
  match cwd with
  | None => dir_open_root ns
  | Some c => if is_absolute path then dir_open_root ns else dir_reopen ns c
  end.

(** Going down from a directory through the directories of the given
    names. *)
Fixpoint walk (ns : gmap Z node) (dir : Z) (comps : list string) : option Z :=
  match comps with
  | [] => Some dir
  | c :: comps' =>
      match dir_lookup ns dir c with
      | None => None
      | Some inode =>
          match dir_open ns (Some inode) with
          | None => None
          | Some d => walk ns d comps'
          end
      end
  end.

(** The directory holds nothing but [.] and [..]. *)
Definition only_dots (es : list dir_entry) : Prop :=
  Forall (fun e => in_use e = true -> name e = "."%string \/ name e = ".."%string) es.

(** A root directory with a file [f] and a directory [d]; [d] is empty. *)
Definition sample_tree : gmap Z node :=
  {[ 1 := Directory [mk_dir_entry 1 "." true; mk_dir_entry 1 ".." true;
                     mk_dir_entry 4 "f" true; mk_dir_entry 5 "d" true];
     4 := File;
     5 := Directory [mk_dir_entry 5 "." true; mk_dir_entry 1 ".." true;
                     mk_dir_entry 6 "old" false] ]}.

End Fs.

(** *** filesys/fd.c: the descriptor table *)

Module Fd.
Import Path Fs.

Definition STDIN_FILENO : Z := 0.
Definition STDOUT_FILENO : Z := 1.
Definition STDERR_FILENO : Z := 2.
Definition MAX_FS_OPEN : Z := 128.

(** [struct FILE].  A directory handle is the sector of the inode of the
    directory with the cursor of [dir_readdir]; a file handle is the
    sector of the inode of the file. *)
Record FILE := mk_FILE {
  dir : option (Z * nat);
  file : option Z
}.

(** An entry of [open_files]: a null pointer, the value [(FILE* ) -1] that
    [start_process] stores for the three standard streams, or a pointer
    to a [FILE]. *)
Inductive slot :=
| Null
| Marker
| Ptr (f : FILE).

(** The fields of [struct process] that fd.c uses. *)
Record process := mk_process {
  open_files : list slot;
  open_files_cnt : Z;
  next_open_fd : Z
}.

(** The table as [start_process] sets it up. *)
Definition start_process : process :=
  mk_process (repeat Marker 3 ++ repeat Null 125) 3 3.

(** How a function ends: it returns, an [ASSERT] fails, or it reads the
    table out of bounds or through a pointer that is not one. *)
Inductive outcome (A : Type) : Type :=
| Ret (a : A)
| Panic
| Fault.
Arguments Ret {A} a.
Arguments Panic {A}.
Arguments Fault {A}.

(** [pcb->open_files[fd]]. *)
Definition slot_at (pcb : process) (fd : Z) : option slot :=
  if (0 <=? fd) && (fd <? MAX_FS_OPEN) then open_files pcb !! Z.to_nat fd else None.

Definition is_open_fd (pcb : process) (fd : Z) : outcome bool :=
  match slot_at pcb fd with
  | Some Null => Ret false
  | Some _ => Ret true
  | None => Fault
  end.

Definition sys_isdir (pcb : process) (fd : Z) : outcome bool :=
  match slot_at pcb fd with
  | Some (Ptr f) => Ret (match dir f with Some _ => true | None => false end)
  | _ => Fault
  end.

Definition is_std (fd : Z) : bool :=
  (fd =? STDIN_FILENO) || (fd =? STDOUT_FILENO) || (fd =? STDERR_FILENO).

(** [is_file]. *)
Definition is_file (pcb : process) (fd : Z) : outcome bool :=
  if is_std fd then Ret false else is_open_fd pcb fd.

(** [get_file]: the three assertions on the standard streams, the one on
    [is_open_fd], and the entry of the table. *)
Definition get_file (pcb : process) (fd : Z) : outcome slot :=
  if is_std fd then Panic else
  match is_open_fd pcb fd with
  | Ret true =>
      match slot_at pcb fd with
      | Some s => Ret s
      | None => Fault
      end
  | Ret false => Panic
  | Panic => Panic
  | Fault => Fault
  end.

(** The 32-bit value of an [unsigned]. *)
Definition u32 (x : Z) : Z := x mod 2 ^ 32.

(** The value of an [unsigned] converted to [int]. *)
Definition to_int (x : Z) : Z := if x <? 2 ^ 31 then x else x - 2 ^ 32.

Definition set_slot (pcb : process) (fd : Z) (s : slot) (cnt : Z) : process :=
  mk_process (<[Z.to_nat fd := s]> (open_files pcb)) cnt (next_open_fd pcb).

(** The search loop of [sys_open], from descriptor [fd] on; [None] when
    [fuel] iterations do not find a free entry. *)
Fixpoint find_fd (fuel : nat) (pcb : process) (fd : Z) : option (outcome Z) :=
  match slot_at pcb fd with
  | None => Some Fault
  | Some Null => Some (Ret fd)
  | Some _ =>
      match fuel with
      | O => None
      | S fuel' =>
          let fd1 := Z.rem (fd + 1) MAX_FS_OPEN in
          let fd2 := if fd1 <=? STDERR_FILENO then STDERR_FILENO + 1 else fd1 in
          find_fd fuel' pcb fd2
      end
  end.

(** Modelled from the spec: [file_open] of file.c, which is not among the
    sources, gives a handle on the inode. *)
Definition file_open (inode : Z) : option Z := Some inode.

(** [sys_open]: the descriptor returned and the table.  The name space
    and the working directory are those of [path_inode]. *)
Definition sys_open (fuel : nat) (pcb : process) (ns : gmap Z node)
    (cwd : option Z) (filename : string) : option (outcome (Z * process)) :=
  if (String.length filename =? 0)%nat then Some (Ret (-1, pcb)) else
  if MAX_FS_OPEN <=? open_files_cnt pcb then Some (Ret (-1, pcb)) else
  match find_fd fuel pcb (next_open_fd pcb) with
  | None => None
  | Some Panic => Some Panic
  | Some Fault => Some Fault
  | Some (Ret fd) =>
      match path_inode ns cwd filename with
      | None => Some (Ret (-1, pcb))
      | Some inode =>
          match ns !! inode with
          | Some File =>
              match file_open inode with
              | None => Some (Ret (-1, pcb))
              | Some h =>
                  Some (Ret (fd, set_slot pcb fd (Ptr (mk_FILE None (Some h)))
                                          (u32 (open_files_cnt pcb + 1))))
              end
          | Some (Directory _) =>
              match dir_open ns (Some inode) with
              | None => Some (Ret (-1, pcb))
              | Some d =>
                  Some (Ret (fd, set_slot pcb fd (Ptr (mk_FILE (Some (d, O)) None))
                                          (u32 (open_files_cnt pcb + 1))))
              end
          | None => Some (Ret (-1, pcb))
          end
      end
  end.

(** [sys_close]: the table once the handle is closed and freed. *)
Definition sys_close (pcb : process) (fd : Z) : outcome process :=
  if is_std fd then Panic else
  match is_open_fd pcb fd with
  | Ret true =>
      match get_file pcb fd with
      | Ret _ =>
          match sys_isdir pcb fd with
          | Ret _ => Ret (set_slot pcb fd Null (u32 (open_files_cnt pcb - 1)))
          | Panic => Panic
          | Fault => Fault
          end
      | Panic => Panic
      | Fault => Fault
      end
  | Ret false => Panic
  | Panic => Panic
  | Fault => Fault
  end.

(** The loop of [close_all] over [n] descriptors from [fd] on. *)
Fixpoint close_from (n : nat) (fd : nat) (l : list slot) : outcome (list slot) :=
  match n with
  | O => Ret l
  | S n' =>
      match l !! fd with
      | None => Fault
      | Some Null => close_from n' (S fd) l
      | Some Marker => Fault
      | Some (Ptr _) => close_from n' (S fd) (<[fd := Null]> l)
      end
  end.

Definition close_all (pcb : process) : outcome process :=
  match close_from 125 3 (open_files pcb) with
  | Ret l => Ret (mk_process l 3 (next_open_fd pcb))
  | Panic => Panic
  | Fault => Fault
  end.

(** The loop of [sys_write] for the console: [i] is the loop variable,
    [out] the calls of [putbuf] so far, each with the offset of its first
    byte in the buffer and its length.  [None] when [fuel] iterations do
    not end the loop. *)
Fixpoint console_loop (fuel : nat) (size i : Z) (out : list (Z * Z))
    : option (list (Z * Z)) :=
  if i <? size then
    match fuel with
    | O => None
    | S fuel' =>
        let chunk_write := if size <? u32 (i + 256) then size - i else 256 in
        console_loop fuel' size (u32 (i + 256)) (out ++ [(u32 (i * 256), chunk_write)])
    end
  else Some out.

(** [sys_write] on [STDOUT_FILENO] or [STDERR_FILENO]: the calls of
    [putbuf] and the value returned. *)
Definition sys_write_console (fuel : nat) (size : Z) : option (list (Z * Z) * Z) :=
  match console_loop fuel size 0 [] with
  | Some out => Some (out, to_int size)
  | None => None
  end.

(** The calls of [putbuf] for a buffer of [size] bytes cut into pieces of
    256 bytes: piece [k] is read [256 * 256 * k] bytes into the buffer. *)
Definition console_chunks (size : Z) : list (Z * Z) :=
  (fun k : nat => (u32 (256 * Z.of_nat k * 256), Z.min 256 (size - 256 * Z.of_nat k)))
    <$> seq 0 (Z.to_nat ((size + 255) / 256)).

(** The loop of [sys_readdir] on a directory handle. *)
Fixpoint readdir_loop (fuel : nat) (ns : gmap Z node) (d : Z) (pos : nat)
    : option (option string * nat) :=
  match fuel with
  | O => None
  | S fuel' =>
      match dir_readdir ns d pos with
      | None => Some (None, pos)
      | Some (nm, pos') =>
          if String.eqb nm "." || String.eqb nm ".."
          then readdir_loop fuel' ns d pos'
          else Some (Some nm, pos')
      end
  end.

(** [sys_readdir]: the name stored in the buffer, if the call returns
    true, and the table with the cursor of the handle moved on. *)
Definition sys_readdir (fuel : nat) (pcb : process) (ns : gmap Z node) (fd : Z)
    : option (outcome (option string * process)) :=
  match is_file pcb fd with
  | Ret true =>
      match sys_isdir pcb fd with
      | Ret true =>
          match get_file pcb fd with
          | Ret (Ptr (mk_FILE (Some (d, pos)) f)) =>
              match readdir_loop fuel ns d pos with
              | None => None
              | Some (nm, pos') =>
                  Some (Ret (nm, set_slot pcb fd (Ptr (mk_FILE (Some (d, pos')) f))
                                          (open_files_cnt pcb)))
              end
          | Ret _ => Some Fault
          | Panic => Some Panic
          | Fault => Some Fault
          end
      | Ret false => Some Panic
      | Panic => Some Panic
      | Fault => Some Fault
      end
  | Ret false => Some Panic
  | Panic => Some Panic
  | Fault => Some Fault
  end.

(** An entry that is not a null pointer. *)
Definition in_use (s : slot) : bool :=
  match s with
  | Null => false
  | _ => true
  end.

(** The head of [sys_filesize], [sys_seek], [sys_tell] and [sys_inumber],
    up to the call into file.c: the assertions of the function, and
    [get_file] with its own. *)
Definition sys_filesize_handle (pcb : process) (fd : Z) : outcome slot :=
  get_file pcb fd.

Definition sys_seek_handle (pcb : process) (fd : Z) : outcome slot :=
  if is_std fd then Panic else
  match is_open_fd pcb fd with
  | Ret true => get_file pcb fd
  | Ret false => Panic
  | Panic => Panic
  | Fault => Fault
  end.

Definition sys_tell_handle (pcb : process) (fd : Z) : outcome slot :=
  sys_seek_handle pcb fd.

Definition sys_inumber_handle (pcb : process) (fd : Z) : outcome slot :=
  match is_file pcb fd with
  | Ret _ =>
      match get_file pcb fd with
      | Ret s =>
          match sys_isdir pcb fd with
          | Ret _ => Ret s
          | Panic => Panic
          | Fault => Fault
          end
      | Panic => Panic
      | Fault => Fault
      end
  | Panic => Panic
  | Fault => Fault
  end.

(** The head of [sys_read] and [sys_write]: [None] for the console and
    the keyboard, [Some (-1)] the value returned for a directory, and the
    handle that goes to [file_read] or [file_write]. *)
Definition sys_read_handle (pcb : process) (fd : Z) : outcome (option (Z + slot)) :=
  if (fd =? STDOUT_FILENO) || (fd =? STDERR_FILENO) then Panic else
  if fd =? STDIN_FILENO then Ret None else
  match sys_isdir pcb fd with
  | Ret true => Ret (Some (inl (-1)))
  | Ret false =>
      match get_file pcb fd with
      | Ret s => Ret (Some (inr s))
      | Panic => Panic
      | Fault => Fault
      end
  | Panic => Panic
  | Fault => Fault
  end.

Definition sys_write_handle (pcb : process) (fd : Z) : outcome (option (Z + slot)) :=
  if fd =? STDIN_FILENO then Panic else
  if (fd =? STDOUT_FILENO) || (fd =? STDERR_FILENO) then Ret None else
  match sys_isdir pcb fd with
  | Ret true => Ret (Some (inl (-1)))
  | Ret false =>
      match get_file pcb fd with
      | Ret s => Ret (Some (inr s))
      | Panic => Panic
      | Fault => Fault
      end
  | Panic => Panic
  | Fault => Fault
  end.

(** The table is as fd.c keeps it: 128 entries, the three markers in
    front and nowhere else, the count of the entries in use, and the hint
    where [start_process] put it. *)
Definition table_ok (pcb : process) : Prop :=
  List.length (open_files pcb) = 128%nat /\
  take 3 (open_files pcb) = repeat Marker 3 /\
  Forall (fun s => s <> Marker) (drop 3 (open_files pcb)) /\
  open_files_cnt pcb = Z.of_nat (List.length (filter (fun s => in_use s = true) (open_files pcb))) /\
  next_open_fd pcb = 3.

End Fd.

(** *** userprog/syscall.c: the system call handler *)

Module Syscall.
Import Fd.

(** The system call numbers of syscall-nr.h, which is not among the
    sources: one name for each case of the [switch], and one for the
    numbers of its [default]. *)
Inductive nr :=
| SYS_COMPUTE_E | SYS_CREATE | SYS_REMOVE | SYS_OPEN | SYS_FILESIZE | SYS_READ
| SYS_WRITE | SYS_SEEK | SYS_TELL | SYS_CLOSE | SYS_EXIT | SYS_PRACTICE
| SYS_HALT | SYS_EXEC | SYS_WAIT | SYS_CHDIR | SYS_MKDIR | SYS_READDIR
| SYS_ISDIR | SYS_INUMBER | SYS_OTHER.

(** The memory as the handler meets it, vaddr.h and pagedir.c not being
    among the sources: which addresses are user addresses
    ([is_user_vaddr]), which ones the active page directory maps (for a
    user address, [pagedir_get_page (active_pd (), a) != NULL]), the byte
    and the 32-bit word at an address, and the case of the [switch] a
    word selects. *)
Record user_mem := mk_user_mem {
  is_user_vaddr : Z -> bool;
  mapped : Z -> bool;
  byte : Z -> Z;
  word : Z -> Z;
  number : Z -> nr
}.

(** The calls the handler makes, with their arguments. *)
Inductive call :=
| Call_sum_to_e (n : Z)
| Call_create (filename initial_size : Z)
| Call_remove (filename : Z)
| Call_open (filename : Z)
| Call_filesize (fd : Z)
| Call_read (fd buffer size : Z)
| Call_write (fd buffer size : Z)
| Call_seek (fd position : Z)
| Call_tell (fd : Z)
| Call_close (fd : Z)
| Call_shutdown_power_off
| Call_process_execute (file_name : Z)
| Call_process_wait (pid : Z)
| Call_chdir (path : Z)
| Call_mkdir (path : Z)
| Call_readdir (fd buffer : Z)
| Call_isdir (fd : Z)
| Call_inumber (fd : Z).

(** What the handler does with a system call: it ends the process
    ([EXIT]), it makes a call and gives its value back, it gives a value
    back ([RETURN]), or it reads an address that is not mapped. *)
Inductive action :=
| Exit (code : Z)
| Do (c : call)
| Result (v : Z)
| PageFault.

(** The test of the loops of [validate_args], [validate_string_arg] and
    [validate_buffer_arg] on one byte. *)
Definition byte_ok (m : user_mem) (a : Z) : bool :=
  is_user_vaddr m a && mapped m a.

(** [validate_args]: true when it returns without [EXIT]. *)
Definition validate_args (m : user_mem) (address : Z) : bool :=
  negb (address =? 0)
  && forallb (fun i => byte_ok m (address + i)) [0; 1; 2; 3].

(** [validate_string_arg]; [None] when [fuel] bytes do not reach the end
    of the string. *)
Fixpoint validate_string_arg (fuel : nat) (m : user_mem) (address : Z) : option bool :=
  if negb (byte_ok m address) then Some false
  else if byte m address =? 0 then Some true
       else match fuel with
            | O => None
            | S fuel' => validate_string_arg fuel' m (address + 1)
            end.

(** [args[k]], read from the stack without a check as the handler reads
    it: the read faults on a byte that is not mapped. *)
Definition arg (m : user_mem) (args : Z) (k : Z) (f : Z -> action) : action :=
  if forallb (fun i => mapped m (args + 4 * k + i)) [0; 1; 2; 3]
  then f (word m (args + 4 * k))
  else PageFault.

(** [if (fd >= MAX_FS_OPEN || fd < 0) EXIT(-1);] *)
Definition fd_range (fd : Z) (a : action) : action :=
  if (MAX_FS_OPEN <=? fd) || (fd <? 0) then Exit (-1) else a.

(** The [switch (fd)] of a case: [EXIT(-1)] for the descriptors listed,
    and in the default case [EXIT(-1)] unless [is_open_fd], then the
    call. *)
Definition fd_switch (pcb : process) (fd : Z) (exits : list Z) (c : call) : action :=
  if existsb (Z.eqb fd) exits then Exit (-1)
  else match is_open_fd pcb fd with
       | Ret true => Do c
       | Ret false => Exit (-1)
       | Panic => PageFault
       | Fault => PageFault
       end.

(** [syscall_handler] for the stack pointer [args]. *)
Definition syscall_handler (fuel : nat) (m : user_mem) (pcb : process) (args : Z)
    : option action :=
  if negb (validate_args m args) then Some (Exit (-1)) else
  match number m (word m args) with
  | SYS_COMPUTE_E =>
      Some (arg m args 1 (fun a1 =>
        let n := to_int a1 in
        if (n =? 0) || (n <? 0) then Exit (-1) else Do (Call_sum_to_e n)))
  | SYS_CREATE =>
      Some (arg m args 1 (fun filename => arg m args 2 (fun initial_size =>
        if filename =? 0 then Exit (-1)
        else if negb (validate_args m filename) then Exit (-1)
        else Do (Call_create filename initial_size))))
  | SYS_REMOVE =>
      Some (arg m args 1 (fun filename =>
        if filename =? 0 then Exit (-1)
        else if negb (validate_args m filename) then Exit (-1)
        else Do (Call_remove filename)))
  | SYS_OPEN =>
      Some (arg m args 1 (fun filename =>
        if filename =? 0 then Exit (-1)
        else if negb (validate_args m filename) then Exit (-1)
        else Do (Call_open filename)))
  | SYS_FILESIZE =>
      Some (arg m args 1 (fun a1 =>
        let fd := to_int a1 in
        fd_range fd (fd_switch pcb fd [0; 1; 2] (Call_filesize fd))))
  | SYS_READ =>
      Some (arg m args 1 (fun a1 => arg m args 2 (fun buffer => arg m args 3 (fun size =>
        let fd := to_int a1 in
        fd_range fd
          (if negb (validate_args m buffer) then Exit (-1)
           else fd_switch pcb fd [1; 2] (Call_read fd buffer size))))))
  | SYS_WRITE =>
      Some (arg m args 1 (fun a1 => arg m args 2 (fun buffer => arg m args 3 (fun size =>
        let fd := to_int a1 in
        fd_range fd
          (if negb (validate_args m buffer) then Exit (-1)
           else fd_switch pcb fd [0] (Call_write fd buffer size))))))
  | SYS_SEEK =>
      Some (arg m args 1 (fun a1 => arg m args 2 (fun position =>
        let fd := to_int a1 in
        fd_range fd (fd_switch pcb fd [0; 1; 2] (Call_seek fd position)))))
  | SYS_TELL =>
      Some (arg m args 1 (fun a1 =>
        let fd := to_int a1 in
        fd_range fd (fd_switch pcb fd [0; 1; 2] (Call_tell fd))))
  | SYS_CLOSE =>
      Some (arg m args 1 (fun a1 =>
        let fd := to_int a1 in
        fd_range fd (fd_switch pcb fd [0; 1; 2] (Call_close fd))))
  | SYS_EXIT =>
      Some (if negb (validate_args m (args + 4)) then Exit (-1)
            else Exit (word m (args + 4)))
  | SYS_PRACTICE =>
      Some (if negb (validate_args m (args + 4)) then Exit (-1)
            else Result (u32 (word m (args + 4) + 1)))
  | SYS_HALT => Some (Do Call_shutdown_power_off)
  | SYS_EXEC =>
      if negb (validate_args m (args + 4)) then Some (Exit (-1))
      else match validate_string_arg fuel m (word m (args + 4)) with
           | None => None
           | Some false => Some (Exit (-1))
           | Some true => Some (Do (Call_process_execute (word m (args + 4))))
           end
  | SYS_WAIT =>
      Some (if negb (validate_args m (args + 4)) then Exit (-1)
            else Do (Call_process_wait (word m (args + 4))))
  | SYS_CHDIR =>
      Some (arg m args 1 (fun path =>
        if path =? 0 then Exit (-1)
        else if negb (validate_args m path) then Exit (-1)
        else Do (Call_chdir path)))
  | SYS_MKDIR =>
      Some (arg m args 1 (fun path =>
        if path =? 0 then Exit (-1)
        else if negb (validate_args m path) then Exit (-1)
        else Do (Call_mkdir path)))
  | SYS_READDIR =>
      Some (arg m args 1 (fun a1 => arg m args 2 (fun buffer =>
        let fd := to_int a1 in
        fd_range fd
          (if negb (validate_args m buffer) then Exit (-1)
           else fd_switch pcb fd [0; 1; 2] (Call_readdir fd buffer)))))
  | SYS_ISDIR =>
      Some (arg m args 1 (fun a1 =>
        let fd := to_int a1 in
        fd_range fd (fd_switch pcb fd [0; 1; 2] (Call_isdir fd))))
  | SYS_INUMBER =>
      Some (arg m args 1 (fun a1 =>
        let fd := to_int a1 in
        fd_range fd (fd_switch pcb fd [0; 1; 2] (Call_inumber fd))))
  | SYS_OTHER => Some (Exit (-1))
  end.

(** The descriptor a call works on, and whether the function called
    gets through its assertions and its accesses to the table. *)
Definition call_ok (pcb : process) (c : call) : Prop :=
  match c with
  | Call_filesize fd => exists f, sys_filesize_handle pcb fd = Ret (Ptr f)
  | Call_seek fd _ => exists f, sys_seek_handle pcb fd = Ret (Ptr f)
  | Call_tell fd => exists f, sys_tell_handle pcb fd = Ret (Ptr f)
  | Call_inumber fd => exists f, sys_inumber_handle pcb fd = Ret (Ptr f)
  | Call_isdir fd => exists b, sys_isdir pcb fd = Ret b
  | Call_close fd => exists pcb', sys_close pcb fd = Ret pcb'
  | Call_read fd _ _ =>
      sys_read_handle pcb fd = Ret None \/
      sys_read_handle pcb fd = Ret (Some (inl (-1))) \/
      exists f, sys_read_handle pcb fd = Ret (Some (inr (Ptr f)))
  | Call_write fd _ _ =>
      sys_write_handle pcb fd = Ret None \/
      sys_write_handle pcb fd = Ret (Some (inl (-1))) \/
      exists f, sys_write_handle pcb fd = Ret (Some (inr (Ptr f)))
  | _ => True
  end.

(** A memory in which the addresses below [top] are the mapped ones and
    hold the given words. *)
Definition flat_mem (top : Z) (words : Z -> Z) (decode : Z -> nr) : user_mem :=
  mk_user_mem (fun a => a <? 3221225472) (fun a => (0 <? a) && (a <? top))
              (fun _ => 0) words decode.

End Syscall.
(** ** Part II: properties *)

(** *** The tokenizer *)

Section Tokenizer.
Import Path.

Lemma append_cons (x : ascii) (a b : string) :
  String x a +:+ b = String x (a +:+ b).
Proof. reflexivity. Qed.

Lemma append_nil (b : string) : EmptyString +:+ b = b.
Proof. reflexivity. Qed.

Lemma append_char_assoc (a : string) (c : ascii) (b : string) :
  (a +:+ String c EmptyString) +:+ b = a +:+ String c b.
Proof.
  induction a as [|x a IH]; [reflexivity|].
  rewrite !append_cons. f_equal. exact IH.
Qed.

Lemma append_empty_r (a : string) : a +:+ EmptyString = a.
Proof.
  induction a as [|x a IH]; [reflexivity|].
  rewrite append_cons. f_equal. exact IH.
Qed.

Lemma length_append_char (a : string) (c : ascii) :
  String.length (a +:+ String c EmptyString) = S (String.length a).
Proof.
  induction a as [|x a IH]; [reflexivity|].
  rewrite append_cons. cbn. f_equal. exact IH.
Qed.

Lemma length_append (a b : string) :
  String.length (a +:+ b) = (String.length a + String.length b)%nat.
Proof.
  induction a as [|x a IH]; [reflexivity|].
  rewrite append_cons. cbn. f_equal. exact IH.
Qed.

Lemma skip_slashes_split (src : string) :
  exists n, src = slashes n +:+ skip_slashes src /\ no_leading_slash (skip_slashes src).
Proof.
  induction src as [|c rest IH]; cbn.
  - exists 0%nat. split; [reflexivity | exact I].
  - destruct (Ascii.eqb c "/") eqn:E.
    + apply Ascii.eqb_eq in E. subst c. destruct IH as [n [Hs Hn]].
      exists (S n). cbn. split; [rewrite append_cons; f_equal; exact Hs | exact Hn].
    + exists 0%nat. cbn. split; [reflexivity |].
      apply Ascii.eqb_neq in E. exact E.
Qed.

(** Every string splits at its first '/' (or at its end). *)
Lemma component_split (src : string) :
  exists comp tail, src = comp +:+ tail /\ slash_free comp /\ at_separator tail.
Proof.
  induction src as [|c rest IH].
  - exists EmptyString, EmptyString. cbn. auto.
  - destruct (Ascii.eqb c "/") eqn:E.
    + apply Ascii.eqb_eq in E. subst c.
      exists EmptyString, (String "/" rest). cbn. auto.
    + apply Ascii.eqb_neq in E. destruct IH as (comp & tail & H1 & H2 & H3).
      exists (String c comp), tail. rewrite append_cons, <- H1. cbn. auto.
Qed.

Lemma copy_part_at_separator (tail dst : string) :
  at_separator tail -> copy_part tail dst = (Some tail, dst).
Proof.
  destruct tail as [|c rest]; cbn; [reflexivity|].
  intros ->. reflexivity.
Qed.

Lemma copy_part_fits (comp tail dst : string) :
  slash_free comp -> at_separator tail ->
  (String.length dst + String.length comp <= NAME_MAX)%nat ->
  copy_part (comp +:+ tail) dst = (Some tail, dst +:+ comp).
Proof.
  revert dst. induction comp as [|c comp IH]; intros dst Hc Ht Hl.
  - rewrite append_nil, append_empty_r. now apply copy_part_at_separator.
  - cbn in Hc, Hl. destruct Hc as [Hc Hc']. rewrite append_cons. cbn [copy_part].
    apply Ascii.eqb_neq in Hc. rewrite Hc.
    destruct (String.length dst <? NAME_MAX)%nat eqn:L;
      [| apply Nat.ltb_ge in L; lia].
    rewrite IH; try assumption.
    + now rewrite append_char_assoc.
    + rewrite length_append_char. lia.
Qed.

Lemma copy_part_too_long (comp tail dst : string) :
  slash_free comp ->
  (String.length dst <= NAME_MAX)%nat ->
  (NAME_MAX < String.length dst + String.length comp)%nat ->
  exists part, copy_part (comp +:+ tail) dst = (None, part) /\ String.length part = NAME_MAX.
Proof.
  revert dst. induction comp as [|c comp IH]; intros dst Hc Hd Hl.
  - cbn in Hl. lia.
  - cbn in Hc, Hl. destruct Hc as [Hc Hc']. rewrite append_cons. cbn [copy_part].
    apply Ascii.eqb_neq in Hc. rewrite Hc.
    destruct (String.length dst <? NAME_MAX)%nat eqn:L.
    + apply Nat.ltb_lt in L. apply IH; try assumption.
      * rewrite length_append_char. lia.
      * rewrite length_append_char. lia.
    + apply Nat.ltb_ge in L. exists dst. split; [reflexivity | lia].
Qed.

(** The three ways [get_next_part] returns. *)
Lemma get_next_part_cases (part src : string) :
  (skip_slashes src = EmptyString /\ get_next_part part src = (0, part, src)) \/
  (exists junk, get_next_part part src = (-1, junk, src)) \/
  (exists part' src', get_next_part part src = (1, part', src') /\
                      part' <> EmptyString /\
                      (String.length src' < String.length src)%nat).
Proof.
  unfold get_next_part.
  destruct (skip_slashes_split src) as [n [Hsrc Hrest]].
  destruct (skip_slashes src) as [|c rest] eqn:E; [left; auto|]. right.
  destruct (component_split (String c rest)) as (comp & tail & H1 & H2 & H3).
  assert (comp <> EmptyString) as Hne.
  { intros ->. rewrite append_nil in H1. subst tail. cbn in H3, Hrest. contradiction. }
  rewrite H1.
  destruct (NAME_MAX <? String.length comp)%nat eqn:L.
  - apply Nat.ltb_lt in L. left.
    destruct (copy_part_too_long comp tail EmptyString H2) as (junk & -> & _);
      [cbn; lia | cbn; lia |].
    exists junk. reflexivity.
  - apply Nat.ltb_ge in L. right.
    rewrite (copy_part_fits comp tail EmptyString H2 H3) by (cbn; lia).
    exists comp, tail. split; [reflexivity|]. split; [exact Hne|].
    rewrite Hsrc, H1, !length_append.
    destruct comp; [congruence | cbn; lia].
Qed.

(** C8.  [get_next_part] skips the leading slashes of its input.  When
    nothing is left it returns 0 and leaves [part] and the source pointer
    alone.  Otherwise the rest begins with a non-empty component that runs
    up to the next '/' or the end: a component of more than [NAME_MAX]
    (14) characters gives -1, and a shorter one gives 1, the component in
    [part] and the source pointer just behind the component. *)
Theorem get_next_part_tokenizes (part src : string) :
  exists (n : nat) (rest : string),
    src = slashes n +:+ rest /\ no_leading_slash rest /\
    match rest with
    | EmptyString => get_next_part part src = (0, part, src)
    | String _ _ =>
        exists comp tail : string,
          rest = comp +:+ tail /\ comp <> EmptyString /\
          slash_free comp /\ at_separator tail /\
          if (NAME_MAX <? String.length comp)%nat
          then exists junk, get_next_part part src = (-1, junk, src)
          else get_next_part part src = (1, comp, tail)
    end.
Proof.
  destruct (skip_slashes_split src) as [n [Hsrc Hrest]].
  exists n, (skip_slashes src). split; [exact Hsrc|]. split; [exact Hrest|].
  unfold get_next_part.
  destruct (skip_slashes src) as [|c rest] eqn:E; [reflexivity|].
  destruct (component_split (String c rest)) as (comp & tail & H1 & H2 & H3).
  exists comp, tail. split; [exact H1|].
  assert (comp <> EmptyString) as Hne.
  { intros ->. rewrite append_nil in H1. subst tail. cbn in H3, Hrest. contradiction. }
  split; [exact Hne|]. split; [exact H2|]. split; [exact H3|].
  rewrite H1.
  destruct (NAME_MAX <? String.length comp)%nat eqn:L.
  - apply Nat.ltb_lt in L.
    destruct (copy_part_too_long comp tail EmptyString H2) as (junk & -> & _);
      [cbn; lia | cbn; lia |].
    exists junk. reflexivity.
  - apply Nat.ltb_ge in L.
    rewrite (copy_part_fits comp tail EmptyString H2 H3); [reflexivity | cbn; lia].
Qed.

End Tokenizer.

(** *** The buffer cache *)

Section CacheOrder.
Import Cache.

Lemma list_insert_sorted_perm (x : cache_block) (l : list cache_block) :
  list_insert_sorted cache_nru_sort x l ≡ₚ x :: l.
Proof.
  induction l as [|y l IH]; cbn; [reflexivity|].
  destruct (cache_nru_sort y x); [|reflexivity].
  rewrite IH. apply Permutation_swap.
Qed.

Lemma list_sort_perm (l : list cache_block) :
  list_sort cache_nru_sort l ≡ₚ l.
Proof.
  induction l as [|x l IH]; cbn; [reflexivity|].
  fold (list_sort cache_nru_sort l).
  rewrite list_insert_sorted_perm. now rewrite IH.
Qed.

Lemma list_sort_length (l : list cache_block) :
  length (list_sort cache_nru_sort l) = length l.
Proof. apply Permutation_length, list_sort_perm. Qed.

Lemma list_insert_sorted_stamps (x : cache_block) (l : list cache_block) :
  StronglySorted Z.le (stamps l) ->
  StronglySorted Z.le (stamps (list_insert_sorted cache_nru_sort x l)).
Proof.
  unfold stamps. induction l as [|y l IH]; intros Hs; cbn.
  - repeat constructor.
  - apply StronglySorted_inv in Hs as [Hs Hy].
    unfold cache_nru_sort at 1. destruct (last_touched y <? last_touched x) eqn:E.
    + apply Z.ltb_lt in E. cbn. constructor; [now apply IH|].
      rewrite Forall_forall. intros t Ht.
      rewrite (fmap_Permutation _ _ _ (list_insert_sorted_perm x l)) in Ht.
      cbn in Ht. apply elem_of_cons in Ht as [->|Ht]; [lia|].
      rewrite Forall_forall in Hy. now apply Hy.
    + apply Z.ltb_ge in E. cbn. constructor.
      * constructor; assumption.
      * constructor; [exact E|].
        eapply Forall_impl; [exact Hy|]. cbn. intros; lia.
Qed.

Lemma list_sort_stamps (l : list cache_block) :
  StronglySorted Z.le (stamps (list_sort cache_nru_sort l)).
Proof.
  induction l as [|x l IH]; cbn; [constructor|].
  now apply list_insert_sorted_stamps.
Qed.

Lemma stamps_oldest_first (l : list cache_block) :
  StronglySorted Z.le (stamps l) -> oldest_first l.
Proof.
  unfold stamps, oldest_first. induction l as [|x l IH]; intros Hs i j a b Hij Hi Hj.
  - rewrite lookup_nil in Hi. discriminate.
  - cbn in Hs. apply StronglySorted_inv in Hs as [Hs Hx].
    destruct i as [|i], j as [|j]; cbn in Hi, Hj.
    + injection Hi as <-. injection Hj as <-. lia.
    + injection Hi as <-. rewrite Forall_forall in Hx. apply Hx.
      apply list_elem_of_fmap. exists b. split; [reflexivity|].
      eapply list_elem_of_lookup_2; eassumption.
    + lia.
    + eapply (IH Hs i j); [lia | eassumption | eassumption].
Qed.

Lemma block_cache_init_stamps (timer_ticks : nat -> Z) :
  (forall i j : nat, (i <= j)%nat -> timer_ticks i <= timer_ticks j) ->
  StronglySorted Z.le (stamps (block_cache_init timer_ticks)).
Proof.
  intros Hmono. unfold stamps, block_cache_init.
  generalize MAX_CACHE_SECTORS as n. generalize 0%nat as k.
  intros k n. revert k. induction n as [|n IH]; intros k; cbn; [constructor|].
  constructor; [apply IH|].
  rewrite Forall_forall. intros t Ht.
  apply list_elem_of_fmap in Ht as (b & -> & Hb).
  apply list_elem_of_fmap in Hb as (i & -> & Hi). cbn.
  apply elem_of_seq in Hi. apply Hmono. lia.
Qed.

Lemma fflush_from_stamps (n i : nat) (w : world) :
  stamps (cache_blocks (fflush_from n i w)) = stamps (cache_blocks w).
Proof.
  unfold stamps. revert i w. induction n as [|n IH]; intros i w; cbn; [reflexivity|].
  destruct (cache_blocks w !! i) as [b|] eqn:E; [|reflexivity].
  destruct (negb (free b) && dirty b); [|apply IH].
  rewrite IH. cbn. rewrite list_fmap_insert. cbn.
  apply list_insert_id. rewrite list_lookup_fmap, E. reflexivity.
Qed.

Lemma list_min_from_head (l : list cache_block) (i : nat) (m : cache_block) :
  Forall (Z.le (last_touched m)) (stamps l) ->
  list_min_from cache_nru_sort l i 0%nat m = 0%nat.
Proof.
  unfold stamps. revert i. induction l as [|e l IH]; intros i Hall; cbn; [reflexivity|].
  cbn in Hall. apply Forall_cons in Hall as [He Hall].
  unfold cache_nru_sort at 1.
  destruct (last_touched e <? last_touched m) eqn:E; [apply Z.ltb_lt in E; lia|].
  now apply IH.
Qed.

Lemma list_min_sorted (l : list cache_block) :
  l <> [] -> StronglySorted Z.le (stamps l) ->
  list_min cache_nru_sort l = Some 0%nat.
Proof.
  destruct l as [|m l]; [congruence|]. intros _ Hs.
  cbn in Hs. apply StronglySorted_inv in Hs as [_ Hm].
  cbn. f_equal. now apply list_min_from_head.
Qed.

Lemma evict_length (w w1 : world) (e : nat) :
  block_cache_nru_evict w = Some (e, w1) ->
  length (cache_blocks w1) = length (cache_blocks w).
Proof.
  unfold block_cache_nru_evict. intros H.
  destruct (list_min _ _) as [k|]; [|discriminate].
  destruct (cache_blocks w !! k) as [b|]; [|discriminate].
  injection H as <- <-. cbn. rewrite length_insert.
  destruct (negb (free b) && dirty b); reflexivity.
Qed.

Lemma read_offset_inv w blk sec ofs len now w' out :
  length (cache_blocks w) = MAX_CACHE_SECTORS ->
  block_cache_read_offset w blk sec ofs len now = Some (w', out) ->
  cache_inv w'.
Proof.
  intros Hlen. unfold block_cache_read_offset.
  destruct (negb _); [discriminate|].
  destruct (find_block _ _ _ _) as [[e b]|].
  - intros H. injection H as <- <-. split; cbn.
    + now rewrite list_sort_length, length_insert.
    + apply list_sort_stamps.
  - destruct (block_cache_nru_evict w) as [[e w1]|] eqn:Ev; [|discriminate].
    cbn. intros H. injection H as <- <-. split; cbn.
    + rewrite list_sort_length, length_insert.
      now rewrite (evict_length _ _ _ Ev).
    + apply list_sort_stamps.
Qed.

Lemma write_offset_inv w blk sec src ofs len now w' :
  length (cache_blocks w) = MAX_CACHE_SECTORS ->
  block_cache_write_offset w blk sec src ofs len now = Some w' ->
  cache_inv w'.
Proof.
  intros Hlen. unfold block_cache_write_offset.
  destruct (negb _); [discriminate|].
  destruct (find_block _ _ _ _) as [[e b]|].
  - intros H. injection H as <-. split; cbn.
    + now rewrite list_sort_length, length_insert.
    + apply list_sort_stamps.
  - destruct (block_cache_nru_evict w) as [[e w1]|] eqn:Ev; [|discriminate].
    cbn. intros H. injection H as <-. split; cbn.
    + rewrite list_sort_length, length_insert.
      now rewrite (evict_length _ _ _ Ev).
    + apply list_sort_stamps.
Qed.

Lemma fflush_from_length (n i : nat) (w : world) :
  length (cache_blocks (fflush_from n i w)) = length (cache_blocks w).
Proof.
  pose proof (fflush_from_stamps n i w) as H.
  apply (f_equal length) in H. unfold stamps in H.
  now rewrite !length_fmap in H.
Qed.

Lemma reachable_inv (w : world) : reachable w -> cache_inv w.
Proof.
  induction 1 as [ticks dev log Hmono
                 | w blk sec ofs len now w' out _ [IHl _] Hop
                 | w blk sec now w' out _ [IHl _] Hop
                 | w blk sec src ofs len now w' _ [IHl _] Hop
                 | w blk sec src now w' _ [IHl _] Hop
                 | w _ [IHl IHs]].
  - split; [reflexivity|]. now apply block_cache_init_stamps.
  - eapply read_offset_inv; eassumption.
  - eapply read_offset_inv; eassumption.
  - eapply write_offset_inv; eassumption.
  - eapply write_offset_inv; eassumption.
  - split; unfold block_cache_fflush.
    + now rewrite fflush_from_length.
    + now rewrite fflush_from_stamps.
Qed.

(** C9.  In every state the cache reaches (after [block_cache_init], and
    after every completed read, write or flush) the list holds 64 entries
    in nondecreasing order of [last_touched], and the victim that
    [list_min] picks is the entry at the head of the list. *)
Theorem cache_list_oldest_first (w : world) :
  reachable w ->
  length (cache_blocks w) = MAX_CACHE_SECTORS /\
  oldest_first (cache_blocks w) /\
  list_min cache_nru_sort (cache_blocks w) = Some 0%nat.
Proof.
  intros Hr. destruct (reachable_inv w Hr) as [Hlen Hs].
  split; [exact Hlen|]. split; [now apply stamps_oldest_first|].
  apply list_min_sorted; [|exact Hs].
  intros E. rewrite E in Hlen. discriminate.
Qed.

End CacheOrder.

Section CacheOrderWitness.
Import Cache.

Lemma cache_list_oldest_first_witness :
  length (cache_blocks fresh_world) = MAX_CACHE_SECTORS /\
  oldest_first (cache_blocks fresh_world) /\
  list_min cache_nru_sort (cache_blocks fresh_world) = Some 0%nat.
Proof.
  apply (cache_list_oldest_first fresh_world).
  unfold fresh_world. apply reach_init. intros i j Hij. lia.
Defined.

End CacheOrderWitness.

Section CacheMiss.
Import Cache.

Lemma list_min_from_spec (L : list cache_block) :
  forall (l : list cache_block) (i mi : nat) (m : cache_block),
    drop i L = l -> L !! mi = Some m ->
    (forall (j : nat) (b : cache_block),
        (j < i)%nat -> L !! j = Some b -> last_touched m <= last_touched b) ->
    exists v, L !! list_min_from cache_nru_sort l i mi m = Some v /\
              forall b, b ∈ L -> last_touched v <= last_touched b.
Proof.
  induction l as [|e l IH]; intros i mi m Hdrop Hm Hmin; cbn.
  - exists m. split; [exact Hm|]. intros b Hb.
    apply list_elem_of_lookup in Hb as [j Hj].
    apply (Hmin j); [|exact Hj].
    apply lookup_lt_Some in Hj.
    apply (f_equal length) in Hdrop. rewrite length_drop in Hdrop. cbn in Hdrop. lia.
  - assert (L !! i = Some e) as Hi.
    { rewrite <- (Nat.add_0_r i), <- lookup_drop, Hdrop. reflexivity. }
    assert (drop (S i) L = l) as Hdrop'.
    { rewrite (drop_S _ _ _ Hi) in Hdrop. now injection Hdrop. }
    unfold cache_nru_sort at 1.
    destruct (last_touched e <? last_touched m) eqn:E.
    + apply Z.ltb_lt in E. apply IH; [exact Hdrop' | exact Hi |].
      intros j b Hj Hb. destruct (decide (j = i)) as [->|Hne].
      * rewrite Hi in Hb. injection Hb as <-. lia.
      * specialize (Hmin j b). lapply Hmin; [intros H'; specialize (H' Hb); lia | lia].
    + apply Z.ltb_ge in E. apply IH; [exact Hdrop' | exact Hm |].
      intros j b Hj Hb. destruct (decide (j = i)) as [->|Hne].
      * rewrite Hi in Hb. injection Hb as <-. lia.
      * apply (Hmin j); [lia | exact Hb].
Qed.

Lemma list_min_spec (l : list cache_block) :
  l <> [] ->
  exists e v, list_min cache_nru_sort l = Some e /\ l !! e = Some v /\
              forall b, b ∈ l -> last_touched v <= last_touched b.
Proof.
  destruct l as [|m l]; [congruence|]. intros _.
  destruct (list_min_from_spec (m :: l) l 1 0 m) as (v & Hv & Hmin).
  - reflexivity.
  - reflexivity.
  - intros j b Hj Hb. destruct j; [|lia]. cbn in Hb. injection Hb as <-. lia.
  - exists (list_min_from cache_nru_sort l 1 0 m), v. cbn. auto.
Qed.

Lemma evict_spec (w : world) :
  cache_blocks w <> [] ->
  exists e v,
    cache_blocks w !! e = Some v /\
    (forall b, b ∈ cache_blocks w -> last_touched v <= last_touched b) /\
    block_cache_nru_evict w =
      Some (e, mk_world
                 (<[e := mk_cache_block false true (block v) (sector v)
                           (buffer v) (last_touched v)]> (cache_blocks w))
                 (device_after_evict w v) (io_log w ++ written_back v)).
Proof.
  intros Hne. destruct (list_min_spec _ Hne) as (e & v & He & Hv & Hmin).
  exists e, v. split; [exact Hv|]. split; [exact Hmin|].
  unfold block_cache_nru_evict, device_after_evict, written_back.
  rewrite He, Hv. destruct (negb (free v) && dirty v); cbn.
  - reflexivity.
  - rewrite app_nil_r. reflexivity.
Qed.

Lemma read_offset_miss (w : world) (blk sec ofs len now : Z) :
  cache_blocks w <> [] ->
  find_block blk sec (cache_blocks w) 0 = None ->
  len + ofs <= BLOCK_SECTOR_SIZE ->
  exists e v,
    cache_blocks w !! e = Some v /\
    (forall b, b ∈ cache_blocks w -> last_touched v <= last_touched b) /\
    let data := default zero_sector (device_after_evict w v !! (blk, sec)) in
    block_cache_read_offset w blk sec ofs len now =
      Some (mk_world
              (list_sort cache_nru_sort
                 (<[e := mk_cache_block false false blk sec data now]> (cache_blocks w)))
              (device_after_evict w v)
              (io_log w ++ written_back v ++ [IoRead blk sec]),
            memcpy_from data ofs len).
Proof.
  intros Hne Hmiss Hlen.
  destruct (evict_spec w Hne) as (e & v & Hv & Hmin & Hev).
  exists e, v. split; [exact Hv|]. split; [exact Hmin|].
  unfold block_cache_read_offset. rewrite Hmiss, Hev.
  destruct (len + ofs <=? BLOCK_SECTOR_SIZE) eqn:E; [|apply Z.leb_gt in E; lia].
  unfold block_read, set_cache_blocks. cbn.
  rewrite list_insert_insert_eq, <- app_assoc. reflexivity.
Qed.

Lemma write_offset_miss (w : world) (blk sec : Z) (src : list Z) (ofs len now : Z) :
  cache_blocks w <> [] ->
  find_block blk sec (cache_blocks w) 0 = None ->
  len + ofs <= BLOCK_SECTOR_SIZE ->
  exists e v,
    cache_blocks w !! e = Some v /\
    (forall b, b ∈ cache_blocks w -> last_touched v <= last_touched b) /\
    let data := default zero_sector (device_after_evict w v !! (blk, sec)) in
    let data' := memcpy_into data ofs src len in
    block_cache_write_offset w blk sec src ofs len now =
      Some (mk_world
              (list_sort cache_nru_sort
                 (<[e := mk_cache_block false false blk sec data' now]> (cache_blocks w)))
              (<[(blk, sec) := data']> (device_after_evict w v))
              (io_log w ++ written_back v ++ [IoRead blk sec; IoWrite blk sec data'])).
Proof.
  intros Hne Hmiss Hlen.
  destruct (evict_spec w Hne) as (e & v & Hv & Hmin & Hev).
  exists e, v. split; [exact Hv|]. split; [exact Hmin|].
  unfold block_cache_write_offset. rewrite Hmiss, Hev.
  destruct (len + ofs <=? BLOCK_SECTOR_SIZE) eqn:E; [|apply Z.leb_gt in E; lia].
  unfold block_read, block_write, set_cache_blocks. cbn.
  rewrite list_insert_insert_eq, <- !app_assoc. reflexivity.
Qed.

Lemma cache_nonempty (w : world) :
  length (cache_blocks w) = MAX_CACHE_SECTORS -> cache_blocks w <> [].
Proof. intros H E. rewrite E in H. discriminate. Qed.

(** C5.  On a miss of a cache read or a cache write, the victim is an
    entry whose [last_touched] is minimal among the 64 entries.  When the
    victim is in use and dirty its buffer goes to its own (device, sector)
    first; only then is the sector asked for read from the device into the
    entry, which takes the new (device, sector). *)
Theorem eviction_on_miss (w : world) (blk sec : Z) (src : list Z) (ofs len now : Z) :
  length (cache_blocks w) = MAX_CACHE_SECTORS ->
  find_block blk sec (cache_blocks w) 0 = None ->
  len + ofs <= BLOCK_SECTOR_SIZE ->
  (exists e v wr out,
      cache_blocks w !! e = Some v /\
      (forall b, b ∈ cache_blocks w -> last_touched v <= last_touched b) /\
      block_cache_read_offset w blk sec ofs len now = Some (wr, out) /\
      io_log wr = io_log w ++ written_back v ++ [IoRead blk sec] /\
      device wr = device_after_evict w v /\
      cache_blocks wr =
        list_sort cache_nru_sort
          (<[e := mk_cache_block false false blk sec
                    (default zero_sector (device wr !! (blk, sec))) now]>
             (cache_blocks w))) /\
  (exists e v ww,
      cache_blocks w !! e = Some v /\
      (forall b, b ∈ cache_blocks w -> last_touched v <= last_touched b) /\
      block_cache_write_offset w blk sec src ofs len now = Some ww /\
      let data :=
        memcpy_into (default zero_sector (device_after_evict w v !! (blk, sec)))
                    ofs src len in
      io_log ww = io_log w ++ written_back v
                    ++ [IoRead blk sec; IoWrite blk sec data] /\
      device ww = <[(blk, sec) := data]> (device_after_evict w v) /\
      cache_blocks ww =
        list_sort cache_nru_sort
          (<[e := mk_cache_block false false blk sec data now]> (cache_blocks w))).
Proof.
  intros Hlen Hmiss Hle. apply cache_nonempty in Hlen. split.
  - destruct (read_offset_miss w blk sec ofs len now Hlen Hmiss Hle)
      as (e & v & Hv & Hmin & Hop).
    exists e, v. eexists. eexists. split; [exact Hv|]. split; [exact Hmin|].
    split; [exact Hop|]. cbn. repeat split; reflexivity.
  - destruct (write_offset_miss w blk sec src ofs len now Hlen Hmiss Hle)
      as (e & v & Hv & Hmin & Hop).
    exists e, v. eexists. split; [exact Hv|]. split; [exact Hmin|].
    split; [exact Hop|]. cbn. repeat split; reflexivity.
Qed.

Lemma eviction_on_miss_witness :
  exists e v wr out,
    cache_blocks fresh_world !! e = Some v /\
    block_cache_read_offset fresh_world 1 5 0 512 70 = Some (wr, out) /\
    io_log wr = io_log fresh_world ++ written_back v ++ [IoRead 1 5].
Proof.
  destruct (eviction_on_miss fresh_world 1 5 [] 0 512 70) as [H _].
  - reflexivity.
  - reflexivity.
  - unfold BLOCK_SECTOR_SIZE. lia.
  - destruct H as (e & v & wr & out & H1 & _ & H3 & H4 & _).
    exists e, v, wr, out. auto.
Defined.

End CacheMiss.

Section CacheWrite.
Import Cache.

Lemma memcpy_into_outside (dst src : list Z) (ofs len : Z) (k : nat) :
  0 <= ofs -> 0 <= len -> ofs + len <= Z.of_nat (length dst) ->
  (Z.to_nat len <= length src)%nat ->
  Z.of_nat k < ofs \/ ofs + len <= Z.of_nat k ->
  memcpy_into dst ofs src len !! k = dst !! k.
Proof.
  intros Ho Hl Hd Hs Hk. unfold memcpy_into.
  destruct Hk as [Hk|Hk].
  - rewrite lookup_app_l by (rewrite length_take; lia).
    apply lookup_take_lt. lia.
  - rewrite lookup_app_r by (rewrite length_take; lia).
    rewrite lookup_app_r by (rewrite !length_take; lia).
    rewrite lookup_drop, !length_take. f_equal. lia.
Qed.

Lemma memcpy_into_inside (dst src : list Z) (ofs len : Z) (k : nat) :
  0 <= ofs -> 0 <= len -> ofs + len <= Z.of_nat (length dst) ->
  (Z.to_nat len <= length src)%nat ->
  ofs <= Z.of_nat k < ofs + len ->
  memcpy_into dst ofs src len !! k = src !! (k - Z.to_nat ofs)%nat.
Proof.
  intros Ho Hl Hd Hs Hk. unfold memcpy_into.
  rewrite lookup_app_r by (rewrite length_take; lia).
  rewrite lookup_app_l by (rewrite !length_take; lia).
  rewrite length_take. rewrite lookup_take_lt by lia. f_equal. lia.
Qed.

Lemma write_offset_hit (w : world) (blk sec : Z) (src : list Z) (ofs len now : Z)
    (e : nat) (b : cache_block) :
  len + ofs <= BLOCK_SECTOR_SIZE ->
  find_block blk sec (cache_blocks w) 0 = Some (e, b) ->
  block_cache_write_offset w blk sec src ofs len now =
    Some (mk_world
            (list_sort cache_nru_sort
               (<[e := mk_cache_block true (free b) (block b) (sector b)
                         (memcpy_into (buffer b) ofs src len) now]> (cache_blocks w)))
            (device w) (io_log w)).
Proof.
  intros Hle Hhit. unfold block_cache_write_offset. rewrite Hhit.
  destruct (len + ofs <=? BLOCK_SECTOR_SIZE) eqn:E; [|apply Z.leb_gt in E; lia].
  reflexivity.
Qed.

(** C3, as the code has it.  A cache write of [len] bytes at offset [ofs]
    of a sector, whole sector or part of one:
    - on a hit touches no device: the bytes of the range are replaced in
      the cached buffer and the entry is marked dirty;
    - on a miss reads the sector from the device into the victim's entry,
      replaces the bytes of the range, writes the sector through to the
      device at once and leaves the entry clean;
    - in both cases keeps the bytes outside the range. *)
Theorem cache_write_effect (w : world) (blk sec : Z) (src : list Z) (ofs len now : Z) :
  length (cache_blocks w) = MAX_CACHE_SECTORS ->
  0 <= ofs -> 0 <= len -> len + ofs <= BLOCK_SECTOR_SIZE ->
  (Z.to_nat len <= length src)%nat ->
  (forall e b,
      find_block blk sec (cache_blocks w) 0 = Some (e, b) ->
      block_cache_write_offset w blk sec src ofs len now =
        Some (mk_world
                (list_sort cache_nru_sort
                   (<[e := mk_cache_block true (free b) (block b) (sector b)
                             (memcpy_into (buffer b) ofs src len) now]>
                      (cache_blocks w)))
                (device w) (io_log w))) /\
  (find_block blk sec (cache_blocks w) 0 = None ->
   exists e v,
     cache_blocks w !! e = Some v /\
     let data := default zero_sector (device_after_evict w v !! (blk, sec)) in
     let data' := memcpy_into data ofs src len in
     block_cache_write_offset w blk sec src ofs len now =
       Some (mk_world
               (list_sort cache_nru_sort
                  (<[e := mk_cache_block false false blk sec data' now]>
                     (cache_blocks w)))
               (<[(blk, sec) := data']> (device_after_evict w v))
               (io_log w ++ written_back v
                  ++ [IoRead blk sec; IoWrite blk sec data']))) /\
  (forall (dst : list Z) (k : nat),
      Z.of_nat (length dst) = BLOCK_SECTOR_SIZE ->
      (Z.of_nat k < ofs \/ ofs + len <= Z.of_nat k ->
       memcpy_into dst ofs src len !! k = dst !! k) /\
      (ofs <= Z.of_nat k < ofs + len ->
       memcpy_into dst ofs src len !! k = src !! (k - Z.to_nat ofs)%nat)).
Proof.
  intros Hlen Ho Hl Hle Hs. split; [|split].
  - intros e b Hhit. now apply write_offset_hit.
  - intros Hmiss.
    destruct (write_offset_miss w blk sec src ofs len now
                (cache_nonempty w Hlen) Hmiss Hle) as (e & v & Hv & _ & Hop).
    exists e, v. split; [exact Hv | exact Hop].
  - intros dst k Hd. split; intros Hk.
    + apply memcpy_into_outside; try assumption. lia.
    + apply memcpy_into_inside; try assumption. lia.
Qed.

Lemma cache_write_effect_witness :
  exists e v w',
    cache_blocks fresh_world !! e = Some v /\
    block_cache_write_offset fresh_world 1 5 [7] 3 1 70 = Some w' /\
    io_log w' =
      io_log fresh_world ++ written_back v
        ++ [IoRead 1 5;
            IoWrite 1 5
              (memcpy_into
                 (default zero_sector (device_after_evict fresh_world v !! (1, 5)))
                 3 [7] 1)].
Proof.
  destruct (cache_write_effect fresh_world 1 5 [7] 3 1 70) as (_ & H & _).
  - reflexivity.
  - lia.
  - lia.
  - unfold BLOCK_SECTOR_SIZE. lia.
  - cbn. lia.
  - destruct (H eq_refl) as (e & v & Hv & Hop).
    exists e, v. eexists. split; [exact Hv|]. split; [exact Hop|].
    reflexivity.
Defined.

(** C3 fails as stated.  In a fresh cache a write misses.  A write of a
    whole sector then does read the sector from the device, a write of one
    byte is written through to the device at once, and in both cases the
    entry is left clean. *)
Lemma cache_write_miss_is_written_through :
  (exists w' e b,
      block_cache_write fresh_world 1 5 (repeat 7 512%nat) 70 = Some w' /\
      io_log w' = [IoRead 1 5; IoWrite 1 5 (repeat 7 512%nat)] /\
      find_block 1 5 (cache_blocks w') 0 = Some (e, b) /\ dirty b = false) /\
  (exists w' e b,
      block_cache_write_offset fresh_world 1 5 [7] 3 1 70 = Some w' /\
      io_log w' = [IoRead 1 5; IoWrite 1 5 (memcpy_into zero_sector 3 [7] 1)] /\
      find_block 1 5 (cache_blocks w') 0 = Some (e, b) /\ dirty b = false).
Proof.
  split.
  - do 3 eexists. split; [vm_compute; reflexivity|].
    split; [vm_compute; reflexivity|]. split; [vm_compute; reflexivity|]. reflexivity.
  - do 3 eexists. split; [vm_compute; reflexivity|].
    split; [vm_compute; reflexivity|]. split; [vm_compute; reflexivity|]. reflexivity.
Qed.

End CacheWrite.

(** *** The free map *)

Section FreeMapFacts.
Import FreeMap.

Lemma free_count_insert (fm : list bool) (i : nat) (b : bool) :
  (free_count fm <= free_count (<[i := b]> fm) + 1)%nat /\
  (b = false -> free_count fm <= free_count (<[i := b]> fm))%nat.
Proof.
  revert i. induction fm as [|x fm IH]; intros i; [cbn; lia|].
  destruct i as [|i].
  - change (<[0%nat := b]> (x :: fm)) with (b :: fm).
    destruct x, b; cbn [free_count]; split; intros; try lia; discriminate.
  - change (<[S i := b]> (x :: fm)) with (x :: <[i := b]> fm).
    destruct (IH i) as [H1 H2].
    destruct x; cbn [free_count]; (split; [lia|]); intros Hb;
      pose proof (H2 Hb); lia.
Qed.

Lemma scan_free (fm : list bool) (k : nat) :
  (0 < free_count fm)%nat -> exists i, scan fm k = Some i.
Proof.
  revert k. induction fm as [|x fm IH]; intros k; cbn; [lia|].
  destruct x; [apply IH | eauto].
Qed.

Lemma free_map_allocate_enough (fm : list bool) :
  (0 < free_count fm)%nat ->
  exists sec fm', free_map_allocate fm = Some (sec, fm') /\
                  (free_count fm <= free_count fm' + 1)%nat.
Proof.
  intros H. destruct (scan_free fm 0 H) as [i Hi].
  unfold free_map_allocate. rewrite Hi. do 2 eexists. split; [reflexivity|].
  apply free_count_insert.
Qed.

Lemma free_map_release_count (fm : list bool) (sec : Z) :
  (free_count fm <= free_count (free_map_release fm sec))%nat.
Proof. unfold free_map_release. now apply free_count_insert. Qed.

End FreeMapFacts.

(** *** Growth of an inode *)

Section ResizeEnough.
Import FreeMap Inode.

Lemma below_len (len pos : Z) :
  0 <= len ->
  (BLOCK_SECTOR_SIZE * pos <? len) = (pos <? bytes_to_sectors len).
Proof.
  intros Hlen. unfold bytes_to_sectors, BLOCK_SECTOR_SIZE.
  rewrite Z.quot_div_nonneg by lia.
  destruct (512 * pos <? len) eqn:E1, (pos <? (len + 512 - 1) / 512) eqn:E2;
    try reflexivity.
  - apply Z.ltb_lt in E1. apply Z.ltb_ge in E2.
    pose proof (Z.div_mod (len + 512 - 1) 512 ltac:(lia)).
    pose proof (Z.mod_pos_bound (len + 512 - 1) 512 ltac:(lia)). lia.
  - apply Z.ltb_ge in E1. apply Z.ltb_lt in E2.
    pose proof (Z.div_mod (len + 512 - 1) 512 ltac:(lia)).
    pose proof (Z.mod_pos_bound (len + 512 - 1) 512 ltac:(lia)). lia.
Qed.

Lemma above_len (len pos : Z) :
  0 <= len ->
  (len <=? BLOCK_SECTOR_SIZE * pos) = negb (pos <? bytes_to_sectors len).
Proof.
  intros Hlen. rewrite <- below_len by assumption.
  rewrite Z.leb_antisym. reflexivity.
Qed.

Lemma resize_slot_enough (len pos : Z) (dk : disk) (slot : Z) :
  0 <= len ->
  ((if Z.ltb pos (bytes_to_sectors len) then 1 else 0) <= free_count (free_map dk))%nat ->
  exists dk' v,
    resize_slot len pos dk slot = Done (dk', v) /\
    (free_count (free_map dk) <=
     free_count (free_map dk')
       + (if Z.ltb pos (bytes_to_sectors len) then 1 else 0))%nat.
Proof.
  intros Hlen Hfree. unfold resize_slot.
  rewrite below_len, above_len by assumption.
  destruct (pos <? bytes_to_sectors len) eqn:E; cbn [negb andb].
  - destruct (slot =? 0) eqn:Es; cbn [andb].
    + destruct (free_map_allocate_enough (free_map dk)) as (sec & fm' & -> & Hc);
        [lia|].
      do 2 eexists. split; [reflexivity|]. cbn. lia.
    + do 2 eexists. split; [reflexivity|]. lia.
  - destruct (negb (slot =? 0)) eqn:Es; cbn.
    + do 2 eexists. split; [reflexivity|]. cbn.
      pose proof (free_map_release_count (free_map dk) slot). lia.
    + do 2 eexists. split; [reflexivity|]. lia.
Qed.

Lemma leaves_need_step (n : nat) (base D : Z) :
  leaves_need (S n) base D =
  ((if Z.ltb base D then 1 else 0) + leaves_need n (base + 1) D)%nat.
Proof.
  unfold leaves_need. destruct (base <? D) eqn:E.
  - apply Z.ltb_lt in E. lia.
  - apply Z.ltb_ge in E. lia.
Qed.

Lemma resize_leaves_enough (len base : Z) (n : nat) :
  0 <= len ->
  forall (i : nat) (dk : disk) (slots : list Z),
    (leaves_need n (base + Z.of_nat i) (bytes_to_sectors len)
       <= free_count (free_map dk))%nat ->
    exists dk' slots',
      resize_leaves n i len base dk slots = Done (dk', slots') /\
      (free_count (free_map dk) <=
       free_count (free_map dk')
         + leaves_need n (base + Z.of_nat i) (bytes_to_sectors len))%nat.
Proof.
  intros Hlen. induction n as [|n IH]; intros i dk slots Hfree.
  - do 2 eexists. split; [reflexivity|]. lia.
  - rewrite leaves_need_step in Hfree |- *. cbn [resize_leaves].
    destruct (resize_slot_enough len (base + Z.of_nat i) dk
                (entry slots (Z.of_nat i)) Hlen) as (dk1 & v & -> & Hc); [lia|].
    replace (base + Z.of_nat i + 1) with (base + Z.of_nat (S i)) in * by lia.
    destruct (IH (S i) dk1 (<[i := v]> slots)) as (dk2 & slots2 & -> & Hc2); [lia|].
    do 2 eexists. split; [reflexivity|]. lia.
Qed.

Lemma resize_leaves_enough_0 (len base : Z) (n : nat) (dk : disk) (slots : list Z) :
  0 <= len ->
  (leaves_need n base (bytes_to_sectors len) <= free_count (free_map dk))%nat ->
  exists dk' slots',
    resize_leaves n 0 len base dk slots = Done (dk', slots') /\
    (free_count (free_map dk) <=
     free_count (free_map dk') + leaves_need n base (bytes_to_sectors len))%nat.
Proof.
  intros Hlen Hfree.
  destruct (resize_leaves_enough len base n Hlen 0 dk slots) as (dk' & s' & H1 & H2).
  - now rewrite Z.add_0_r.
  - rewrite Z.add_0_r in H2. eauto.
Qed.

Lemma leaves_need_none (n : nat) (base D : Z) :
  (base <? D) = false -> leaves_need n base D = 0%nat.
Proof. intros E. apply Z.ltb_ge in E. unfold leaves_need. lia. Qed.

Lemma above_len' (len pos : Z) :
  0 <= len ->
  (len <=? pos * BLOCK_SECTOR_SIZE) = negb (pos <? bytes_to_sectors len).
Proof. intros H. rewrite Z.mul_comm. now apply above_len. Qed.

Lemma resize_doubly_enough (len : Z) (n : nat) :
  0 <= len ->
  forall (i : nat) (dk : disk) (buffer : list Z),
    (doubly_need n i (bytes_to_sectors len) <= free_count (free_map dk))%nat ->
    exists dk' buffer',
      resize_doubly n i len dk buffer = Done (dk', buffer') /\
      (free_count (free_map dk) <=
       free_count (free_map dk') + doubly_need n i (bytes_to_sectors len))%nat.
Proof.
  intros Hlen. induction n as [|n IH]; intros i dk buffer Hfree.
  - do 2 eexists. split; [reflexivity|]. lia.
  - cbn [resize_doubly doubly_need] in *.
    set (base := 12 + 128 + 128 * Z.of_nat i) in *.
    rewrite above_len' by assumption.
    destruct (base <? bytes_to_sectors len) eqn:Eb; cbn [negb] in *.
    + (* the sectors of this indirect block are below the new length *)
      rewrite !andb_false_r.
      destruct (entry buffer (Z.of_nat i) =? 0) eqn:Ez.
      * destruct (free_map_allocate_enough (free_map dk)) as (sec & fm' & -> & Hc);
          [lia|].
        destruct (resize_leaves_enough_0 len base 128
                    (mk_disk fm' (block_cache_write (sectors dk) sec zeros))
                    (repeat 0 128%nat) Hlen) as (dk2 & in2 & -> & Hc2);
          [cbn; lia|]. cbn in Hc2. rewrite andb_false_r.
        edestruct IH as (dk3 & b3 & -> & Hc3); [|do 2 eexists; split; [reflexivity|]].
        -- cbn. lia.
        -- cbn in Hc3. lia.
      * destruct (resize_leaves_enough_0 len base 128 dk
                    (words_of_bytes
                       (block_cache_read (sectors dk) (entry buffer (Z.of_nat i))))
                    Hlen) as (dk2 & in2 & -> & Hc2); [lia|]. rewrite andb_false_r.
        edestruct IH as (dk3 & b3 & -> & Hc3); [|do 2 eexists; split; [reflexivity|]].
        -- cbn. lia.
        -- cbn in Hc3. lia.
    + (* they are not: nothing is allocated *)
      rewrite !andb_true_r.
      destruct (entry buffer (Z.of_nat i) =? 0) eqn:Ez; cbn [negb].
      * do 2 eexists. split; [reflexivity|]. lia.
      * destruct (resize_leaves_enough_0 len base 128 dk
                    (words_of_bytes
                       (block_cache_read (sectors dk) (entry buffer (Z.of_nat i))))
                    Hlen) as (dk2 & in2 & -> & Hc2);
          [rewrite (leaves_need_none _ _ _ Eb); lia|].
        rewrite (leaves_need_none _ _ _ Eb) in Hc2. rewrite Ez. cbn [negb andb].
        edestruct IH as (dk3 & b3 & -> & Hc3); [|do 2 eexists; split; [reflexivity|]].
        -- cbn. pose proof (free_map_release_count (free_map dk2)
                              (entry buffer (Z.of_nat i))). lia.
        -- cbn in Hc3.
           pose proof (free_map_release_count (free_map dk2)
                         (entry buffer (Z.of_nat i))). lia.
Qed.

Lemma resize_doubly_segment_enough (len : Z) (dk : disk) (d : inode_disk) :
  0 <= len ->
  (doubly_indirect_pointer d =? 0) && (len <=? (12 + 128) * BLOCK_SECTOR_SIZE) = false ->
  ((if Z.ltb 140 (bytes_to_sectors len) then 1 else 0)
   + doubly_need 128 0 (bytes_to_sectors len) <= free_count (free_map dk))%nat ->
  exists dk' d',
    resize_doubly_segment dk d len = Done (dk', d') /\ length d' = len.
Proof.
  intros Hlen Hpre Hfree. unfold resize_doubly_segment.
  rewrite above_len' in Hpre |- * by assumption.
  change (12 + 128) with 140 in *.
  destruct (doubly_indirect_pointer d =? 0) eqn:Ez.
  - cbn [andb] in Hpre. apply negb_false_iff in Hpre. rewrite Hpre in Hfree.
    destruct (free_map_allocate_enough (free_map dk)) as (sec & fm' & -> & Hc);
      [lia|].
    destruct (resize_doubly_enough len 128 Hlen 0
                (mk_disk fm' (block_cache_write (sectors dk) sec zeros))
                (repeat 0 128%nat)) as (dk2 & b2 & -> & Hc2); [cbn [free_map]; lia|].
    rewrite Hpre. cbn [negb]. rewrite andb_false_r.
    do 2 eexists. split; reflexivity.
  - destruct (resize_doubly_enough len 128 Hlen 0 dk
                (words_of_bytes
                   (block_cache_read (sectors dk) (doubly_indirect_pointer d))))
      as (dk2 & b2 & -> & Hc2); [lia|].
    rewrite Ez. cbn [negb andb].
    destruct (negb (140 <? bytes_to_sectors len));
      do 2 eexists; split; reflexivity.
Qed.

Lemma resize_indirect_segment_enough (len : Z) (dk : disk) (d : inode_disk) :
  0 <= len ->
  (indirect_pointer d =? 0) && (len <=? 12 * BLOCK_SECTOR_SIZE) = false ->
  ((if Z.ltb 12 (bytes_to_sectors len) then 1 else 0)
   + leaves_need 128 12 (bytes_to_sectors len)
   + (if Z.ltb 140 (bytes_to_sectors len) then 1 else 0)
   + doubly_need 128 0 (bytes_to_sectors len) <= free_count (free_map dk))%nat ->
  exists dk' d',
    resize_indirect_segment dk d len = Done (dk', d') /\ length d' = len.
Proof.
  intros Hlen Hpre Hfree. unfold resize_indirect_segment.
  change (12 * 512) with (12 * BLOCK_SECTOR_SIZE).
  rewrite !above_len' in Hpre |- * by assumption.
  change (12 + 128) with 140 in *.
  assert (exists dk1 d1 buffer,
             ((if indirect_pointer d =? 0 then
                 match free_map_allocate (free_map dk) with
                 | Some (sec, fm) =>
                     Done (mk_disk fm (block_cache_write (sectors dk) sec zeros),
                           set_indirect d sec, repeat 0 128%nat)
                 | None => NoSpace (dk, d, [])
                 end
               else Done (dk, d, words_of_bytes
                                   (block_cache_read (sectors dk) (indirect_pointer d))))
              = Done (dk1, d1, buffer)) /\
             (leaves_need 128 12 (bytes_to_sectors len)
              + (if Z.ltb 140 (bytes_to_sectors len) then 1 else 0)
              + doubly_need 128 0 (bytes_to_sectors len)
              <= free_count (free_map dk1))%nat) as (dk1 & d1 & buffer & -> & Hfree1).
  { destruct (indirect_pointer d =? 0) eqn:Ez.
    - cbn [andb] in Hpre. apply negb_false_iff in Hpre. rewrite Hpre in Hfree.
      destruct (free_map_allocate_enough (free_map dk)) as (sec & fm' & -> & Hc);
        [lia|].
      do 3 eexists. split; [reflexivity|]. cbn [free_map]. lia.
    - do 3 eexists. split; [reflexivity|].
      destruct (12 <? bytes_to_sectors len); lia. }
  destruct (resize_leaves_enough_0 len 12 128 dk1 buffer Hlen)
    as (dk2 & b2 & -> & Hc2); [lia|].
  set (r := if negb (indirect_pointer d1 =? 0) && negb (12 <? bytes_to_sectors len)
            then _ else _).
  assert ((free_count (free_map dk2) <= free_count (free_map (fst r)))%nat) as Hr.
  { subst r.
    destruct (negb (indirect_pointer d1 =? 0) && negb (12 <? bytes_to_sectors len));
      cbn [fst free_map]; [apply free_map_release_count | lia]. }
  destruct r as [dk3 d3]. cbn [fst free_map] in Hr.
  rewrite above_len' by assumption.
  destruct ((doubly_indirect_pointer d3 =? 0) && negb (140 <? bytes_to_sectors len))
    eqn:Ed.
  - do 2 eexists. split; reflexivity.
  - apply resize_doubly_segment_enough; [assumption | |lia].
    change (12 + 128) with 140. now rewrite above_len'.
Qed.

Lemma resize_pass_enough (len : Z) (dk : disk) (d : inode_disk) :
  0 <= len ->
  (pass_need (bytes_to_sectors len) <= free_count (free_map dk))%nat ->
  exists dk' d', resize_pass dk d len = Done (dk', d') /\ length d' = len.
Proof.
  intros Hlen Hfree. unfold pass_need in Hfree. unfold resize_pass.
  destruct (resize_leaves_enough_0 len 0 12 dk (direct_pointer d) Hlen)
    as (dk1 & dp & -> & Hc1); [lia|].
  destruct ((indirect_pointer (set_direct d dp) =? 0)
            && (len <=? 12 * BLOCK_SECTOR_SIZE)) eqn:E.
  - do 2 eexists. split; reflexivity.
  - apply resize_indirect_segment_enough; [assumption | exact E | lia].
Qed.

(** Growth succeeds on a free map with room for every allocation of the
    pass, whatever the new length. *)
Lemma inode_resize_enough (fuel : nat) (len : Z) (dk : disk) (d : inode_disk) :
  0 <= len ->
  (pass_need (bytes_to_sectors len) <= free_count (free_map dk))%nat ->
  exists dk' d', inode_resize fuel dk d len = Some (true, dk', d') /\ length d' = len.
Proof.
  intros Hlen Hfree.
  destruct (resize_pass_enough len dk d Hlen Hfree) as (dk' & d' & Hp & Hl).
  exists dk', d'. split; [|exact Hl].
  destruct fuel; cbn; rewrite Hp; reflexivity.
Qed.

Lemma doubly_need_closed (D : Z) (n : nat) :
  forall i : nat,
    Z.of_nat (doubly_need n i D) =
    let R := D - 140 - 128 * Z.of_nat i in
    if R <=? 0 then 0
    else if 128 * Z.of_nat n <=? R then 129 * Z.of_nat n
    else R + (R + 127) / 128.
Proof.
  induction n as [|n IH]; intros i.
  - cbn [doubly_need]. cbv zeta. destruct (_ <=? 0) eqn:E; [reflexivity|].
    apply Z.leb_gt in E.
    destruct (128 * Z.of_nat 0 <=? _) eqn:E2; [reflexivity|].
    apply Z.leb_gt in E2. lia.
  - cbn [doubly_need]. cbv zeta. rewrite Nat2Z.inj_add, IH. cbv zeta.
    change (12 + 128) with 140.
    replace (D - 140 - 128 * Z.of_nat (S i))
      with (D - 140 - 128 * Z.of_nat i - 128) by lia.
    set (R := D - 140 - 128 * Z.of_nat i).
    assert ((140 + 128 * Z.of_nat i <? D) = negb (R <=? 0)) as ->.
    { subst R. destruct (_ <? D) eqn:E1, (_ <=? 0) eqn:E2; try reflexivity;
        [apply Z.ltb_lt in E1; apply Z.leb_le in E2
        |apply Z.ltb_ge in E1; apply Z.leb_gt in E2]; lia. }
    destruct (R <=? 0) eqn:E0; cbn [negb].
    + apply Z.leb_le in E0.
      destruct (R - 128 <=? 0) eqn:E1; [reflexivity|]. apply Z.leb_gt in E1. lia.
    + apply Z.leb_gt in E0.
      assert (Z.of_nat (S (leaves_need 128 (140 + 128 * Z.of_nat i) D))
              = 1 + Z.min 128 R) as ->.
      { unfold leaves_need. subst R. lia. }
      assert ((R - 128 + 127) / 128 = (R + 127) / 128 - 1) as Hdiv.
      { replace (R - 128 + 127) with (R + 127 + (-1) * 128) by lia.
        rewrite Z.div_add by lia. lia. }
      assert (R <= 128 -> (R + 127) / 128 = 1) as Hone.
      { intros Hle. symmetry. apply Z.div_unique with (r := R - 1). lia. lia. }
      destruct (R - 128 <=? 0) eqn:E1;
        [apply Z.leb_le in E1 | apply Z.leb_gt in E1];
        destruct (128 * Z.of_nat (S n) <=? R) eqn:E2;
        [apply Z.leb_le in E2 | apply Z.leb_gt in E2
        |apply Z.leb_le in E2 | apply Z.leb_gt in E2];
        try destruct (128 * Z.of_nat n <=? R - 128) eqn:E3;
        try (apply Z.leb_le in E3); try (apply Z.leb_gt in E3);
        try rewrite Hdiv; try (rewrite Hone by lia); lia.
Qed.

Lemma pass_need_tree_sectors (len : Z) :
  0 <= len <= MAX_LENGTH ->
  Z.of_nat (pass_need (bytes_to_sectors len)) = tree_sectors len.
Proof.
  intros Hlen. unfold tree_sectors.
  assert (0 <= bytes_to_sectors len <= MAX_SECTORS) as HD.
  { unfold bytes_to_sectors, MAX_LENGTH, MAX_SECTORS, BLOCK_SECTOR_SIZE in *.
    rewrite Z.quot_div_nonneg by lia. split.
    - apply Z.div_pos; lia.
    - assert ((len + 512 - 1) / 512 < 16525); [|lia].
      apply Z.div_lt_upper_bound; lia. }
  cbv zeta. set (D := bytes_to_sectors len) in *.
  unfold pass_need. rewrite !Nat2Z.inj_add, doubly_need_closed. cbv zeta.
  change (12 + 128) with 140. unfold MAX_SECTORS in HD.
  unfold leaves_need.
  destruct (12 <? D) eqn:E12; [apply Z.ltb_lt in E12 | apply Z.ltb_ge in E12];
    destruct (140 <? D) eqn:E140;
    [apply Z.ltb_lt in E140 | apply Z.ltb_ge in E140
    |apply Z.ltb_lt in E140 | apply Z.ltb_ge in E140];
    destruct (D - 140 - 128 * Z.of_nat 0 <=? 0) eqn:E0;
    try (apply Z.leb_le in E0); try (apply Z.leb_gt in E0); try lia;
    destruct (128 * Z.of_nat 128 <=? D - 140 - 128 * Z.of_nat 0) eqn:E1;
    try (apply Z.leb_le in E1); try (apply Z.leb_gt in E1); try lia.
  - assert (D = 16524) as -> by lia. reflexivity.
  - replace (D - 140 - 128 * Z.of_nat 0) with (D - 140) by lia. lia.
Qed.

End ResizeEnough.

Section Capacity.
Import FreeMap Inode.

(** C1, as the code has it.  Whatever the inode, a resize to a length of
    at most (12+128+128*128)*512 bytes succeeds when the free map has as
    many free sectors as the extent tree of a file of that length has
    sectors; so does [inode_create]. *)
Theorem inode_resize_within_capacity (fuel : nat) (dk : disk) (d : inode_disk)
    (len sec typ : Z) :
  0 <= len <= MAX_LENGTH ->
  tree_sectors len <= Z.of_nat (free_count (free_map dk)) ->
  (exists dk' d',
      inode_resize fuel dk d len = Some (true, dk', d') /\ length d' = len) /\
  (exists dk', inode_create fuel dk sec len typ = Some (true, dk')).
Proof.
  intros Hlen Hfree.
  rewrite <- pass_need_tree_sectors in Hfree by assumption.
  apply Nat2Z.inj_le in Hfree. split.
  - apply inode_resize_enough; [lia | exact Hfree].
  - unfold inode_create.
    destruct (len <? 0) eqn:E; [apply Z.ltb_lt in E; lia|].
    edestruct inode_resize_enough as (dk' & d' & -> & _); [|exact Hfree|]; [lia|].
    eexists. reflexivity.
Qed.

Lemma inode_resize_within_capacity_witness :
  exists dk' d',
    inode_resize 1 (blank_disk 20) (empty_inode 0) (13 * 512 + 1)
      = Some (true, dk', d') /\ length d' = 13 * 512 + 1.
Proof.
  apply (inode_resize_within_capacity 1 (blank_disk 20) (empty_inode 0)
           (13 * 512 + 1) 1 0).
  - vm_compute. split; discriminate.
  - vm_compute. discriminate.
Defined.

(** C1 fails as stated.  On a device with 16654 free sectors (the size of
    a full extent tree) a resize of an empty inode to one byte more than
    (12+128+128*128)*512 returns true and records the length. *)
Lemma inode_resize_beyond_capacity :
  exists dk' d',
    inode_resize 1 (blank_disk 16654) (empty_inode 0) (MAX_LENGTH + 1)
      = Some (true, dk', d') /\ length d' = MAX_LENGTH + 1.
Proof.
  apply inode_resize_enough.
  - vm_compute. discriminate.
  - vm_compute. reflexivity.
Qed.

End Capacity.

(** *** Rollback of a failed resize *)

Section Rollback.
Import FreeMap Inode.

(** C2, evaluated where the code breaks it.  A device has 14 free sectors
    and an empty inode is resized to 14 sectors, which takes 15 (12 direct
    sectors, the indirect block and 2 sectors under it).  The allocation of
    the last one fails; the call returns false with the inode as it was,
    but with 13 free sectors: sector 15, the first one under the indirect
    block, stays allocated. *)
Theorem inode_resize_rollback_leaks :
  free_count (free_map (blank_disk 14)) = 14%nat /\
  exists dk',
    inode_resize 1 (blank_disk 14) (empty_inode 0) (14 * 512)
      = Some (false, dk', empty_inode 0) /\
    free_count (free_map dk') = 13%nat /\
    free_map dk' !! 15%nat = Some true.
Proof.
  split; [reflexivity|]. eexists. split; [vm_compute; reflexivity|].
  split; reflexivity.
Qed.

End Rollback.

(** *** Addressing *)

Section Addressing.
Import Inode.

(** C6.  For a byte offset [p] below the length stored in the on-disk
    inode, [byte_to_sector] returns [direct[p/512]] below 12 sectors, the
    entry [(p - 12*512)/512] of the indirect block below 12+128 sectors,
    and below 12+128+128*128 sectors the entry
    [((p - (12+128)*512)/512) mod 128] of the indirect block that entry
    [(p - (12+128)*512)/(128*512)] of the doubly-indirect block names. *)
Theorem byte_to_sector_addressing (st : gmap Z (list Z)) (ino : inode) (p : Z) :
  let data := inode_of_sector (block_cache_read st (sector ino)) in
  let indirect_block :=
    words_of_bytes (block_cache_read st (indirect_pointer data)) in
  let doubly_block :=
    words_of_bytes (block_cache_read st (doubly_indirect_pointer data)) in
  0 <= p < length data ->
  (p < 12 * 512 ->
   byte_to_sector st ino p = Some (entry (direct_pointer data) (p / 512))) /\
  (12 * 512 <= p < (12 + 128) * 512 ->
   byte_to_sector st ino p = Some (entry indirect_block ((p - 12 * 512) / 512))) /\
  ((12 + 128) * 512 <= p < (12 + 128 + 128 * 128) * 512 ->
   byte_to_sector st ino p =
     Some (entry
             (words_of_bytes
                (block_cache_read st
                   (entry doubly_block ((p - (12 + 128) * 512) / (128 * 512)))))
             (((p - (12 + 128) * 512) / 512) mod 128))).
Proof.
  intros data indirect_block doubly_block Hp.
  unfold byte_to_sector. fold data. unfold BLOCK_SECTOR_SIZE.
  destruct (p <? length data) eqn:El; [|apply Z.ltb_ge in El; lia].
  split; [|split]; intros Hr.
  - destruct (p <? 12 * 512) eqn:E; [|apply Z.ltb_ge in E; lia].
    rewrite Z.quot_div_nonneg by lia. reflexivity.
  - destruct (p <? 12 * 512) eqn:E; [apply Z.ltb_lt in E; lia|].
    destruct (p <? (12 + 128) * 512) eqn:E2; [|apply Z.ltb_ge in E2; lia].
    rewrite Z.quot_div_nonneg by lia. reflexivity.
  - destruct (p <? 12 * 512) eqn:E; [apply Z.ltb_lt in E; lia|].
    destruct (p <? (12 + 128) * 512) eqn:E2; [apply Z.ltb_lt in E2; lia|].
    destruct (p <? (12 + 128 + 128 * 128) * 512) eqn:E3;
      [|apply Z.ltb_ge in E3; lia].
    assert (0 <= (p - (12 + 128) * 512) / 512) as Hq by (apply Z.div_pos; lia).
    rewrite (Z.quot_div_nonneg (p - (12 + 128) * 512) 512) by lia.
    rewrite Z.quot_div_nonneg by lia.
    rewrite Z.rem_mod_nonneg by lia.
    rewrite Z.div_div by lia.
    replace (512 * 128) with (128 * 512) by lia. reflexivity.
Qed.

Lemma byte_to_sector_addressing_witness :
  let st : gmap Z (list Z) :=
    {[ 7 := sector_of_inode
              (mk_inode_disk 700 INODE_MAGIC (Z.of_nat <$> seq 20 12) 0 0 0 []) ]} in
  byte_to_sector st (mk_inode 7 1 false 0 0) 600 = Some 21.
Proof.
  intros st.
  destruct (byte_to_sector_addressing st (mk_inode 7 1 false 0 0) 600) as [H _].
  - vm_compute. split; [discriminate | reflexivity].
  - rewrite H by lia. vm_compute. reflexivity.
Defined.

End Addressing.

(** *** The copy loops and the assertion of the cache *)

Section CopyLoops.
Import Inode.

Lemma chunk_of_bound (size offset len : Z) :
  fst (chunk_of size offset len) = Z.rem offset BLOCK_SECTOR_SIZE /\
  snd (chunk_of size offset len) <= BLOCK_SECTOR_SIZE - fst (chunk_of size offset len) /\
  snd (chunk_of size offset len) <= size.
Proof.
  unfold chunk_of. cbn [fst snd].
  destruct (len - offset <? _) eqn:E1;
    [apply Z.ltb_lt in E1 | apply Z.ltb_ge in E1];
    destruct (size <? _) eqn:E2;
    [apply Z.ltb_lt in E2 | apply Z.ltb_ge in E2
    |apply Z.ltb_lt in E2 | apply Z.ltb_ge in E2]; lia.
Qed.

Lemma read_loop_safe (fuel : nat) (st : gmap Z (list Z)) (ino : inode) :
  forall (size offset bytes_read : Z) (buffer : list Z),
    size <= Z.of_nat fuel ->
    (exists r, read_loop fuel st ino size offset bytes_read buffer = IoDone r) \/
    read_loop fuel st ino size offset bytes_read buffer = NoSector.
Proof.
  induction fuel as [|fuel IH]; intros size offset bytes_read buffer Hfuel.
  - cbn [read_loop]. destruct (size <=? 0) eqn:E; [eauto|].
    apply Z.leb_gt in E. lia.
  - cbn [read_loop]. destruct (size <=? 0) eqn:E; [eauto|].
    pose proof (chunk_of_bound size offset (inode_length st ino)) as (H1 & H2 & H3).
    destruct (chunk_of size offset (inode_length st ino)) as [sector_ofs chunk_size].
    cbn [fst snd] in H1, H2, H3.
    destruct (chunk_size <=? 0) eqn:Ec; [eauto|]. apply Z.leb_gt in Ec.
    destruct (byte_to_sector st ino offset) as [idx|]; [|now right].
    destruct ((sector_ofs =? 0) && (chunk_size =? BLOCK_SECTOR_SIZE)).
    + apply IH. lia.
    + unfold block_cache_read_offset.
      destruct (chunk_size + sector_ofs <=? BLOCK_SECTOR_SIZE) eqn:Ea;
        [|apply Z.leb_gt in Ea; lia].
      apply IH. lia.
Qed.

Lemma write_loop_safe (fuel : nat) (ino : inode) (buffer : list Z) :
  forall (st : gmap Z (list Z)) (size offset bytes_written : Z),
    size <= Z.of_nat fuel ->
    (exists r, write_loop fuel st ino buffer size offset bytes_written = IoDone r) \/
    write_loop fuel st ino buffer size offset bytes_written = NoSector.
Proof.
  induction fuel as [|fuel IH]; intros st size offset bytes_written Hfuel.
  - cbn [write_loop]. destruct (size <=? 0) eqn:E; [eauto|].
    apply Z.leb_gt in E. lia.
  - cbn [write_loop]. destruct (size <=? 0) eqn:E; [eauto|].
    pose proof (chunk_of_bound size offset (inode_length st ino)) as (H1 & H2 & H3).
    destruct (chunk_of size offset (inode_length st ino)) as [sector_ofs chunk_size].
    cbn [fst snd] in H1, H2, H3.
    destruct (chunk_size <=? 0) eqn:Ec; [eauto|]. apply Z.leb_gt in Ec.
    destruct (byte_to_sector st ino offset) as [idx|]; [|now right].
    destruct ((sector_ofs =? 0) && (chunk_size =? BLOCK_SECTOR_SIZE)).
    + apply IH. lia.
    + unfold block_cache_write_offset.
      destruct (chunk_size + sector_ofs <=? BLOCK_SECTOR_SIZE) eqn:Ea;
        [|apply Z.leb_gt in Ea; lia].
      apply IH. lia.
Qed.

(** C10.  In every iteration of the copy loops [sector_ofs] is
    [offset % 512] and [chunk_size] is at most [512 - sector_ofs], so that
    [chunk_size + sector_ofs <= 512]; and no run of [inode_read_at] or of
    [inode_write_at] ends at the assertion of [block_cache_read_offset] or
    [block_cache_write_offset].  (A write runs out of fuel only inside
    [inode_resize].) *)
Theorem copy_loops_within_sector :
  (forall size offset len : Z,
      fst (chunk_of size offset len) = Z.rem offset 512 /\
      snd (chunk_of size offset len) <= 512 - fst (chunk_of size offset len) /\
      snd (chunk_of size offset len) + fst (chunk_of size offset len)
        <= Cache.BLOCK_SECTOR_SIZE) /\
  (forall (st : gmap Z (list Z)) (ino : inode) (size offset : Z),
      (exists r, inode_read_at st ino size offset = IoDone r) \/
      inode_read_at st ino size offset = NoSector) /\
  (forall (fuel : nat) (dk : disk) (ino : inode) (buffer : list Z) (size offset : Z),
      inode_write_at fuel dk ino buffer size offset <> AssertFailed /\
      (inode_write_at fuel dk ino buffer size offset = OutOfFuel ->
       inode_resize fuel dk
         (inode_of_sector (block_cache_read (sectors dk) (sector ino)))
         (size + offset) = None)).
Proof.
  split; [|split].
  - intros size offset len.
    pose proof (chunk_of_bound size offset len) as (H1 & H2 & H3).
    unfold BLOCK_SECTOR_SIZE in *. unfold Cache.BLOCK_SECTOR_SIZE. lia.
  - intros st ino size offset. unfold inode_read_at.
    apply read_loop_safe. lia.
  - intros fuel dk ino buffer size offset. unfold inode_write_at.
    destruct (negb (deny_write_cnt ino =? 0)); [split; discriminate|].
    set (d := inode_of_sector (block_cache_read (sectors dk) (sector ino))).
    destruct (length d <? size + offset).
    + destruct (inode_resize fuel dk d (size + offset)) as [[[b dk'] d']|];
        [|split; [discriminate | reflexivity]].
      match goal with
      | |- context [write_loop ?f ?s ?i ?b ?sz ?o ?w] =>
          destruct (write_loop_safe f i b s sz o w) as [[[n st'] ->] | ->]; [lia| |]
      end; split; discriminate.
    + match goal with
      | |- context [write_loop ?f ?s ?i ?b ?sz ?o ?w] =>
          destruct (write_loop_safe f i b s sz o w) as [[[n st'] ->] | ->]; [lia| |]
      end; split; discriminate.
Qed.

End CopyLoops.

(** *** Deferred deletion *)

Section Truncate.
Import FreeMap Inode.

Lemma resize_slot_zero (pos : Z) (dk : disk) (slot : Z) :
  0 <= pos ->
  resize_slot 0 pos dk slot =
    Done (mk_disk (release_all (allocated [slot]) (free_map dk)) (sectors dk), 0).
Proof.
  intros Hpos. unfold resize_slot, BLOCK_SECTOR_SIZE.
  destruct (0 <=? 512 * pos) eqn:E1; [|apply Z.leb_gt in E1; lia].
  destruct (512 * pos <? 0) eqn:E2; [apply Z.ltb_lt in E2; lia|].
  unfold allocated. cbn [filter list_filter andb].
  destruct (slot =? 0) eqn:Es; cbn [negb andb].
  - apply Z.eqb_eq in Es. subst slot. destruct dk. reflexivity.
  - apply Z.eqb_neq in Es. rewrite decide_True by assumption. reflexivity.
Qed.

Lemma release_all_app (l1 l2 : list Z) (fm : list bool) :
  release_all (l1 ++ l2) fm = release_all l2 (release_all l1 fm).
Proof. unfold release_all. apply foldl_app. Qed.

Lemma allocated_app (l1 l2 : list Z) :
  allocated (l1 ++ l2) = allocated l1 ++ allocated l2.
Proof. unfold allocated. apply filter_app. Qed.

Lemma entry_insert_ne (a : list Z) (i k : nat) (v : Z) :
  i <> k -> entry (<[i := v]> a) (Z.of_nat k) = entry a (Z.of_nat k).
Proof.
  intros Hne. unfold entry. rewrite !Nat2Z.id.
  now rewrite list_lookup_insert_ne.
Qed.

Lemma entries_insert_before (a : list Z) (i j n : nat) (v : Z) :
  (i < j)%nat ->
  (fun k : nat => entry (<[i := v]> a) (Z.of_nat k)) <$> seq j n =
  (fun k : nat => entry a (Z.of_nat k)) <$> seq j n.
Proof.
  intros Hij. apply list_fmap_ext. intros m k Hk.
  apply lookup_seq in Hk as [-> _]. apply entry_insert_ne. lia.
Qed.

Lemma resize_leaves_zero (base : Z) (n : nat) :
  0 <= base ->
  forall (i : nat) (dk : disk) (slots : list Z),
    exists slots',
      resize_leaves n i 0 base dk slots =
        Done (mk_disk
                (release_all
                   (allocated ((fun k : nat => entry slots (Z.of_nat k)) <$> seq i n))
                   (free_map dk))
                (sectors dk), slots').
Proof.
  intros Hbase. induction n as [|n IH]; intros i dk slots.
  - exists slots. destruct dk. reflexivity.
  - cbn [resize_leaves]. rewrite resize_slot_zero by lia.
    destruct (IH (S i)
                (mk_disk (release_all (allocated [entry slots (Z.of_nat i)])
                                      (free_map dk)) (sectors dk))
                (<[i := 0]> slots)) as [slots' ->].
    exists slots'. cbn [free_map sectors seq fmap list_fmap].
    rewrite entries_insert_before by lia.
    change (?x :: ?l) with ([x] ++ l) at 2.
    rewrite allocated_app, release_all_app. reflexivity.
Qed.

Lemma resize_leaves_zero_block (base : Z) (dk : disk) (slots : list Z) :
  0 <= base ->
  exists slots',
    resize_leaves 128 0 0 base dk slots =
      Done (mk_disk (release_all (allocated (slots_of 128 slots)) (free_map dk))
                    (sectors dk), slots').
Proof. intros Hbase. apply (resize_leaves_zero base 128 Hbase 0 dk slots). Qed.

Lemma flat_map_unset (st : gmap Z (list Z)) (l : list Z) :
  (forall x, x ∈ l -> x = 0) -> flat_map (indirect_sectors st) l = [].
Proof.
  induction l as [|x l IH]; intros H; [reflexivity|]. cbn [flat_map].
  rewrite (H x) by apply list_elem_of_here. rewrite IH; [reflexivity|].
  intros y Hy. apply H. now apply list_elem_of_further.
Qed.

Lemma indirect_sectors_set (st : gmap Z (list Z)) (p : Z) :
  (p =? 0) = false ->
  indirect_sectors st p = allocated (slots_of 128 (pointer_block st p)) ++ [p].
Proof. intros E. unfold indirect_sectors. now rewrite E. Qed.

Lemma resize_doubly_zero (st : gmap Z (list Z)) (n : nat) :
  forall (i : nat) (fm : list bool) (buffer : list Z),
    (forall j k : nat, (i <= j <= k)%nat -> (k < i + n)%nat ->
        entry buffer (Z.of_nat j) = 0 -> entry buffer (Z.of_nat k) = 0) ->
    exists buffer',
      resize_doubly n i 0 (mk_disk fm st) buffer =
        Done (mk_disk
                (release_all
                   (flat_map (indirect_sectors st)
                      ((fun k : nat => entry buffer (Z.of_nat k)) <$> seq i n))
                   fm)
                st, buffer').
Proof.
  induction n as [|n IH]; intros i fm buffer Hfront.
  - exists buffer. reflexivity.
  - cbn [resize_doubly]. unfold BLOCK_SECTOR_SIZE.
    set (base := 12 + 128 + 128 * Z.of_nat i).
    destruct (0 <=? base * 512) eqn:E0; [|apply Z.leb_gt in E0; lia].
    rewrite !andb_true_r.
    destruct (entry buffer (Z.of_nat i) =? 0) eqn:Ez.
    + (* the loop is left at the first pointer that is not set *)
      apply Z.eqb_eq in Ez. exists buffer.
      rewrite flat_map_unset; [reflexivity|].
      intros x Hx. apply list_elem_of_fmap in Hx as (k & -> & Hk).
      apply elem_of_seq in Hk. apply (Hfront i k); [lia | lia | exact Ez].
    + cbn [negb sectors free_map].
      destruct (resize_leaves_zero_block base (mk_disk fm st)
                  (words_of_bytes (block_cache_read st (entry buffer (Z.of_nat i)))))
        as [in' ->]; [lia|].
      rewrite Ez. cbn [negb sectors free_map].
      destruct (IH (S i)
                  (free_map_release
                     (release_all
                        (allocated
                           (slots_of 128
                              (words_of_bytes
                                 (block_cache_read st (entry buffer (Z.of_nat i))))))
                        fm)
                     (entry buffer (Z.of_nat i)))
                  (<[i := 0]> buffer)) as [buffer' ->].
      { intros j k Hjk Hk. rewrite !entry_insert_ne by lia. apply Hfront; lia. }
      exists buffer'. cbn [seq fmap list_fmap flat_map andb].
      rewrite entries_insert_before by lia.
      rewrite release_all_app, (indirect_sectors_set _ _ Ez), release_all_app.
      reflexivity.
Qed.

Lemma forallb_unset_lookup (l : list Z) (k : nat) (x : Z) :
  forallb (fun y => y =? 0) l = true -> l !! k = Some x -> x = 0.
Proof.
  intros Hall Hk. rewrite forallb_forall in Hall.
  apply Z.eqb_eq, Hall, list_elem_of_In. eapply list_elem_of_lookup_2. exact Hk.
Qed.

Lemma front_loaded_lookup (l : list Z) :
  front_loaded l = true ->
  forall (j k : nat) (x : Z),
    (j <= k)%nat -> l !! j = Some 0 -> l !! k = Some x -> x = 0.
Proof.
  induction l as [|y l IH]; intros Hf j k x Hjk Hj Hk.
  - rewrite lookup_nil in Hj. discriminate.
  - cbn [front_loaded] in Hf. destruct j as [|j].
    + cbn in Hj. injection Hj as ->. cbn [Z.eqb] in Hf.
      destruct k as [|k]; cbn in Hk; [now injection Hk|].
      eapply forallb_unset_lookup; eassumption.
    + destruct k as [|k]; [lia|]. cbn in Hj, Hk.
      destruct (y =? 0).
      * eapply forallb_unset_lookup; eassumption.
      * eapply (IH Hf j k); [lia | eassumption | eassumption].
Qed.

Lemma slots_of_lookup (n : nat) (a : list Z) (k : nat) :
  (k < n)%nat -> slots_of n a !! k = Some (entry a (Z.of_nat k)).
Proof.
  intros Hk. unfold slots_of. rewrite list_lookup_fmap, lookup_seq_lt by lia.
  reflexivity.
Qed.

Lemma front_loaded_entries (n : nat) (a : list Z) :
  front_loaded (slots_of n a) = true ->
  forall j k : nat, (j <= k)%nat -> (k < n)%nat ->
    entry a (Z.of_nat j) = 0 -> entry a (Z.of_nat k) = 0.
Proof.
  intros Hf j k Hjk Hk Hj.
  eapply (front_loaded_lookup _ Hf j k); [exact Hjk | |].
  - rewrite slots_of_lookup by lia. now rewrite Hj.
  - now apply slots_of_lookup.
Qed.

Lemma resize_doubly_segment_zero (fm : list bool) (st : gmap Z (list Z))
    (d : inode_disk) :
  doubly_indirect_pointer d <> 0 ->
  front_loaded (slots_of 128 (pointer_block st (doubly_indirect_pointer d))) = true ->
  exists d',
    resize_doubly_segment (mk_disk fm st) d 0 =
      Done (mk_disk (release_all (doubly_sectors st (doubly_indirect_pointer d)) fm) st,
            d').
Proof.
  intros Hne Hfront. unfold resize_doubly_segment.
  apply Z.eqb_neq in Hne. rewrite Hne. cbn [sectors free_map].
  destruct (resize_doubly_zero st 128 0 fm
              (words_of_bytes (block_cache_read st (doubly_indirect_pointer d))))
    as [buffer' ->].
  { intros j k Hjk Hk. apply (front_loaded_entries _ _ Hfront); lia. }
  rewrite Hne. cbn [negb andb sectors free_map].
  eexists. unfold doubly_sectors. rewrite Hne, release_all_app. reflexivity.
Qed.

Lemma resize_indirect_segment_zero (fm : list bool) (st : gmap Z (list Z))
    (d : inode_disk) :
  indirect_pointer d <> 0 ->
  (doubly_indirect_pointer d <> 0 ->
   front_loaded (slots_of 128 (pointer_block st (doubly_indirect_pointer d))) = true) ->
  exists d',
    resize_indirect_segment (mk_disk fm st) d 0 =
      Done (mk_disk
              (release_all
                 (indirect_sectors st (indirect_pointer d)
                    ++ doubly_sectors st (doubly_indirect_pointer d)) fm) st,
            d').
Proof.
  intros Hne Hfront. unfold resize_indirect_segment.
  apply Z.eqb_neq in Hne. rewrite Hne. cbn [sectors free_map].
  destruct (resize_leaves_zero_block 12 (mk_disk fm st)
              (words_of_bytes (block_cache_read st (indirect_pointer d))))
    as [buffer' ->]; [lia|].
  rewrite Hne. unfold BLOCK_SECTOR_SIZE.
  change (0 <=? 12 * 512) with true. change (0 <=? (12 + 128) * 512) with true.
  cbn [negb andb sectors free_map doubly_indirect_pointer set_indirect].
  rewrite andb_true_r.
  rewrite release_all_app, (indirect_sectors_set _ _ Hne), release_all_app.
  destruct (doubly_indirect_pointer d =? 0) eqn:Ed.
  - eexists. unfold doubly_sectors. rewrite Ed. reflexivity.
  - apply Z.eqb_neq in Ed.
    destruct (resize_doubly_segment_zero
                (free_map_release
                   (release_all
                      (allocated
                         (slots_of 128
                            (words_of_bytes
                               (block_cache_read st (indirect_pointer d))))) fm)
                   (indirect_pointer d))
                st (set_indirect d 0) Ed (Hfront Ed)) as [d' Hd'].
    exists d'. exact Hd'.
Qed.

Lemma resize_pass_zero (fm : list bool) (st : gmap Z (list Z)) (d : inode_disk) :
  (doubly_indirect_pointer d <> 0 -> indirect_pointer d <> 0) ->
  (doubly_indirect_pointer d <> 0 ->
   front_loaded (slots_of 128 (pointer_block st (doubly_indirect_pointer d))) = true) ->
  exists d',
    resize_pass (mk_disk fm st) d 0 =
      Done (mk_disk (release_all (extent_sectors st d) fm) st, d').
Proof.
  intros Hdi Hfront. unfold resize_pass, extent_sectors.
  destruct (resize_leaves_zero 0 12 ltac:(lia) 0 (mk_disk fm st) (direct_pointer d))
    as [dp ->].
  fold (slots_of 12 (direct_pointer d)).
  cbn [indirect_pointer set_direct sectors free_map]. unfold BLOCK_SECTOR_SIZE.
  change (0 <=? 12 * 512) with true. rewrite andb_true_r, release_all_app.
  destruct (indirect_pointer d =? 0) eqn:Ei.
  - eexists. unfold indirect_sectors, doubly_sectors. rewrite Ei.
    destruct (doubly_indirect_pointer d =? 0) eqn:Ed; [reflexivity|].
    apply Z.eqb_neq in Ed. apply Z.eqb_eq in Ei. now apply Hdi in Ed.
  - apply Z.eqb_neq in Ei.
    destruct (resize_indirect_segment_zero
                (release_all (allocated (slots_of 12 (direct_pointer d))) fm)
                st (set_direct d dp) Ei Hfront) as [d' Hd'].
    exists d'. exact Hd'.
Qed.

Lemma free_count_release (fm : list bool) (i : nat) :
  fm !! i = Some true -> free_count (<[i := false]> fm) = S (free_count fm).
Proof.
  revert i. induction fm as [|x fm IH]; intros i Hi.
  - rewrite lookup_nil in Hi. discriminate.
  - destruct i as [|i].
    + cbn in Hi. injection Hi as ->. reflexivity.
    + change (<[S i := false]> (x :: fm)) with (x :: <[i := false]> fm).
      cbn in Hi. cbn [free_count]. rewrite (IH i Hi). now destruct x.
Qed.

Lemma release_all_spec (l : list Z) :
  forall fm : list bool,
    NoDup l ->
    Forall (fun s => 0 <= s /\ fm !! Z.to_nat s = Some true) l ->
    free_count (release_all l fm) = (free_count fm + List.length l)%nat /\
    Forall (fun s => release_all l fm !! Z.to_nat s = Some false) l /\
    (forall k : nat, k ∉ (Z.to_nat <$> l) -> release_all l fm !! k = fm !! k).
Proof.
  induction l as [|x l IH]; intros fm Hnd Hall.
  - cbn. split; [lia|]. split; [constructor | reflexivity].
  - apply NoDup_cons in Hnd as [Hx Hnd].
    apply Forall_cons in Hall as [[Hx0 Hxu] Hall].
    change (release_all (x :: l) fm) with (release_all l (free_map_release fm x)).
    assert (forall s, s ∈ l -> 0 <= s -> Z.to_nat s <> Z.to_nat x) as Hdiff.
    { intros s Hs Hs0 E. apply Hx. replace x with s by lia. exact Hs. }
    destruct (IH (free_map_release fm x) Hnd) as (Hc & Hf & Hk).
    { rewrite Forall_forall in Hall |- *. intros s Hs.
      destruct (Hall s Hs) as [Hs0 Hsu]. split; [exact Hs0|].
      unfold free_map_release. rewrite list_lookup_insert_ne; [exact Hsu|].
      intros E. now apply (Hdiff s Hs Hs0). }
    assert (Z.to_nat x ∉ (Z.to_nat <$> l)) as Hxl.
    { intros Hin. apply list_elem_of_fmap in Hin as (s & E & Hs).
      rewrite Forall_forall in Hall. destruct (Hall s Hs) as [Hs0 _].
      now apply (Hdiff s Hs Hs0). }
    split; [|split].
    + rewrite Hc. unfold free_map_release.
      rewrite (free_count_release _ _ Hxu). cbn [List.length]. lia.
    + constructor; [|exact Hf].
      rewrite (Hk _ Hxl). unfold free_map_release.
      apply list_lookup_insert_eq. now apply lookup_lt_Some in Hxu.
    + intros k Hkn. rewrite fmap_cons in Hkn. apply not_elem_of_cons in Hkn as [Hk1 Hk2].
      rewrite (Hk k Hk2). unfold free_map_release.
      now rewrite list_lookup_insert_ne.
Qed.

End Truncate.

(** *** Removal of a directory *)

Section RemoveDirectory.
Import Path Fs.


(** The bounds of the loops over a path are never reached: a larger bound
    gives the same result. *)
Lemma basename_loop_bound (fuel : nat) :
  forall part src : string,
    (String.length src < fuel)%nat ->
    basename_loop (S fuel) part src = basename_loop fuel part src.
Proof.
  induction fuel as [|fuel IH]; intros part src Hlen; [lia|].
  cbn [basename_loop].
  destruct (get_next_part_cases part src)
    as [[_ ->] | [[junk ->] | (p' & s' & -> & _ & Hs')]]; cbn [Z.eqb]; try reflexivity.
  apply (IH p' s'). lia.
Qed.

Lemma dir_loop_bound (ns : gmap Z node) (fuel : nat) :
  forall (dir : Z) (part src : string),
    (String.length src < fuel)%nat ->
    dir_loop (S fuel) ns dir part src = dir_loop fuel ns dir part src.
Proof.
  induction fuel as [|fuel IH]; intros dir part src Hlen; [lia|].
  cbn [dir_loop].
  destruct (get_next_part_cases part src)
    as [[_ ->] | [[junk ->] | (p' & s' & -> & _ & Hs')]]; cbn [Z.eqb]; try reflexivity.
  destruct (dir_lookup ns dir p') as [inode|]; [|reflexivity].
  destruct (dir_open ns (Some inode)) as [temp|]; [|reflexivity].
  apply (IH temp p' s'). lia.
Qed.




Lemma skip_slashes_absolute (path : string) :
  skip_slashes path = EmptyString -> path <> EmptyString -> is_absolute path = true.
Proof.
  destruct path as [|c rest]; [congruence|]. cbn.
  destruct (Ascii.eqb c "/"); [reflexivity | discriminate].
Qed.


Lemma only_dots_cons (e : dir_entry) (es : list dir_entry) :
  only_dots (e :: es) <->
  (in_use e = true -> name e = "."%string \/ name e = ".."%string) /\ only_dots es.
Proof. unfold only_dots. apply Forall_cons. Qed.

Lemma dots_eqb (nm : string) :
  String.eqb nm "." || String.eqb nm ".." = true <->
  nm = "."%string \/ nm = ".."%string.
Proof. rewrite orb_true_iff, !String.eqb_eq. reflexivity. Qed.

Lemma empty_loop_spec (ns : gmap Z node) (dir : Z) (es : list dir_entry) :
  ns !! dir = Some (Directory es) ->
  forall (l : list dir_entry) (pos fuel : nat),
    drop pos es = l -> (length l < fuel)%nat ->
    (empty_loop fuel ns dir pos = true <-> only_dots l).
Proof.
  intros Hdir. induction l as [|e l IH]; intros pos fuel Hdrop Hfuel.
  - destruct fuel as [|fuel]; [cbn in Hfuel; lia|].
    cbn [empty_loop]. unfold dir_readdir. rewrite Hdir, Hdrop. cbn.
    split; [constructor | reflexivity].
  - assert (drop (S pos) es = l) as Hdrop'.
    { assert (es !! pos = Some e) as Hpos.
      { rewrite <- (Nat.add_0_r pos), <- lookup_drop, Hdrop. reflexivity. }
      rewrite (drop_S _ _ _ Hpos) in Hdrop. now injection Hdrop. }
    destruct fuel as [|fuel]; [cbn in Hfuel; lia|]. cbn [length] in Hfuel.
    rewrite only_dots_cons.
    cbn [empty_loop]. unfold dir_readdir. rewrite Hdir, Hdrop. cbn [readdir_from].
    destruct (in_use e) eqn:Eu.
    + destruct (String.eqb (name e) "." || String.eqb (name e) "..") eqn:Ed.
      * rewrite (IH (S pos) fuel Hdrop') by lia.
        apply dots_eqb in Ed. tauto.
      * split; [discriminate|]. intros [H _].
        apply dots_eqb in H; [|reflexivity]. congruence.
    + specialize (IH (S pos) (S fuel) Hdrop' ltac:(lia)).
      cbn [empty_loop] in IH. unfold dir_readdir in IH. rewrite Hdir, Hdrop' in IH.
      rewrite IH. split; [intros H; split; [discriminate | exact H] | tauto].
Qed.

Lemma path_is_empty_dir_spec (ns : gmap Z node) (dir : Z) (es : list dir_entry) :
  ns !! dir = Some (Directory es) ->
  (path_is_empty_dir ns dir = true <-> only_dots es).
Proof.
  intros Hdir. unfold path_is_empty_dir, dir_reopen, dir_open. rewrite Hdir.
  apply (empty_loop_spec ns dir es Hdir es 0); [reflexivity | lia].
Qed.











End RemoveDirectory.

(** *** The extent tree that a resize builds *)

Section Codec.
Import Inode.

Lemma words_of_word_bytes (w : Z) (rest : list Z) :
  0 <= w < 2 ^ 32 ->
  words_of_bytes (word_bytes w ++ rest) = w :: words_of_bytes rest.
Proof.
  intros Hw. unfold word_bytes. cbn [app words_of_bytes]. f_equal.
  change (2 ^ 32) with 4294967296 in Hw.
  pose proof (Z.div_mod w 256 ltac:(lia)).
  pose proof (Z.div_mod (w / 256) 256 ltac:(lia)).
  pose proof (Z.div_mod (w / 256 / 256) 256 ltac:(lia)).
  pose proof (Z.div_mod (w / 256 / 256 / 256) 256 ltac:(lia)).
  assert (w / 65536 = w / 256 / 256) as E2 by (rewrite Z.div_div by lia; reflexivity).
  assert (w / 16777216 = w / 256 / 256 / 256) as E3
    by (rewrite !Z.div_div by lia; reflexivity).
  assert (w / 256 / 256 / 256 / 256 = 0) as E4.
  { rewrite !Z.div_div by lia. apply Z.div_small. lia. }
  rewrite E2, E3. lia.
Qed.

Lemma words_of_bytes_of_words (ws : list Z) :
  Forall (fun w => 0 <= w < 2 ^ 32) ws ->
  words_of_bytes (bytes_of_words ws) = ws.
Proof.
  induction 1 as [|w ws Hw _ IH]; [reflexivity|].
  unfold bytes_of_words. cbn [flat_map].
  rewrite words_of_word_bytes by assumption. f_equal. exact IH.
Qed.

End Codec.

Section Allocation.
Import FreeMap Inode.

Lemma scan_spec (fm : list bool) :
  forall (k i : nat),
    scan fm k = Some i -> (k <= i)%nat /\ fm !! (i - k)%nat = Some false.
Proof.
  induction fm as [|b fm IH]; intros k i; cbn [scan]; [discriminate|].
  destruct b.
  - intros H. destruct (IH _ _ H) as [H1 H2]. split; [lia|].
    replace (i - k)%nat with (S (i - S k)) by lia. exact H2.
  - intros H. injection H as <-. split; [lia|]. now rewrite Nat.sub_diag.
Qed.

Lemma free_map_allocate_spec (fm fm' : list bool) (sec : Z) :
  fm !! 0%nat = Some true ->
  free_map_allocate fm = Some (sec, fm') ->
  0 < sec /\ fm !! Z.to_nat sec = Some false /\ fm' = <[Z.to_nat sec := true]> fm.
Proof.
  intros H0. unfold free_map_allocate.
  destruct (scan fm 0) as [i|] eqn:E; [|discriminate].
  intros H. injection H as <- <-.
  destruct (scan_spec fm 0 i E) as [_ Hi]. rewrite Nat.sub_0_r in Hi.
  rewrite Nat2Z.id. split; [|split; [exact Hi | reflexivity]].
  destruct i; [congruence | lia].
Qed.

Lemma mark_all_cons (s : Z) (l : list Z) (fm : list bool) :
  mark_all (s :: l) fm = mark_all l (<[Z.to_nat s := true]> fm).
Proof. reflexivity. Qed.

Lemma mark_all_app (l1 l2 : list Z) (fm : list bool) :
  mark_all (l1 ++ l2) fm = mark_all l2 (mark_all l1 fm).
Proof. unfold mark_all. apply foldl_app. Qed.

Lemma mark_all_other (l : list Z) :
  forall (fm : list bool) (k : nat),
    k ∉ (Z.to_nat <$> l) -> mark_all l fm !! k = fm !! k.
Proof.
  induction l as [|s l IH]; intros fm k Hk; [reflexivity|].
  rewrite fmap_cons in Hk. apply not_elem_of_cons in Hk as [Hk1 Hk2].
  rewrite mark_all_cons, IH by assumption. now rewrite list_lookup_insert_ne.
Qed.

Lemma mark_all_free (l : list Z) :
  forall (fm : list bool) (k : nat),
    mark_all l fm !! k = Some false ->
    fm !! k = Some false /\ k ∉ (Z.to_nat <$> l).
Proof.
  induction l as [|s l IH]; intros fm k Hk.
  - split; [exact Hk | apply not_elem_of_nil].
  - rewrite mark_all_cons in Hk. destruct (IH _ _ Hk) as [H1 H2].
    destruct (decide (Z.to_nat s = k)) as [E|E].
    + subst k. exfalso.
      destruct (decide (Z.to_nat s < List.length fm)%nat) as [Hl|Hl].
      * rewrite list_lookup_insert_eq in H1 by assumption. discriminate.
      * rewrite list_insert_ge in H1 by lia.
        apply lookup_lt_Some in H1. lia.
    + rewrite list_lookup_insert_ne in H1 by assumption.
      split; [exact H1|]. rewrite fmap_cons. now apply not_elem_of_cons.
Qed.

Lemma mark_all_used (l : list Z) :
  forall (fm : list bool) (k : nat),
    fm !! k = Some true -> mark_all l fm !! k = Some true.
Proof.
  induction l as [|s l IH]; intros fm k Hk; [exact Hk|].
  rewrite mark_all_cons. apply IH.
  destruct (decide (Z.to_nat s = k)) as [<-|E].
  - apply list_lookup_insert_eq. now apply lookup_lt_Some in Hk.
  - now rewrite list_lookup_insert_ne.
Qed.

Lemma mark_all_length (l : list Z) (fm : list bool) :
  List.length (mark_all l fm) = List.length fm.
Proof.
  revert fm. induction l as [|s l IH]; intros fm; [reflexivity|].
  now rewrite mark_all_cons, IH, length_insert.
Qed.

Lemma mark_all_marked (l : list Z) (fm : list bool) (s : Z) :
  s ∈ l -> (Z.to_nat s < List.length fm)%nat -> mark_all l fm !! Z.to_nat s = Some true.
Proof.
  revert fm. induction l as [|x l IH]; intros fm Hs Hlen.
  - now apply not_elem_of_nil in Hs.
  - rewrite mark_all_cons. apply elem_of_cons in Hs as [->|Hs].
    + apply mark_all_used. now apply list_lookup_insert_eq.
    + apply IH; [exact Hs | now rewrite length_insert].
Qed.

Lemma to_nat_elem (s : Z) (l : list Z) :
  0 < s -> Forall (fun x => 0 < x) l -> Z.to_nat s ∈ (Z.to_nat <$> l) -> s ∈ l.
Proof.
  intros Hs Hl Hin. apply list_elem_of_fmap in Hin as (x & E & Hx).
  rewrite Forall_forall in Hl. specialize (Hl x Hx).
  replace s with x by lia. exact Hx.
Qed.

Lemma fresh_in_positive (fm : list bool) (l : list Z) :
  fresh_in fm l -> Forall (fun x => 0 < x) l.
Proof. intros [_ H]. eapply Forall_impl; [exact H|]. now intros x [Hx _]. Qed.

Lemma allocs_nil (dk : disk) : allocs dk [] dk.
Proof.
  split; [split; constructor|]. split; reflexivity.
Qed.

Lemma allocs_app (dk dk1 dk2 : disk) (l1 l2 : list Z) :
  allocs dk l1 dk1 -> allocs dk1 l2 dk2 -> allocs dk (l1 ++ l2) dk2.
Proof.
  intros ([Hnd1 Hf1] & Hfm1 & Hst1) ([Hnd2 Hf2] & Hfm2 & Hst2).
  rewrite Hfm1 in Hf2, Hfm2.
  assert (Forall (fun s => 0 < s /\ free_map dk !! Z.to_nat s = Some false
                            /\ s ∉ l1) l2) as Hf2'.
  { rewrite Forall_forall in Hf2 |- *. intros s Hs.
    destruct (Hf2 s Hs) as [Hs0 Hsf].
    destruct (mark_all_free _ _ _ Hsf) as [H1 H2].
    split; [exact Hs0|]. split; [exact H1|].
    intros Hin. apply H2. apply list_elem_of_fmap. eauto. }
  split; [split|split].
  - apply NoDup_app. split; [exact Hnd1|]. split; [|exact Hnd2].
    intros x Hx1 Hx2. rewrite Forall_forall in Hf2'.
    now destruct (Hf2' x Hx2) as (_ & _ & H).
  - apply Forall_app. split; [exact Hf1|].
    eapply Forall_impl; [exact Hf2'|]. cbn. tauto.
  - now rewrite Hfm2, mark_all_app.
  - intros k Hk. apply not_elem_of_app in Hk as [Hk1 Hk2].
    now rewrite Hst2, Hst1.
Qed.

Lemma allocs_one (dk : disk) (sec : Z) (fm : list bool) (data : list Z) :
  free_map dk !! 0%nat = Some true ->
  free_map_allocate (free_map dk) = Some (sec, fm) ->
  allocs dk [sec] (mk_disk fm (block_cache_write (sectors dk) sec data)).
Proof.
  intros H0 Ha. destruct (free_map_allocate_spec _ _ _ H0 Ha) as (Hs & Hf & ->).
  split; [split|split].
  - apply NoDup_singleton.
  - constructor; [auto | constructor].
  - reflexivity.
  - intros k Hk. apply not_elem_of_cons in Hk as [Hk _].
    cbn [sectors]. unfold block_cache_write. now rewrite lookup_insert_ne.
Qed.

Lemma allocs_root (dk dk' : disk) (l : list Z) :
  allocs dk l dk' -> free_map dk !! 0%nat = Some true ->
  free_map dk' !! 0%nat = Some true.
Proof. intros (_ & -> & _) H0. now apply mark_all_used. Qed.

End Allocation.

Section Fill.
Import FreeMap Inode.

Lemma entry_middle (prefix rest : list Z) (x : Z) :
  entry (prefix ++ x :: rest) (Z.of_nat (List.length prefix)) = x.
Proof. unfold entry. rewrite Nat2Z.id, list_lookup_middle; reflexivity. Qed.

Lemma insert_middle (prefix rest : list Z) (x v : Z) :
  <[List.length prefix := v]> (prefix ++ x :: rest) = (prefix ++ [v]) ++ rest.
Proof.
  rewrite insert_app_r_alt by lia. rewrite Nat.sub_diag, <- app_assoc. reflexivity.
Qed.

Lemma resize_slot_unset (len pos : Z) (dk : disk) :
  0 <= len ->
  resize_slot len pos dk 0 =
    if pos <? bytes_to_sectors len then
      match free_map_allocate (free_map dk) with
      | None => NoSpace (dk, 0)
      | Some (sec, fm) =>
          Done (mk_disk fm (block_cache_write (sectors dk) sec zeros), sec)
      end
    else Done (dk, 0).
Proof.
  intros Hlen. unfold resize_slot. rewrite below_len by assumption.
  cbn [Z.eqb negb]. rewrite andb_false_r, andb_true_r. reflexivity.
Qed.

Lemma leaves_fill (len base : Z) (n : nat) :
  0 <= len ->
  forall (prefix : list Z) (dk dk' : disk) (slots' : list Z),
    free_map dk !! 0%nat = Some true ->
    resize_leaves n (List.length prefix) len base dk (prefix ++ repeat 0 n)
      = Done (dk', slots') ->
    exists news,
      slots' = prefix ++ news ++ repeat 0 (n - List.length news) /\
      List.length news =
        leaves_need n (base + Z.of_nat (List.length prefix)) (bytes_to_sectors len) /\
      allocs dk news dk'.
Proof.
  intros Hlen. induction n as [|n IH]; intros prefix dk dk' slots' H0 Hrun.
  - cbn in Hrun. injection Hrun as <- <-. exists [].
    split; [reflexivity|]. split; [unfold leaves_need; cbn; lia | apply allocs_nil].
  - cbn [resize_leaves repeat] in Hrun.
    rewrite entry_middle, resize_slot_unset in Hrun by assumption.
    rewrite leaves_need_step.
    replace (base + Z.of_nat (List.length prefix) + 1)
      with (base + Z.of_nat (List.length (prefix ++ [0]))) in *
      by (rewrite length_app; cbn; lia).
    destruct (base + Z.of_nat (List.length prefix) <? bytes_to_sectors len) eqn:Eb.
    + destruct (free_map_allocate (free_map dk)) as [[sec fm]|] eqn:Ea;
        [|discriminate].
      pose proof (allocs_one dk sec fm zeros H0 Ea) as Hone.
      rewrite insert_middle in Hrun.
      replace (S (List.length prefix)) with (List.length (prefix ++ [sec])) in Hrun
        by (rewrite length_app; cbn; lia).
      destruct (IH (prefix ++ [sec]) _ dk' slots' (allocs_root _ _ _ Hone H0) Hrun)
        as (news & -> & Hl & Ha).
      exists (sec :: news). split; [|split].
      * rewrite <- !app_assoc. reflexivity.
      * cbn [List.length]. rewrite Hl, !length_app. cbn [List.length]. lia.
      * apply (allocs_app dk _ dk' [sec] news Hone Ha).
    + rewrite insert_middle in Hrun.
      replace (S (List.length prefix)) with (List.length (prefix ++ [0])) in Hrun
        by (rewrite length_app; cbn; lia).
      destruct (IH (prefix ++ [0]) dk dk' slots' H0 Hrun) as (news & -> & Hl & Ha).
      assert (news = []) as ->.
      { apply nil_length_inv. rewrite Hl. unfold leaves_need.
        apply Z.ltb_ge in Eb. rewrite length_app. cbn [List.length]. lia. }
      exists []. split; [|split; [|exact Ha]].
      * rewrite <- !app_assoc. cbn. now rewrite Nat.sub_0_r.
      * rewrite <- Hl. reflexivity.
Qed.

End Fill.

Section FillDoubly.
Import FreeMap Inode.

Lemma fresh_in_unused (fm : list bool) (l : list Z) (s : Z) :
  fresh_in fm l -> fm !! Z.to_nat s = Some true -> s ∉ l.
Proof.
  intros [_ Hf] Hs Hin. rewrite Forall_forall in Hf.
  destruct (Hf s Hin) as [_ H]. congruence.
Qed.

Lemma allocs_marked (dk dk' : disk) (l : list Z) (s : Z) :
  allocs dk l dk' -> s ∈ l -> free_map dk' !! Z.to_nat s = Some true.
Proof.
  intros ([_ Hf] & -> & _) Hs. apply mark_all_marked; [exact Hs|].
  rewrite Forall_forall in Hf. destruct (Hf s Hs) as [_ H].
  now apply lookup_lt_Some in H.
Qed.

Lemma allocs_rewrite (dk dk' : disk) (l : list Z) (s : Z) (data : list Z) :
  allocs dk l dk' -> s ∈ l ->
  allocs dk l (mk_disk (free_map dk') (block_cache_write (sectors dk') s data)).
Proof.
  intros (Hf & Hfm & Hst) Hs. split; [exact Hf|]. split; [exact Hfm|].
  intros k Hk. cbn [sectors]. unfold block_cache_write.
  rewrite lookup_insert_ne; [now apply Hst|]. intros ->. contradiction.
Qed.

Lemma allocs_kept (dk dk' : disk) (l : list Z) (s : Z) :
  allocs dk l dk' -> free_map dk !! Z.to_nat s = Some true ->
  sectors dk' !! s = sectors dk !! s.
Proof.
  intros (Hf & _ & Hst) Hs. apply Hst. now apply (fresh_in_unused _ _ _ Hf).
Qed.

(** What the loop over the doubly-indirect block builds from an array of
    zeros: [blocks] pairs every indirect block with the sectors under it. *)
Lemma doubly_fill (len : Z) (n : nat) :
  0 <= len ->
  forall (prefix : list Z) (dk dk' : disk) (buffer' : list Z),
    free_map dk !! 0%nat = Some true ->
    resize_doubly n (List.length prefix) len dk (prefix ++ repeat 0 n)
      = Done (dk', buffer') ->
    exists blocks : list (Z * list Z),
      (List.length blocks <= n)%nat /\
      buffer' = prefix ++ (fst <$> blocks) ++ repeat 0 (n - List.length blocks) /\
      allocs dk (flat_map (fun bl => fst bl :: snd bl) blocks) dk' /\
      Forall (fun bl =>
                (List.length (snd bl) <= 128)%nat /\
                sectors dk' !! fst bl =
                  Some (bytes_of_words
                          (snd bl ++ repeat 0 (128 - List.length (snd bl)))))
             blocks.
Proof.
  intros Hlen. induction n as [|n IH]; intros prefix dk dk' buffer' H0 Hrun.
  - cbn in Hrun. injection Hrun as <- <-. exists [].
    split; [reflexivity|]. split; [reflexivity|].
    split; [apply allocs_nil | constructor].
  - change (repeat 0 (S n)) with (0 :: repeat 0 n) in Hrun.
    cbn [resize_doubly] in Hrun. rewrite entry_middle in Hrun.
    set (base := 12 + 128 + 128 * Z.of_nat (List.length prefix)) in *.
    rewrite above_len' in Hrun by assumption. cbn [Z.eqb andb] in Hrun.
    destruct (base <? bytes_to_sectors len) eqn:Eb; cbn [negb] in Hrun.
    2:{ injection Hrun as <- <-. exists [].
        split; [cbn; lia|]. split; [reflexivity|].
        split; [apply allocs_nil | constructor]. }
    destruct (free_map_allocate (free_map dk)) as [[sec fm]|] eqn:Ea;
      cbv beta iota zeta in Hrun; [|discriminate].
    pose proof (allocs_one dk sec fm zeros H0 Ea) as Hone.
    rewrite insert_middle in Hrun.
    set (dk1 := mk_disk fm (block_cache_write (sectors dk) sec zeros)) in *.
    destruct (resize_leaves 128 0 len base dk1 (repeat 0 128%nat))
      as [[dk2 inside]|[dk2 inside]] eqn:El; [|discriminate].
    destruct (leaves_fill len base 128 Hlen [] dk1 dk2 inside
                (allocs_root _ _ _ Hone H0) El) as (news & -> & Hn & Hleaves).
    cbn [app] in Hrun.
    assert ((List.length news <= 128)%nat) as Hn128.
    { rewrite Hn. unfold leaves_need. lia. }
    replace (entry ((prefix ++ [sec]) ++ repeat 0 n) (Z.of_nat (List.length prefix)))
      with sec in Hrun.
    2:{ rewrite <- app_assoc. cbn [app]. now rewrite entry_middle. }
    rewrite andb_false_r in Hrun.
    pose proof (allocs_app dk dk1 dk2 [sec] news Hone Hleaves) as H12.
    assert (sec ∈ [sec] ++ news) as Hsec by (apply list_elem_of_here).
    pose proof (allocs_rewrite dk dk2 _ sec
                  (bytes_of_words (news ++ repeat 0 (128 - List.length news)))
                  H12 Hsec) as H13.
    set (dk3 := mk_disk (free_map dk2) _) in *.
    replace (S (List.length prefix)) with (List.length (prefix ++ [sec])) in Hrun
      by (rewrite length_app; cbn; lia).
    destruct (IH (prefix ++ [sec]) dk3 dk' buffer' (allocs_root _ _ _ H13 H0) Hrun)
      as (blocks & Hnb & -> & Hrest & Hblocks).
    exists ((sec, news) :: blocks). split; [cbn; lia|]. split; [|split].
    + rewrite <- !app_assoc. reflexivity.
    + cbn [flat_map fst snd].
      apply (allocs_app dk dk3 dk' (sec :: news) _ H13 Hrest).
    + constructor; [|exact Hblocks]. cbn [fst snd]. split; [exact Hn128|].
      rewrite (allocs_kept dk3 dk' _ sec Hrest).
      * subst dk3. cbn [sectors]. unfold block_cache_write.
        apply lookup_insert_eq.
      * subst dk3. cbn [free_map]. apply (allocs_marked dk dk2 _ sec H12 Hsec).
Qed.

End FillDoubly.

Section Shape.
Import FreeMap Inode.

Lemma slots_of_self (n : nat) (l : list Z) :
  List.length l = n -> slots_of n l = l.
Proof.
  intros Hl. apply list_eq. intros i. unfold slots_of.
  rewrite list_lookup_fmap.
  destruct (decide (i < n)%nat) as [Hi|Hi].
  - rewrite lookup_seq_lt by lia. cbn. unfold entry. rewrite Nat2Z.id.
    destruct (l !! i) eqn:E; [reflexivity|].
    apply lookup_ge_None in E. lia.
  - rewrite lookup_seq_ge by lia. cbn. symmetry. apply lookup_ge_None. lia.
Qed.

Lemma full_length (l : list Z) (n : nat) :
  (List.length l <= n)%nat -> List.length (full l n) = n.
Proof. intros H. unfold full. rewrite length_app, repeat_length. lia. Qed.

Lemma allocated_zeros (m : nat) : allocated (repeat 0 m) = [].
Proof.
  induction m as [|m IH]; [reflexivity|]. cbn [repeat]. unfold allocated in *.
  rewrite filter_cons_False by (intros H; now apply H). exact IH.
Qed.

Lemma allocated_full (l : list Z) (n : nat) :
  Forall sector_number l -> allocated (full l n) = l.
Proof.
  intros Hl. unfold full. rewrite allocated_app, allocated_zeros, app_nil_r.
  unfold allocated. induction Hl as [|x l Hx _ IH]; [reflexivity|].
  rewrite filter_cons_True by (unfold sector_number in Hx; lia). now rewrite IH.
Qed.

Lemma full_in_range (l : list Z) (n : nat) :
  Forall sector_number l -> Forall (fun w => 0 <= w < 2 ^ 32) (full l n).
Proof.
  intros Hl. unfold full. apply Forall_app. split.
  - eapply Forall_impl; [exact Hl|]. unfold sector_number. intros; lia.
  - apply Forall_forall. intros x Hx. apply list_elem_of_In, repeat_spec in Hx.
    subst x. lia.
Qed.

Lemma pointer_block_held (st : gmap Z (list Z)) (p : Z) (l : list Z) :
  holds_block st p l -> Forall sector_number l ->
  slots_of 128 (pointer_block st p) = full l 128.
Proof.
  intros [Hlen Hst] Hl. unfold pointer_block, block_cache_read. rewrite Hst.
  cbn [default from_option id].
  rewrite words_of_bytes_of_words by now apply full_in_range.
  apply slots_of_self. now apply full_length.
Qed.

Lemma indirect_sectors_held (st : gmap Z (list Z)) (p : Z) (l : list Z) :
  holds_block st p l -> sector_number p -> Forall sector_number l ->
  indirect_sectors st p = l ++ [p].
Proof.
  intros Hb Hp Hl. unfold indirect_sectors.
  destruct (p =? 0) eqn:E; [apply Z.eqb_eq in E; unfold sector_number in Hp; lia|].
  now rewrite (pointer_block_held _ _ _ Hb Hl), allocated_full.
Qed.

Lemma indirect_sectors_zeros (st : gmap Z (list Z)) (m : nat) :
  flat_map (indirect_sectors st) (repeat 0 m) = [].
Proof. induction m as [|m IH]; [reflexivity|]. cbn. exact IH. Qed.

Lemma front_loaded_padded (l : list Z) (m : nat) :
  Forall sector_number l -> front_loaded (l ++ repeat 0 m) = true.
Proof.
  intros Hl. induction Hl as [|x l Hx _ IH].
  - destruct m as [|m]; [reflexivity|]. cbn [app repeat front_loaded Z.eqb].
    apply forallb_forall. intros y Hy. apply repeat_spec in Hy. now subst y.
  - cbn [app front_loaded].
    destruct (x =? 0) eqn:E; [apply Z.eqb_eq in E; unfold sector_number in Hx; lia|].
    exact IH.
Qed.

End Shape.

Section Built.
Import FreeMap Inode.

Lemma flat_map_blocks (st : gmap Z (list Z)) (blocks : list (Z * list Z)) (m : nat) :
  Forall (fun bl => holds_block st (fst bl) (snd bl)) blocks ->
  Forall sector_number (flat_map (fun bl => fst bl :: snd bl) blocks) ->
  flat_map (indirect_sectors st) ((fst <$> blocks) ++ repeat 0 m) =
  flat_map (fun bl => snd bl ++ [fst bl]) blocks.
Proof.
  intros Hb Hs. rewrite flat_map_app, indirect_sectors_zeros, app_nil_r.
  induction Hb as [|[b l] blocks Hbl _ IH]; [reflexivity|].
  cbn [flat_map fst snd fmap list_fmap] in Hs |- *.
  apply Forall_cons in Hs as [Hsb Hs]. apply Forall_app in Hs as [Hsl Hs].
  rewrite (indirect_sectors_held st b l Hbl Hsb Hsl). f_equal. now apply IH.
Qed.

Lemma blocks_heads_numbers (blocks : list (Z * list Z)) :
  Forall sector_number (flat_map (fun bl => fst bl :: snd bl) blocks) ->
  Forall sector_number (fst <$> blocks).
Proof.
  induction blocks as [|[b l] blocks IH]; intros H; [constructor|].
  cbn [flat_map fst snd fmap list_fmap] in H |- *.
  apply Forall_cons in H as [Hb H]. apply Forall_app in H as [_ H].
  constructor; [exact Hb | now apply IH].
Qed.

Lemma extent_of_built (st : gmap Z (list Z)) (d : inode_disk) (t : tree_shape) :
  built st d t -> Forall sector_number (alloc_order t) ->
  extent_sectors st d = release_order t /\
  (doubly_indirect_pointer d <> 0 -> indirect_pointer d <> 0) /\
  (doubly_indirect_pointer d <> 0 ->
   front_loaded (slots_of 128 (pointer_block st (doubly_indirect_pointer d))) = true).
Proof.
  unfold extent_sectors.
  destruct t as [ds | ds p ls | ds p ls q blocks]; cbn [built alloc_order release_order].
  - intros (Hlen & -> & -> & ->) Hs.
    rewrite slots_of_self, allocated_full by (try apply full_length; assumption).
    cbn. rewrite app_nil_r. split; [reflexivity|]. split; intros H; now elim H.
  - intros (Hlen & -> & -> & Hp & ->) Hs.
    apply Forall_app in Hs as [Hds Hs]. apply Forall_cons in Hs as [Hsp Hls].
    rewrite slots_of_self, allocated_full by (try apply full_length; assumption).
    rewrite (indirect_sectors_held st p ls Hp Hsp Hls). cbn. rewrite app_nil_r.
    split; [reflexivity|]. split; intros H; now elim H.
  - intros (Hlen & -> & -> & Hp & -> & Hq & Hblocks) Hs.
    apply Forall_app in Hs as [Hds Hs]. apply Forall_app in Hs as [Hs1 Hs2].
    apply Forall_cons in Hs1 as [Hsp Hls]. apply Forall_cons in Hs2 as [Hsq Hbs].
    rewrite slots_of_self, allocated_full by (try apply full_length; assumption).
    rewrite (indirect_sectors_held st p ls Hp Hsp Hls).
    pose proof (blocks_heads_numbers blocks Hbs) as Hheads.
    pose proof (pointer_block_held st q _ Hq Hheads) as Hqb.
    unfold doubly_sectors.
    destruct (q =? 0) eqn:E; [apply Z.eqb_eq in E; unfold sector_number in Hsq; lia|].
    rewrite Hqb. unfold full at 1. rewrite (flat_map_blocks st blocks _ Hblocks Hbs).
    split; [reflexivity|]. split.
    + intros _. unfold sector_number in Hsp. lia.
    + intros _. unfold full. now apply front_loaded_padded.
Qed.

Lemma release_alloc_perm (t : tree_shape) : release_order t ≡ₚ alloc_order t.
Proof.
  assert (forall blocks : list (Z * list Z),
             flat_map (fun bl => snd bl ++ [fst bl]) blocks ≡ₚ
             flat_map (fun bl => fst bl :: snd bl) blocks) as Hblocks.
  { induction blocks as [|[b l] blocks IH]; [reflexivity|].
    cbn [flat_map fst snd]. rewrite IH.
    apply Permutation_app_tail. symmetry. apply Permutation_cons_append. }
  destruct t as [ds | ds p ls | ds p ls q blocks]; cbn [alloc_order release_order].
  - reflexivity.
  - apply Permutation_app_head. symmetry. apply Permutation_cons_append.
  - apply Permutation_app_head. apply Permutation_app.
    + symmetry. apply Permutation_cons_append.
    + rewrite Hblocks. symmetry. apply Permutation_cons_append.
Qed.

End Built.

Section FillPass.
Import FreeMap Inode.

Lemma holds_block_written (st : gmap Z (list Z)) (p : Z) (l : list Z) :
  (List.length l <= 128)%nat ->
  holds_block (block_cache_write st p (bytes_of_words (full l 128))) p l.
Proof.
  intros Hl. split; [exact Hl|]. unfold block_cache_write. apply lookup_insert_eq.
Qed.

Lemma holds_block_kept (st st' : gmap Z (list Z)) (p : Z) (l : list Z) :
  st' !! p = st !! p -> holds_block st p l -> holds_block st' p l.
Proof. intros E [H1 H2]. split; [exact H1 | now rewrite E]. Qed.

Lemma leaves_fill_block (len base : Z) (dk dk' : disk) (slots' : list Z) (n : nat) :
  0 <= len ->
  free_map dk !! 0%nat = Some true ->
  resize_leaves n 0 len base dk (repeat 0 n) = Done (dk', slots') ->
  exists news,
    (List.length news <= n)%nat /\ slots' = full news n /\ allocs dk news dk'.
Proof.
  intros Hlen H0 Hrun.
  destruct (leaves_fill len base n Hlen [] dk dk' slots' H0 Hrun)
    as (news & -> & Hl & Ha).
  exists news. split; [|split; [reflexivity | exact Ha]].
  rewrite Hl. unfold leaves_need. lia.
Qed.

Lemma doubly_segment_fill (len : Z) (dk dk' : disk) (d d' : inode_disk) :
  0 <= len ->
  free_map dk !! 0%nat = Some true ->
  doubly_indirect_pointer d = 0 ->
  (12 + 128 <? bytes_to_sectors len) = true ->
  resize_doubly_segment dk d len = Done (dk', d') ->
  exists q blocks,
    d' = set_length (set_doubly d q) len /\
    allocs dk (q :: flat_map (fun bl => fst bl :: snd bl) blocks) dk' /\
    holds_block (sectors dk') q (fst <$> blocks) /\
    Forall (fun bl => holds_block (sectors dk') (fst bl) (snd bl)) blocks.
Proof.
  intros Hlen H0 Hd HD Hrun. unfold resize_doubly_segment in Hrun.
  rewrite Hd in Hrun. cbn [Z.eqb] in Hrun.
  destruct (free_map_allocate (free_map dk)) as [[q fm]|] eqn:Ea;
    cbv beta iota zeta in Hrun; [|discriminate].
  pose proof (allocs_one dk q fm zeros H0 Ea) as Hone.
  set (dk1 := mk_disk fm (block_cache_write (sectors dk) q zeros)) in *.
  destruct (resize_doubly 128 0 len dk1 (repeat 0 128%nat))
    as [[dk2 buffer']|[dk2 buffer']] eqn:El; [|discriminate].
  destruct (doubly_fill len 128 Hlen [] dk1 dk2 buffer'
              (allocs_root _ _ _ Hone H0) El) as (blocks & Hnb & -> & Hfill & Hblocks).
  rewrite above_len' in Hrun by assumption. rewrite HD in Hrun.
  cbn [negb] in Hrun. rewrite andb_false_r in Hrun. injection Hrun as <- <-.
  pose proof (allocs_app dk dk1 dk2 [q] _ Hone Hfill) as H12.
  assert (q ∈ [q] ++ flat_map (fun bl => fst bl :: snd bl) blocks) as Hq
    by apply list_elem_of_here.
  exists q, blocks. split; [reflexivity|]. split; [|split].
  - apply (allocs_rewrite dk dk2 _ q _ H12 Hq).
  - cbn [sectors doubly_indirect_pointer set_doubly app]. split.
    + now rewrite length_fmap.
    + unfold full. rewrite length_fmap. unfold block_cache_write.
      apply lookup_insert_eq.
  - cbn [sectors doubly_indirect_pointer set_doubly].
    rewrite Forall_forall in Hblocks |- *. intros [b l] Hbl.
    apply (holds_block_kept (sectors dk2)); [|now apply Hblocks].
    unfold block_cache_write. apply lookup_insert_ne.
    destruct H12 as ([Hnd _] & _ & _). cbn [app] in Hnd.
    apply NoDup_cons in Hnd as [Hnq _]. intros E. apply Hnq.
    apply list_elem_of_In, in_flat_map. exists (b, l).
    split; [now apply list_elem_of_In|]. cbn [fst snd]. left. now symmetry.
Qed.

Lemma indirect_segment_fill (len : Z) (dk dk' : disk) (d d' : inode_disk) :
  0 <= len ->
  free_map dk !! 0%nat = Some true ->
  indirect_pointer d = 0 -> doubly_indirect_pointer d = 0 ->
  (12 <? bytes_to_sectors len) = true ->
  resize_indirect_segment dk d len = Done (dk', d') ->
  exists p ls,
    holds_block (sectors dk') p ls /\
    ((d' = set_length (set_indirect d p) len /\ allocs dk (p :: ls) dk') \/
     (exists q blocks,
         d' = set_length (set_doubly (set_indirect d p) q) len /\
         allocs dk ((p :: ls) ++ q :: flat_map (fun bl => fst bl :: snd bl) blocks) dk' /\
         holds_block (sectors dk') q (fst <$> blocks) /\
         Forall (fun bl => holds_block (sectors dk') (fst bl) (snd bl)) blocks)).
Proof.
  intros Hlen H0 Hi Hd HD Hrun. unfold resize_indirect_segment in Hrun.
  rewrite Hi in Hrun. cbn [Z.eqb] in Hrun.
  destruct (free_map_allocate (free_map dk)) as [[p fm]|] eqn:Ea;
    cbv beta iota zeta in Hrun; [|discriminate].
  pose proof (allocs_one dk p fm zeros H0 Ea) as Hone.
  set (dk1 := mk_disk fm (block_cache_write (sectors dk) p zeros)) in *.
  destruct (resize_leaves 128 0 len 12 dk1 (repeat 0 128%nat))
    as [[dk2 buffer']|[dk2 buffer']] eqn:El; [|discriminate].
  destruct (leaves_fill_block len 12 dk1 dk2 buffer' 128 Hlen
              (allocs_root _ _ _ Hone H0) El) as (ls & Hnl & -> & Hfill).
  change (12 * 512) with (12 * BLOCK_SECTOR_SIZE) in Hrun.
  rewrite !above_len' in Hrun by assumption. rewrite HD in Hrun.
  cbn [negb] in Hrun. rewrite andb_false_r in Hrun.
  cbn [indirect_pointer doubly_indirect_pointer set_indirect] in Hrun.
  rewrite Hd in Hrun. cbn [Z.eqb andb] in Hrun.
  pose proof (allocs_app dk dk1 dk2 [p] ls Hone Hfill) as H12.
  assert (p ∈ [p] ++ ls) as Hp by apply list_elem_of_here.
  pose proof (allocs_rewrite dk dk2 _ p (bytes_of_words (full ls 128)) H12 Hp) as H13.
  set (dk3 := mk_disk (free_map dk2) _) in *.
  assert (holds_block (sectors dk3) p ls) as Hheld
    by (subst dk3; now apply holds_block_written).
  exists p, ls.
  destruct (12 + 128 <? bytes_to_sectors len) eqn:E140; cbn [negb] in Hrun.
  - destruct (doubly_segment_fill len dk3 dk' (set_indirect d p) d' Hlen
                (allocs_root _ _ _ H13 H0) Hd E140 Hrun)
      as (q & blocks & -> & Hq & Hqb & Hblocks).
    split.
    + apply (holds_block_kept (sectors dk3)); [|exact Hheld].
      apply (allocs_kept dk3 dk' _ p Hq).
      subst dk3. cbn [free_map]. apply (allocs_marked dk dk2 _ p H12 Hp).
    + right. exists q, blocks. split; [reflexivity|]. split; [|split; assumption].
      apply (allocs_app dk dk3 dk' _ _ H13 Hq).
  - injection Hrun as <- <-. split; [exact Hheld|]. left.
    split; [reflexivity | exact H13].
Qed.

(** What a resize builds from an inode without pointers. *)
Lemma resize_pass_fill (len : Z) (dk dk' : disk) (d d' : inode_disk) :
  0 <= len ->
  free_map dk !! 0%nat = Some true ->
  unallocated d ->
  resize_pass dk d len = Done (dk', d') ->
  exists t,
    built (sectors dk') d' t /\ allocs dk (alloc_order t) dk' /\
    length d' = len /\ magic d' = magic d /\ type d' = type d /\
    unused d' = unused d.
Proof.
  intros Hlen H0 (Hdp & Hi & Hd) Hrun. unfold resize_pass in Hrun.
  rewrite Hdp in Hrun.
  destruct (resize_leaves 12 0 len 0 dk (repeat 0 12%nat))
    as [[dk1 dp]|[dk1 dp]] eqn:El; [|discriminate].
  destruct (leaves_fill_block len 0 dk dk1 dp 12 Hlen H0 El) as (ds & Hnd & -> & Hfill).
  cbn [indirect_pointer set_direct] in Hrun. rewrite Hi in Hrun.
  rewrite above_len' in Hrun by assumption. cbn [Z.eqb andb] in Hrun.
  destruct (12 <? bytes_to_sectors len) eqn:E12; cbn [negb] in Hrun.
  - destruct (indirect_segment_fill len dk1 dk' (set_direct d (full ds 12)) d' Hlen
                (allocs_root _ _ _ Hfill H0) Hi Hd E12 Hrun)
      as (p & ls & Hheld & [[-> Ha] | (q & blocks & -> & Ha & Hq & Hblocks)]).
    + exists (Indirect ds p ls). cbn [built alloc_order].
      split; [repeat split; try assumption; try reflexivity; apply Hheld|].
      split; [apply (allocs_app dk dk1 dk' _ _ Hfill Ha)|].
      repeat split; reflexivity.
    + exists (Doubly ds p ls q blocks). cbn [built alloc_order].
      split; [repeat split; try assumption; try reflexivity;
              try apply Hheld; apply Hq|].
      split; [apply (allocs_app dk dk1 dk' _ _ Hfill Ha)|].
      repeat split; reflexivity.
  - injection Hrun as <- <-. exists (Direct ds). cbn [built alloc_order].
    split; [repeat split; assumption|]. split; [exact Hfill|].
    repeat split; reflexivity.
Qed.

End FillPass.

Section CreatedTree.
Import FreeMap Inode.

Lemma fresh_in_numbers (fm : list bool) (l : list Z) :
  Z.of_nat (List.length fm) <= 2 ^ 32 -> fresh_in fm l -> Forall sector_number l.
Proof.
  intros Hfm [_ Hf]. eapply Forall_impl; [exact Hf|]. cbn.
  intros s [Hs Hl]. apply lookup_lt_Some in Hl. unfold sector_number. lia.
Qed.

Lemma release_all_marked (fm : list bool) (news l : list Z) :
  fresh_in fm news -> l ≡ₚ news ->
  release_all l (mark_all news fm) = fm.
Proof.
  intros Hfresh Hperm. pose proof Hfresh as [Hnd Hf].
  assert (NoDup l) as Hndl by now rewrite Hperm.
  assert (Forall (fun s => 0 <= s /\ mark_all news fm !! Z.to_nat s = Some true) l)
    as Hused.
  { rewrite Forall_forall in Hf |- *. intros s Hs. rewrite Hperm in Hs.
    destruct (Hf s Hs) as [Hs0 Hsf]. split; [lia|].
    apply mark_all_marked; [exact Hs|]. now apply lookup_lt_Some in Hsf. }
  destruct (release_all_spec l (mark_all news fm) Hndl Hused) as (_ & Hfalse & Hother).
  apply list_eq. intros k.
  destruct (decide (k ∈ (Z.to_nat <$> l))) as [Hk|Hk].
  - apply list_elem_of_fmap in Hk as (s & -> & Hs).
    rewrite Forall_forall in Hfalse, Hf. rewrite (Hfalse s Hs).
    rewrite Hperm in Hs. now destruct (Hf s Hs) as [_ ->].
  - rewrite (Hother k Hk). apply mark_all_other. now rewrite <- Hperm.
Qed.

Lemma built_tree_ok (fm : list bool) (st : gmap Z (list Z)) (sec : Z)
    (d : inode_disk) (t : tree_shape) :
  Z.of_nat (List.length fm) <= 2 ^ 32 ->
  0 <= sec -> fm !! Z.to_nat sec = Some true ->
  fresh_in fm (alloc_order t) ->
  built st d t ->
  tree_ok (mark_all (alloc_order t) fm) st sec d /\
  release_all (extent_sectors st d) (mark_all (alloc_order t) fm) = fm.
Proof.
  intros Hfm Hsec0 Hsec Hfresh Hbuilt.
  pose proof (fresh_in_numbers fm _ Hfm Hfresh) as Hnum.
  destruct (extent_of_built st d t Hbuilt Hnum) as (Hext & Hdi & Hfront).
  pose proof (release_alloc_perm t) as Hperm. rewrite <- Hext in Hperm.
  pose proof Hfresh as [Hnd Hf].
  split; [split; [exact Hdi|]; split; [exact Hfront|]; split|].
  - apply NoDup_cons. split; [|now rewrite Hperm].
    rewrite Hperm. now apply (fresh_in_unused fm).
  - constructor.
    + split; [exact Hsec0 | now apply mark_all_used].
    + rewrite Forall_forall in Hf |- *. intros s Hs. rewrite Hperm in Hs.
      destruct (Hf s Hs) as [Hs0 Hsf]. split; [lia|].
      apply mark_all_marked; [exact Hs|]. now apply lookup_lt_Some in Hsf.
  - now apply release_all_marked.
Qed.

Lemma inode_resize_true (fuel : nat) (dk dk' : disk) (d d' : inode_disk) (len : Z) :
  inode_resize fuel dk d len = Some (true, dk', d') ->
  resize_pass dk d len = Done (dk', d').
Proof.
  destruct fuel; cbn [inode_resize];
    destruct (resize_pass dk d len) as [[dk1 d1]|[dk1 d1]];
    try (intros H; injection H as <- <-; reflexivity); try discriminate.
  destruct (inode_resize fuel dk1 d1 (length d1)) as [[[b dk2] d2]|]; discriminate.
Qed.

Lemma off_t_word_roundtrip (n : Z) :
  - 2 ^ 31 <= n < 2 ^ 31 -> off_t_of_word (word_of_off_t n) = n.
Proof.
  intros Hn. unfold off_t_of_word, word_of_off_t.
  change (2 ^ 31) with 2147483648 in *. change (2 ^ 32) with 4294967296 in *.
  destruct (decide (0 <= n)) as [Hpos|Hneg].
  - rewrite Z.mod_small by lia.
    destruct (n <? 2147483648) eqn:E; [reflexivity | apply Z.ltb_ge in E; lia].
  - assert (n mod 4294967296 = n + 4294967296) as ->.
    { symmetry. apply Z.mod_unique with (q := -1); lia. }
    destruct (n + 4294967296 <? 2147483648) eqn:E;
      [apply Z.ltb_lt in E; lia | lia].
Qed.

Lemma inode_sector_roundtrip (d : inode_disk) :
  fits_sector d -> inode_of_sector (sector_of_inode d) = d.
Proof.
  intros (Hlen & Hdp & Hws). unfold inode_of_sector, sector_of_inode.
  rewrite words_of_bytes_of_words.
  2:{ constructor; [|exact Hws]. unfold word_of_off_t.
      apply Z.mod_pos_bound. reflexivity. }
  destruct d as [len mg dp ip dip ty un]. cbn [length magic direct_pointer
    indirect_pointer doubly_indirect_pointer type unused] in *.
  do 12 (destruct dp as [|? dp]; [discriminate|]).
  destruct dp; [|discriminate].
  f_equal; try reflexivity.
  transitivity (off_t_of_word (word_of_off_t len));
    [reflexivity | now apply off_t_word_roundtrip].
Qed.

Lemma built_fits (st : gmap Z (list Z)) (d : inode_disk) (t : tree_shape) :
  built st d t -> Forall sector_number (alloc_order t) ->
  List.length (direct_pointer d) = 12%nat /\
  Forall (fun w => 0 <= w < 2 ^ 32) (direct_pointer d) /\
  0 <= indirect_pointer d < 2 ^ 32 /\ 0 <= doubly_indirect_pointer d < 2 ^ 32.
Proof.
  unfold sector_number.
  destruct t as [ds | ds p ls | ds p ls q blocks]; cbn [built alloc_order].
  - intros (Hlen & -> & -> & ->) Hs.
    split; [now apply full_length|]. split; [now apply full_in_range|]. lia.
  - intros (Hlen & -> & -> & _ & ->) Hs.
    apply Forall_app in Hs as [Hds Hs]. apply Forall_cons in Hs as [Hsp _].
    split; [now apply full_length|]. split; [now apply full_in_range|]. lia.
  - intros (Hlen & -> & -> & _ & -> & _) Hs.
    apply Forall_app in Hs as [Hds Hs]. apply Forall_app in Hs as [Hs1 Hs2].
    apply Forall_cons in Hs1 as [Hsp _]. apply Forall_cons in Hs2 as [Hsq _].
    split; [now apply full_length|]. split; [now apply full_in_range|]. lia.
Qed.

Lemma alloc_order_blocks (blocks : list (Z * list Z)) (bl : Z * list Z) :
  bl ∈ blocks -> fst bl ∈ flat_map (fun bl => fst bl :: snd bl) blocks.
Proof.
  intros H. apply list_elem_of_In, in_flat_map. exists bl.
  split; [now apply list_elem_of_In | now left].
Qed.

(** Writing a sector that is not in the tree leaves the tree in place. *)
Lemma built_kept (st : gmap Z (list Z)) (d : inode_disk) (t : tree_shape)
    (sec : Z) (data : list Z) :
  built st d t -> sec ∉ alloc_order t -> built (<[sec := data]> st) d t.
Proof.
  assert (forall p l, p <> sec -> holds_block st p l ->
                      holds_block (<[sec := data]> st) p l) as Hkeep.
  { intros p l Hne. apply holds_block_kept. now apply lookup_insert_ne. }
  destruct t as [ds | ds p ls | ds p ls q blocks]; cbn [built alloc_order].
  - tauto.
  - intros (H1 & H2 & H3 & H4 & H5) Hsec.
    split; [exact H1|]. split; [exact H2|]. split; [exact H3|]. split; [|exact H5].
    apply Hkeep; [|exact H4].
    intros ->. apply Hsec. apply elem_of_app. right. apply list_elem_of_here.
  - intros (H1 & H2 & H3 & H4 & H5 & H6 & H7) Hsec.
    apply not_elem_of_app in Hsec as [_ Hsec].
    apply not_elem_of_app in Hsec as [Hsec1 Hsec2].
    apply not_elem_of_cons in Hsec1 as [Hp _].
    apply not_elem_of_cons in Hsec2 as [Hq Hbs].
    split; [exact H1|]. split; [exact H2|]. split; [exact H3|].
    split; [apply Hkeep; [congruence | exact H4]|]. split; [exact H5|].
    split; [apply Hkeep; [congruence | exact H6]|].
    rewrite Forall_forall in H7 |- *. intros bl Hbl. apply Hkeep; [|now apply H7].
    intros E. apply Hbs. rewrite <- E. now apply alloc_order_blocks.
Qed.

(** The tree of a file fresh from [inode_create] is well formed, and
    releasing its sectors gives the free map from before the creation. *)
Lemma inode_create_tree_ok (fuel : nat) (dk dk' : disk) (sec len typ : Z) :
  0 <= len < 2 ^ 31 -> 0 <= typ < 2 ^ 32 ->
  Z.of_nat (List.length (free_map dk)) <= 2 ^ 32 ->
  free_map dk !! 0%nat = Some true ->
  0 <= sec -> free_map dk !! Z.to_nat sec = Some true ->
  inode_create fuel dk sec len typ = Some (true, dk') ->
  let d := inode_of_sector (block_cache_read (sectors dk') sec) in
  length d = len /\
  tree_ok (free_map dk') (sectors dk') sec d /\
  release_all (extent_sectors (sectors dk') d) (free_map dk') = free_map dk.
Proof.
  intros Hlen Htyp Hfm H0 Hsec0 Hsec Hrun. unfold inode_create in Hrun.
  destruct (len <? 0) eqn:E; [discriminate|].
  fold (empty_inode typ) in Hrun.
  destruct (inode_resize fuel dk (empty_inode typ) len) as [[[b dk1] d1]|] eqn:Er;
    [|discriminate].
  injection Hrun as -> <-. apply inode_resize_true in Er.
  destruct (resize_pass_fill len dk dk1 (empty_inode typ) d1) as
    (t & Hbuilt & (Hfresh & Hmark & _) & Hl & Hmg & Hty & Hun);
    [lia | exact H0 | repeat split | exact Er |].
  pose proof (fresh_in_numbers _ _ Hfm Hfresh) as Hnum.
  destruct (built_fits _ _ _ Hbuilt Hnum) as (Hdp & Hdpr & Hir & Hdr).
  assert (fits_sector d1) as Hfits.
  { split; [rewrite Hl; lia|]. split; [exact Hdp|].
    rewrite Hmg, Hty, Hun. cbn [magic type unused empty_inode].
    constructor; [unfold INODE_MAGIC; lia|]. apply Forall_app. split; [exact Hdpr|].
    repeat (constructor; [lia|]). constructor. }
  cbn [sectors free_map]. unfold block_cache_read, block_cache_write.
  rewrite lookup_insert_eq. cbn [default from_option id].
  rewrite (inode_sector_roundtrip d1 Hfits). split; [exact Hl|].
  rewrite Hmark. apply built_tree_ok; try assumption.
  apply built_kept; [exact Hbuilt|]. now apply (fresh_in_unused (free_map dk)).
Qed.

End CreatedTree.

Section DeferredDelete.
Import FreeMap Inode.

Lemma find_inode_sector (sec : Z) (l : list inode) (ino : inode) :
  find_inode sec l = Some ino -> sector ino = sec.
Proof.
  induction l as [|x l IH]; cbn; [discriminate|].
  destruct (sector x =? sec) eqn:E; [|exact IH].
  intros H. injection H as <-. now apply Z.eqb_eq.
Qed.

Lemma find_update_inode (sec : Z) (f : inode -> inode) (l : list inode) :
  (forall ino, sector (f ino) = sector ino) ->
  find_inode sec (update_inode sec f l) = f <$> find_inode sec l.
Proof.
  intros Hf. induction l as [|x l IH]; cbn; [reflexivity|].
  destruct (sector x =? sec) eqn:E; cbn.
  - now rewrite Hf, E.
  - now rewrite E.
Qed.

Lemma read_loop_removed (fuel : nat) (st : gmap Z (list Z)) (ino : inode) :
  forall (size offset bytes_read : Z) (buffer : list Z),
    read_loop fuel st (set_removed ino) size offset bytes_read buffer =
    read_loop fuel st ino size offset bytes_read buffer.
Proof.
  induction fuel as [|fuel IH]; intros size offset bytes_read buffer;
    [reflexivity|].
  cbn [read_loop].
  change (byte_to_sector st (set_removed ino) offset)
    with (byte_to_sector st ino offset).
  change (inode_length st (set_removed ino)) with (inode_length st ino).
  destruct (size <=? 0); [reflexivity|].
  destruct (chunk_of size offset (inode_length st ino)) as [sector_ofs chunk_size].
  destruct (chunk_size <=? 0); [reflexivity|].
  destruct (byte_to_sector st ino offset) as [idx|]; [|reflexivity].
  destruct (_ && _); [apply IH|].
  destruct (block_cache_read_offset st idx sector_ofs chunk_size); [apply IH|reflexivity].
Qed.

Lemma write_loop_removed (fuel : nat) (ino : inode) (buffer : list Z) :
  forall (st : gmap Z (list Z)) (size offset bytes_written : Z),
    write_loop fuel st (set_removed ino) buffer size offset bytes_written =
    write_loop fuel st ino buffer size offset bytes_written.
Proof.
  induction fuel as [|fuel IH]; intros st size offset bytes_written;
    [reflexivity|].
  cbn [write_loop].
  change (byte_to_sector st (set_removed ino) offset)
    with (byte_to_sector st ino offset).
  change (inode_length st (set_removed ino)) with (inode_length st ino).
  destruct (size <=? 0); [reflexivity|].
  destruct (chunk_of size offset (inode_length st ino)) as [sector_ofs chunk_size].
  destruct (chunk_size <=? 0); [reflexivity|].
  destruct (byte_to_sector st ino offset) as [idx|]; [|reflexivity].
  destruct (_ && _); [apply IH|].
  destruct (block_cache_write_offset st idx _ sector_ofs chunk_size);
    [apply IH|reflexivity].
Qed.

Lemma inode_close_last (fuel : nat) (dk : disk) (l : list inode) (sec : Z)
    (ino : inode) :
  find_inode sec l = Some ino ->
  open_cnt ino = 1 -> removed ino = true ->
  tree_ok (free_map dk) (sectors dk) sec
          (inode_of_sector (block_cache_read (sectors dk) sec)) ->
  inode_close fuel (mk_fsys dk l) sec =
    Some (mk_fsys
            (mk_disk
               (free_map_release
                  (release_all
                     (extent_sectors (sectors dk)
                        (inode_of_sector (block_cache_read (sectors dk) sec)))
                     (free_map dk)) sec)
               (sectors dk))
            (remove_inode sec l)).
Proof.
  intros Hfind Hcnt Hrem (Hdi & Hfront & _ & _).
  unfold inode_close. cbn [open_inodes fs_disk]. rewrite Hfind, Hcnt, Hrem.
  change (1 - 1 =? 0) with true. cbv iota.
  rewrite (find_inode_sector _ _ _ Hfind).
  destruct dk as [fm st]. cbn [sectors free_map] in *.
  destruct (resize_pass_zero fm st _ Hdi Hfront) as [d' Hp].
  destruct fuel; cbn [inode_resize]; rewrite Hp; reflexivity.
Qed.

(** X27.  [inode_remove] sets the flag of the open inode and changes
    nothing on the disk; reads and writes through the inode are what they
    would be without the flag.  A close that leaves other openers changes
    nothing on the disk either.  The close that takes [open_cnt] from 1 to
    0 releases every sector of a well-formed extent tree of the inode
    (data sectors and index blocks) and then the sector of the inode
    itself: each of them is free afterwards, and the number of free
    sectors has grown by the number of sectors the file held.  For a file
    as [inode_create] left it, the free map after that close is the free
    map from before the creation, with the sector of the inode released
    as well. *)
Theorem deferred_delete (fuel : nat) (fs : fsys) (sec : Z) (ino : inode) :
  find_inode sec (open_inodes fs) = Some ino ->
  let st := sectors (fs_disk fs) in
  let fm := free_map (fs_disk fs) in
  let d := inode_of_sector (block_cache_read st sec) in
  let fs1 := inode_remove fs sec in
  (fs_disk fs1 = fs_disk fs /\
   find_inode sec (open_inodes fs1) = Some (set_removed ino)) /\
  (forall size offset,
      inode_read_at st (set_removed ino) size offset =
      inode_read_at st ino size offset) /\
  (forall buffer size offset,
      inode_write_at fuel (fs_disk fs1) (set_removed ino) buffer size offset =
      inode_write_at fuel (fs_disk fs) ino buffer size offset) /\
  (open_cnt ino <> 1 ->
   exists fs2, inode_close fuel fs1 sec = Some fs2 /\ fs_disk fs2 = fs_disk fs) /\
  (open_cnt ino = 1 -> tree_ok fm st sec d ->
   exists fs2,
     inode_close fuel fs1 sec = Some fs2 /\
     sectors (fs_disk fs2) = st /\
     free_map (fs_disk fs2) =
       free_map_release (release_all (extent_sectors st d) fm) sec /\
     free_count (free_map (fs_disk fs2)) =
       (free_count fm + List.length (extent_sectors st d) + 1)%nat /\
     Forall (fun s => free_map (fs_disk fs2) !! Z.to_nat s = Some false)
            (sec :: extent_sectors st d)) /\
  (forall (fuel0 : nat) (dk0 : disk) (len typ : Z),
      0 <= len < 2 ^ 31 -> 0 <= typ < 2 ^ 32 ->
      Z.of_nat (List.length (free_map dk0)) <= 2 ^ 32 ->
      free_map dk0 !! 0%nat = Some true ->
      0 <= sec -> free_map dk0 !! Z.to_nat sec = Some true ->
      inode_create fuel0 dk0 sec len typ = Some (true, fs_disk fs) ->
      open_cnt ino = 1 ->
      exists fs2,
        inode_close fuel fs1 sec = Some fs2 /\
        free_map (fs_disk fs2) = free_map_release (free_map dk0) sec).
Proof.
  intros Hfind st fm d fs1.
  assert (find_inode sec (open_inodes fs1) = Some (set_removed ino)) as Hfind1.
  { unfold fs1, inode_remove. cbn [open_inodes].
    rewrite find_update_inode by reflexivity. now rewrite Hfind. }
  split; [split; [reflexivity | exact Hfind1]|].
  split; [intros size offset; apply read_loop_removed|].
  split.
  { intros buffer size offset. unfold inode_write_at.
    change (deny_write_cnt (set_removed ino)) with (deny_write_cnt ino).
    change (sector (set_removed ino)) with (sector ino).
    change (fs_disk fs1) with (fs_disk fs).
    destruct (negb (deny_write_cnt ino =? 0)); [reflexivity|].
    destruct (if length _ <? size + offset then _ else _) as [dk1|]; [|reflexivity].
    now rewrite write_loop_removed. }
  split.
  { intros Hcnt. unfold inode_close. rewrite Hfind1.
    change (open_cnt (set_removed ino)) with (open_cnt ino).
    destruct (open_cnt ino - 1 =? 0) eqn:E; [apply Z.eqb_eq in E; lia|].
    eexists. split; reflexivity. }
  assert (open_cnt ino = 1 -> tree_ok fm st sec d ->
          inode_close fuel fs1 sec =
            Some (mk_fsys
                    (mk_disk
                       (free_map_release (release_all (extent_sectors st d) fm) sec)
                       st)
                    (remove_inode sec (open_inodes fs1)))) as Hlast.
  { intros Hcnt Hok.
    apply (inode_close_last fuel (fs_disk fs) (open_inodes fs1) sec
             (set_removed ino) Hfind1 Hcnt eq_refl Hok). }
  split.
  2:{ intros fuel0 dk0 len typ Hlen Htyp Hfm0 H0 Hsec0 Hsec Hcreate Hcnt.
      destruct (inode_create_tree_ok fuel0 dk0 (fs_disk fs) sec len typ
                  Hlen Htyp Hfm0 H0 Hsec0 Hsec Hcreate) as (_ & Hok & Hrel).
      eexists. split; [apply (Hlast Hcnt Hok)|]. cbn [fs_disk free_map].
      fold st fm d in Hrel. now rewrite Hrel. }
  - intros Hcnt Hok.
    pose proof (inode_close_last fuel (fs_disk fs) (open_inodes fs1) sec
                  (set_removed ino) Hfind1 Hcnt eq_refl Hok) as Hclose.
    change (mk_fsys (fs_disk fs) (open_inodes fs1)) with fs1 in Hclose.
    eexists. split; [exact Hclose|]. cbn [fs_disk sectors free_map].
    split; [reflexivity|]. split; [reflexivity|].
    destruct Hok as (_ & _ & Hnd & Hall).
    fold st fm d in Hnd, Hall |- *.
    destruct (release_all_spec (extent_sectors st d ++ [sec]) fm) as (Hc & Hf & _).
    { apply NoDup_app. apply NoDup_cons in Hnd as [Hs Hnd].
      split; [exact Hnd|]. split; [|apply NoDup_singleton].
      intros x Hx Hx'. apply list_elem_of_singleton in Hx'. now subst x. }
    { apply Forall_app. apply Forall_cons in Hall as [Hs Hall].
      split; [exact Hall|]. constructor; [exact Hs | constructor]. }
    rewrite release_all_app in Hc, Hf. cbn [release_all foldl] in Hc, Hf.
    split.
    + rewrite Hc, length_app. cbn [List.length]. lia.
    + apply Forall_app in Hf as [Hf1 Hf2]. apply Forall_cons in Hf2 as [Hf2 _].
      constructor; assumption.
Qed.

Lemma deferred_delete_witness :
  exists fs2,
    inode_close 1 (inode_remove sample_fs 2) 2 = Some fs2 /\
    free_map (fs_disk fs2) = free_map (blank_disk 30).
Proof.
  destruct (deferred_delete 1 sample_fs 2 (mk_inode 2 1 false 0 0))
    as (_ & _ & _ & _ & _ & H).
  - vm_compute. reflexivity.
  - destruct (H 1%nat (mk_disk (<[2%nat := true]> (free_map (blank_disk 30))) ∅)
                (13 * 512 + 1) 0) as (fs2 & Hc & Hfm).
    + lia.
    + lia.
    + vm_compute. discriminate.
    + reflexivity.
    + lia.
    + reflexivity.
    + vm_compute. reflexivity.
    + reflexivity.
    + exists fs2. split; [exact Hc|]. rewrite Hfm. reflexivity.
Defined.

(** C4, evaluated where the code breaks it.  A device of 17 sectors has 15
    free sectors; sector 2 is taken for the inode of a new, empty file.
    A write of 14 sectors to the open file cannot grow it, since that
    takes 15 sectors and 14 are free: the write returns 0 and the file
    stays empty, but the rollback of [inode_resize] leaves sector 16
    allocated, and no pointer of the inode names it.  After [inode_remove]
    and the last [inode_close] 14 sectors are free, not the 15 from before
    the file was created.  Where the write fits (two openers, the file
    removed, then three bytes written through it), the bytes are read
    back and the last close gives the 15 free sectors back. *)
Theorem deferred_delete_after_failed_growth :
  let baseline := blank_disk 15 in
  let dk0 := mk_disk (<[2%nat := true]> (free_map baseline)) ∅ in
  free_count (free_map baseline) = 15%nat /\
  exists dk1,
    inode_create 1 dk0 2 0 0 = Some (true, dk1) /\
    (exists dk2 fs3,
        let fs1 := inode_open (mk_fsys dk1 []) 2 in
        find_inode 2 (open_inodes fs1) = Some (mk_inode 2 1 false 0 0) /\
        inode_write_at 1 (fs_disk fs1) (mk_inode 2 1 false 0 0)
                       (repeat 7 (14 * 512)%nat) (14 * 512) 0 = IoDone (0, dk2) /\
        inode_length (sectors dk2) (mk_inode 2 1 false 0 0) = 0 /\
        extent_sectors (sectors dk2)
                       (inode_of_sector (block_cache_read (sectors dk2) 2)) = [] /\
        inode_close 1 (inode_remove (mk_fsys dk2 (open_inodes fs1)) 2) 2 = Some fs3 /\
        open_inodes fs3 = [] /\
        free_count (free_map (fs_disk fs3)) = 14%nat /\
        free_map (fs_disk fs3) !! 16%nat = Some true) /\
    (exists dk2 fs3 fs4,
        let fs1 := inode_remove (inode_open (inode_open (mk_fsys dk1 []) 2) 2) 2 in
        find_inode 2 (open_inodes fs1) = Some (mk_inode 2 2 true 0 0) /\
        inode_write_at 1 (fs_disk fs1) (mk_inode 2 2 true 0 0) [97; 98; 99] 3 0
          = IoDone (3, dk2) /\
        inode_read_at (sectors dk2) (mk_inode 2 2 true 0 0) 3 0
          = IoDone (3, [97; 98; 99]) /\
        inode_close 1 (mk_fsys dk2 (open_inodes fs1)) 2 = Some fs3 /\
        inode_close 1 fs3 2 = Some fs4 /\
        open_inodes fs4 = [] /\
        free_count (free_map (fs_disk fs4)) = 15%nat).
Proof.
  cbv zeta. split; [reflexivity|].
  eexists. split; [vm_compute; reflexivity|]. split.
  - do 2 eexists. split; [vm_compute; reflexivity|].
    split; [vm_compute; reflexivity|]. split; [vm_compute; reflexivity|].
    split; [vm_compute; reflexivity|]. split; [vm_compute; reflexivity|].
    repeat split.
  - do 3 eexists. split; [vm_compute; reflexivity|].
    split; [vm_compute; reflexivity|]. split; [vm_compute; reflexivity|].
    split; [vm_compute; reflexivity|]. split; [vm_compute; reflexivity|].
    split; reflexivity.
Qed.

End DeferredDelete.

(** ** The cache is transparent to its callers *)

Section CacheView.
Import Cache.

Lemma holds_sector_key (blk sec : Z) (b : cache_block) :
  holds_sector blk sec b = true <-> key_of b = Some (blk, sec).
Proof.
  unfold holds_sector, key_of. destruct (free b); cbn.
  - split; discriminate.
  - rewrite andb_true_iff, !Z.eqb_eq. split.
    + intros [-> ->]. reflexivity.
    + intros [= -> ->]. split; reflexivity.
Qed.

Lemma find_block_Some (blk sec : Z) (l : list cache_block) :
  forall (i j : nat) (b : cache_block),
    find_block blk sec l i = Some (j, b) ->
    exists k : nat, j = (i + k)%nat /\ l !! k = Some b /\ key_of b = Some (blk, sec).
Proof.
  induction l as [|x l IH]; intros i j b H; cbn in H; [discriminate|].
  destruct (holds_sector blk sec x) eqn:E.
  - injection H as <- <-. exists 0%nat.
    split; [lia|]. split; [reflexivity|]. now apply holds_sector_key.
  - destruct (IH _ _ _ H) as (k & -> & Hk & Hkey).
    exists (S k). split; [lia|]. split; [exact Hk | exact Hkey].
Qed.

Lemma find_block_None (blk sec : Z) (l : list cache_block) :
  forall i : nat, find_block blk sec l i = None <-> (blk, sec) ∉ keys l.
Proof.
  unfold keys. induction l as [|x l IH]; intros i; cbn.
  - split; [intros _; apply not_elem_of_nil | reflexivity].
  - destruct (holds_sector blk sec x) eqn:E.
    + apply holds_sector_key in E. rewrite E. split; [discriminate|].
      intros H. exfalso. apply H. left.
    + rewrite IH. destruct (key_of x) as [k|] eqn:Ek; [|reflexivity].
      rewrite not_elem_of_cons. split; [|intros [_ H]; exact H].
      intros H. split; [|exact H]. intros <-.
      apply holds_sector_key in Ek. congruence.
Qed.

Lemma cached_None (l : list cache_block) (blk sec : Z) :
  cached l blk sec = None <-> (blk, sec) ∉ keys l.
Proof.
  unfold cached. rewrite <- (find_block_None blk sec l 0).
  destruct (find_block blk sec l 0) as [[j b]|]; split; congruence.
Qed.

Lemma key_in_keys (l : list cache_block) (b : cache_block) (k : Z * Z) :
  b ∈ l -> key_of b = Some k -> k ∈ keys l.
Proof. intros Hb Hk. apply list_elem_of_omap. exists b. split; assumption. Qed.

(** Two entries of the list with the same key are the same entry. *)
Lemma keys_unique (l : list cache_block) :
  NoDup (keys l) ->
  forall (a b : cache_block) (k : Z * Z),
    a ∈ l -> b ∈ l -> key_of a = Some k -> key_of b = Some k -> a = b.
Proof.
  unfold keys. induction l as [|x l IH]; intros Hnd a b k Ha Hb Hka Hkb.
  - now apply elem_of_nil in Ha.
  - cbn in Hnd. apply elem_of_cons in Ha, Hb.
    destruct Ha as [->|Ha], Hb as [->|Hb]; [reflexivity| | |].
    + rewrite Hka in Hnd. apply NoDup_cons in Hnd as [Hnot _].
      exfalso. apply Hnot. now apply (key_in_keys l b).
    + rewrite Hkb in Hnd. apply NoDup_cons in Hnd as [Hnot _].
      exfalso. apply Hnot. now apply (key_in_keys l a).
    + apply (IH ltac:(destruct (key_of x); [now apply NoDup_cons in Hnd|exact Hnd])
               a b k Ha Hb Hka Hkb).
Qed.

Lemma cached_Some (l : list cache_block) (blk sec : Z) (buf : list Z) :
  NoDup (keys l) ->
  (cached l blk sec = Some buf <->
   exists b, b ∈ l /\ key_of b = Some (blk, sec) /\ buffer b = buf).
Proof.
  intros Hnd. unfold cached.
  destruct (find_block blk sec l 0) as [[j b]|] eqn:E.
  - destruct (find_block_Some _ _ _ _ _ _ E) as (k & _ & Hk & Hkey).
    apply list_elem_of_lookup_2 in Hk. split.
    + intros [= <-]. exists b. auto.
    + intros (b' & Hb' & Hkey' & <-).
      now rewrite (keys_unique l Hnd b b' _ Hk Hb' Hkey Hkey').
  - split; [discriminate|]. intros (b & Hb & Hkey & _).
    apply find_block_None in E. exfalso. apply E. now apply (key_in_keys l b).
Qed.

Lemma insert_split (l : list cache_block) (e : nat) (v b' : cache_block) :
  l !! e = Some v ->
  exists l1 l2, l = l1 ++ v :: l2 /\ <[e := b']> l = l1 ++ b' :: l2.
Proof.
  intros H. exists (take e l), (drop (S e) l). split.
  - symmetry. now apply take_drop_middle.
  - apply insert_take_drop. now apply lookup_lt_Some in H.
Qed.

Lemma keys_app (l1 l2 : list cache_block) : keys (l1 ++ l2) = keys l1 ++ keys l2.
Proof. apply omap_app. Qed.

Lemma keys_cons_in_use (b : cache_block) (l : list cache_block) (k : Z * Z) :
  key_of b = Some k -> keys (b :: l) = k :: keys l.
Proof. unfold keys. cbn. now intros ->. Qed.

Lemma keys_cons_free (b : cache_block) (l : list cache_block) :
  key_of b = None -> keys (b :: l) = keys l.
Proof. unfold keys. cbn. now intros ->. Qed.

Lemma keys_perm (l l' : list cache_block) : l ≡ₚ l' -> keys l ≡ₚ keys l'.
Proof. intros H. unfold keys. now rewrite H. Qed.

(** The keys around an entry of a list without duplicate keys. *)
Lemma keys_around (l1 l2 : list cache_block) (v : cache_block) :
  NoDup (keys (l1 ++ v :: l2)) ->
  NoDup (keys (l1 ++ l2)) /\
  forall k, key_of v = Some k -> k ∉ keys (l1 ++ l2).
Proof.
  intros Hnd. rewrite keys_app in *.
  destruct (key_of v) as [kv|] eqn:Ev.
  - rewrite (keys_cons_in_use v l2 kv Ev) in Hnd.
    assert (keys l1 ++ kv :: keys l2 ≡ₚ kv :: (keys l1 ++ keys l2)) as Hp
      by (symmetry; apply Permutation_middle).
    rewrite Hp in Hnd. apply NoDup_cons in Hnd as [Hnot Hnd].
    split; [exact Hnd|]. intros k [= <-]. exact Hnot.
  - rewrite (keys_cons_free v l2 Ev) in Hnd. split; [exact Hnd|]. discriminate.
Qed.

(** Replacing the entry [v] by an entry of the same key leaves the keys as
    they are. *)
Lemma keys_same_key (l1 l2 : list cache_block) (v b' : cache_block) :
  key_of b' = key_of v -> keys (l1 ++ b' :: l2) = keys (l1 ++ v :: l2).
Proof.
  intros H. rewrite !keys_app. f_equal. unfold keys. cbn. now rewrite H.
Qed.

(** What the lookup finds once the entry [v] is replaced by [b'] and the
    list is put in another order. *)
Lemma cached_replace (l1 l2 l' : list cache_block) (v b' : cache_block) (blk sec : Z) :
  NoDup (keys (l1 ++ v :: l2)) ->
  NoDup (keys (l1 ++ b' :: l2)) ->
  l' ≡ₚ l1 ++ b' :: l2 ->
  cached l' blk sec =
    if decide (key_of b' = Some (blk, sec)) then Some (buffer b')
    else if decide (key_of v = Some (blk, sec)) then None
         else cached (l1 ++ v :: l2) blk sec.
Proof.
  intros Hnd Hnd' Hp.
  assert (NoDup (keys l')) as Hndl by (now rewrite (keys_perm _ _ Hp)).
  assert (forall b, b ∈ l' <-> b ∈ l1 \/ b = b' \/ b ∈ l2) as Hin.
  { intros b. rewrite Hp, elem_of_app, elem_of_cons. tauto. }
  destruct (keys_around _ _ _ Hnd) as [_ Hv].
  destruct (decide (key_of b' = Some (blk, sec))) as [Hb'|Hb'].
  { apply cached_Some; [exact Hndl|]. exists b'. rewrite Hin. auto. }
  destruct (decide (key_of v = Some (blk, sec))) as [Hkv|Hkv].
  { apply cached_None. rewrite (keys_perm _ _ Hp). intros Hk.
    apply list_elem_of_omap in Hk as (b & Hb & Hkb).
    apply elem_of_app in Hb as [Hb|Hb]; [|apply elem_of_cons in Hb as [->|Hb]].
    - apply (Hv _ Hkv). apply (key_in_keys _ b); [|exact Hkb].
      apply elem_of_app. now left.
    - congruence.
    - apply (Hv _ Hkv). apply (key_in_keys _ b); [|exact Hkb].
      apply elem_of_app. now right. }
  destruct (cached (l1 ++ v :: l2) blk sec) as [buf|] eqn:E.
  - apply cached_Some in E as (b & Hb & Hkb & Hbuf); [|exact Hnd].
    apply cached_Some; [exact Hndl|]. exists b. split; [|auto].
    rewrite Hin. apply elem_of_app in Hb as [Hb|Hb]; [now left|].
    apply elem_of_cons in Hb as [->|Hb]; [congruence | now right; right].
  - apply cached_None in E. apply cached_None. rewrite (keys_perm _ _ Hp).
    intros Hk. apply list_elem_of_omap in Hk as (b & Hb & Hkb).
    apply elem_of_app in Hb as [Hb|Hb]; [|apply elem_of_cons in Hb as [->|Hb]].
    + apply E. apply (key_in_keys _ b); [|exact Hkb]. apply elem_of_app. now left.
    + congruence.
    + apply E. apply (key_in_keys _ b); [|exact Hkb].
      apply elem_of_app. right. now right.
Qed.

Lemma key_of_in_use (b : cache_block) (k : Z * Z) :
  key_of b = Some k <-> free b = false /\ k = (block b, sector b).
Proof.
  unfold key_of. destruct (free b); split.
  - discriminate.
  - intros [? _]. discriminate.
  - intros [= <-]. auto.
  - intros [_ ->]. reflexivity.
Qed.

(** The device after the eviction of [v], away from the sector of [v]. *)
Lemma device_after_evict_other (w : world) (v : cache_block) (k : Z * Z) :
  key_of v <> Some k -> device_after_evict w v !! k = device w !! k.
Proof.
  intros H. unfold device_after_evict.
  destruct (negb (free v) && dirty v) eqn:E; [|reflexivity].
  apply lookup_insert_ne. intros <-. apply H. apply key_of_in_use.
  apply andb_true_iff in E as [E _]. apply negb_true_iff in E. auto.
Qed.

(** The device after the eviction of [v] holds what the cache held for
    the sector of [v]. *)
Lemma device_after_evict_victim (w : world) (v : cache_block) :
  clean_agrees w v -> free v = false ->
  default zero_sector (device_after_evict w v !! (block v, sector v)) = buffer v.
Proof.
  intros Hc Hf. unfold device_after_evict. rewrite Hf. cbn.
  destruct (dirty v) eqn:E.
  - now rewrite lookup_insert_eq.
  - symmetry. now apply Hc.
Qed.

(** **** Hits *)

Lemma read_offset_hit (w : world) (blk sec ofs len now : Z)
    (e : nat) (b : cache_block) :
  len + ofs <= BLOCK_SECTOR_SIZE ->
  find_block blk sec (cache_blocks w) 0 = Some (e, b) ->
  block_cache_read_offset w blk sec ofs len now =
    Some (mk_world
            (list_sort cache_nru_sort
               (<[e := mk_cache_block (dirty b) (free b) (block b) (sector b)
                         (buffer b) now]> (cache_blocks w)))
            (device w) (io_log w),
          memcpy_from (buffer b) ofs len).
Proof.
  intros Hlen Hfind. unfold block_cache_read_offset. rewrite Hfind.
  destruct (len + ofs <=? BLOCK_SECTOR_SIZE) eqn:E; [|apply Z.leb_gt in E; lia].
  reflexivity.
Qed.

(** A hit replaces an entry by one of the same key. *)
Lemma coherent_hit (w w' : world) (e : nat) (v b' : cache_block) :
  coherent w ->
  cache_blocks w !! e = Some v ->
  key_of b' = key_of v ->
  (dirty b' = false -> dirty v = false /\ buffer b' = buffer v) ->
  device w' = device w ->
  cache_blocks w' ≡ₚ <[e := b']> (cache_blocks w) ->
  coherent w' /\
  forall blk sec,
    view w' blk sec =
      if decide (key_of v = Some (blk, sec)) then buffer b' else view w blk sec.
Proof.
  intros [Hnd Hcl] He Hkey Hclean Hdev Hp.
  destruct (insert_split _ e v b' He) as (l1 & l2 & Hl & Hins).
  rewrite Hins in Hp. rewrite Hl in Hnd, Hcl.
  assert (NoDup (keys (l1 ++ b' :: l2))) as Hnd'
    by (now rewrite (keys_same_key l1 l2 v b' Hkey)).
  split.
  - split; [now rewrite (keys_perm _ _ Hp)|].
    rewrite Hp. apply Forall_app in Hcl as [H1 H2].
    apply Forall_cons in H2 as [Hv H2].
    assert (forall b, clean_agrees w b -> clean_agrees w' b) as Hmono.
    { intros b Hb Hf Hd. unfold clean_agrees in Hb. rewrite Hdev. auto. }
    apply Forall_app. split; [eapply Forall_impl; eauto|].
    apply Forall_cons. split; [|eapply Forall_impl; eauto].
    intros Hf Hd. destruct (Hclean Hd) as [Hdv Hbuf]. rewrite Hdev, Hbuf.
    assert (key_of b' = Some (block b', sector b')) as Hkb
      by (apply key_of_in_use; auto).
    rewrite Hkey in Hkb. apply key_of_in_use in Hkb as [Hfv [= -> ->]].
    now apply Hv.
  - intros blk sec. unfold view.
    rewrite (cached_replace l1 l2 _ v b' blk sec Hnd Hnd' Hp), Hdev, Hkey, Hl.
    destruct (decide (key_of v = Some (blk, sec))); reflexivity.
Qed.

(** **** Misses *)

(** A miss puts the sector in the place of the victim [v]. *)
Lemma coherent_miss (w w' : world) (e : nat) (v : cache_block)
    (blk sec : Z) (data : list Z) (now : Z) :
  coherent w ->
  cache_blocks w !! e = Some v ->
  cached (cache_blocks w) blk sec = None ->
  (forall k, k <> (blk, sec) -> device w' !! k = device_after_evict w v !! k) ->
  default zero_sector (device w' !! (blk, sec)) = data ->
  cache_blocks w' ≡ₚ
    <[e := mk_cache_block false false blk sec data now]> (cache_blocks w) ->
  coherent w' /\
  forall blk' sec',
    view w' blk' sec' =
      if decide ((blk', sec') = (blk, sec)) then data else view w blk' sec'.
Proof.
  intros [Hnd Hcl] He Hmiss Hdev Hdata Hp.
  set (b' := mk_cache_block false false blk sec data now) in *.
  destruct (insert_split _ e v b' He) as (l1 & l2 & Hl & Hins).
  rewrite Hins in Hp. rewrite Hl in Hnd, Hcl, Hmiss.
  apply cached_None in Hmiss.
  destruct (keys_around _ _ _ Hnd) as [Hnd12 Hv].
  assert (key_of v <> Some (blk, sec)) as Hvk.
  { intros Hk. apply Hmiss. apply (key_in_keys _ v); [|exact Hk].
    apply elem_of_app. right. left. }
  assert ((blk, sec) ∉ keys (l1 ++ l2)) as Hmiss12.
  { intros Hk. apply Hmiss. apply list_elem_of_omap in Hk as (b & Hb & Hkb).
    apply (key_in_keys _ b); [|exact Hkb].
    apply elem_of_app in Hb as [Hb|Hb]; apply elem_of_app; [now left|].
    right. now right. }
  assert (NoDup (keys (l1 ++ b' :: l2))) as Hnd'.
  { rewrite keys_app, (keys_cons_in_use b' l2 (blk, sec) eq_refl).
    assert (keys l1 ++ (blk, sec) :: keys l2 ≡ₚ (blk, sec) :: (keys l1 ++ keys l2))
      as -> by (symmetry; apply Permutation_middle).
    apply NoDup_cons. rewrite <- keys_app. split; assumption. }
  assert (forall b, b ∈ l1 ++ l2 -> clean_agrees w b -> clean_agrees w' b) as Hmono.
  { intros b Hb Hc Hf Hd. rewrite Hdev.
    - rewrite device_after_evict_other; [now apply Hc|].
      intros Hk. apply (Hv _ Hk). apply (key_in_keys _ b _ Hb).
      apply key_of_in_use. auto.
    - intros E. apply Hmiss12. apply (key_in_keys _ b _ Hb).
      apply key_of_in_use. auto. }
  split.
  - split; [now rewrite (keys_perm _ _ Hp)|].
    rewrite Hp. apply Forall_app in Hcl as [H1 H2].
    apply Forall_cons in H2 as [Hcv H2].
    apply Forall_app. split.
    + apply Forall_forall. intros b Hb. apply Hmono.
      * apply elem_of_app. now left.
      * rewrite Forall_forall in H1. now apply H1.
    + apply Forall_cons. split.
      * intros _ _. cbn. now rewrite Hdata.
      * apply Forall_forall. intros b Hb. apply Hmono.
        -- apply elem_of_app. now right.
        -- rewrite Forall_forall in H2. now apply H2.
  - intros blk' sec'. unfold view.
    rewrite (cached_replace l1 l2 _ v b' blk' sec' Hnd Hnd' Hp), <- Hl.
    change (key_of b') with (Some (blk, sec)).
    destruct (decide (Some (blk, sec) = Some (blk', sec'))) as [[= <- <-]|Hne].
    { rewrite decide_True by reflexivity. reflexivity. }
    assert ((blk', sec') <> (blk, sec)) as Hne' by congruence.
    destruct (decide ((blk', sec') = (blk, sec))) as [?|_]; [contradiction|].
    rewrite (Hdev _ Hne').
    destruct (decide (key_of v = Some (blk', sec'))) as [Hkv|Hkv].
    + apply key_of_in_use in Hkv as [Hf [= -> ->]].
      apply Forall_app in Hcl as [_ H2]. apply Forall_cons in H2 as [Hcv _].
      cbn [default]. rewrite (device_after_evict_victim w v Hcv Hf).
      assert (cached (cache_blocks w) (block v) (sector v) = Some (buffer v)) as ->.
      { apply cached_Some; [now rewrite Hl|]. exists v.
        split; [now apply list_elem_of_lookup_2 in He|].
        split; [|reflexivity]. apply key_of_in_use. auto. }
      reflexivity.
    + now rewrite device_after_evict_other.
Qed.

(** **** The operations keep the cache coherent *)

Lemma read_offset_view (w : world) (blk sec ofs len now : Z) :
  cache_blocks w <> [] -> coherent w -> len + ofs <= BLOCK_SECTOR_SIZE ->
  exists w',
    block_cache_read_offset w blk sec ofs len now =
      Some (w', memcpy_from (view w blk sec) ofs len) /\
    coherent w' /\
    (forall blk' sec', view w' blk' sec' = view w blk' sec') /\
    (cached (cache_blocks w) blk sec <> None ->
     device w' = device w /\ io_log w' = io_log w).
Proof.
  intros Hne Hco Hlen.
  destruct (find_block blk sec (cache_blocks w) 0) as [[e b]|] eqn:Hfind.
  - rewrite (read_offset_hit w blk sec ofs len now e b Hlen Hfind).
    destruct (find_block_Some _ _ _ _ _ _ Hfind) as (k & -> & Hk & Hkey).
    assert (view w blk sec = buffer b) as Hview.
    { unfold view, cached. now rewrite Hfind. }
    eexists. split; [now rewrite Hview|].
    match goal with |- coherent ?W /\ _ => set (w' := W) end.
    set (b' := mk_cache_block (dirty b) (free b) (block b) (sector b) (buffer b) now).
    assert (dirty b' = false -> dirty b = false /\ buffer b' = buffer b) as Hc
      by (cbn; auto).
    destruct (coherent_hit w w' k b b' Hco Hk eq_refl Hc eq_refl (list_sort_perm _))
      as [Hco' Hv].
    split; [exact Hco'|]. split; [|intros _; split; reflexivity].
    intros blk' sec'. rewrite Hv.
    destruct (decide (key_of b = Some (blk', sec'))) as [E|]; [|reflexivity].
    rewrite Hkey in E. injection E as <- <-. now rewrite Hview.
  - destruct (read_offset_miss w blk sec ofs len now Hne Hfind Hlen)
      as (e & v & He & _ & Hrun).
    cbv zeta in Hrun. rewrite Hrun.
    assert (cached (cache_blocks w) blk sec = None) as Hmiss
      by (unfold cached; now rewrite Hfind).
    assert (key_of v <> Some (blk, sec)) as Hvk.
    { intros Hk. apply cached_None in Hmiss. apply Hmiss.
      apply (key_in_keys _ v); [|exact Hk]. now apply list_elem_of_lookup_2 in He. }
    assert (view w blk sec = default zero_sector (device w !! (blk, sec))) as Hview.
    { unfold view. now rewrite Hmiss. }
    rewrite (device_after_evict_other w v _ Hvk), <- Hview.
    eexists. split; [reflexivity|].
    match goal with |- coherent ?W /\ _ => set (w' := W) end.
    assert (forall k, k <> (blk, sec) -> device w' !! k = device_after_evict w v !! k)
      as Hdev by reflexivity.
    assert (default zero_sector (device w' !! (blk, sec)) = view w blk sec) as Hdata.
    { cbn. now rewrite (device_after_evict_other w v _ Hvk). }
    destruct (coherent_miss w w' e v blk sec (view w blk sec) now Hco He Hmiss Hdev
                Hdata (list_sort_perm _)) as [Hco' Hv].
    split; [exact Hco'|]. split; [|intros H; now rewrite Hmiss in H].
    intros blk' sec'. rewrite Hv.
    destruct (decide ((blk', sec') = (blk, sec))) as [[= -> ->]|]; reflexivity.
Qed.

Lemma write_offset_view (w : world) (blk sec : Z) (src : list Z) (ofs len now : Z) :
  cache_blocks w <> [] -> coherent w -> len + ofs <= BLOCK_SECTOR_SIZE ->
  exists w',
    block_cache_write_offset w blk sec src ofs len now = Some w' /\
    coherent w' /\
    forall blk' sec',
      view w' blk' sec' =
        if decide ((blk', sec') = (blk, sec))
        then memcpy_into (view w blk sec) ofs src len
        else view w blk' sec'.
Proof.
  intros Hne Hco Hlen.
  destruct (find_block blk sec (cache_blocks w) 0) as [[e b]|] eqn:Hfind.
  - rewrite (write_offset_hit w blk sec src ofs len now e b Hlen Hfind).
    destruct (find_block_Some _ _ _ _ _ _ Hfind) as (k & -> & Hk & Hkey).
    assert (view w blk sec = buffer b) as Hview.
    { unfold view, cached. now rewrite Hfind. }
    eexists. split; [reflexivity|].
    match goal with |- coherent ?W /\ _ => set (w' := W) end.
    set (b' := mk_cache_block true (free b) (block b) (sector b)
                 (memcpy_into (buffer b) ofs src len) now).
    assert (dirty b' = false -> dirty b = false /\ buffer b' = buffer b) as Hc
      by (cbn; discriminate).
    destruct (coherent_hit w w' k b b' Hco Hk eq_refl Hc eq_refl (list_sort_perm _))
      as [Hco' Hv].
    split; [exact Hco'|].
    intros blk' sec'. rewrite Hv, Hkey, Hview.
    destruct (decide (Some (blk, sec) = Some (blk', sec'))) as [[= <- <-]|Hn].
    + now rewrite decide_True.
    + rewrite decide_False; [reflexivity | congruence].
  - destruct (write_offset_miss w blk sec src ofs len now Hne Hfind Hlen)
      as (e & v & He & _ & Hrun).
    cbv zeta in Hrun. rewrite Hrun.
    assert (cached (cache_blocks w) blk sec = None) as Hmiss
      by (unfold cached; now rewrite Hfind).
    assert (key_of v <> Some (blk, sec)) as Hvk.
    { intros Hk. apply cached_None in Hmiss. apply Hmiss.
      apply (key_in_keys _ v); [|exact Hk]. now apply list_elem_of_lookup_2 in He. }
    assert (view w blk sec = default zero_sector (device w !! (blk, sec))) as Hview.
    { unfold view. now rewrite Hmiss. }
    rewrite (device_after_evict_other w v _ Hvk), <- Hview.
    eexists. split; [reflexivity|].
    match goal with |- coherent ?W /\ _ => set (w' := W) end.
    assert (forall k, k <> (blk, sec) -> device w' !! k = device_after_evict w v !! k)
      as Hdev by (intros k Hk; cbn; now apply lookup_insert_ne).
    assert (default zero_sector (device w' !! (blk, sec)) =
            memcpy_into (view w blk sec) ofs src len) as Hdata
      by (cbn; now rewrite lookup_insert_eq).
    destruct (coherent_miss w w' e v blk sec _ now Hco He Hmiss Hdev
                Hdata (list_sort_perm _)) as [Hco' Hv].
    split; [exact Hco' | exact Hv].
Qed.

(** **** The flush loop *)

(** One iteration of the flush loop on an entry in use: the buffer goes to
    the device and the entry is clean. *)
Lemma coherent_flush (w : world) (i : nat) (b : cache_block) :
  coherent w ->
  cache_blocks w !! i = Some b -> free b = false ->
  let b' := mk_cache_block false (free b) (block b) (sector b) (buffer b)
                           (last_touched b) in
  let w1 := block_write w (block b) (sector b) (buffer b) in
  let w' := set_cache_blocks w1 (<[i := b']> (cache_blocks w1)) in
  coherent w' /\ forall blk sec, view w' blk sec = view w blk sec.
Proof.
  intros [Hnd Hcl] Hi Hf b' w1 w'.
  destruct (insert_split _ i b b' Hi) as (l1 & l2 & Hl & Hins).
  assert (cache_blocks w' = l1 ++ b' :: l2) as Hl' by exact Hins.
  assert (device w' = <[(block b, sector b) := buffer b]> (device w)) as Hdev
    by reflexivity.
  rewrite Hl in Hnd, Hcl.
  assert (key_of b' = key_of b) as Hkey by reflexivity.
  assert (key_of b = Some (block b, sector b)) as Hkb by (apply key_of_in_use; auto).
  assert (NoDup (keys (l1 ++ b' :: l2))) as Hnd'
    by (now rewrite (keys_same_key l1 l2 b b' Hkey)).
  destruct (keys_around _ _ _ Hnd) as [_ Hv].
  assert (forall c, c ∈ l1 ++ l2 -> clean_agrees w c -> clean_agrees w' c) as Hmono.
  { intros c Hc Hag Hfc Hdc. rewrite Hdev, lookup_insert_ne; [now apply Hag|].
    intros E. apply (Hv _ Hkb). apply (key_in_keys _ c _ Hc).
    apply key_of_in_use. auto. }
  split.
  - split; [now rewrite Hl'|]. rewrite Hl'.
    apply Forall_app in Hcl as [H1 H2]. apply Forall_cons in H2 as [_ H2].
    apply Forall_app. split.
    + apply Forall_forall. intros c Hc. apply Hmono.
      * apply elem_of_app. now left.
      * rewrite Forall_forall in H1. now apply H1.
    + apply Forall_cons. split.
      * intros _ _. rewrite Hdev. cbn. now rewrite lookup_insert_eq.
      * apply Forall_forall. intros c Hc. apply Hmono.
        -- apply elem_of_app. now right.
        -- rewrite Forall_forall in H2. now apply H2.
  - intros blk sec. unfold view.
    assert (cache_blocks w' ≡ₚ l1 ++ b' :: l2) as Hp by (now rewrite Hl').
    rewrite (cached_replace l1 l2 (cache_blocks w') b b' blk sec Hnd Hnd' Hp).
    rewrite Hkey, <- Hl.
    destruct (decide (key_of b = Some (blk, sec))) as [E|E].
    + assert (cached (cache_blocks w) blk sec = Some (buffer b)) as ->; [|reflexivity].
      apply cached_Some; [now rewrite Hl|]. exists b.
      split; [now apply list_elem_of_lookup_2 in Hi | auto].
    + rewrite Hdev, lookup_insert_ne; [reflexivity|]. congruence.
Qed.

Lemma fflush_from_coherent (n : nat) :
  forall (i : nat) (w : world),
    coherent w ->
    coherent (fflush_from n i w) /\
    forall blk sec, view (fflush_from n i w) blk sec = view w blk sec.
Proof.
  induction n as [|n IH]; intros i w Hco; cbn [fflush_from]; [auto|].
  destruct (cache_blocks w !! i) as [b|] eqn:Hi; [|auto].
  destruct (negb (free b) && dirty b) eqn:E; [|now apply IH].
  apply andb_true_iff in E as [Hf _]. apply negb_true_iff in Hf.
  destruct (coherent_flush w i b Hco Hi Hf) as [Hco' Hv]. cbv zeta in Hco', Hv.
  destruct (IH (S i) _ Hco') as [Hco2 Hv2].
  split; [exact Hco2|]. intros blk sec. now rewrite Hv2, Hv.
Qed.

(** An entry is free or clean. *)
Lemma fflush_from_clean (n : nat) :
  forall (i : nat) (w : world),
    (forall (j : nat) (b : cache_block),
        (j < i)%nat -> cache_blocks w !! j = Some b ->
        negb (free b) && dirty b = false) ->
    (length (cache_blocks w) <= i + n)%nat ->
    forall b, b ∈ cache_blocks (fflush_from n i w) ->
              negb (free b) && dirty b = false.
Proof.
  induction n as [|n IH]; intros i w Hbefore Hlen b Hb; cbn [fflush_from] in Hb.
  - apply list_elem_of_lookup in Hb as [j Hj].
    apply (Hbefore j); [|exact Hj]. apply lookup_lt_Some in Hj. lia.
  - destruct (cache_blocks w !! i) as [c|] eqn:Hi.
    + destruct (negb (free c) && dirty c) eqn:E.
      * apply (IH (S i) _) in Hb; [exact Hb | | ].
        -- intros j x Hj Hx. cbn in Hx. destruct (decide (j = i)) as [->|Hne].
           ++ rewrite list_lookup_insert_eq in Hx by (now apply lookup_lt_Some in Hi).
              injection Hx as <-. cbn. apply andb_false_r.
           ++ rewrite list_lookup_insert_ne in Hx by congruence.
              apply (Hbefore j); [lia | exact Hx].
        -- cbn. rewrite length_insert. lia.
      * apply (IH (S i) _) in Hb; [exact Hb | | lia].
        intros j x Hj Hx. destruct (decide (j = i)) as [->|Hne].
        -- rewrite Hi in Hx. now injection Hx as <-.
        -- apply (Hbefore j); [lia | exact Hx].
    + apply list_elem_of_lookup in Hb as [j Hj].
      apply (Hbefore j); [|exact Hj].
      apply lookup_lt_Some in Hj. apply lookup_ge_None in Hi. lia.
Qed.

Lemma fflush_from_log (n : nat) :
  forall (i : nat) (w : world),
    io_log (fflush_from n i w) =
    io_log w ++ flush_writes (take n (drop i (cache_blocks w))).
Proof.
  unfold flush_writes.
  induction n as [|n IH]; intros i w; cbn [fflush_from].
  - cbn. now rewrite app_nil_r.
  - destruct (cache_blocks w !! i) as [b|] eqn:Hi.
    + rewrite (drop_S _ _ _ Hi). cbn [take flat_map].
      destruct (negb (free b) && dirty b) eqn:E.
      * replace (written_back b) with [IoWrite (block b) (sector b) (buffer b)]
          by (unfold written_back; now rewrite E).
        rewrite IH. cbn [cache_blocks io_log block_write set_cache_blocks].
        rewrite drop_insert_lt by lia. now rewrite <- app_assoc.
      * replace (written_back b) with (@nil io_event)
          by (unfold written_back; now rewrite E).
        now rewrite IH.
    + apply lookup_ge_None in Hi. rewrite drop_ge by lia.
      cbn. now rewrite app_nil_r.
Qed.

(** With no dirty entry in use the flush loop does nothing. *)
Lemma fflush_from_idle (n : nat) :
  forall (i : nat) (w : world),
    (forall b, b ∈ cache_blocks w -> negb (free b) && dirty b = false) ->
    fflush_from n i w = w.
Proof.
  induction n as [|n IH]; intros i w Hclean; cbn [fflush_from]; [reflexivity|].
  destruct (cache_blocks w !! i) as [b|] eqn:Hi; [|reflexivity].
  rewrite (Hclean b) by (now apply list_elem_of_lookup_2 in Hi). now apply IH.
Qed.

(** Without dirty entries the device holds what the callers see. *)
Lemma clean_view (w : world) (blk sec : Z) :
  coherent w ->
  (forall b, b ∈ cache_blocks w -> negb (free b) && dirty b = false) ->
  default zero_sector (device w !! (blk, sec)) = view w blk sec.
Proof.
  intros [Hnd Hcl] Hclean. unfold view.
  destruct (cached (cache_blocks w) blk sec) as [buf|] eqn:E; [|reflexivity].
  apply cached_Some in E as (b & Hb & Hkey & <-); [|exact Hnd].
  apply key_of_in_use in Hkey as [Hf [= -> ->]].
  rewrite Forall_forall in Hcl. cbn. symmetry. apply (Hcl b Hb Hf).
  specialize (Hclean b Hb). rewrite Hf in Hclean. exact Hclean.
Qed.

(** **** Reachable states *)

Lemma keys_all_free (l : list cache_block) :
  Forall (fun b => free b = true) l -> keys l = [].
Proof.
  unfold keys. induction 1 as [|b l Hb _ IH]; [reflexivity|].
  cbn. unfold key_of at 1. now rewrite Hb.
Qed.

Lemma block_cache_init_free (timer_ticks : nat -> Z) :
  Forall (fun b => free b = true) (block_cache_init timer_ticks).
Proof.
  unfold block_cache_init. apply Forall_forall. intros b Hb.
  apply list_elem_of_fmap in Hb as (i & -> & _). reflexivity.
Qed.

Lemma reachable_coherent (w : world) : reachable w -> coherent w.
Proof.
  induction 1 as [tt dev log Hmono
                 | w blk sec ofs len now w' out Hr IH Hrun
                 | w blk sec now w' out Hr IH Hrun
                 | w blk sec src ofs len now w' Hr IH Hrun
                 | w blk sec src now w' Hr IH Hrun
                 | w Hr IH].
  - pose proof (block_cache_init_free tt) as Hfree. split; cbn [cache_blocks].
    + rewrite (keys_all_free _ Hfree). constructor.
    + eapply Forall_impl; [exact Hfree|]. intros b Hb Hf. congruence.
  - assert (len + ofs <= BLOCK_SECTOR_SIZE) as Hlen.
    { unfold block_cache_read_offset in Hrun.
      destruct (len + ofs <=? BLOCK_SECTOR_SIZE) eqn:E; [now apply Z.leb_le|discriminate]. }
    destruct (read_offset_view w blk sec ofs len now) as (w2 & Hrun2 & Hco & _);
      [apply cache_nonempty; now apply reachable_inv | exact IH | exact Hlen |].
    rewrite Hrun in Hrun2. now injection Hrun2 as -> _.
  - destruct (read_offset_view w blk sec 0 BLOCK_SECTOR_SIZE now)
      as (w2 & Hrun2 & Hco & _);
      [apply cache_nonempty; now apply reachable_inv | exact IH | reflexivity |].
    unfold block_cache_read in Hrun. rewrite Hrun in Hrun2. now injection Hrun2 as -> _.
  - assert (len + ofs <= BLOCK_SECTOR_SIZE) as Hlen.
    { unfold block_cache_write_offset in Hrun.
      destruct (len + ofs <=? BLOCK_SECTOR_SIZE) eqn:E; [now apply Z.leb_le|discriminate]. }
    destruct (write_offset_view w blk sec src ofs len now) as (w2 & Hrun2 & Hco & _);
      [apply cache_nonempty; now apply reachable_inv | exact IH | exact Hlen |].
    rewrite Hrun in Hrun2. now injection Hrun2 as ->.
  - destruct (write_offset_view w blk sec src 0 BLOCK_SECTOR_SIZE now)
      as (w2 & Hrun2 & Hco & _);
      [apply cache_nonempty; now apply reachable_inv | exact IH | reflexivity |].
    unfold block_cache_write in Hrun. rewrite Hrun in Hrun2. now injection Hrun2 as ->.
  - now apply fflush_from_coherent.
Qed.

Lemma reachable_nonempty (w : world) : reachable w -> cache_blocks w <> [].
Proof. intros H. apply cache_nonempty. now apply reachable_inv. Qed.

(** A sequence of operations that does not write to a sector leaves what
    the callers see of the sector. *)
Lemma run_ops_view (blk sec : Z) (ops : list cache_op) :
  forall w : world,
    reachable w ->
    Forall in_sector ops ->
    Forall (fun op => ~ writes_to blk sec op) ops ->
    exists w', run_ops ops w = Some w' /\ reachable w' /\
               view w' blk sec = view w blk sec.
Proof.
  induction ops as [|op ops IH]; intros w Hr Hin Hnw.
  - exists w. auto.
  - apply Forall_cons in Hin as [Hin1 Hin], Hnw as [Hnw1 Hnw].
    destruct op as [b s ofs len now | b s src ofs len now |]; cbn [run_ops].
    + destruct (read_offset_view w b s ofs len now (reachable_nonempty w Hr)
                  (reachable_coherent w Hr) Hin1) as (w1 & Hrun & _ & Hv & _).
      rewrite Hrun.
      destruct (IH w1 (reach_read_offset _ _ _ _ _ _ _ _ Hr Hrun) Hin Hnw)
        as (w2 & Hrun2 & Hr2 & Hv2).
      exists w2. split; [exact Hrun2|]. split; [exact Hr2|]. now rewrite Hv2, Hv.
    + destruct (write_offset_view w b s src ofs len now (reachable_nonempty w Hr)
                  (reachable_coherent w Hr) Hin1) as (w1 & Hrun & _ & Hv).
      rewrite Hrun.
      destruct (IH w1 (reach_write_offset _ _ _ _ _ _ _ _ Hr Hrun) Hin Hnw)
        as (w2 & Hrun2 & Hr2 & Hv2).
      exists w2. split; [exact Hrun2|]. split; [exact Hr2|]. rewrite Hv2, Hv.
      destruct (decide ((blk, sec) = (b, s))) as [[= -> ->]|]; [|reflexivity].
      exfalso. apply Hnw1. cbn. auto.
    + destruct (IH _ (reach_fflush w Hr) Hin Hnw) as (w2 & Hrun2 & Hr2 & Hv2).
      exists w2. split; [exact Hrun2|]. split; [exact Hr2|]. rewrite Hv2.
      now apply fflush_from_coherent, reachable_coherent.
Qed.

Lemma memcpy_whole (old src : list Z) :
  length src = Z.to_nat BLOCK_SECTOR_SIZE ->
  memcpy_from (memcpy_into old 0 src BLOCK_SECTOR_SIZE) 0 BLOCK_SECTOR_SIZE = src.
Proof.
  intros Hlen. unfold memcpy_from, memcpy_into.
  change (Z.to_nat 0) with 0%nat. rewrite take_0, drop_0. cbn [app].
  rewrite <- Hlen, firstn_all. now rewrite take_app_length.
Qed.

Lemma fresh_world_reachable : reachable fresh_world.
Proof. apply reach_init. intros i j Hij. lia. Qed.

Lemma written_world_reachable : reachable written_world.
Proof.
  apply (reach_write fresh_world 1 5 (repeat 7 512%nat) 70);
    [apply fresh_world_reachable | vm_compute; reflexivity].
Qed.

Lemma dirty_world_reachable : reachable dirty_world.
Proof.
  apply (reach_write written_world 1 5 (repeat 9 512%nat) 71);
    [apply written_world_reachable | vm_compute; reflexivity].
Qed.

(** X1.  In every state the cache reaches, no (device, sector) is held by
    two entries in use, and an entry in use that is not dirty holds what
    the device holds for its sector. *)
Theorem cache_holds_sector_once (w : world) :
  reachable w ->
  NoDup (keys (cache_blocks w)) /\
  (forall b : cache_block,
      b ∈ cache_blocks w -> free b = false -> dirty b = false ->
      buffer b = default zero_sector (device w !! (block b, sector b))).
Proof.
  intros Hr. destruct (reachable_coherent w Hr) as [Hnd Hcl].
  split; [exact Hnd|]. intros b Hb. rewrite Forall_forall in Hcl. now apply Hcl.
Qed.

Lemma cache_holds_sector_once_witness :
  NoDup (keys (cache_blocks written_world)) /\
  (forall b : cache_block,
      b ∈ cache_blocks written_world -> free b = false -> dirty b = false ->
      buffer b = default zero_sector (device written_world !! (block b, sector b))).
Proof. apply (cache_holds_sector_once written_world), written_world_reachable. Defined.

(** X2.  A read through the cache gives the bytes a caller expects: those
    of the cached buffer if the sector is cached, those of the device
    otherwise.  The read changes what no caller sees of any sector, and a
    read of a cached sector does no device operation. *)
Theorem cache_read_transparent (w : world) (blk sec ofs len now : Z) :
  reachable w -> len + ofs <= BLOCK_SECTOR_SIZE ->
  exists w',
    block_cache_read_offset w blk sec ofs len now =
      Some (w', memcpy_from (view w blk sec) ofs len) /\
    (forall blk' sec', view w' blk' sec' = view w blk' sec') /\
    (cached (cache_blocks w) blk sec <> None ->
     device w' = device w /\ io_log w' = io_log w).
Proof.
  intros Hr Hlen.
  destruct (read_offset_view w blk sec ofs len now (reachable_nonempty w Hr)
              (reachable_coherent w Hr) Hlen) as (w' & Hrun & _ & Hv & Hio).
  exists w'. auto.
Qed.

Lemma cache_read_transparent_witness :
  exists w',
    block_cache_read_offset dirty_world 1 5 2 3 80 = Some (w', [9; 9; 9]) /\
    io_log w' = io_log dirty_world.
Proof.
  destruct (cache_read_transparent dirty_world 1 5 2 3 80 dirty_world_reachable)
    as (w' & Hrun & _ & Hio); [vm_compute; discriminate|].
  exists w'. split; [exact Hrun|]. apply Hio. vm_compute. discriminate.
Defined.

(** X3.  A write through the cache changes what the callers see of the
    sector written, in the range written, and of no other sector. *)
Theorem cache_write_visible (w : world) (blk sec : Z) (src : list Z) (ofs len now : Z) :
  reachable w -> len + ofs <= BLOCK_SECTOR_SIZE ->
  exists w',
    block_cache_write_offset w blk sec src ofs len now = Some w' /\
    view w' blk sec = memcpy_into (view w blk sec) ofs src len /\
    (forall blk' sec', (blk', sec') <> (blk, sec) ->
                       view w' blk' sec' = view w blk' sec').
Proof.
  intros Hr Hlen.
  destruct (write_offset_view w blk sec src ofs len now (reachable_nonempty w Hr)
              (reachable_coherent w Hr) Hlen) as (w' & Hrun & _ & Hv).
  exists w'. split; [exact Hrun|]. split.
  - rewrite Hv. now rewrite decide_True.
  - intros blk' sec' Hne. rewrite Hv. now rewrite decide_False.
Qed.

Lemma cache_write_visible_witness :
  exists w',
    block_cache_write_offset written_world 1 5 [1; 2] 510 2 80 = Some w' /\
    view w' 1 5 = repeat 7 510%nat ++ [1; 2] /\
    view w' 1 6 = view written_world 1 6.
Proof.
  destruct (cache_write_visible written_world 1 5 [1; 2] 510 2 80
              written_world_reachable) as (w' & Hrun & Hv & Hother);
    [vm_compute; discriminate|].
  exists w'. split; [exact Hrun|]. split.
  - rewrite Hv. vm_compute. reflexivity.
  - apply Hother. discriminate.
Defined.

(** X4.  A sector written through the cache reads back as written, after
    any sequence of reads, flushes and writes to other sectors (and the
    evictions they cause). *)
Theorem cache_read_after_write (w : world) (blk sec : Z) (src : list Z)
    (now now' : Z) (ops : list cache_op) :
  reachable w ->
  length src = Z.to_nat BLOCK_SECTOR_SIZE ->
  Forall in_sector ops ->
  Forall (fun op => ~ writes_to blk sec op) ops ->
  exists w1 w2 w3,
    block_cache_write w blk sec src now = Some w1 /\
    run_ops ops w1 = Some w2 /\
    block_cache_read w2 blk sec now' = Some (w3, src).
Proof.
  intros Hr Hsrc Hin Hnw. unfold block_cache_write, block_cache_read.
  destruct (write_offset_view w blk sec src 0 BLOCK_SECTOR_SIZE now
              (reachable_nonempty w Hr) (reachable_coherent w Hr) ltac:(reflexivity))
    as (w1 & Hrun1 & _ & Hv1).
  assert (reachable w1) as Hr1 by (now apply (reach_write_offset _ _ _ _ _ _ _ _ Hr Hrun1)).
  destruct (run_ops_view blk sec ops w1 Hr1 Hin Hnw) as (w2 & Hrun2 & Hr2 & Hv2).
  destruct (read_offset_view w2 blk sec 0 BLOCK_SECTOR_SIZE now'
              (reachable_nonempty w2 Hr2) (reachable_coherent w2 Hr2) ltac:(reflexivity))
    as (w3 & Hrun3 & _).
  exists w1, w2, w3. split; [exact Hrun1|]. split; [exact Hrun2|].
  rewrite Hrun3, Hv2, Hv1, decide_True by reflexivity.
  now rewrite memcpy_whole.
Qed.

Lemma cache_read_after_write_witness :
  exists w1 w2 w3,
    block_cache_write written_world 1 9 (repeat 3 512%nat) 80 = Some w1 /\
    run_ops [OpRead 1 6 0 512 81; OpWrite 1 5 [4] 7 1 82; OpFlush;
             OpWrite 2 9 (repeat 8 512%nat) 0 512 83] w1 = Some w2 /\
    block_cache_read w2 1 9 90 = Some (w3, repeat 3 512%nat).
Proof.
  apply (cache_read_after_write written_world 1 9 (repeat 3 512%nat) 80 90
           [OpRead 1 6 0 512 81; OpWrite 1 5 [4] 7 1 82; OpFlush;
            OpWrite 2 9 (repeat 8 512%nat) 0 512 83]).
  - apply written_world_reachable.
  - reflexivity.
  - repeat (apply Forall_cons; split); try apply Forall_nil;
      try exact I; unfold in_sector, BLOCK_SECTOR_SIZE; lia.
  - repeat (apply Forall_cons; split); try apply Forall_nil; cbn;
      try (intros [? ?]; discriminate); tauto.
Defined.

(** X5.  After [block_cache_fflush] no entry in use is dirty; the callers
    see of every sector what they saw before, and the device now holds
    just that.  The loop writes the dirty entries in list order, and a
    second flush right after does nothing. *)
Theorem cache_flush_durable (w : world) :
  reachable w ->
  (forall b : cache_block,
      b ∈ cache_blocks (block_cache_fflush w) -> free b = false -> dirty b = false) /\
  (forall blk sec,
      view (block_cache_fflush w) blk sec = view w blk sec /\
      default zero_sector (device (block_cache_fflush w) !! (blk, sec))
        = view w blk sec) /\
  io_log (block_cache_fflush w) = io_log w ++ flush_writes (cache_blocks w) /\
  block_cache_fflush (block_cache_fflush w) = block_cache_fflush w.
Proof.
  intros Hr. pose proof (reachable_coherent w Hr) as Hco.
  destruct (fflush_from_coherent (length (cache_blocks w)) 0 w Hco) as [Hco' Hv].
  fold (block_cache_fflush w) in Hco', Hv.
  assert (forall b, b ∈ cache_blocks (block_cache_fflush w) ->
                    negb (free b) && dirty b = false) as Hclean.
  { apply fflush_from_clean; [intros j b Hj; lia | lia]. }
  split; [|split; [|split]].
  - intros b Hb Hf. specialize (Hclean b Hb). now rewrite Hf in Hclean.
  - intros blk sec. split; [apply Hv|].
    rewrite <- Hv. now apply clean_view.
  - unfold block_cache_fflush. rewrite fflush_from_log, drop_0.
    now rewrite firstn_all.
  - unfold block_cache_fflush at 1. now apply fflush_from_idle.
Qed.

Lemma cache_flush_durable_witness :
  io_log (block_cache_fflush dirty_world) =
    io_log dirty_world ++ [IoWrite 1 5 (repeat 9 512%nat)] /\
  device (block_cache_fflush dirty_world) !! (1, 5) = Some (repeat 9 512%nat).
Proof.
  destruct (cache_flush_durable dirty_world dirty_world_reachable)
    as (_ & _ & Hlog & _).
  split; [rewrite Hlog|]; vm_compute; reflexivity.
Defined.

End CacheView.

(** ** The list of open inodes *)

Section OpenInodes.
Import FreeMap Inode.

Lemma find_inode_None (sec : Z) (l : list inode) :
  find_inode sec l = None <-> sec ∉ (sector <$> l).
Proof.
  induction l as [|x l IH]; cbn.
  - split; [intros _; apply not_elem_of_nil | reflexivity].
  - destruct (sector x =? sec) eqn:E.
    + apply Z.eqb_eq in E. split; [discriminate|]. intros H. exfalso. apply H.
      rewrite E. left.
    + apply Z.eqb_neq in E. rewrite IH, not_elem_of_cons. split; [auto|tauto].
Qed.

Lemma find_inode_other (sec sec' : Z) (f : inode -> inode) (l : list inode) :
  (forall ino, sector (f ino) = sector ino) -> sec' <> sec ->
  find_inode sec' (update_inode sec f l) = find_inode sec' l.
Proof.
  intros Hf Hne. induction l as [|x l IH]; cbn; [reflexivity|].
  destruct (sector x =? sec) eqn:E; cbn.
  - rewrite Hf. apply Z.eqb_eq in E.
    destruct (sector x =? sec') eqn:E'; [|reflexivity].
    apply Z.eqb_eq in E'. congruence.
  - destruct (sector x =? sec'); [reflexivity | exact IH].
Qed.

Lemma update_inode_sectors (sec : Z) (f : inode -> inode) (l : list inode) :
  (forall ino, sector (f ino) = sector ino) ->
  sector <$> update_inode sec f l = sector <$> l.
Proof.
  intros Hf. induction l as [|x l IH]; cbn; [reflexivity|].
  destruct (sector x =? sec); cbn; [now rewrite Hf | now rewrite IH].
Qed.

Lemma update_inode_twice (sec : Z) (f g : inode -> inode) (l : list inode) :
  (forall ino, sector (f ino) = sector ino) ->
  update_inode sec g (update_inode sec f l) = update_inode sec (fun i => g (f i)) l.
Proof.
  intros Hf. induction l as [|x l IH]; cbn; [reflexivity|].
  destruct (sector x =? sec) eqn:E; cbn.
  - now rewrite Hf, E.
  - now rewrite E, IH.
Qed.

Lemma update_inode_same (sec : Z) (f : inode -> inode) (l : list inode) :
  (forall ino, f ino = ino) -> update_inode sec f l = l.
Proof.
  intros Hf. induction l as [|x l IH]; cbn; [reflexivity|].
  destruct (sector x =? sec); [now rewrite Hf | now rewrite IH].
Qed.

(** X6.  Opening an inode twice gives one in-memory inode with two
    openers: [inode_open] keeps the sectors of the list [open_inodes]
    distinct, leaves the disk and the other open inodes as they are, and
    adds an opener to the inode of the sector, or an inode with one
    opener when the sector was not open. *)
Theorem inode_open_shares (fs : fsys) (sec : Z) :
  NoDup (sector <$> open_inodes fs) ->
  NoDup (sector <$> open_inodes (inode_open fs sec)) /\
  fs_disk (inode_open fs sec) = fs_disk fs /\
  find_inode sec (open_inodes (inode_open fs sec)) =
    Some (match find_inode sec (open_inodes fs) with
          | Some ino => mk_inode sec (open_cnt ino + 1) (removed ino)
                                 (deny_write_cnt ino) (writers ino)
          | None => mk_inode sec 1 false 0 0
          end) /\
  (forall sec', sec' <> sec ->
     find_inode sec' (open_inodes (inode_open fs sec)) =
     find_inode sec' (open_inodes fs)).
Proof.
  intros Hnd. unfold inode_open.
  destruct (find_inode sec (open_inodes fs)) as [ino|] eqn:Hfind.
  - unfold inode_reopen. cbn [open_inodes fs_disk].
    split; [now rewrite update_inode_sectors|]. split; [reflexivity|]. split.
    + rewrite find_update_inode by reflexivity. rewrite Hfind. cbn.
      now rewrite (find_inode_sector _ _ _ Hfind).
    + intros sec' Hne. now apply find_inode_other.
  - cbn [open_inodes fs_disk]. split; [|split; [reflexivity|split]].
    + cbn. apply NoDup_cons. split; [now apply find_inode_None | exact Hnd].
    + cbn. now rewrite Z.eqb_refl.
    + intros sec' Hne. cbn.
      destruct (sec =? sec') eqn:E; [apply Z.eqb_eq in E; congruence | reflexivity].
Qed.

Lemma inode_open_shares_witness :
  find_inode 2 (open_inodes (inode_open sample_fs 2)) = Some (mk_inode 2 2 false 0 0) /\
  find_inode 3 (open_inodes (inode_open sample_fs 3)) = Some (mk_inode 3 1 false 0 0).
Proof.
  split.
  - destruct (inode_open_shares sample_fs 2) as (_ & _ & H & _).
    + vm_compute. repeat constructor. apply not_elem_of_nil.
    + rewrite H. vm_compute. reflexivity.
  - destruct (inode_open_shares sample_fs 3) as (_ & _ & H & _).
    + vm_compute. repeat constructor. apply not_elem_of_nil.
    + rewrite H. vm_compute. reflexivity.
Defined.

(** X7.  [inode_close] undoes [inode_open]: closing an inode right after
    opening it gives back the list of open inodes and the disk, whether
    the inode was open before or not. *)
Theorem inode_open_close (fuel : nat) (fs : fsys) (sec : Z) :
  all_open (open_inodes fs) ->
  inode_close fuel (inode_open fs sec) sec = Some fs.
Proof.
  intros Hall. destruct fs as [dk l]. unfold inode_open. cbn [open_inodes fs_disk].
  destruct (find_inode sec l) as [ino|] eqn:Hfind.
  - unfold inode_reopen, inode_close. cbn [open_inodes fs_disk].
    rewrite find_update_inode by reflexivity. rewrite Hfind. cbn [fmap option_fmap option_map open_cnt].
    assert (0 < open_cnt ino) as Hpos.
    { unfold all_open in Hall. rewrite Forall_forall in Hall. apply Hall.
      clear Hall. induction l as [|x l IH]; cbn in Hfind; [discriminate|].
      destruct (sector x =? sec); [injection Hfind as ->; left | right; auto]. }
    destruct (open_cnt ino + 1 - 1 =? 0) eqn:E; [apply Z.eqb_eq in E; lia|].
    rewrite update_inode_twice by reflexivity.
    rewrite update_inode_same; [reflexivity|].
    intros [s c r dw wr]. cbn. f_equal. lia.
  - unfold inode_close. cbn [open_inodes fs_disk find_inode sector].
    rewrite Z.eqb_refl. cbn [open_cnt removed remove_inode sector].
    change (1 - 1 =? 0) with true. cbv iota. now rewrite Z.eqb_refl.
Qed.

Lemma inode_open_close_witness :
  inode_close 0 (inode_open sample_fs 2) 2 = Some sample_fs /\
  inode_close 0 (inode_open sample_fs 3) 3 = Some sample_fs.
Proof.
  split; apply (inode_open_close 0 sample_fs); vm_compute;
    repeat constructor.
Defined.

Lemma read_loop_sector (fuel : nat) (st : gmap Z (list Z)) (ino ino' : inode) :
  sector ino' = sector ino ->
  forall (size offset bytes_read : Z) (buffer : list Z),
    read_loop fuel st ino' size offset bytes_read buffer =
    read_loop fuel st ino size offset bytes_read buffer.
Proof.
  intros Hs. induction fuel as [|fuel IH]; intros size offset bytes_read buffer;
    cbn [read_loop]; [reflexivity|].
  unfold byte_to_sector, inode_length. rewrite Hs.
  destruct (size <=? 0); [reflexivity|].
  destruct (chunk_of _ _ _) as [sector_ofs chunk_size].
  destruct (chunk_size <=? 0); [reflexivity|].
  destruct (if offset <? _ then _ else _) as [idx|]; [|reflexivity].
  destruct ((sector_ofs =? 0) && (chunk_size =? BLOCK_SECTOR_SIZE)); [apply IH|].
  destruct (block_cache_read_offset st idx sector_ofs chunk_size); [apply IH|reflexivity].
Qed.

(** X8.  While writes are denied [inode_write_at] writes nothing and
    returns 0; reads go on as before, and [inode_allow_write] gives back
    the inode as it was before [inode_deny_write]. *)
Theorem deny_write_blocks_writes (fuel : nat) (dk : disk) (ino ino1 : inode)
    (buffer : list Z) (size offset : Z) :
  0 <= deny_write_cnt ino ->
  inode_deny_write ino = Some ino1 ->
  inode_write_at fuel dk ino1 buffer size offset = IoDone (0, dk) /\
  inode_read_at (sectors dk) ino1 size offset
    = inode_read_at (sectors dk) ino size offset /\
  inode_allow_write ino1 = Some ino.
Proof.
  intros Hpos Hdeny. unfold inode_deny_write in Hdeny.
  cbn [deny_write_cnt open_cnt] in Hdeny.
  destruct (deny_write_cnt ino + 1 <=? open_cnt ino) eqn:E; [|discriminate].
  injection Hdeny as <-. apply Z.leb_le in E. split; [|split].
  - unfold inode_write_at. cbn [deny_write_cnt].
    destruct (deny_write_cnt ino + 1 =? 0) eqn:E0; [apply Z.eqb_eq in E0; lia|].
    reflexivity.
  - unfold inode_read_at. now apply read_loop_sector.
  - unfold inode_allow_write. cbn [deny_write_cnt open_cnt sector removed writers].
    destruct (0 <? deny_write_cnt ino + 1) eqn:E1; [|apply Z.ltb_ge in E1; lia].
    destruct (deny_write_cnt ino + 1 <=? open_cnt ino) eqn:E2;
      [|apply Z.leb_gt in E2; lia].
    cbn. destruct ino as [s c r dw wr]. cbn. f_equal. f_equal. lia.
Qed.

Lemma deny_write_blocks_writes_witness :
  inode_write_at 1 (fs_disk sample_fs) (mk_inode 2 1 false 1 0) [1; 2; 3] 3 0
    = IoDone (0, fs_disk sample_fs) /\
  inode_allow_write (mk_inode 2 1 false 1 0) = Some (mk_inode 2 1 false 0 0).
Proof.
  destruct (deny_write_blocks_writes 1 (fs_disk sample_fs) (mk_inode 2 1 false 0 0)
              (mk_inode 2 1 false 1 0) [1; 2; 3] 3 0) as (H1 & _ & H2).
  - cbn. lia.
  - reflexivity.
  - split; assumption.
Defined.

End OpenInodes.

(** ** Truncation to length 0 *)

Section TruncateTotal.
Import FreeMap Inode.

Lemma only_released_refl (fm : list bool) : only_released fm fm.
Proof. split; auto. Qed.

Lemma only_released_trans (fm1 fm2 fm3 : list bool) :
  only_released fm1 fm2 -> only_released fm2 fm3 -> only_released fm1 fm3.
Proof. intros [L1 H1] [L2 H2]. split; [congruence | auto]. Qed.

Lemma only_released_release (fm : list bool) (s : Z) :
  only_released fm (free_map_release fm s).
Proof.
  unfold free_map_release. split; [apply length_insert|]. intros i Hi.
  destruct (decide (i = Z.to_nat s)) as [->|Hne].
  - apply list_lookup_insert_Some in Hi as [[_ [? _]]|[? _]]; congruence.
  - now rewrite list_lookup_insert_ne in Hi by congruence.
Qed.

Lemma only_released_all (l : list Z) :
  forall fm : list bool, only_released fm (release_all l fm).
Proof.
  unfold release_all. induction l as [|s l IH]; intros fm; cbn [foldl].
  - apply only_released_refl.
  - eapply only_released_trans; [apply only_released_release | apply IH].
Qed.

Lemma entry_insert_eq (a : list Z) (i : nat) :
  entry (<[i := 0]> a) (Z.of_nat i) = 0.
Proof.
  unfold entry. rewrite Nat2Z.id.
  destruct (decide (i < List.length a)%nat) as [Hi|Hi].
  - now rewrite list_lookup_insert_eq.
  - rewrite (proj2 (lookup_ge_None _ _)); [reflexivity|]. rewrite length_insert. lia.
Qed.

(** A leaf loop on the way to length 0: it ends, it takes no sector, it
    writes no sector, and it clears the slots it goes over. *)
Lemma resize_leaves_trunc (base : Z) (n : nat) :
  0 <= base ->
  forall (i : nat) (dk : disk) (slots : list Z),
    exists fm' slots',
      resize_leaves n i 0 base dk slots = Done (mk_disk fm' (sectors dk), slots') /\
      only_released (free_map dk) fm' /\
      List.length slots' = List.length slots /\
      (forall k : nat, (i <= k < i + n)%nat -> entry slots' (Z.of_nat k) = 0) /\
      (forall k : nat, (k < i)%nat ->
         entry slots' (Z.of_nat k) = entry slots (Z.of_nat k)).
Proof.
  intros Hbase. induction n as [|n IH]; intros i dk slots; cbn [resize_leaves].
  - exists (free_map dk), slots. destruct dk. cbn.
    split; [reflexivity|]. split; [apply only_released_refl|].
    split; [reflexivity|]. split; [intros; lia | reflexivity].
  - rewrite resize_slot_zero by lia.
    destruct (IH (S i) (mk_disk (release_all (allocated [entry slots (Z.of_nat i)])
                                   (free_map dk)) (sectors dk))
                 (<[i := 0]> slots)) as (fm' & slots' & Hrun & Hrel & Hlen & Hz & Hk).
    exists fm', slots'. cbn [sectors free_map] in *. split; [exact Hrun|].
    split; [eapply only_released_trans; [apply only_released_all | exact Hrel]|].
    split; [now rewrite Hlen, length_insert|]. split.
    + intros k Hk'. destruct (decide (k = i)) as [->|Hne].
      * rewrite Hk by lia. apply entry_insert_eq.
      * apply Hz. lia.
    + intros k Hk'. rewrite Hk by lia. apply entry_insert_ne. lia.
Qed.

Lemma resize_doubly_trunc (n : nat) :
  forall (i : nat) (dk : disk) (buffer : list Z),
    exists fm' buffer',
      resize_doubly n i 0 dk buffer = Done (mk_disk fm' (sectors dk), buffer') /\
      only_released (free_map dk) fm'.
Proof.
  induction n as [|n IH]; intros i dk buffer; cbn [resize_doubly].
  - exists (free_map dk), buffer. destruct dk. split; [reflexivity|].
    apply only_released_refl.
  - set (base := 12 + 128 + 128 * Z.of_nat i).
    assert ((0 <=? base * BLOCK_SECTOR_SIZE) = true) as Hb.
    { apply Z.leb_le. unfold base, BLOCK_SECTOR_SIZE. lia. }
    rewrite Hb, andb_true_r.
    destruct (entry buffer (Z.of_nat i) =? 0) eqn:E.
    + exists (free_map dk), buffer. destruct dk. split; [reflexivity|].
      apply only_released_refl.
    + cbn [negb].
      destruct (resize_leaves_trunc base 128 ltac:(unfold base; lia) 0 dk
                  (words_of_bytes
                     (block_cache_read (sectors dk) (entry buffer (Z.of_nat i)))))
        as (fm1 & inside & Hl & Hrel1 & _).
      rewrite Hl, E. cbn [negb andb free_map sectors].
      destruct (IH (S i)
                  (mk_disk (free_map_release fm1 (entry buffer (Z.of_nat i)))
                           (sectors dk))
                  (<[i := 0]> buffer)) as (fm' & buffer' & Hrun & Hrel).
      exists fm', buffer'. cbn [sectors free_map] in *. split; [exact Hrun|].
      eapply only_released_trans; [exact Hrel1|].
      eapply only_released_trans; [apply only_released_release | exact Hrel].
Qed.

Lemma resize_doubly_segment_trunc (dk : disk) (d : inode_disk) :
  doubly_indirect_pointer d <> 0 ->
  exists fm',
    resize_doubly_segment dk d 0 =
      Done (mk_disk fm' (sectors dk), set_length (set_doubly d 0) 0) /\
    only_released (free_map dk) fm'.
Proof.
  intros Hq. unfold resize_doubly_segment.
  destruct (doubly_indirect_pointer d =? 0) eqn:E; [apply Z.eqb_eq in E; contradiction|].
  destruct (resize_doubly_trunc 128 0 dk
              (words_of_bytes (block_cache_read (sectors dk) (doubly_indirect_pointer d))))
    as (fm1 & buffer' & Hrun & Hrel).
  rewrite Hrun, E. cbn [negb andb free_map sectors].
  change (0 <=? (12 + 128) * BLOCK_SECTOR_SIZE) with true. cbv iota.
  eexists. split; [reflexivity|].
  eapply only_released_trans; [exact Hrel | apply only_released_release].
Qed.

Lemma resize_indirect_segment_trunc (dk : disk) (d : inode_disk) :
  indirect_pointer d <> 0 ->
  exists fm',
    resize_indirect_segment dk d 0 =
      Done (mk_disk fm' (sectors dk), set_length (set_doubly (set_indirect d 0) 0) 0) /\
    only_released (free_map dk) fm'.
Proof.
  intros Hp. unfold resize_indirect_segment.
  destruct (indirect_pointer d =? 0) eqn:E; [apply Z.eqb_eq in E; contradiction|].
  destruct (resize_leaves_trunc 12 128 ltac:(lia) 0 dk
              (words_of_bytes (block_cache_read (sectors dk) (indirect_pointer d))))
    as (fm1 & buffer' & Hrun & Hrel & _).
  rewrite Hrun, E. cbn [negb andb free_map sectors].
  change (0 <=? 12 * 512) with true. cbv iota beta.
  change (0 <=? (12 + 128) * BLOCK_SECTOR_SIZE) with true. rewrite andb_true_r.
  cbn [doubly_indirect_pointer set_indirect].
  destruct (doubly_indirect_pointer d =? 0) eqn:Eq.
  - apply Z.eqb_eq in Eq. eexists. split.
    + f_equal. f_equal. unfold set_length, set_doubly, set_indirect. cbn.
      now rewrite Eq.
    + eapply only_released_trans; [exact Hrel | apply only_released_release].
  - apply Z.eqb_neq in Eq.
    destruct (resize_doubly_segment_trunc
                (mk_disk (free_map_release fm1 (indirect_pointer d)) (sectors dk))
                (set_indirect d 0) Eq) as (fm' & Hrun2 & Hrel2).
    rewrite Hrun2. cbn [sectors free_map] in *. eexists. split; [reflexivity|].
    eapply only_released_trans; [exact Hrel|].
    eapply only_released_trans; [apply only_released_release | exact Hrel2].
Qed.

(** X9.  [inode_resize] to length 0 never fails, whatever the inode and
    the free map hold: it takes no sector, writes no sector, sets the
    length to 0 and clears the direct pointers and the indirect pointer.
    The doubly-indirect pointer is cleared as well, except in an inode
    that has one without an indirect pointer: there the function returns
    before it looks at it. *)
Theorem truncate_never_fails (fuel : nat) (dk : disk) (d : inode_disk) :
  exists (fm' : list bool) (d' : inode_disk),
    inode_resize fuel dk d 0 = Some (true, mk_disk fm' (sectors dk), d') /\
    only_released (free_map dk) fm' /\
    length d' = 0 /\
    slots_of 12 (direct_pointer d') = repeat 0 12%nat /\
    indirect_pointer d' = 0 /\
    doubly_indirect_pointer d' =
      (if indirect_pointer d =? 0 then doubly_indirect_pointer d else 0) /\
    magic d' = magic d /\ type d' = type d /\ unused d' = unused d.
Proof.
  destruct (resize_leaves_trunc 0 12 ltac:(lia) 0 dk (direct_pointer d))
    as (fm1 & dp & Hrun & Hrel & _ & Hz & _).
  assert (slots_of 12 dp = repeat 0 12%nat) as Hdp.
  { unfold slots_of. apply list_eq. intros k. rewrite list_lookup_fmap.
    destruct (decide (k < 12)%nat) as [Hk|Hk].
    - rewrite lookup_seq_lt by lia. cbn. rewrite Hz by lia.
      do 12 (destruct k as [|k]; [reflexivity|]). lia.
    - rewrite lookup_seq_ge by lia. cbn. symmetry. apply lookup_ge_None.
      cbn. lia. }
  assert (forall r, resize_pass dk d 0 = Done r ->
                    inode_resize fuel dk d 0 = Some (true, fst r, snd r)) as Hdone.
  { intros [dk' d'] H. destruct fuel; cbn [inode_resize]; now rewrite H. }
  unfold resize_pass in Hdone. rewrite Hrun in Hdone.
  cbn [indirect_pointer set_direct] in Hdone.
  change (0 <=? 12 * BLOCK_SECTOR_SIZE) with true in Hdone.
  rewrite andb_true_r in Hdone.
  destruct (indirect_pointer d =? 0) eqn:E.
  - apply Z.eqb_eq in E. exists fm1, (set_length (set_direct d dp) 0).
    split; [apply (Hdone (_, _) eq_refl)|]. cbn. auto 10.
  - apply Z.eqb_neq in E.
    destruct (resize_indirect_segment_trunc (mk_disk fm1 (sectors dk))
                (set_direct d dp) E) as (fm' & Hrun2 & Hrel2).
    rewrite Hrun2 in Hdone.
    exists fm', (set_length (set_doubly (set_indirect (set_direct d dp) 0) 0) 0).
    split; [apply (Hdone (_, _) eq_refl)|]. cbn [sectors free_map] in *. cbn.
    split; [eapply only_released_trans; eassumption|]. auto 10.
Qed.

End TruncateTotal.

(** ** The inode on disk *)

Section OnDisk.
Import FreeMap Inode.

Lemma bytes_of_words_length (ws : list Z) :
  List.length (bytes_of_words ws) = (4 * List.length ws)%nat.
Proof.
  unfold bytes_of_words. induction ws as [|w ws IH]; [reflexivity|].
  cbn [flat_map]. rewrite length_app, IH. cbn. lia.
Qed.

Lemma bytes_of_words_range (ws : list Z) :
  Forall (fun b => 0 <= b < 256) (bytes_of_words ws).
Proof.
  unfold bytes_of_words. induction ws as [|w ws IH]; [constructor|].
  cbn [flat_map]. apply Forall_app. split; [|exact IH].
  unfold word_bytes. repeat (constructor; [apply Z.mod_pos_bound; lia|]). constructor.
Qed.

(** X10.  The inode structure is exactly one sector: an inode whose
    fields fit their words is stored in 512 bytes and read back as it
    was. *)
Theorem inode_disk_roundtrip (d : inode_disk) :
  fits_sector d -> List.length (unused d) = 111%nat ->
  inode_of_sector (sector_of_inode d) = d /\
  List.length (sector_of_inode d) = 512%nat /\
  Forall (fun b => 0 <= b < 256) (sector_of_inode d).
Proof.
  intros Hfits Hun. split; [now apply inode_sector_roundtrip|]. split.
  - unfold sector_of_inode. rewrite bytes_of_words_length.
    destruct Hfits as (_ & Hdp & _).
    rewrite !length_app, Hdp, Hun. reflexivity.
  - apply bytes_of_words_range.
Qed.

Lemma inode_disk_roundtrip_witness :
  inode_of_sector
    (sector_of_inode
       (mk_inode_disk 700 INODE_MAGIC (Z.of_nat <$> seq 20 12) 40 0 1
                      (repeat 0 111%nat)))
  = mk_inode_disk 700 INODE_MAGIC (Z.of_nat <$> seq 20 12) 40 0 1 (repeat 0 111%nat).
Proof.
  apply (inode_disk_roundtrip
           (mk_inode_disk 700 INODE_MAGIC (Z.of_nat <$> seq 20 12) 40 0 1
                          (repeat 0 111%nat))).
  - split; [cbn; lia|]. split; [reflexivity|].
    apply Forall_forall. intros w Hw. vm_compute in Hw.
    repeat (apply elem_of_cons in Hw as [->|Hw]; [lia|]).
    now apply elem_of_nil in Hw.
  - reflexivity.
Defined.

(** X11.  After a successful [inode_create] the inode at the sector has
    the length and the type asked for, and the magic number. *)
Theorem inode_create_then_stat (fuel : nat) (dk dk' : disk) (sec len typ : Z)
    (ino : inode) :
  0 <= len < 2 ^ 31 -> 0 <= typ < 2 ^ 32 ->
  Z.of_nat (List.length (free_map dk)) <= 2 ^ 32 ->
  free_map dk !! 0%nat = Some true ->
  inode_create fuel dk sec len typ = Some (true, dk') ->
  sector ino = sec ->
  inode_length (sectors dk') ino = len /\
  inode_type (sectors dk') ino = typ /\
  magic (inode_of_sector (block_cache_read (sectors dk') sec)) = INODE_MAGIC.
Proof.
  intros Hlen Htyp Hfm H0 Hrun Hsec. unfold inode_create in Hrun.
  destruct (len <? 0) eqn:E; [discriminate|].
  fold (empty_inode typ) in Hrun.
  destruct (inode_resize fuel dk (empty_inode typ) len) as [[[b dk1] d1]|] eqn:Er;
    [|discriminate].
  injection Hrun as -> <-. apply inode_resize_true in Er.
  destruct (resize_pass_fill len dk dk1 (empty_inode typ) d1) as
    (t & Hbuilt & (Hfresh & Hmark & _) & Hl & Hmg & Hty & Hun);
    [lia | exact H0 | repeat split | exact Er |].
  pose proof (fresh_in_numbers _ _ Hfm Hfresh) as Hnum.
  destruct (built_fits _ _ _ Hbuilt Hnum) as (Hdp & Hdpr & Hir & Hdr).
  assert (fits_sector d1) as Hfits.
  { split; [rewrite Hl; lia|]. split; [exact Hdp|].
    rewrite Hmg, Hty, Hun. cbn [magic type unused empty_inode].
    constructor; [unfold INODE_MAGIC; lia|]. apply Forall_app. split; [exact Hdpr|].
    repeat (constructor; [lia|]). constructor. }
  unfold inode_length, inode_type. rewrite Hsec.
  cbn [sectors]. unfold block_cache_read, block_cache_write.
  rewrite lookup_insert_eq. cbn [default from_option id].
  rewrite (inode_sector_roundtrip d1 Hfits). auto.
Qed.

Lemma inode_create_then_stat_witness :
  inode_length (sectors (fs_disk sample_fs)) (mk_inode 2 1 false 0 0) = 13 * 512 + 1 /\
  inode_type (sectors (fs_disk sample_fs)) (mk_inode 2 1 false 0 0) = 0.
Proof.
  destruct (inode_create_then_stat 1
              (mk_disk (<[2%nat := true]> (free_map (blank_disk 30))) ∅)
              (fs_disk sample_fs) 2 (13 * 512 + 1) 0 (mk_inode 2 1 false 0 0))
    as (H1 & H2 & _).
  - lia.
  - lia.
  - vm_compute. discriminate.
  - reflexivity.
  - vm_compute. reflexivity.
  - reflexivity.
  - split; assumption.
Defined.

End OnDisk.

(** ** How much [inode_read_at] reads *)

Section ReadCount.
Import FreeMap Inode.

Lemma byte_to_sector_within (st : gmap Z (list Z)) (ino : inode) (pos : Z) :
  pos < inode_length st ino -> inode_length st ino <= MAX_LENGTH ->
  exists idx, byte_to_sector st ino pos = Some idx.
Proof.
  unfold inode_length, byte_to_sector, MAX_LENGTH, MAX_SECTORS. intros Hpos Hmax.
  destruct (pos <? _) eqn:E; [|apply Z.ltb_ge in E; lia].
  destruct (pos <? 12 * BLOCK_SECTOR_SIZE); [eauto|].
  destruct (pos <? (12 + 128) * BLOCK_SECTOR_SIZE); [eauto|].
  destruct (pos <? (12 + 128 + 128 * 128) * BLOCK_SECTOR_SIZE) eqn:E3; [eauto|].
  apply Z.ltb_ge in E3. lia.
Qed.

Lemma block_cache_read_length (st : gmap Z (list Z)) (idx : Z) :
  whole_sectors st -> List.length (block_cache_read st idx) = 512%nat.
Proof.
  intros Hw. unfold block_cache_read.
  destruct (st !! idx) as [v|] eqn:E; [exact (Hw _ _ E) | reflexivity].
Qed.

Lemma read_loop_count (st : gmap Z (list Z)) (ino : inode) :
  inode_length st ino <= MAX_LENGTH ->
  forall (fuel : nat) (size offset bytes_read : Z) (buffer : list Z),
    size <= Z.of_nat fuel -> 0 <= offset ->
    exists buffer',
      read_loop fuel st ino size offset bytes_read buffer =
        IoDone (bytes_read + Z.max 0 (Z.min size (inode_length st ino - offset)),
                buffer') /\
      (whole_sectors st ->
       List.length buffer' =
         (List.length buffer
          + Z.to_nat (Z.max 0 (Z.min size (inode_length st ino - offset))))%nat).
Proof.
  intros Hmax. set (len := inode_length st ino) in *.
  induction fuel as [|fuel IH]; intros size offset bytes_read buffer Hfuel Hofs.
  - cbn [read_loop]. destruct (size <=? 0) eqn:E; [|apply Z.leb_gt in E; lia].
    apply Z.leb_le in E. exists buffer.
    replace (Z.max 0 (Z.min size (len - offset))) with 0 by lia.
    split; [now rewrite Z.add_0_r | intros _; cbn; lia].
  - cbn [read_loop]. destruct (size <=? 0) eqn:E.
    { apply Z.leb_le in E. exists buffer.
      replace (Z.max 0 (Z.min size (len - offset))) with 0 by lia.
      split; [now rewrite Z.add_0_r | intros _; cbn; lia]. }
    apply Z.leb_gt in E. fold len.
    assert (0 <= Z.rem offset BLOCK_SECTOR_SIZE < BLOCK_SECTOR_SIZE) as Hrem.
    { unfold BLOCK_SECTOR_SIZE. rewrite Z.rem_mod_nonneg by lia.
      apply Z.mod_pos_bound. lia. }
    assert (snd (chunk_of size offset len) =
            Z.min size (Z.min (len - offset)
                              (BLOCK_SECTOR_SIZE - Z.rem offset BLOCK_SECTOR_SIZE))) as Hc.
    { unfold chunk_of. cbn [snd].
      destruct (len - offset <? _) eqn:E1;
        [apply Z.ltb_lt in E1 | apply Z.ltb_ge in E1];
        destruct (size <? _) eqn:E2;
        [apply Z.ltb_lt in E2 | apply Z.ltb_ge in E2
        |apply Z.ltb_lt in E2 | apply Z.ltb_ge in E2]; lia. }
    pose proof (chunk_of_bound size offset len) as (H1 & _ & _).
    destruct (chunk_of size offset len) as [sector_ofs chunk_size].
    cbn [fst snd] in H1, Hc. subst sector_ofs.
    destruct (chunk_size <=? 0) eqn:Ec.
    { apply Z.leb_le in Ec. exists buffer.
      replace (Z.max 0 (Z.min size (len - offset))) with 0 by lia.
      split; [now rewrite Z.add_0_r | intros _; cbn; lia]. }
    apply Z.leb_gt in Ec.
    destruct (byte_to_sector_within st ino offset ltac:(fold len; lia) Hmax)
      as (idx & ->).
    assert (Z.max 0 (Z.min size (len - offset)) =
            chunk_size
            + Z.max 0 (Z.min (size - chunk_size) (len - (offset + chunk_size))))
      as Hsum by lia.
    destruct ((Z.rem offset BLOCK_SECTOR_SIZE =? 0)
              && (chunk_size =? BLOCK_SECTOR_SIZE)) eqn:Ew.
    + destruct (IH (size - chunk_size) (offset + chunk_size)
                  (bytes_read + chunk_size) (buffer ++ block_cache_read st idx))
        as (buffer' & Hrun & Hlen); [lia | lia |].
      exists buffer'. rewrite Hrun, Hsum. split; [f_equal; f_equal; lia|].
      intros Hw. rewrite (Hlen Hw), length_app, (block_cache_read_length st idx Hw).
      apply andb_true_iff in Ew as [_ Ew]. apply Z.eqb_eq in Ew.
      unfold BLOCK_SECTOR_SIZE in Ew. lia.
    + unfold block_cache_read_offset.
      destruct (chunk_size + Z.rem offset BLOCK_SECTOR_SIZE <=? BLOCK_SECTOR_SIZE)
        eqn:Ea; [|apply Z.leb_gt in Ea; lia].
      apply Z.leb_le in Ea.
      destruct (IH (size - chunk_size) (offset + chunk_size)
                  (bytes_read + chunk_size)
                  (buffer ++ Cache.memcpy_from (block_cache_read st idx)
                               (Z.rem offset BLOCK_SECTOR_SIZE) chunk_size))
        as (buffer' & Hrun & Hlen); [lia | lia |].
      exists buffer'. rewrite Hrun, Hsum. split; [f_equal; f_equal; lia|].
      intros Hw. rewrite (Hlen Hw), length_app. unfold Cache.memcpy_from.
      rewrite length_take, length_drop, (block_cache_read_length st idx Hw).
      unfold BLOCK_SECTOR_SIZE in *. lia.
Qed.

(** X12.  [inode_read_at] on a file within the capacity of the extent
    tree returns the number of bytes asked for, cut at the end of the
    file: nothing at or after the end of the file.  With sectors of 512
    bytes it copies just that many bytes to the buffer. *)
Theorem inode_read_at_count (st : gmap Z (list Z)) (ino : inode) (size offset : Z) :
  inode_length st ino <= MAX_LENGTH -> 0 <= offset ->
  exists buffer,
    inode_read_at st ino size offset =
      IoDone (Z.max 0 (Z.min size (inode_length st ino - offset)), buffer) /\
    (whole_sectors st ->
     Z.of_nat (List.length buffer) =
       Z.max 0 (Z.min size (inode_length st ino - offset))).
Proof.
  intros Hmax Hofs. unfold inode_read_at.
  destruct (read_loop_count st ino Hmax (Z.to_nat size) size offset 0 [] ltac:(lia) Hofs)
    as (buffer & Hrun & Hlen).
  exists buffer. split; [exact Hrun|]. intros Hw. rewrite (Hlen Hw). cbn. lia.
Qed.

Lemma inode_read_at_count_witness :
  exists buffer,
    inode_read_at (sectors (fs_disk sample_fs)) (mk_inode 2 1 false 0 0) 1000 6000
      = IoDone (657, buffer) /\
    exists buffer',
      inode_read_at (sectors (fs_disk sample_fs)) (mk_inode 2 1 false 0 0) 10 6657
        = IoDone (0, buffer').
Proof.
  destruct (inode_read_at_count (sectors (fs_disk sample_fs)) (mk_inode 2 1 false 0 0)
              1000 6000) as (b1 & H1 & _); [vm_compute; discriminate | lia |].
  destruct (inode_read_at_count (sectors (fs_disk sample_fs)) (mk_inode 2 1 false 0 0)
              10 6657) as (b2 & H2 & _); [vm_compute; discriminate | lia |].
  exists b1. split; [exact H1|]. exists b2. exact H2.
Defined.

End ReadCount.

(** ** Paths and their components *)

Section Components.
Import Path Fs.

Lemma components_from_slash (q tail : string) :
  forall cur : string,
    components_from (q +:+ String "/" tail) cur =
    components_from q cur ++ components_from tail EmptyString.
Proof.
  induction q as [|c q IH]; intros cur.
  - rewrite append_nil. cbn. destruct cur; reflexivity.
  - rewrite append_cons. cbn [components_from].
    destruct (Ascii.eqb c "/"); [|apply IH].
    destruct cur; rewrite IH; reflexivity.
Qed.

Lemma components_from_run (comp tail : string) :
  slash_free comp ->
  forall cur : string,
    components_from (comp +:+ tail) cur = components_from tail (cur +:+ comp).
Proof.
  induction comp as [|c comp IH]; intros Hc cur.
  - now rewrite append_nil, append_empty_r.
  - destruct Hc as [Hc Hc']. rewrite append_cons. cbn [components_from].
    apply Ascii.eqb_neq in Hc. rewrite Hc, (IH Hc'). now rewrite append_char_assoc.
Qed.

Lemma components_from_separator (tail cur : string) :
  at_separator tail -> cur <> EmptyString ->
  components_from tail cur = cur :: components tail.
Proof.
  intros Ht Hcur. destruct tail as [|c tail]; cbn in *.
  - destruct cur; [congruence | reflexivity].
  - subst c. cbn. destruct cur; [congruence | reflexivity].
Qed.

Lemma components_slashes (n : nat) (rest : string) :
  components (slashes n +:+ rest) = components rest.
Proof.
  unfold components. induction n as [|n IH]; cbn [slashes].
  - now rewrite append_nil.
  - rewrite append_cons. cbn. exact IH.
Qed.

(** A component that runs up to a separator. *)
Lemma components_run (comp tail : string) :
  slash_free comp -> comp <> EmptyString -> at_separator tail ->
  components (comp +:+ tail) = comp :: components tail.
Proof.
  intros Hc Hne Ht. unfold components at 1.
  rewrite (components_from_run comp tail Hc), append_nil.
  now apply components_from_separator.
Qed.

(** What [get_next_part] does, in terms of the components of its input. *)
Lemma get_next_part_components (part src : string) :
  match components src with
  | [] => get_next_part part src = (0, part, src)
  | c :: cs =>
      if fits c
      then exists src', get_next_part part src = (1, c, src') /\
                        components src' = cs /\
                        (String.length src' < String.length src)%nat
      else exists junk, get_next_part part src = (-1, junk, src)
  end.
Proof.
  unfold get_next_part.
  destruct (skip_slashes_split src) as [n [Hsrc Hrest]].
  assert (components src = components (skip_slashes src)) as ->.
  { transitivity (components (slashes n +:+ skip_slashes src));
      [f_equal; exact Hsrc | apply components_slashes]. }
  destruct (skip_slashes src) as [|c rest] eqn:E; [reflexivity|].
  destruct (component_split (String c rest)) as (comp & tail & H1 & H2 & H3).
  assert (comp <> EmptyString) as Hne.
  { intros ->. rewrite append_nil in H1. subst tail. cbn in H3, Hrest. contradiction. }
  rewrite H1, (components_run comp tail H2 Hne H3). unfold fits.
  destruct (String.length comp <=? NAME_MAX)%nat eqn:L.
  - apply Nat.leb_le in L.
    rewrite (copy_part_fits comp tail EmptyString H2 H3) by (cbn; lia).
    exists tail. split; [reflexivity|]. split; [reflexivity|].
    rewrite Hsrc, H1, !length_append. destruct comp; [congruence | cbn; lia].
  - apply Nat.leb_gt in L.
    destruct (copy_part_too_long comp tail EmptyString H2) as (junk & -> & _);
      [cbn; lia | cbn; lia |].
    exists junk. reflexivity.
Qed.

Lemma last_cons (c d : string) (cs : list string) :
  List.last (c :: cs) d = List.last cs c.
Proof.
  revert c d. induction cs as [|x cs IH]; intros c d; [reflexivity|].
  change (List.last (c :: x :: cs) d) with (List.last (x :: cs) d).
  now rewrite !IH.
Qed.

Lemma basename_loop_components (fuel : nat) :
  forall part src : string,
    (String.length src < fuel)%nat ->
    basename_loop fuel part src =
      if forallb fits (components src)
      then Some (List.last (components src) part) else None.
Proof.
  induction fuel as [|fuel IH]; intros part src Hfuel; [lia|].
  cbn [basename_loop].
  pose proof (get_next_part_components part src) as H.
  destruct (components src) as [|c cs].
  - rewrite H. reflexivity.
  - cbn [forallb]. destruct (fits c).
    + destruct H as (src' & -> & Hcs & Hlen). cbn [Z.eqb andb].
      rewrite IH by lia. rewrite Hcs, last_cons. reflexivity.
    + destruct H as (junk & ->). reflexivity.
Qed.

(** X13.  [path_basename] returns the last component of the path, and
    the empty string for a path without components; it returns a null
    pointer as soon as any component of the path, not only the last, is
    longer than [NAME_MAX]. *)
Theorem path_basename_last (path : string) :
  path_basename path =
    if forallb fits (components path)
    then Some (List.last (components path) EmptyString) else None.
Proof. unfold path_basename. apply basename_loop_components. lia. Qed.

Lemma dir_loop_components (ns : gmap Z node) (fuel : nat) :
  forall (dir : Z) (part src : string),
    (String.length src < fuel)%nat ->
    forallb fits (components src) = true ->
    dir_loop fuel ns dir part src = walk ns dir (components src).
Proof.
  induction fuel as [|fuel IH]; intros dir part src Hfuel Hfits; [lia|].
  cbn [dir_loop].
  pose proof (get_next_part_components part src) as H.
  destruct (components src) as [|c cs].
  - rewrite H. reflexivity.
  - cbn [forallb] in Hfits. apply andb_true_iff in Hfits as [Hc Hcs].
    rewrite Hc in H. destruct H as (src' & -> & Hcs' & Hlen). cbn [Z.eqb walk].
    destruct (dir_lookup ns dir c) as [inode|]; [|reflexivity].
    destruct (dir_open ns (Some inode)) as [d|]; [|reflexivity].
    rewrite IH by (try lia; now rewrite Hcs'). now rewrite Hcs'.
Qed.

Lemma substring_prefix (a b : string) :
  String.substring 0 (String.length a) (a +:+ b) = a.
Proof.
  induction a as [|c a IH].
  - rewrite append_nil. destruct b; reflexivity.
  - rewrite append_cons. cbn. now rewrite IH.
Qed.

Lemma forallb_app_fits (l1 l2 : list string) :
  forallb fits (l1 ++ l2) = forallb fits l1 && forallb fits l2.
Proof. apply forallb_app. Qed.

Lemma last_snoc (l : list string) (x d : string) : List.last (l ++ [x]) d = x.
Proof. apply last_last. Qed.

(** The components of a directory part followed by a name. *)
Lemma components_dir_name (pre base : string) :
  pre = EmptyString \/ (exists q, pre = q +:+ "/") ->
  slash_free base -> base <> EmptyString ->
  components (pre +:+ base) = components pre ++ [base].
Proof.
  intros Hpre Hb Hne.
  assert (components base = [base]) as Hbase.
  { rewrite <- (append_empty_r base) at 1.
    now rewrite (components_run base EmptyString Hb Hne I). }
  destruct Hpre as [->|[q ->]].
  - now rewrite append_nil.
  - unfold components.
    replace ((q +:+ "/") +:+ base) with (q +:+ String "/" base).
    2:{ clear. induction q as [|c q IH]; [reflexivity|].
        rewrite !append_cons. now rewrite IH. }
    rewrite !components_from_slash. cbn [components_from app].
    rewrite app_nil_r. fold (components base). now rewrite Hbase.
Qed.

(** How [path_dir] and [path_inode] go on once the base name and the
    directory part of the path are known. *)
Lemma path_inode_split (ns : gmap Z node) (cwd : option Z) (path dirname base : string) :
  path_basename path = Some base ->
  String.substring 0 (String.length path - String.length base) path = dirname ->
  forallb fits (components dirname) = true ->
  base <> EmptyString ->
  path_dir ns cwd path =
    match start_dir ns cwd path with
    | None => None
    | Some dir => walk ns dir (components dirname)
    end /\
  path_inode ns cwd path =
    match start_dir ns cwd path with
    | None => None
    | Some dir =>
        match walk ns dir (components dirname) with
        | None => None
        | Some d => dir_lookup ns d base
        end
    end.
Proof.
  intros Hbase Hdir Hfits Hne.
  assert (path_dir ns cwd path =
          match start_dir ns cwd path with
          | None => None
          | Some dir => walk ns dir (components dirname)
          end) as Hpd.
  { unfold path_dir, start_dir. rewrite Hbase, Hdir.
    destruct (match cwd with
              | Some c => if is_absolute path then dir_open_root ns else dir_reopen ns c
              | None => dir_open_root ns
              end) as [dir|]; [|reflexivity].
    destruct (String.length dirname =? 0)%nat eqn:E.
    - apply Nat.eqb_eq in E. destruct dirname; [reflexivity | discriminate].
    - apply dir_loop_components; [lia | exact Hfits]. }
  split; [exact Hpd|]. unfold path_inode. rewrite Hbase, Hpd.
  destruct (start_dir ns cwd path) as [dir|]; [|reflexivity].
  destruct (walk ns dir (components dirname)) as [d|]; [|reflexivity].
  destruct (String.length base =? 0)%nat eqn:E; [|reflexivity].
  apply Nat.eqb_eq in E. destruct base; [congruence | discriminate].
Qed.

(** X14.  For a path that ends in a name, [path_inode] goes from the root
    (absolute path, or no working directory) or from the working
    directory down through the directories named by the components
    before the name, and looks the name up in the directory it arrives
    at; [path_dir] gives that directory. *)
Theorem path_inode_walks (ns : gmap Z node) (cwd : option Z) (pre base : string) :
  pre = EmptyString \/ (exists q, pre = q +:+ "/") ->
  slash_free base -> base <> EmptyString -> fits base = true ->
  forallb fits (components pre) = true ->
  path_dir ns cwd (pre +:+ base) =
    match start_dir ns cwd (pre +:+ base) with
    | None => None
    | Some dir => walk ns dir (components pre)
    end /\
  path_inode ns cwd (pre +:+ base) =
    match start_dir ns cwd (pre +:+ base) with
    | None => None
    | Some dir =>
        match walk ns dir (components pre) with
        | None => None
        | Some d => dir_lookup ns d base
        end
    end.
Proof.
  intros Hpre Hb Hne Hfb Hfp.
  apply path_inode_split; [| |exact Hfp|exact Hne].
  - unfold path_basename. rewrite basename_loop_components by lia.
    rewrite (components_dir_name pre base Hpre Hb Hne), forallb_app_fits, Hfp.
    cbn [forallb]. rewrite Hfb. cbn. now rewrite last_snoc.
  - rewrite length_append.
    replace (String.length pre + String.length base - String.length base)%nat
      with (String.length pre) by lia.
    apply substring_prefix.
Qed.

Lemma path_inode_walks_witness :
  path_inode sample_tree (Some 1) "d/../f" = Some 4.
Proof.
  destruct (path_inode_walks sample_tree (Some 1) "d/../" "f") as [_ H].
  - right. exists "d/.."%string. reflexivity.
  - cbn. split; [discriminate | exact I].
  - discriminate.
  - reflexivity.
  - reflexivity.
  - refine (eq_trans H _). vm_compute. reflexivity.
Defined.

Lemma append_assoc (a b c : string) : (a +:+ b) +:+ c = a +:+ (b +:+ c).
Proof.
  induction a as [|x a IH]; [now rewrite !append_nil|].
  rewrite !append_cons. now rewrite IH.
Qed.

(** X15.  A path that ends in a slash is not resolved to what it names:
    [path_dir] cuts as many characters off the end of the path as the base
    name is long, so with one slash behind the name [base] the directory
    part keeps the first character of [base] as a last component, and
    [base] is then looked up in the directory of that name. *)
Theorem path_inode_trailing_slash (ns : gmap Z node) (cwd : option Z)
    (pre : string) (c : ascii) (rest : string) :
  pre = EmptyString \/ (exists q, pre = q +:+ "/") ->
  c <> "/"%char -> slash_free rest -> fits (String c rest) = true ->
  forallb fits (components pre) = true ->
  let path := pre +:+ (String c rest +:+ "/") in
  path_basename path = Some (String c rest) /\
  path_inode ns cwd path =
    match start_dir ns cwd path with
    | None => None
    | Some dir =>
        match walk ns dir (components pre ++ [String c EmptyString]) with
        | None => None
        | Some d => dir_lookup ns d (String c rest)
        end
    end.
Proof.
  intros Hpre Hc Hrest Hfb Hfp path.
  set (base := String c rest) in *.
  assert (slash_free base) as Hb by (split; assumption).
  assert (base <> EmptyString) as Hne by discriminate.
  assert (components path = components pre ++ [base]) as Hcomps.
  { unfold path. rewrite <- append_assoc. unfold components.
    rewrite components_from_slash. cbn [components_from]. rewrite app_nil_r.
    apply (components_dir_name pre base Hpre Hb Hne). }
  assert (path_basename path = Some base) as Hbase.
  { unfold path_basename. rewrite basename_loop_components by lia.
    rewrite Hcomps, forallb_app_fits, Hfp. cbn [forallb]. rewrite Hfb. cbn.
    now rewrite last_snoc. }
  split; [exact Hbase|].
  assert (components (pre +:+ String c EmptyString)
          = components pre ++ [String c EmptyString]) as Hdir.
  { apply components_dir_name; [exact Hpre | split; [exact Hc | exact I] | discriminate]. }
  rewrite <- Hdir.
  apply path_inode_split; [exact Hbase | | | exact Hne].
  - assert (path = (pre +:+ String c EmptyString) +:+ (rest +:+ "/")) as Hpath.
    { unfold path, base. rewrite append_assoc. f_equal. }
    replace (String.length path - String.length base)%nat
      with (String.length (pre +:+ String c EmptyString)).
    + rewrite Hpath. apply substring_prefix.
    + unfold path, base. rewrite !length_append. cbn. lia.
  - rewrite Hdir, forallb_app_fits, Hfp. reflexivity.
Qed.

Lemma path_inode_trailing_slash_witness :
  path_inode sample_tree (Some 1) "d/" = None /\
  path_inode sample_tree (Some 1) "d" = Some 5.
Proof.
  destruct (path_inode_trailing_slash sample_tree (Some 1) "" "d" "") as [_ H].
  - now left.
  - discriminate.
  - exact I.
  - reflexivity.
  - reflexivity.
  - split; [refine (eq_trans H _)|]; vm_compute; reflexivity.
Defined.

End Components.

(** ** Console output of [sys_write] *)

Section Console.
Import Fd.

Lemma chunk_index (size : Z) (k : nat) :
  0 <= size ->
  (256 * Z.of_nat k <? size) = (Z.of_nat k <? (size + 255) / 256).
Proof.
  intros Hs. pose proof (Z.div_mod (size + 255) 256 ltac:(lia)) as Hd.
  pose proof (Z.mod_pos_bound (size + 255) 256 ltac:(lia)) as Hm.
  destruct (256 * Z.of_nat k <? size) eqn:E1;
    destruct (Z.of_nat k <? (size + 255) / 256) eqn:E2; try reflexivity;
    [apply Z.ltb_lt in E1; apply Z.ltb_ge in E2
    |apply Z.ltb_ge in E1; apply Z.ltb_lt in E2]; lia.
Qed.

Lemma console_loop_chunks (size : Z) :
  0 <= size <= 2 ^ 32 - 256 ->
  forall (m k fuel : nat) (out : list (Z * Z)),
    (k + m)%nat = Z.to_nat ((size + 255) / 256) -> (m <= fuel)%nat ->
    console_loop fuel size (256 * Z.of_nat k) out =
      Some (out ++ ((fun j : nat =>
                       (u32 (256 * Z.of_nat j * 256),
                        Z.min 256 (size - 256 * Z.of_nat j))) <$> seq k m)).
Proof.
  intros Hs. pose proof (Z.div_pos (size + 255) 256 ltac:(lia) ltac:(lia)) as Hq.
  induction m as [|m IH]; intros k fuel out Hk Hfuel.
  - assert ((256 * Z.of_nat k <? size) = false) as E.
    { rewrite chunk_index by lia. apply Z.ltb_ge. lia. }
    destruct fuel; cbn [console_loop]; rewrite E; cbn; now rewrite app_nil_r.
  - assert ((256 * Z.of_nat k <? size) = true) as E.
    { rewrite chunk_index by lia. apply Z.ltb_lt. lia. }
    destruct fuel as [|fuel]; [lia|]. cbn [console_loop]. rewrite E.
    apply Z.ltb_lt in E.
    assert (u32 (256 * Z.of_nat k + 256) = 256 * Z.of_nat (S k)) as Hnext.
    { unfold u32. rewrite Z.mod_small; lia. }
    rewrite Hnext, (IH (S k) fuel) by lia.
    cbn [seq fmap list_fmap]. rewrite <- app_assoc. cbn [app]. do 4 f_equal.
    destruct (size <? 256 * Z.of_nat (S k)) eqn:E3;
      [apply Z.ltb_lt in E3 | apply Z.ltb_ge in E3]; lia.
Qed.

Lemma chunks_sum (size : Z) :
  forall (m k : nat),
    0 <= size - 256 * Z.of_nat k ->
    Z.of_nat m = (size - 256 * Z.of_nat k + 255) / 256 ->
    foldr Z.add 0
      (snd <$> ((fun j : nat =>
                   (u32 (256 * Z.of_nat j * 256),
                    Z.min 256 (size - 256 * Z.of_nat j))) <$> seq k m))
    = size - 256 * Z.of_nat k.
Proof.
  induction m as [|m IH]; intros k Hk Hm.
  - cbn. pose proof (Z.div_mod (size - 256 * Z.of_nat k + 255) 256 ltac:(lia)) as Hd.
    pose proof (Z.mod_pos_bound (size - 256 * Z.of_nat k + 255) 256 ltac:(lia)).
    lia.
  - cbn [seq fmap list_fmap foldr snd].
    pose proof (Z.div_mod (size - 256 * Z.of_nat k + 255) 256 ltac:(lia)) as Hd.
    pose proof (Z.mod_pos_bound (size - 256 * Z.of_nat k + 255) 256 ltac:(lia)) as Hb.
    assert (256 < size - 256 * Z.of_nat k \/ size - 256 * Z.of_nat k <= 256) as [Hbig|Hsmall]
      by lia.
    + rewrite IH; [lia | lia |].
      replace (size - 256 * Z.of_nat (S k) + 255)
        with ((size - 256 * Z.of_nat k + 255) + (-1) * 256) by lia.
      rewrite Z.div_add by lia. lia.
    + assert (m = 0%nat) as -> by nia. cbn. lia.
Qed.

(** X16.  [sys_write] on the console hands the buffer to [putbuf] in
    pieces of at most 256 bytes whose lengths add up to [size], and
    returns [size].  Piece [k] is taken [256 * 256 * k] bytes into the
    buffer, not [256 * k]: only a write of at most 256 bytes puts out the
    bytes of the buffer it was given. *)
Theorem console_write_chunks (fuel : nat) (size : Z) :
  0 <= size <= 2 ^ 32 - 256 -> (size + 255) / 256 <= Z.of_nat fuel ->
  sys_write_console fuel size = Some (console_chunks size, to_int size) /\
  foldr Z.add 0 (snd <$> console_chunks size) = size /\
  (0 < size <= 256 -> console_chunks size = [(0, size)]) /\
  (256 < size ->
   exists rest,
     console_chunks size = (0, 256) :: (65536, Z.min 256 (size - 256)) :: rest).
Proof.
  intros Hs Hfuel.
  pose proof (Z.div_pos (size + 255) 256 ltac:(lia) ltac:(lia)) as Hq.
  split; [|split; [|split]].
  - unfold sys_write_console.
    pose proof (console_loop_chunks size Hs (Z.to_nat ((size + 255) / 256)) 0 fuel []
                  ltac:(lia) ltac:(lia)) as H.
    change (256 * Z.of_nat 0) with 0 in H. now rewrite H.
  - unfold console_chunks.
    rewrite (chunks_sum size _ 0); [cbn; lia | cbn; lia |].
    rewrite Z2Nat.id by lia. f_equal. cbn. lia.
  - intros Hsmall. unfold console_chunks.
    assert ((size + 255) / 256 = 1) as ->.
    { pose proof (Z.div_mod (size + 255) 256 ltac:(lia)).
      pose proof (Z.mod_pos_bound (size + 255) 256 ltac:(lia)). lia. }
    change (Z.to_nat 1) with 1%nat. cbn [seq fmap list_fmap].
    change (u32 (256 * Z.of_nat 0 * 256)) with 0.
    replace (size - 256 * Z.of_nat 0) with size by (cbn; lia).
    now rewrite Z.min_r by lia.
  - intros Hbig. unfold console_chunks.
    assert (exists n, Z.to_nat ((size + 255) / 256) = S (S n)) as [n ->].
    { exists (Z.to_nat ((size + 255) / 256) - 2)%nat.
      pose proof (Z.div_mod (size + 255) 256 ltac:(lia)).
      pose proof (Z.mod_pos_bound (size + 255) 256 ltac:(lia)). lia. }
    cbn [seq fmap list_fmap]. eexists.
    change (u32 (256 * Z.of_nat 0 * 256)) with 0.
    change (u32 (256 * Z.of_nat 1 * 256)) with 65536.
    replace (size - 256 * Z.of_nat 0) with size by (cbn; lia).
    replace (size - 256 * Z.of_nat 1) with (size - 256) by (cbn; lia).
    rewrite (Z.min_l 256 size) by lia. reflexivity.
Qed.

Lemma console_write_chunks_witness :
  sys_write_console 3 600 = Some ([(0, 256); (65536, 256); (131072, 88)], 600).
Proof.
  destruct (console_write_chunks 3 600) as (H & _); [lia | vm_compute; discriminate |].
  exact H.
Defined.

Lemma console_loop_wraps (size : Z) :
  2 ^ 32 - 256 < size ->
  forall (fuel : nat) (k : Z) (out : list (Z * Z)),
    0 <= k < 2 ^ 24 -> console_loop fuel size (256 * k) out = None.
Proof.
  intros Hs. induction fuel as [|fuel IH]; intros k out Hk; cbn [console_loop].
  - destruct (256 * k <? size) eqn:E; [reflexivity|]. apply Z.ltb_ge in E. lia.
  - destruct (256 * k <? size) eqn:E; [|apply Z.ltb_ge in E; lia].
    replace (u32 (256 * k + 256)) with (256 * ((k + 1) mod 2 ^ 24)).
    + apply IH. apply Z.mod_pos_bound. lia.
    + unfold u32. replace (256 * k + 256) with ((k + 1) * 256) by lia.
      change (2 ^ 32) with (2 ^ 24 * 256).
      rewrite Z.mul_mod_distr_r by lia. lia.
Qed.

(** X17.  For a size above [2 ^ 32 - 256] the loop of [sys_write] on the
    console never ends: its counter wraps around to 0 before it reaches
    the size. *)
Theorem console_write_never_ends (fuel : nat) (size : Z) :
  2 ^ 32 - 256 < size < 2 ^ 32 -> sys_write_console fuel size = None.
Proof.
  intros [Hs _]. unfold sys_write_console.
  pose proof (console_loop_wraps size Hs fuel 0 [] ltac:(lia)) as H.
  change (256 * 0) with 0 in H. now rewrite H.
Qed.

Lemma console_write_never_ends_witness :
  sys_write_console 1000 (2 ^ 32 - 1) = None.
Proof. apply (console_write_never_ends 1000 (2 ^ 32 - 1)). lia. Defined.

End Console.

(** ** The descriptor table *)

Section Table.
Import Path Fs Fd.

Lemma slot_at_in_range (pcb : process) (k : nat) :
  (k < 128)%nat -> slot_at pcb (Z.of_nat k) = open_files pcb !! k.
Proof.
  intros Hk. unfold slot_at, MAX_FS_OPEN.
  destruct (0 <=? Z.of_nat k) eqn:E1; [|apply Z.leb_gt in E1; lia].
  destruct (Z.of_nat k <? 128) eqn:E2; [|apply Z.ltb_ge in E2; lia].
  cbn. now rewrite Nat2Z.id.
Qed.

Lemma in_use_false (s : slot) : in_use s = false <-> s = Null.
Proof. destruct s; cbn; split; congruence. Qed.

(** A list with fewer entries in use than entries has a first null
    entry. *)
Lemma first_null (l : list slot) :
  (List.length (filter (fun s => in_use s = true) l) < List.length l)%nat ->
  exists j : nat,
    l !! j = Some Null /\
    forall (i : nat) (s : slot), (i < j)%nat -> l !! i = Some s -> in_use s = true.
Proof.
  induction l as [|x l IH]; cbn [List.length]; [lia|]. intros Hlt.
  destruct (in_use x) eqn:Ex.
  - rewrite filter_cons_True in Hlt by exact Ex. cbn [List.length] in Hlt.
    destruct (IH ltac:(lia)) as (j & Hj & Hbefore). exists (S j).
    split; [exact Hj|]. intros [|i] s Hi Hs; cbn in Hs.
    + now injection Hs as <-.
    + apply (Hbefore i); [lia | exact Hs].
  - exists 0%nat. apply in_use_false in Ex. subst x.
    split; [reflexivity|]. intros; lia.
Qed.

Lemma count_insert (l : list slot) (j : nat) (f : FILE) :
  l !! j = Some Null ->
  List.length (filter (fun s => in_use s = true) (<[j := Ptr f]> l)) =
  S (List.length (filter (fun s => in_use s = true) l)).
Proof.
  intros Hj. rewrite <- (take_drop_middle l j Null Hj) at 2.
  rewrite insert_take_drop by (now apply lookup_lt_Some in Hj).
  rewrite !filter_app, !length_app.
  rewrite filter_cons_True by reflexivity.
  rewrite filter_cons_False by (cbn; discriminate). cbn [List.length]. lia.
Qed.

Lemma table_ok_front (pcb : process) (k : nat) :
  table_ok pcb -> (k < 3)%nat -> open_files pcb !! k = Some Marker.
Proof.
  intros (_ & Hfront & _) Hk.
  rewrite <- (lookup_take_lt _ 3 k) by lia. rewrite Hfront.
  do 3 (destruct k as [|k]; [reflexivity|]). lia.
Qed.

Lemma table_ok_back (pcb : process) (k : nat) (s : slot) :
  table_ok pcb -> (3 <= k)%nat -> open_files pcb !! k = Some s -> s <> Marker.
Proof.
  intros (_ & _ & Hback & _) Hk Hs. rewrite Forall_forall in Hback. apply Hback.
  apply list_elem_of_lookup. exists (k - 3)%nat. rewrite lookup_drop.
  now replace (3 + (k - 3))%nat with k by lia.
Qed.

(** The first free descriptor. *)
Lemma table_first_free (pcb : process) :
  table_ok pcb -> open_files_cnt pcb < MAX_FS_OPEN ->
  exists j : nat,
    (3 <= j < 128)%nat /\ open_files pcb !! j = Some Null /\
    forall i : nat, (3 <= i < j)%nat ->
      exists s, open_files pcb !! i = Some s /\ in_use s = true.
Proof.
  intros Hok Hcnt. pose proof Hok as (Hlen & _ & _ & Hc & _).
  destruct (first_null (open_files pcb)) as (j & Hj & Hbefore).
  { rewrite Hlen. unfold MAX_FS_OPEN in Hcnt. lia. }
  exists j. assert (3 <= j)%nat as H3.
  { destruct (decide (3 <= j)%nat) as [?|Hn]; [assumption|].
    rewrite (table_ok_front pcb j Hok) in Hj by lia. discriminate. }
  split; [split; [exact H3|]|split; [exact Hj|]].
  - apply lookup_lt_Some in Hj. lia.
  - intros i Hi. destruct (open_files pcb !! i) as [s|] eqn:Es.
    + exists s. split; [reflexivity|]. apply (Hbefore i); [lia | exact Es].
    + apply lookup_ge_None in Es. apply lookup_lt_Some in Hj. lia.
Qed.

Lemma find_fd_scan (pcb : process) (j : nat) :
  (j < 128)%nat -> open_files pcb !! j = Some Null ->
  forall (n fd fuel : nat),
    (3 <= fd)%nat -> (fd + n = j)%nat -> (n <= fuel)%nat ->
    (forall i : nat, (fd <= i < j)%nat ->
       exists s, open_files pcb !! i = Some s /\ in_use s = true) ->
    find_fd fuel pcb (Z.of_nat fd) = Some (Ret (Z.of_nat j)).
Proof.
  intros Hj128 Hj. induction n as [|n IH]; intros fd fuel H3 Hsum Hfuel Hused.
  - replace fd with j by lia.
    destruct fuel; cbn [find_fd]; rewrite slot_at_in_range, Hj by lia; reflexivity.
  - destruct fuel as [|fuel]; [lia|]. cbn [find_fd].
    rewrite slot_at_in_range by lia.
    destruct (Hused fd ltac:(lia)) as (s & -> & Hs).
    assert (Z.rem (Z.of_nat fd + 1) MAX_FS_OPEN = Z.of_nat (S fd)) as ->.
    { unfold MAX_FS_OPEN. rewrite Z.rem_small; lia. }
    assert ((Z.of_nat (S fd) <=? STDERR_FILENO) = false) as ->.
    { apply Z.leb_gt. unfold STDERR_FILENO. lia. }
    destruct s; [discriminate| |]; apply IH; try lia; intros i Hi; apply Hused; lia.
Qed.

Lemma table_ok_open (pcb : process) (j : nat) (f : FILE) :
  table_ok pcb -> (3 <= j < 128)%nat -> open_files pcb !! j = Some Null ->
  open_files_cnt pcb < MAX_FS_OPEN ->
  u32 (open_files_cnt pcb + 1) = open_files_cnt pcb + 1 /\
  table_ok (set_slot pcb (Z.of_nat j) (Ptr f) (open_files_cnt pcb + 1)).
Proof.
  intros (Hlen & Hfront & Hback & Hc & Hn) Hj Hnull Hcnt.
  assert (0 <= open_files_cnt pcb) as Hpos by (rewrite Hc; lia).
  split.
  { unfold u32, MAX_FS_OPEN in *. rewrite Z.mod_small; lia. }
  unfold set_slot, table_ok. cbn [open_files open_files_cnt next_open_fd].
  rewrite Nat2Z.id, length_insert.
  split; [exact Hlen|]. split; [|split; [|split; [|exact Hn]]].
  - rewrite take_insert_ge by lia. exact Hfront.
  - rewrite drop_insert_ge by lia.
    apply Forall_forall. intros s Hs.
    apply list_elem_of_lookup in Hs as [i Hi].
    destruct (decide (i = (j - 3)%nat)) as [->|Hne].
    + rewrite list_lookup_insert_eq in Hi.
      * injection Hi as <-. discriminate.
      * rewrite length_drop. lia.
    + rewrite list_lookup_insert_ne in Hi by congruence.
      rewrite Forall_forall in Hback. apply Hback.
      apply list_elem_of_lookup. now exists i.
  - rewrite (count_insert _ j f Hnull), Hc. lia.
Qed.

Lemma sys_open_cases (fuel : nat) (pcb : process) (ns : gmap Z node)
    (cwd : option Z) (filename : string) :
  table_ok pcb -> (125 <= fuel)%nat ->
  exists (fd : Z) (pcb' : process),
    sys_open fuel pcb ns cwd filename = Some (Ret (fd, pcb')) /\
    ((fd = -1 /\ pcb' = pcb) \/
     (3 <= fd < MAX_FS_OPEN /\
      slot_at pcb fd = Some Null /\
      (forall k, 3 <= k < fd -> exists s, slot_at pcb k = Some s /\ in_use s = true) /\
      (exists f, pcb' = set_slot pcb fd (Ptr f) (open_files_cnt pcb + 1)) /\
      table_ok pcb')) /\
    (MAX_FS_OPEN <= open_files_cnt pcb \/ path_inode ns cwd filename = None ->
     fd = -1).
Proof.
  intros Hok Hfuel. unfold sys_open.
  destruct (String.length filename =? 0)%nat.
  { exists (-1), pcb. split; [reflexivity|]. split; [left|]; auto. }
  destruct (MAX_FS_OPEN <=? open_files_cnt pcb) eqn:Ecnt.
  { exists (-1), pcb. split; [reflexivity|]. split; [left|]; auto. }
  apply Z.leb_gt in Ecnt.
  destruct (table_first_free pcb Hok Ecnt) as (j & Hj & Hnull & Hused).
  pose proof Hok as (_ & _ & _ & _ & ->).
  pose proof (find_fd_scan pcb j ltac:(lia) Hnull (j - 3) 3 fuel ltac:(lia)
                ltac:(lia) ltac:(lia) Hused) as Hfind.
  change (Z.of_nat 3) with 3 in Hfind. rewrite Hfind.
  destruct (table_ok_open pcb j (mk_FILE None None) Hok Hj Hnull Ecnt) as [Hu _].
  rewrite Hu.
  assert (forall f,
             3 <= Z.of_nat j < MAX_FS_OPEN /\
             slot_at pcb (Z.of_nat j) = Some Null /\
             (forall k, 3 <= k < Z.of_nat j ->
                exists s, slot_at pcb k = Some s /\ in_use s = true) /\
             (exists f0, set_slot pcb (Z.of_nat j) (Ptr f) (open_files_cnt pcb + 1) =
                         set_slot pcb (Z.of_nat j) (Ptr f0) (open_files_cnt pcb + 1)) /\
             table_ok (set_slot pcb (Z.of_nat j) (Ptr f) (open_files_cnt pcb + 1)))
    as Hgood.
  { intros f. split; [unfold MAX_FS_OPEN; lia|].
    split; [now rewrite slot_at_in_range by lia|]. split; [|split].
    - intros k Hk. replace k with (Z.of_nat (Z.to_nat k)) by lia.
      rewrite slot_at_in_range by lia. apply Hused. lia.
    - now exists f.
    - now apply table_ok_open. }
  destruct (path_inode ns cwd filename) as [inode|].
  2:{ exists (-1), pcb. split; [reflexivity|]. split; [left|]; auto. }
  destruct (ns !! inode) as [[|es]|] eqn:En; cbn [file_open].
  - eexists _, _. split; [reflexivity|]. split; [right; apply Hgood|].
    intros [H|H]; [lia | discriminate].
  - destruct (dir_open ns (Some inode)) as [d|].
    + eexists _, _. split; [reflexivity|]. split; [right; apply Hgood|].
      intros [H|H]; [lia | discriminate].
    + exists (-1), pcb. split; [reflexivity|]. split; [left|]; auto.
  - exists (-1), pcb. split; [reflexivity|]. split; [left|]; auto.
Qed.

(** X18.  [sys_open] on a table as fd.c keeps it returns -1 and leaves
    the table alone, or it returns the lowest free descriptor from 3 on
    and stores a handle there, adding one to the count; it never returns
    0, 1 or 2.  It returns -1 when the table is full, and when the path
    names nothing. *)
Theorem sys_open_lowest_fd (fuel : nat) (pcb : process) (ns : gmap Z node)
    (cwd : option Z) (filename : string) :
  table_ok pcb -> (125 <= fuel)%nat ->
  exists (fd : Z) (pcb' : process),
    sys_open fuel pcb ns cwd filename = Some (Ret (fd, pcb')) /\
    ((fd = -1 /\ pcb' = pcb) \/
     (3 <= fd < MAX_FS_OPEN /\
      slot_at pcb fd = Some Null /\
      (forall k, 3 <= k < fd -> exists s, slot_at pcb k = Some s /\ in_use s = true) /\
      (exists f, pcb' = set_slot pcb fd (Ptr f) (open_files_cnt pcb + 1)) /\
      table_ok pcb')) /\
    (MAX_FS_OPEN <= open_files_cnt pcb \/ path_inode ns cwd filename = None ->
     fd = -1).
Proof.
  intros Hok Hfuel.
  destruct (sys_open_cases fuel pcb ns cwd filename Hok Hfuel)
    as (fd & pcb' & Hrun & Hcase & Hfail).
  exists fd, pcb'. split; [exact Hrun|]. split; [exact Hcase | exact Hfail].
Qed.

Lemma start_process_ok : table_ok start_process.
Proof.
  unfold table_ok, start_process. cbn [open_files open_files_cnt next_open_fd].
  split; [reflexivity|]. split; [reflexivity|]. split; [|split; reflexivity].
  change (drop 3 (repeat Marker 3 ++ repeat Null 125)) with (repeat Null 125).
  apply Forall_forall. intros s Hs.
  apply list_elem_of_In, repeat_spec in Hs. subst s. discriminate.
Qed.

Lemma sys_open_lowest_fd_witness :
  exists pcb',
    sys_open 125 start_process sample_tree (Some 1) "/f" = Some (Ret (3, pcb')) /\
    exists pcb'',
      sys_open 125 pcb' sample_tree (Some 1) "d" = Some (Ret (4, pcb'')).
Proof.
  destruct (sys_open_lowest_fd 125 start_process sample_tree (Some 1) "/f"
              start_process_ok ltac:(lia)) as (fd & pcb' & Hrun & Hcase & _).
  assert (fd = 3 /\ table_ok pcb') as [-> Hok'].
  { vm_compute in Hrun. injection Hrun as <- <-.
    destruct Hcase as [[H _]|(_ & _ & _ & _ & H)]; [discriminate|].
    split; [reflexivity | exact H]. }
  exists pcb'. split; [exact Hrun|].
  destruct (sys_open_lowest_fd 125 pcb' sample_tree (Some 1) "d" Hok' ltac:(lia))
    as (fd2 & pcb'' & Hrun2 & _).
  exists pcb''. rewrite Hrun2. vm_compute in Hrun. injection Hrun as <-.
  vm_compute in Hrun2. injection Hrun2 as <- <-. reflexivity.
Defined.

(** X19.  [sys_close] undoes [sys_open]: closing the descriptor that
    [sys_open] returned gives back the table and the count that
    [sys_open] found, and none of the assertions of [sys_close] fails. *)
Theorem sys_open_close (fuel : nat) (pcb pcb' : process) (ns : gmap Z node)
    (cwd : option Z) (filename : string) (fd : Z) :
  table_ok pcb -> (125 <= fuel)%nat ->
  sys_open fuel pcb ns cwd filename = Some (Ret (fd, pcb')) ->
  fd <> -1 ->
  sys_close pcb' fd = Ret pcb.
Proof.
  intros Hok Hfuel Hrun Hfd.
  destruct (sys_open_cases fuel pcb ns cwd filename Hok Hfuel)
    as (fd0 & pcb0 & Hrun0 & Hcase & _).
  rewrite Hrun in Hrun0. injection Hrun0 as <- <-.
  destruct Hcase as [[H _]|(Hr & Hnull & _ & (f & ->) & Hok')]; [contradiction|].
  pose proof Hok as (Hlen & _ & _ & Hc & _).
  unfold sys_close, get_file, is_open_fd, sys_isdir, is_std,
    STDIN_FILENO, STDOUT_FILENO, STDERR_FILENO.
  destruct (fd =? 0) eqn:E0; [apply Z.eqb_eq in E0; lia|].
  destruct (fd =? 1) eqn:E1; [apply Z.eqb_eq in E1; lia|].
  destruct (fd =? 2) eqn:E2; [apply Z.eqb_eq in E2; lia|]. cbn [orb].
  assert (slot_at (set_slot pcb fd (Ptr f) (open_files_cnt pcb + 1)) fd = Some (Ptr f))
    as Hslot.
  { unfold slot_at in *. destruct ((0 <=? fd) && (fd <? MAX_FS_OPEN)); [|discriminate].
    cbn [open_files set_slot]. apply list_lookup_insert_eq.
    now apply lookup_lt_Some in Hnull. }
  rewrite Hslot. cbn [open_files_cnt set_slot].
  f_equal. unfold set_slot. cbn [open_files next_open_fd].
  destruct pcb as [l cnt next]. cbn [open_files open_files_cnt next_open_fd] in *.
  f_equal.
  - rewrite list_insert_insert_eq. apply list_insert_id.
    unfold slot_at in Hnull. cbn [open_files] in Hnull.
    destruct ((0 <=? fd) && (fd <? MAX_FS_OPEN)); [exact Hnull | discriminate].
  - unfold u32. replace (cnt + 1 - 1) with cnt by lia.
    apply Z.mod_small.
    pose proof (length_filter (fun s => in_use s = true) l). lia.
Qed.

Lemma sys_open_close_witness :
  exists pcb',
    sys_open 125 start_process sample_tree (Some 1) "/f" = Some (Ret (3, pcb')) /\
    sys_close pcb' 3 = Ret start_process.
Proof.
  eexists. split; [vm_compute; reflexivity|].
  apply (sys_open_close 125 start_process _ sample_tree (Some 1) "/f" 3
           start_process_ok); [lia | vm_compute; reflexivity | discriminate].
Defined.

Lemma close_from_spec (n : nat) :
  forall (fd : nat) (l : list slot),
    List.length l = (fd + n)%nat ->
    Forall (fun s => s <> Marker) (drop fd l) ->
    close_from n fd l = Ret (take fd l ++ repeat Null n).
Proof.
  induction n as [|n IH]; intros fd l Hlen Hback; cbn [close_from repeat].
  - rewrite take_ge by lia. now rewrite app_nil_r.
  - destruct (l !! fd) as [s|] eqn:Es.
    2:{ apply lookup_ge_None in Es. lia. }
    rewrite (drop_S _ _ _ Es) in Hback. apply Forall_cons in Hback as [Hs Hback].
    destruct s as [| |f]; [|contradiction|].
    + rewrite IH by (try lia; exact Hback).
      rewrite (take_S_r _ _ _ Es), <- app_assoc. reflexivity.
    + rewrite IH.
      * assert (<[fd := Null]> l !! fd = Some Null) as Hn
          by (apply list_lookup_insert_eq; now apply lookup_lt_Some in Es).
        rewrite (take_S_r _ _ _ Hn), take_insert_ge by lia.
        now rewrite <- app_assoc.
      * rewrite length_insert. lia.
      * now rewrite drop_insert_lt by lia.
Qed.

(** X20.  [close_all] brings a table as fd.c keeps it back to the table
    of a process that has just started: no descriptor from 3 on is open,
    the count is 3 and the three markers are in place. *)
Theorem close_all_resets (pcb : process) :
  table_ok pcb -> close_all pcb = Ret start_process.
Proof.
  intros (Hlen & Hfront & Hback & _ & Hnext). unfold close_all.
  rewrite (close_from_spec 125 3 (open_files pcb)) by (try lia; exact Hback).
  now rewrite Hfront, Hnext.
Qed.

Lemma close_all_resets_witness :
  exists pcb' pcb'',
    sys_open 125 start_process sample_tree (Some 1) "/f" = Some (Ret (3, pcb')) /\
    sys_open 125 pcb' sample_tree (Some 1) "d" = Some (Ret (4, pcb'')) /\
    close_all pcb'' = Ret start_process.
Proof.
  eexists _, _. split; [vm_compute; reflexivity|].
  split; [vm_compute; reflexivity|].
  apply close_all_resets. unfold table_ok. cbn [open_files open_files_cnt next_open_fd].
  split; [reflexivity|]. split; [reflexivity|]. split; [|split; reflexivity].
  apply Forall_forall. intros s Hs. vm_compute in Hs.
  repeat (apply elem_of_cons in Hs as [->|Hs]; [discriminate|]).
  now apply elem_of_nil in Hs.
Defined.

End Table.

(** ** Reading a directory through a descriptor *)

Section Readdir.
Import Path Fs Fd.

Lemma readdir_loop_spec (ns : gmap Z node) (d : Z) (es : list dir_entry) :
  ns !! d = Some (Directory es) ->
  forall (l : list dir_entry) (pos fuel : nat),
    drop pos es = l -> (List.length l < fuel)%nat ->
    exists (r : option string) (pos' : nat),
      readdir_loop fuel ns d pos = Some (r, pos') /\
      (r = None <-> only_dots l) /\
      (forall nm, r = Some nm ->
         nm <> "."%string /\ nm <> ".."%string /\
         exists e, e ∈ l /\ Fs.in_use e = true /\ name e = nm).
Proof.
  intros Hdir. induction l as [|e l IH]; intros pos fuel Hdrop Hfuel.
  - destruct fuel as [|fuel]; [cbn in Hfuel; lia|].
    cbn [readdir_loop]. unfold dir_readdir. rewrite Hdir, Hdrop. cbn.
    exists None, pos. split; [reflexivity|].
    split; [split; [constructor | reflexivity] | discriminate].
  - assert (drop (S pos) es = l) as Hdrop'.
    { assert (es !! pos = Some e) as Hpos.
      { rewrite <- (Nat.add_0_r pos), <- lookup_drop, Hdrop. reflexivity. }
      rewrite (drop_S _ _ _ Hpos) in Hdrop. now injection Hdrop. }
    destruct fuel as [|fuel]; [cbn in Hfuel; lia|]. cbn [List.length] in Hfuel.
    cbn [readdir_loop]. unfold dir_readdir. rewrite Hdir, Hdrop. cbn [readdir_from].
    destruct (Fs.in_use e) eqn:Eu.
    + destruct (String.eqb (name e) "." || String.eqb (name e) "..") eqn:Ed.
      * destruct (IH (S pos) fuel Hdrop' ltac:(lia)) as (r & pos' & Hrun & Hnone & Hsome).
        exists r, pos'. split; [exact Hrun|]. split.
        -- rewrite Hnone, only_dots_cons. apply dots_eqb in Ed. tauto.
        -- intros nm Hr. destruct (Hsome nm Hr) as (H1 & H2 & e' & He' & Hu & Hn).
           split; [exact H1|]. split; [exact H2|]. exists e'.
           split; [now right | auto].
      * exists (Some (name e)), (S pos). split; [reflexivity|]. split.
        -- split; [discriminate|]. rewrite only_dots_cons. intros [H _].
           apply dots_eqb in H; [|exact Eu]. congruence.
        -- intros nm [= <-].
           assert (~ (name e = "."%string \/ name e = ".."%string)) as Hnd.
           { intros H. apply dots_eqb in H. congruence. }
           split; [tauto|]. split; [tauto|]. exists e. split; [left | auto].
    + specialize (IH (S pos) (S fuel) Hdrop' ltac:(lia)).
      cbn [readdir_loop] in IH. unfold dir_readdir in IH. rewrite Hdir, Hdrop' in IH.
      destruct IH as (r & pos' & Hrun & Hnone & Hsome).
      assert (exists pos'',
                 match readdir_from l (S pos) with
                 | Some (nm, pos1) =>
                     if String.eqb nm "." || String.eqb nm ".."
                     then readdir_loop fuel ns d pos1
                     else Some (Some nm, pos1)
                 | None => Some (None, pos)
                 end = Some (r, pos'')) as [pos'' Hrun'].
      { destruct (readdir_from l (S pos)) as [[nm pos1]|].
        - exists pos'. exact Hrun.
        - exists pos. injection Hrun as <- _. reflexivity. }
      exists r, pos''. split; [exact Hrun'|]. split.
      * rewrite Hnone, only_dots_cons. split; [intros H; split; [congruence | exact H] | tauto].
      * intros nm Hr. destruct (Hsome nm Hr) as (H1 & H2 & e' & He' & Hu & Hn).
        split; [exact H1|]. split; [exact H2|]. exists e'. split; [now right | auto].
Qed.

(** X21.  [sys_readdir] on the descriptor of a directory never gives the
    names [.] and [..]: it gives the name of an entry in use behind the
    cursor, or returns false when only [.], [..] and unused entries are
    left.  On a directory just opened it returns false exactly when
    [path_is_empty_dir] holds.  On the descriptor of a regular file its
    assertion fails. *)
Theorem sys_readdir_skips_dots (fuel : nat) (pcb : process) (ns : gmap Z node)
    (fd d : Z) (pos : nat) (f : option Z) (es : list dir_entry) :
  3 <= fd ->
  slot_at pcb fd = Some (Ptr (mk_FILE (Some (d, pos)) f)) ->
  ns !! d = Some (Directory es) -> (List.length es < fuel)%nat ->
  (exists (r : option string) (pos' : nat),
      sys_readdir fuel pcb ns fd =
        Some (Ret (r, set_slot pcb fd (Ptr (mk_FILE (Some (d, pos')) f))
                               (open_files_cnt pcb))) /\
      (r = None <-> only_dots (drop pos es)) /\
      (forall nm, r = Some nm ->
         nm <> "."%string /\ nm <> ".."%string /\
         exists e, e ∈ drop pos es /\ Fs.in_use e = true /\ name e = nm) /\
      (pos = 0%nat -> (r = None <-> path_is_empty_dir ns d = true))) /\
  (forall pcb0 h,
      slot_at pcb0 fd = Some (Ptr (mk_FILE None h)) ->
      sys_readdir fuel pcb0 ns fd = Some Panic).
Proof.
  intros Hfd Hslot Hdir Hfuel.
  assert (is_std fd = false) as Hstd.
  { unfold is_std, STDIN_FILENO, STDOUT_FILENO, STDERR_FILENO.
    destruct (fd =? 0) eqn:E0; [apply Z.eqb_eq in E0; lia|].
    destruct (fd =? 1) eqn:E1; [apply Z.eqb_eq in E1; lia|].
    destruct (fd =? 2) eqn:E2; [apply Z.eqb_eq in E2; lia|]. reflexivity. }
  split.
  - destruct (readdir_loop_spec ns d es Hdir (drop pos es) pos fuel eq_refl)
      as (r & pos' & Hrun & Hnone & Hsome).
    { rewrite length_drop. lia. }
    exists r, pos'. split; [|split; [exact Hnone | split; [exact Hsome|]]].
    + unfold sys_readdir, is_file, get_file, is_open_fd, sys_isdir.
      rewrite Hstd, Hslot. cbn [dir]. now rewrite Hrun.
    + intros ->. rewrite Hnone, drop_0. symmetry.
      now apply path_is_empty_dir_spec.
  - intros pcb0 h Hslot0.
    unfold sys_readdir, is_file, get_file, is_open_fd, sys_isdir.
    now rewrite Hstd, Hslot0.
Qed.

Lemma sys_readdir_skips_dots_witness :
  exists pcb' pcb'',
    sys_open 125 start_process sample_tree (Some 1) "/" = Some (Ret (3, pcb')) /\
    sys_readdir 5 pcb' sample_tree 3 = Some (Ret (Some "f"%string, pcb'')).
Proof.
  eexists _, _. split; [vm_compute; reflexivity|].
  match goal with
  | |- sys_readdir _ ?P _ _ = _ =>
      destruct (sys_readdir_skips_dots 5 P sample_tree 3 1 0 None
                  [mk_dir_entry 1 "." true; mk_dir_entry 1 ".." true;
                   mk_dir_entry 4 "f" true; mk_dir_entry 5 "d" true])
        as [(r & pos' & Hrun & _) _]
  end.
  - lia.
  - vm_compute. reflexivity.
  - vm_compute. reflexivity.
  - cbn. lia.
  - rewrite Hrun. vm_compute in Hrun. injection Hrun as <- <-. vm_compute. reflexivity.
Defined.

End Readdir.

(** ** The system call handler and the descriptor table *)

Section Handler.
Import Fd Syscall.

Lemma fd_range_do (fd : Z) (a : action) (c : call) :
  fd_range fd a = Do c -> 0 <= fd < 128 /\ a = Do c.
Proof.
  unfold fd_range, MAX_FS_OPEN.
  destruct (128 <=? fd) eqn:E1; [discriminate|].
  destruct (fd <? 0) eqn:E2; [discriminate|]. cbn.
  apply Z.leb_gt in E1. apply Z.ltb_ge in E2. intros ->. split; [lia | reflexivity].
Qed.

Lemma arg_do (m : user_mem) (args k : Z) (f : Z -> action) (c : call) :
  arg m args k f = Do c -> f (word m (args + 4 * k)) = Do c.
Proof. unfold arg. destruct (forallb _ _); [tauto | discriminate]. Qed.

Lemma slot_of_descriptor (pcb : process) (fd : Z) :
  table_ok pcb -> 0 <= fd < 128 ->
  slot_at pcb fd = open_files pcb !! Z.to_nat fd /\
  (fd < 3 -> slot_at pcb fd = Some Marker) /\
  (3 <= fd -> slot_at pcb fd <> Some Marker).
Proof.
  intros Hok Hfd.
  pose proof (slot_at_in_range pcb (Z.to_nat fd) ltac:(lia)) as Hs.
  rewrite Z2Nat.id in Hs by lia. split; [exact Hs|]. rewrite Hs. split.
  - intros H3. apply table_ok_front; [exact Hok | lia].
  - intros H3 Hm. apply (table_ok_back pcb (Z.to_nat fd) Marker Hok); [lia | exact Hm | reflexivity].
Qed.

(** What the inner [switch] lets through. *)
Lemma fd_switch_do (pcb : process) (fd : Z) (exits : list Z) (c c' : call) :
  table_ok pcb -> 0 <= fd < 128 ->
  fd_switch pcb fd exits c = Do c' ->
  c' = c /\ (fd ∉ exits) /\
  ((fd < 3 /\ slot_at pcb fd = Some Marker) \/
   (3 <= fd /\ exists f, slot_at pcb fd = Some (Ptr f))).
Proof.
  intros Hok Hfd. unfold fd_switch.
  destruct (existsb (Z.eqb fd) exits) eqn:Ex; [discriminate|].
  assert (fd ∉ exits) as Hnot.
  { intros Hin. apply list_elem_of_In in Hin.
    assert (existsb (Z.eqb fd) exits = true) as Ht.
    { apply existsb_exists. exists fd. split; [exact Hin | apply Z.eqb_refl]. }
    congruence. }
  destruct (slot_of_descriptor pcb fd Hok Hfd) as (_ & Hlow & Hhigh).
  unfold is_open_fd. destruct (slot_at pcb fd) as [[| |f]|] eqn:Es; cbn; try discriminate.
  - intros [= <-]. split; [reflexivity|]. split; [exact Hnot|]. left.
    split; [|reflexivity]. destruct (decide (fd < 3)) as [?|Hn]; [assumption|].
    exfalso. apply Hhigh; [lia | reflexivity].
  - intros [= <-]. split; [reflexivity|]. split; [exact Hnot|]. right.
    split; [|eauto]. destruct (decide (3 <= fd)) as [?|Hn]; [assumption|].
    specialize (Hlow ltac:(lia)). discriminate Hlow.
Qed.

(** With the three standard descriptors turned away, the descriptor that
    gets through holds a handle. *)
Lemma fd_switch_handle (pcb : process) (fd : Z) (c c' : call) :
  table_ok pcb -> 0 <= fd < 128 ->
  fd_switch pcb fd [0; 1; 2] c = Do c' ->
  c' = c /\ 3 <= fd /\ exists f, slot_at pcb fd = Some (Ptr f).
Proof.
  intros Hok Hfd Hsw.
  destruct (fd_switch_do pcb fd _ c c' Hok Hfd Hsw) as (-> & Hnot & [[Hlt _]|[Hge Hf]]).
  - exfalso. apply Hnot.
    assert (fd = 0 \/ fd = 1 \/ fd = 2) as [->|[->| ->]] by lia;
      repeat constructor.
  - auto.
Qed.

Lemma get_file_handle (pcb : process) (fd : Z) (f : FILE) :
  3 <= fd -> slot_at pcb fd = Some (Ptr f) ->
  is_std fd = false /\ is_open_fd pcb fd = Ret true /\
  get_file pcb fd = Ret (Ptr f) /\
  sys_isdir pcb fd = Ret (match dir f with Some _ => true | None => false end).
Proof.
  intros Hfd Hs.
  assert (is_std fd = false) as Hstd.
  { unfold is_std, STDIN_FILENO, STDOUT_FILENO, STDERR_FILENO.
    destruct (fd =? 0) eqn:E0; [apply Z.eqb_eq in E0; lia|].
    destruct (fd =? 1) eqn:E1; [apply Z.eqb_eq in E1; lia|].
    destruct (fd =? 2) eqn:E2; [apply Z.eqb_eq in E2; lia|]. reflexivity. }
  assert (is_open_fd pcb fd = Ret true) as Hopen.
  { unfold is_open_fd. now rewrite Hs. }
  repeat split; try assumption.
  - unfold get_file. now rewrite Hstd, Hopen, Hs.
  - unfold sys_isdir. now rewrite Hs.
Qed.

(** X22.  Whatever the user process passes, the descriptor that
    [syscall_handler] hands to [sys_filesize], [sys_seek], [sys_tell],
    [sys_inumber], [sys_isdir], [sys_close], [sys_read] or [sys_write]
    passes every assertion of that function and of [get_file], and is
    never read through the marker of a standard stream. *)
Theorem handler_guards_descriptors (fuel : nat) (m : user_mem) (pcb : process)
    (args : Z) (c : call) :
  table_ok pcb ->
  syscall_handler fuel m pcb args = Some (Do c) ->
  call_ok pcb c.
Proof.
  intros Hok. unfold syscall_handler.
  destruct (negb (validate_args m args)); [discriminate|].
  destruct (number m (word m args)); intros [= Hrun];
    repeat (apply arg_do in Hrun); try set (fd := to_int _) in Hrun.
  - destruct (_ || _) in Hrun; [discriminate|]. injection Hrun as <-. exact I.
  - destruct (_ =? 0) in Hrun; [discriminate|].
    destruct (negb _) in Hrun; [discriminate|]. injection Hrun as <-. exact I.
  - destruct (_ =? 0) in Hrun; [discriminate|].
    destruct (negb _) in Hrun; [discriminate|]. injection Hrun as <-. exact I.
  - destruct (_ =? 0) in Hrun; [discriminate|].
    destruct (negb _) in Hrun; [discriminate|]. injection Hrun as <-. exact I.
  - (* SYS_FILESIZE *)
    apply fd_range_do in Hrun as [Hfd Hrun].
    apply (fd_switch_handle pcb fd _ c Hok Hfd) in Hrun as (-> & H3 & f & Hs).
    destruct (get_file_handle pcb fd f H3 Hs) as (_ & _ & Hg & _).
    exists f. exact Hg.
  - (* SYS_READ *)
    apply fd_range_do in Hrun as [Hfd Hrun].
    destruct (negb _) in Hrun; [discriminate|].
    apply (fd_switch_do pcb fd _ _ c Hok Hfd) in Hrun as (-> & Hnot & Hcase).
    cbn [call_ok]. unfold sys_read_handle, STDIN_FILENO, STDOUT_FILENO, STDERR_FILENO.
    destruct Hcase as [[Hlt _]|[H3 [f Hs]]].
    + assert (fd = 0) as ->.
      { assert (fd = 0 \/ fd = 1 \/ fd = 2) as [?|[->| ->]] by lia;
          [assumption| |]; exfalso; apply Hnot; repeat constructor. }
      left. reflexivity.
    + destruct (get_file_handle pcb fd f H3 Hs) as (_ & _ & Hg & Hd).
      destruct (fd =? 1) eqn:E1; [apply Z.eqb_eq in E1; lia|].
      destruct (fd =? 2) eqn:E2; [apply Z.eqb_eq in E2; lia|].
      destruct (fd =? 0) eqn:E0; [apply Z.eqb_eq in E0; lia|].
      cbn [orb]. rewrite Hd, Hg. destruct (dir f); eauto.
  - (* SYS_WRITE *)
    apply fd_range_do in Hrun as [Hfd Hrun].
    destruct (negb _) in Hrun; [discriminate|].
    apply (fd_switch_do pcb fd _ _ c Hok Hfd) in Hrun as (-> & Hnot & Hcase).
    cbn [call_ok]. unfold sys_write_handle, STDIN_FILENO, STDOUT_FILENO, STDERR_FILENO.
    destruct Hcase as [[Hlt _]|[H3 [f Hs]]].
    + assert (fd = 1 \/ fd = 2) as Hstd.
      { assert (fd = 0 \/ fd = 1 \/ fd = 2) as [->|[?|?]] by lia; auto.
        exfalso; apply Hnot; repeat constructor. }
      left. destruct Hstd as [-> | ->]; reflexivity.
    + destruct (get_file_handle pcb fd f H3 Hs) as (_ & _ & Hg & Hd).
      destruct (fd =? 0) eqn:E0; [apply Z.eqb_eq in E0; lia|].
      destruct (fd =? 1) eqn:E1; [apply Z.eqb_eq in E1; lia|].
      destruct (fd =? 2) eqn:E2; [apply Z.eqb_eq in E2; lia|].
      cbn [orb]. rewrite Hd, Hg. destruct (dir f); eauto.
  - (* SYS_SEEK *)
    apply fd_range_do in Hrun as [Hfd Hrun].
    apply (fd_switch_handle pcb fd _ c Hok Hfd) in Hrun as (-> & H3 & f & Hs).
    destruct (get_file_handle pcb fd f H3 Hs) as (Hstd & Hopen & Hg & _).
    exists f. unfold sys_seek_handle. now rewrite Hstd, Hopen.
  - (* SYS_TELL *)
    apply fd_range_do in Hrun as [Hfd Hrun].
    apply (fd_switch_handle pcb fd _ c Hok Hfd) in Hrun as (-> & H3 & f & Hs).
    destruct (get_file_handle pcb fd f H3 Hs) as (Hstd & Hopen & Hg & _).
    exists f. unfold sys_tell_handle, sys_seek_handle. now rewrite Hstd, Hopen.
  - (* SYS_CLOSE *)
    apply fd_range_do in Hrun as [Hfd Hrun].
    apply (fd_switch_handle pcb fd _ c Hok Hfd) in Hrun as (-> & H3 & f & Hs).
    destruct (get_file_handle pcb fd f H3 Hs) as (Hstd & Hopen & Hg & Hd).
    cbn [call_ok]. unfold sys_close. rewrite Hstd, Hopen, Hg, Hd. eauto.
  - destruct (negb _) in Hrun; discriminate.
  - destruct (negb _) in Hrun; discriminate.
  - subst c. exact I.
  - (* SYS_EXEC *)
    destruct (negb _) in Hrun; [discriminate|].
    destruct (validate_string_arg _ _ _) as [[|]|] in Hrun; try discriminate.
    injection Hrun as <-. exact I.
  - destruct (negb _) in Hrun; [discriminate|]. injection Hrun as <-. exact I.
  - destruct (_ =? 0) in Hrun; [discriminate|].
    destruct (negb _) in Hrun; [discriminate|]. injection Hrun as <-. exact I.
  - destruct (_ =? 0) in Hrun; [discriminate|].
    destruct (negb _) in Hrun; [discriminate|]. injection Hrun as <-. exact I.
  - (* SYS_READDIR *)
    apply fd_range_do in Hrun as [Hfd Hrun].
    destruct (negb _) in Hrun; [discriminate|].
    apply (fd_switch_handle pcb fd _ c Hok Hfd) in Hrun as (-> & _). exact I.
  - (* SYS_ISDIR *)
    apply fd_range_do in Hrun as [Hfd Hrun].
    apply (fd_switch_handle pcb fd _ c Hok Hfd) in Hrun as (-> & H3 & f & Hs).
    destruct (get_file_handle pcb fd f H3 Hs) as (_ & _ & _ & Hd).
    cbn [call_ok]. eauto.
  - (* SYS_INUMBER *)
    apply fd_range_do in Hrun as [Hfd Hrun].
    apply (fd_switch_handle pcb fd _ c Hok Hfd) in Hrun as (-> & H3 & f & Hs).
    destruct (get_file_handle pcb fd f H3 Hs) as (Hstd & Hopen & Hg & Hd).
    exists f. unfold sys_inumber_handle, is_file. now rewrite Hstd, Hopen, Hg, Hd.
Qed.

Lemma handler_guards_descriptors_witness :
  call_ok (set_slot start_process 3 (Ptr (mk_FILE None (Some 7))) 4) (Call_close 3).
Proof.
  apply (handler_guards_descriptors 0
           (flat_mem 8192 (fun a => if a =? 4100 then 3 else 9)
                     (fun w => if w =? 9 then SYS_CLOSE else SYS_OTHER))
           (set_slot start_process 3 (Ptr (mk_FILE None (Some 7))) 4) 4096).
  - repeat split; try reflexivity.
    apply Forall_forall. intros s Hs.
    change (drop 3 (open_files (set_slot start_process 3 (Ptr (mk_FILE None (Some 7))) 4)))
      with (Ptr (mk_FILE None (Some 7)) :: repeat Null 124) in Hs.
    apply elem_of_cons in Hs as [->|Hs]; [discriminate|].
    apply list_elem_of_In, repeat_spec in Hs. subst s. discriminate.
  - vm_compute. reflexivity.
Defined.

Lemma forallb_bytes (m : user_mem) (base : Z) :
  (forall a, base <= a < base + 4 -> mapped m a = true) ->
  forallb (fun i => mapped m (base + i)) [0; 1; 2; 3] = true.
Proof.
  intros H. cbn [forallb]. rewrite !H by lia. reflexivity.
Qed.

(** X23.  [SYS_READDIR] on the descriptor of an open regular file gets
    through every check of [syscall_handler], which only asks whether
    the descriptor is open, and [sys_readdir] then stops the kernel at
    its assertion [sys_isdir (fd)]. *)
Theorem handler_readdir_on_file_panics (fuel fuel' : nat) (m : user_mem)
    (pcb : process) (ns : gmap Z Fs.node) (args : Z) (f : FILE) :
  validate_args m args = true ->
  number m (word m args) = SYS_READDIR ->
  (forall a, args + 4 <= a < args + 12 -> mapped m a = true) ->
  validate_args m (word m (args + 8)) = true ->
  3 <= to_int (word m (args + 4)) < 128 ->
  slot_at pcb (to_int (word m (args + 4))) = Some (Ptr f) ->
  dir f = None ->
  syscall_handler fuel m pcb args =
    Some (Do (Call_readdir (to_int (word m (args + 4))) (word m (args + 8)))) /\
  sys_readdir fuel' pcb ns (to_int (word m (args + 4))) = Some Panic.
Proof.
  intros Hargs Hnr Hmap Hbuf Hfd Hs Hdir.
  destruct (get_file_handle pcb _ f (proj1 Hfd) Hs) as (Hstd & Hopen & Hg & Hd).
  split.
  - unfold syscall_handler. rewrite Hargs, Hnr. cbn [negb]. unfold arg.
    rewrite !forallb_bytes by (intros a Ha; apply Hmap; lia).
    replace (args + 4 * 1) with (args + 4) by lia.
    replace (args + 4 * 2) with (args + 8) by lia.
    cbv zeta. unfold fd_range, MAX_FS_OPEN.
    destruct (128 <=? _) eqn:E1; [apply Z.leb_le in E1; lia|].
    destruct (_ <? 0) eqn:E2; [apply Z.ltb_lt in E2; lia|].
    cbn [orb]. rewrite Hbuf. cbn [negb]. unfold fd_switch.
    assert (existsb (Z.eqb (to_int (word m (args + 4)))) [0; 1; 2] = false) as ->.
    { cbn [existsb].
      destruct (_ =? 0) eqn:E3; [apply Z.eqb_eq in E3; lia|].
      destruct (_ =? 1) eqn:E4; [apply Z.eqb_eq in E4; lia|].
      destruct (_ =? 2) eqn:E5; [apply Z.eqb_eq in E5; lia|]. reflexivity. }
    now rewrite Hopen.
  - unfold sys_readdir, is_file. rewrite Hstd, Hopen, Hd, Hdir. reflexivity.
Qed.

Lemma handler_readdir_on_file_panics_witness :
  syscall_handler 0
    (flat_mem 8192 (fun a => if a =? 4100 then 3 else if a =? 4104 then 5000 else 17)
              (fun w => if w =? 17 then SYS_READDIR else SYS_OTHER))
    (set_slot start_process 3 (Ptr (mk_FILE None (Some 7))) 4) 4096
    = Some (Do (Call_readdir 3 5000)) /\
  sys_readdir 1 (set_slot start_process 3 (Ptr (mk_FILE None (Some 7))) 4)
              Fs.sample_tree 3 = Some Panic.
Proof.
  apply (handler_readdir_on_file_panics 0 1
           (flat_mem 8192 (fun a => if a =? 4100 then 3 else if a =? 4104 then 5000 else 17)
                     (fun w => if w =? 17 then SYS_READDIR else SYS_OTHER))
           (set_slot start_process 3 (Ptr (mk_FILE None (Some 7))) 4)
           Fs.sample_tree 4096 (mk_FILE None (Some 7))).
  - reflexivity.
  - reflexivity.
  - intros a Ha. cbn [flat_mem mapped].
    destruct (0 <? a) eqn:E1; [|apply Z.ltb_ge in E1; lia].
    destruct (a <? 8192) eqn:E2; [|apply Z.ltb_ge in E2; lia]. reflexivity.
  - reflexivity.
  - vm_compute. split; [discriminate | reflexivity].
  - reflexivity.
  - reflexivity.
Defined.

(** X24.  [syscall_handler] checks the four bytes of the system call
    number only.  When the word after it is not mapped, the calls that
    check their argument ([SYS_EXIT], [SYS_PRACTICE], [SYS_EXEC],
    [SYS_WAIT]) end the process with -1, [SYS_HALT] takes no argument,
    and every other call reads the argument from the unmapped address. *)
Theorem handler_reads_unchecked_arguments (fuel : nat) (m : user_mem)
    (pcb : process) (args a : Z) :
  validate_args m args = true ->
  args + 4 <= a < args + 8 -> mapped m a = false ->
  syscall_handler fuel m pcb args =
    Some (match number m (word m args) with
          | SYS_HALT => Do Call_shutdown_power_off
          | SYS_EXIT | SYS_PRACTICE | SYS_EXEC | SYS_WAIT | SYS_OTHER => Exit (-1)
          | _ => PageFault
          end).
Proof.
  intros Hargs Ha Hun.
  assert (forallb (fun i => mapped m (args + 4 * 1 + i)) [0; 1; 2; 3] = false) as Hread.
  { apply not_true_is_false. intros Hall. rewrite forallb_forall in Hall.
    specialize (Hall (a - (args + 4))).
    replace (args + 4 * 1 + (a - (args + 4))) with a in Hall by lia.
    rewrite Hun in Hall. enough (false = true) by discriminate. apply Hall.
    assert (a - (args + 4) = 0 \/ a - (args + 4) = 1 \/
            a - (args + 4) = 2 \/ a - (args + 4) = 3) as [->|[->|[->| ->]]] by lia;
      cbn; auto 10. }
  assert (validate_args m (args + 4) = false) as Hval.
  { unfold validate_args. apply andb_false_iff. right.
    apply not_true_is_false. intros Hall. rewrite forallb_forall in Hall.
    specialize (Hall (a - (args + 4))).
    replace (args + 4 + (a - (args + 4))) with a in Hall by lia.
    unfold byte_ok in Hall. rewrite Hun, andb_false_r in Hall.
    enough (false = true) by discriminate. apply Hall.
    assert (a - (args + 4) = 0 \/ a - (args + 4) = 1 \/
            a - (args + 4) = 2 \/ a - (args + 4) = 3) as [->|[->|[->| ->]]] by lia;
      cbn; auto 10. }
  unfold syscall_handler. rewrite Hargs. cbn [negb].
  destruct (number m (word m args)); unfold arg; rewrite ?Hread, ?Hval; reflexivity.
Qed.

Lemma handler_reads_unchecked_arguments_witness :
  syscall_handler 0
    (flat_mem 8192 (fun _ => 9) (fun w => if w =? 9 then SYS_CLOSE else SYS_EXIT))
    start_process 8188 = Some PageFault.
Proof.
  apply (handler_reads_unchecked_arguments 0
           (flat_mem 8192 (fun _ => 9) (fun w => if w =? 9 then SYS_CLOSE else SYS_EXIT))
           start_process 8188 8192).
  - reflexivity.
  - lia.
  - reflexivity.
Defined.

End Handler.

(** ** Writing inside a file and reading it back *)

Section Translate.
Import FreeMap Inode.

(** [byte_to_sector] looks at the sector a position lies in only. *)
Lemma byte_to_sector_same (st : gmap Z (list Z)) (ino : inode) (p p' : Z) :
  0 <= p < inode_length st ino -> 0 <= p' < inode_length st ino ->
  p ÷ 512 = p' ÷ 512 ->
  byte_to_sector st ino p = byte_to_sector st ino p'.
Proof.
  unfold inode_length, byte_to_sector, BLOCK_SECTOR_SIZE. intros Hp Hp' Hq.
  set (d := inode_of_sector _) in *.
  destruct (p <? length d) eqn:E; [|apply Z.ltb_ge in E; lia].
  destruct (p' <? length d) eqn:E'; [|apply Z.ltb_ge in E'; lia].
  assert ((p <? 12 * 512) = (p' <? 12 * 512)) as ->.
  { destruct (p <? 12 * 512) eqn:A; destruct (p' <? 12 * 512) eqn:A'; try reflexivity;
      [apply Z.ltb_lt in A; apply Z.ltb_ge in A'
      |apply Z.ltb_ge in A; apply Z.ltb_lt in A'];
      Z.to_euclidean_division_equations; lia. }
  assert ((p <? (12 + 128) * 512) = (p' <? (12 + 128) * 512)) as ->.
  { destruct (p <? (12 + 128) * 512) eqn:A; destruct (p' <? (12 + 128) * 512) eqn:A';
      try reflexivity;
      [apply Z.ltb_lt in A; apply Z.ltb_ge in A'
      |apply Z.ltb_ge in A; apply Z.ltb_lt in A'];
      Z.to_euclidean_division_equations; lia. }
  assert ((p <? (12 + 128 + 128 * 128) * 512) = (p' <? (12 + 128 + 128 * 128) * 512)) as ->.
  { destruct (p <? (12 + 128 + 128 * 128) * 512) eqn:A;
      destruct (p' <? (12 + 128 + 128 * 128) * 512) eqn:A';
      try reflexivity;
      [apply Z.ltb_lt in A; apply Z.ltb_ge in A'
      |apply Z.ltb_ge in A; apply Z.ltb_lt in A'];
      Z.to_euclidean_division_equations; lia. }
  rewrite Hq.
  destruct (p' <? 12 * 512) eqn:A1; [reflexivity|]. apply Z.ltb_ge in A1.
  assert ((p - 12 * 512) ÷ 512 = (p' - 12 * 512) ÷ 512) as ->.
  { Z.to_euclidean_division_equations; lia. }
  destruct (p' <? (12 + 128) * 512) eqn:A2; [reflexivity|]. apply Z.ltb_ge in A2.
  assert ((p - (12 + 128) * 512) ÷ 512 = (p' - (12 + 128) * 512) ÷ 512) as ->.
  { Z.to_euclidean_division_equations; lia. }
  reflexivity.
Qed.

(** The sector of a position, by the number of the sector in the file. *)
Lemma byte_to_sector_index (st : gmap Z (list Z)) (ino : inode) (p : Z) :
  0 <= p < inode_length st ino ->
  byte_to_sector st ino p =
    let d := inode_of_sector (block_cache_read st (sector ino)) in
    let n := p ÷ 512 in
    if n <? 12 then Some (entry (direct_pointer d) n)
    else if n <? 12 + 128 then
      Some (entry (pointer_block st (indirect_pointer d)) (n - 12))
    else if n <? 12 + 128 + 128 * 128 then
      Some (entry (pointer_block st
                     (entry (pointer_block st (doubly_indirect_pointer d))
                            ((n - (12 + 128)) ÷ 128)))
                  (Z.rem (n - (12 + 128)) 128))
    else None.
Proof.
  unfold inode_length, byte_to_sector, BLOCK_SECTOR_SIZE, pointer_block. intros Hp.
  cbv zeta. set (d := inode_of_sector _) in *.
  destruct (p <? length d) eqn:E; [|apply Z.ltb_ge in E; lia].
  destruct (p <? 12 * 512) eqn:A1;
    [apply Z.ltb_lt in A1 | apply Z.ltb_ge in A1].
  { destruct (p ÷ 512 <? 12) eqn:B1; [reflexivity|]. apply Z.ltb_ge in B1.
    exfalso. Z.to_euclidean_division_equations; lia. }
  destruct (p ÷ 512 <? 12) eqn:B1.
  { apply Z.ltb_lt in B1. exfalso. Z.to_euclidean_division_equations; lia. }
  assert ((p - 12 * 512) ÷ 512 = p ÷ 512 - 12) as ->.
  { Z.to_euclidean_division_equations; lia. }
  destruct (p <? (12 + 128) * 512) eqn:A2;
    [apply Z.ltb_lt in A2 | apply Z.ltb_ge in A2].
  { destruct (p ÷ 512 <? 12 + 128) eqn:B2; [reflexivity|]. apply Z.ltb_ge in B2.
    exfalso. Z.to_euclidean_division_equations; lia. }
  destruct (p ÷ 512 <? 12 + 128) eqn:B2.
  { apply Z.ltb_lt in B2. exfalso. Z.to_euclidean_division_equations; lia. }
  assert ((p - (12 + 128) * 512) ÷ 512 = p ÷ 512 - (12 + 128)) as ->.
  { Z.to_euclidean_division_equations; lia. }
  destruct (p <? (12 + 128 + 128 * 128) * 512) eqn:A3;
    [apply Z.ltb_lt in A3 | apply Z.ltb_ge in A3].
  { destruct (p ÷ 512 <? 12 + 128 + 128 * 128) eqn:B3; [reflexivity|].
    apply Z.ltb_ge in B3. exfalso. Z.to_euclidean_division_equations; lia. }
  destruct (p ÷ 512 <? 12 + 128 + 128 * 128) eqn:B3; [|reflexivity].
  apply Z.ltb_lt in B3. exfalso. Z.to_euclidean_division_equations; lia.
Qed.

(** The translation of a position reads the sector of the inode and the
    index blocks on the way: a state that agrees on those translates
    alike. *)
Lemma byte_to_sector_agree (st st' : gmap Z (list Z)) (ino : inode) (p : Z) :
  0 <= p < inode_length st ino ->
  (forall k, k ∈ sector ino
               :: index_to st (inode_of_sector (block_cache_read st (sector ino))) (p ÷ 512) ->
             block_cache_read st' k = block_cache_read st k) ->
  inode_length st' ino = inode_length st ino /\
  byte_to_sector st' ino p = byte_to_sector st ino p.
Proof.
  intros Hp Hag.
  assert (inode_length st' ino = inode_length st ino) as Hlen.
  { unfold inode_length. rewrite (Hag (sector ino)) by constructor. reflexivity. }
  split; [exact Hlen|].
  rewrite !byte_to_sector_index by (rewrite ?Hlen; exact Hp). cbv zeta.
  rewrite (Hag (sector ino)) by constructor.
  set (d := inode_of_sector _) in *. unfold index_to in Hag.
  destruct (p ÷ 512 <? 12) eqn:B1; [reflexivity|].
  destruct (p ÷ 512 <? 12 + 128) eqn:B2.
  { unfold pointer_block. rewrite (Hag (indirect_pointer d)) by (repeat constructor).
    reflexivity. }
  destruct (p ÷ 512 <? 12 + 128 + 128 * 128) eqn:B3; [|reflexivity].
  unfold pointer_block in *.
  rewrite (Hag (doubly_indirect_pointer d)) by (repeat constructor).
  rewrite (Hag (entry _ _)) by (repeat constructor). reflexivity.
Qed.

(** [chunk_of] inside the file. *)
Lemma chunk_of_inside (size offset len : Z) :
  0 <= offset -> 0 < size -> offset + size <= len ->
  chunk_of size offset len =
    (Z.rem offset 512, Z.min size (512 - Z.rem offset 512)) /\
  0 <= Z.rem offset 512 < 512.
Proof.
  intros Ho Hs Hl. unfold chunk_of, BLOCK_SECTOR_SIZE.
  assert (0 <= Z.rem offset 512 < 512) as Hrem
    by (Z.to_euclidean_division_equations; lia).
  split; [|exact Hrem]. f_equal.
  destruct (len - offset <? _) eqn:E1;
    [apply Z.ltb_lt in E1 | apply Z.ltb_ge in E1];
    destruct (size <? _) eqn:E2;
    [apply Z.ltb_lt in E2 | apply Z.ltb_ge in E2
    |apply Z.ltb_lt in E2 | apply Z.ltb_ge in E2]; lia.
Qed.

Lemma memcpy_into_length (dst src : list Z) (ofs len : Z) :
  0 <= ofs -> 0 <= len -> ofs + len <= Z.of_nat (List.length dst) ->
  (Z.to_nat len <= List.length src)%nat ->
  List.length (Cache.memcpy_into dst ofs src len) = List.length dst.
Proof.
  intros Ho Hl Hd Hs. unfold Cache.memcpy_into.
  rewrite !length_app, !length_take, length_drop. lia.
Qed.

(** The two branches of the copy loops copy the same bytes. *)
Lemma memcpy_into_sector (dst src : list Z) :
  List.length dst = 512%nat ->
  Cache.memcpy_into dst 0 src 512 = take 512 src.
Proof.
  intros Hd. unfold Cache.memcpy_into.
  change (Z.to_nat 0) with 0%nat. rewrite take_0. cbn [app].
  rewrite drop_ge by (rewrite Hd; lia). now rewrite app_nil_r.
Qed.

Lemma memcpy_from_sector (src : list Z) :
  List.length src = 512%nat -> Cache.memcpy_from src 0 512 = src.
Proof.
  intros Hs. unfold Cache.memcpy_from. change (Z.to_nat 0) with 0%nat.
  rewrite drop_0. apply take_ge. rewrite Hs. lia.
Qed.

End Translate.

Section Overwrite.
Import FreeMap Inode.

Variables (st0 : gmap Z (list Z)) (ino : inode).
Variable R : Z -> Prop.

(** The positions in [R] lie in the file, each has a sector, no such
    sector is the sector of the inode or an index block on the way to a
    position of [R], and two positions with the same sector lie in the
    same sector of the file. *)
Hypothesis Hin : forall p, R p -> 0 <= p < inode_length st0 ino.
Hypothesis Hdata : forall p, R p -> exists s, byte_to_sector st0 ino p = Some s.
Hypothesis Hsep : forall p p' s k,
  R p -> R p' -> byte_to_sector st0 ino p = Some s ->
  k ∈ sector ino :: index_to st0 (inode_of_sector (block_cache_read st0 (sector ino))) (p' ÷ 512) -> s <> k.
Hypothesis Hinj : forall p p' s,
  R p -> R p' -> byte_to_sector st0 ino p = Some s ->
  byte_to_sector st0 ino p' = Some s -> p ÷ 512 = p' ÷ 512.

Lemma write_loop_overwrite (buffer : list Z) (lo hi : Z) :
  0 <= lo -> hi - lo <= Z.of_nat (List.length buffer) ->
  (forall p, lo <= p < hi -> R p) ->
  forall (fuel : nat) (st : gmap Z (list Z)) (offset : Z),
    lo <= offset <= hi -> hi - offset <= Z.of_nat fuel ->
    whole_sectors st ->
    (forall p k, R p -> k ∈ sector ino :: index_to st0 (inode_of_sector (block_cache_read st0 (sector ino))) (p ÷ 512) ->
                 block_cache_read st k = block_cache_read st0 k) ->
    exists st',
      write_loop fuel st ino buffer (hi - offset) offset (offset - lo)
        = IoDone (hi - lo, st') /\
      whole_sectors st' /\
      (forall (s : Z) (i : nat),
         (forall p, offset <= p < hi -> byte_to_sector st0 ino p = Some s ->
                    Z.to_nat (Z.rem p 512) <> i) ->
         block_cache_read st' s !! i = block_cache_read st s !! i) /\
      (forall p, offset <= p < hi ->
         exists s, byte_to_sector st0 ino p = Some s /\
                   block_cache_read st' s !! Z.to_nat (Z.rem p 512)
                     = buffer !! Z.to_nat (p - lo)).
Proof.
  intros Hlo Hbuf HR.
  induction fuel as [|fuel IH]; intros st offset Hofs Hfuel Hw Hag.
  - cbn [write_loop]. destruct (hi - offset <=? 0) eqn:E; [|apply Z.leb_gt in E; lia].
    exists st. replace (offset - lo) with (hi - lo) by lia.
    split; [reflexivity|]. split; [exact Hw|]. split; [reflexivity|].
    intros p Hp. lia.
  - cbn [write_loop]. destruct (hi - offset <=? 0) eqn:E.
    { apply Z.leb_le in E. exists st. replace (offset - lo) with (hi - lo) by lia.
      split; [reflexivity|]. split; [exact Hw|]. split; [reflexivity|].
      intros p Hp. lia. }
    apply Z.leb_gt in E.
    assert (R offset) as HRo by (apply HR; lia).
    assert (R (hi - 1)) as HRh by (apply HR; lia).
    pose proof (Hin _ HRo) as Hino. pose proof (Hin _ HRh) as Hinh.
    destruct (byte_to_sector_agree st0 st ino offset Hino) as [Hlen Hsame].
    { intros k Hk. exact (Hag offset k HRo Hk). }
    destruct (Hdata _ HRo) as [idx Hidx].
    rewrite Hlen, Hsame, Hidx.
    destruct (chunk_of_inside (hi - offset) offset (inode_length st0 ino))
      as [-> Hrem]; [lia | lia | lia |].
    set (sofs := Z.rem offset 512) in *.
    set (chunk := Z.min (hi - offset) (512 - sofs)).
    assert (0 < chunk <= 512 - sofs) as Hchunk by (unfold chunk; lia).
    destruct (chunk <=? 0) eqn:Ec; [apply Z.leb_le in Ec; lia|]. clear Ec.
    set (src := drop (Z.to_nat (offset - lo)) buffer).
    assert (Z.of_nat (List.length src) >= hi - offset) as Hsrc.
    { unfold src. rewrite length_drop. lia. }
    pose proof (block_cache_read_length st idx Hw) as Hsec.
    set (new := Cache.memcpy_into (block_cache_read st idx) sofs src chunk).
    assert (List.length new = 512%nat) as Hnew.
    { unfold new. rewrite memcpy_into_length; [exact Hsec | lia | lia | lia | lia]. }
    (* both branches store [new] *)
    assert (exists st1,
              st1 = <[idx := new]> st /\
              (if (sofs =? 0) && (chunk =? BLOCK_SECTOR_SIZE)
               then write_loop fuel
                      (block_cache_write st idx (take (Z.to_nat BLOCK_SECTOR_SIZE) src))
                      ino buffer (hi - offset - chunk) (offset + chunk)
                      (offset - lo + chunk)
               else match block_cache_write_offset st idx src sofs chunk with
                    | Some st' =>
                        write_loop fuel st' ino buffer (hi - offset - chunk)
                                   (offset + chunk) (offset - lo + chunk)
                    | None => AssertFailed
                    end)
              = write_loop fuel st1 ino buffer (hi - (offset + chunk)) (offset + chunk)
                           (offset + chunk - lo)) as (st1 & Hst1 & ->).
    { exists (<[idx := new]> st). split; [reflexivity|].
      replace (hi - offset - chunk) with (hi - (offset + chunk)) by lia.
      replace (offset - lo + chunk) with (offset + chunk - lo) by lia.
      destruct ((sofs =? 0) && (chunk =? BLOCK_SECTOR_SIZE)) eqn:Ef.
      - apply andb_true_iff in Ef as [E1 E2].
        apply Z.eqb_eq in E1. apply Z.eqb_eq in E2. unfold BLOCK_SECTOR_SIZE in E2.
        unfold block_cache_write, new. rewrite E1, E2.
        rewrite (memcpy_into_sector _ src Hsec). reflexivity.
      - unfold block_cache_write_offset, BLOCK_SECTOR_SIZE.
        destruct (chunk + sofs <=? 512) eqn:Ea; [|apply Z.leb_gt in Ea; lia].
        reflexivity. }
    assert (whole_sectors st1) as Hw1.
    { subst st1. intros k v Hk. destruct (decide (k = idx)) as [->|Hne].
      - rewrite lookup_insert_eq in Hk. injection Hk as <-. exact Hnew.
      - rewrite lookup_insert_ne in Hk by congruence. exact (Hw k v Hk). }
    assert (forall k, k <> idx -> block_cache_read st1 k = block_cache_read st k) as Hother.
    { intros k Hk. subst st1. unfold block_cache_read.
      now rewrite lookup_insert_ne by congruence. }
    assert (block_cache_read st1 idx = new) as Hidx1.
    { subst st1. unfold block_cache_read. now rewrite lookup_insert_eq. }
    assert (forall p, offset <= p < offset + chunk ->
                      byte_to_sector st0 ino p = Some idx /\
                      Z.rem p 512 = sofs + (p - offset)) as Hfirst.
    { intros p Hp.
      assert (p ÷ 512 = offset ÷ 512 /\ Z.rem p 512 = sofs + (p - offset)) as [Hq Hr].
      { unfold sofs in *. Z.to_euclidean_division_equations; lia. }
      split; [|exact Hr]. rewrite <- Hidx.
      apply byte_to_sector_same; [apply Hin, HR; lia | exact Hino | exact Hq]. }
    destruct (IH st1 (offset + chunk)) as (st' & Hrun & Hw' & Hframe & Hwritten);
      [lia | lia | exact Hw1 | |].
    { intros p k HRp Hk. rewrite Hother; [exact (Hag p k HRp Hk)|].
      intros ->. exact (Hsep offset p idx idx HRo HRp Hidx Hk eq_refl). }
    exists st'. split; [exact Hrun|]. split; [exact Hw'|]. split.
    + intros s i Hno. rewrite Hframe by (intros p Hp; apply Hno; lia).
      destruct (decide (s = idx)) as [->|Hne]; [|now rewrite Hother].
      rewrite Hidx1. unfold new. apply memcpy_into_outside; [lia | lia | lia | lia |].
      destruct (decide (Z.of_nat i < sofs)) as [?|Hge]; [now left|]. right.
      destruct (decide (sofs + chunk <= Z.of_nat i)) as [?|Hlt]; [assumption|].
      exfalso. destruct (Hfirst (offset + (Z.of_nat i - sofs)) ltac:(lia)) as [Hs Hr].
      apply (Hno (offset + (Z.of_nat i - sofs))); [lia | exact Hs |].
      rewrite Hr. lia.
    + intros p Hp. destruct (decide (p < offset + chunk)) as [Hlt|Hge].
      * destruct (Hfirst p ltac:(lia)) as [Hs Hr]. exists idx. split; [exact Hs|].
        rewrite Hframe.
        -- rewrite Hidx1. unfold new.
           rewrite memcpy_into_inside; [| lia | lia | lia | lia | lia].
           unfold src. rewrite lookup_drop. f_equal. lia.
        -- intros p' Hp' Hs' Heq.
           assert (p ÷ 512 = p' ÷ 512) as Hq.
           { apply (Hinj p p' idx); [apply HR; lia | apply HR; lia | exact Hs | exact Hs']. }
           assert (0 <= p /\ 0 <= p') as [? ?] by lia.
           assert (0 <= Z.rem p 512 /\ 0 <= Z.rem p' 512) as [? ?]
             by (Z.to_euclidean_division_equations; lia).
           assert (Z.rem p 512 = Z.rem p' 512) as Hr' by lia.
           Z.to_euclidean_division_equations; lia.
      * apply Hwritten. lia.
Qed.

End Overwrite.

Section ReadBack.
Import FreeMap Inode.

(** [inode_read_at] copies the bytes of the sectors that
    [byte_to_sector] names, in the order of the positions. *)
Lemma read_loop_content (st : gmap Z (list Z)) (ino : inode) (content : list Z)
    (lo hi : Z) :
  whole_sectors st -> 0 <= lo -> hi <= inode_length st ino ->
  hi - lo <= Z.of_nat (List.length content) ->
  (forall p, lo <= p < hi ->
     exists s, byte_to_sector st ino p = Some s /\
               block_cache_read st s !! Z.to_nat (Z.rem p 512)
                 = content !! Z.to_nat (p - lo)) ->
  forall (fuel : nat) (offset bytes_read : Z) (buffer : list Z),
    lo <= offset <= hi -> hi - offset <= Z.of_nat fuel ->
    read_loop fuel st ino (hi - offset) offset bytes_read buffer =
      IoDone (bytes_read + (hi - offset),
              buffer ++ take (Z.to_nat (hi - offset))
                             (drop (Z.to_nat (offset - lo)) content)).
Proof.
  intros Hw Hlo Hhi Hcont Hbytes.
  induction fuel as [|fuel IH]; intros offset bytes_read buffer Hofs Hfuel.
  - cbn [read_loop]. destruct (hi - offset <=? 0) eqn:E; [|apply Z.leb_gt in E; lia].
    replace (hi - offset) with 0 by lia. change (Z.to_nat 0) with 0%nat.
    now rewrite take_0, app_nil_r, Z.add_0_r.
  - cbn [read_loop]. destruct (hi - offset <=? 0) eqn:E.
    { apply Z.leb_le in E. replace (hi - offset) with 0 by lia.
      change (Z.to_nat 0) with 0%nat. now rewrite take_0, app_nil_r, Z.add_0_r. }
    apply Z.leb_gt in E.
    destruct (Hbytes offset ltac:(lia)) as (idx & Hidx & _). rewrite Hidx.
    destruct (chunk_of_inside (hi - offset) offset (inode_length st ino))
      as [-> Hrem]; [lia | lia | lia |].
    set (sofs := Z.rem offset 512) in *.
    set (chunk := Z.min (hi - offset) (512 - sofs)).
    assert (0 < chunk <= 512 - sofs) as Hchunk by (unfold chunk; lia).
    destruct (chunk <=? 0) eqn:Ec; [apply Z.leb_le in Ec; lia|]. clear Ec.
    pose proof (block_cache_read_length st idx Hw) as Hsec.
    set (rest := drop (Z.to_nat (offset - lo)) content).
    assert (Cache.memcpy_from (block_cache_read st idx) sofs chunk
            = take (Z.to_nat chunk) rest) as Hcopy.
    { unfold Cache.memcpy_from. apply list_eq. intros i.
      destruct (decide (i < Z.to_nat chunk)%nat) as [Hi|Hi].
      - rewrite !lookup_take_lt by lia. unfold rest. rewrite !lookup_drop.
        destruct (Hbytes (offset + Z.of_nat i) ltac:(lia)) as (s & Hs & Hb).
        assert ((offset + Z.of_nat i) ÷ 512 = offset ÷ 512 /\
                Z.rem (offset + Z.of_nat i) 512 = sofs + Z.of_nat i) as [Hq Hr].
        { unfold sofs in *. Z.to_euclidean_division_equations; lia. }
        rewrite (byte_to_sector_same st ino _ offset) in Hs by (lia || exact Hq).
        rewrite Hidx in Hs. injection Hs as <-.
        rewrite Hr in Hb.
        replace (Z.to_nat sofs + i)%nat with (Z.to_nat (sofs + Z.of_nat i)) by lia.
        rewrite Hb. f_equal. lia.
      - rewrite !lookup_take_ge by lia. reflexivity. }
    assert ((if (sofs =? 0) && (chunk =? BLOCK_SECTOR_SIZE)
               then read_loop fuel st ino (hi - offset - chunk) (offset + chunk)
                              (bytes_read + chunk) (buffer ++ block_cache_read st idx)
               else match block_cache_read_offset st idx sofs chunk with
                    | Some bytes =>
                        read_loop fuel st ino (hi - offset - chunk) (offset + chunk)
                                  (bytes_read + chunk) (buffer ++ bytes)
                    | None => AssertFailed
                    end)
              = read_loop fuel st ino (hi - (offset + chunk)) (offset + chunk)
                          (bytes_read + chunk)
                          (buffer ++ take (Z.to_nat chunk) rest)) as ->.
    { replace (hi - offset - chunk) with (hi - (offset + chunk)) by lia.
      destruct ((sofs =? 0) && (chunk =? BLOCK_SECTOR_SIZE)) eqn:Ef.
      - apply andb_true_iff in Ef as [E1 E2].
        apply Z.eqb_eq in E1. apply Z.eqb_eq in E2. unfold BLOCK_SECTOR_SIZE in E2.
        rewrite <- Hcopy, E1, E2, (memcpy_from_sector _ Hsec). reflexivity.
      - unfold block_cache_read_offset, BLOCK_SECTOR_SIZE.
        destruct (chunk + sofs <=? 512) eqn:Ea; [|apply Z.leb_gt in Ea; lia].
        now rewrite Hcopy. }
    rewrite IH by lia. f_equal. f_equal; [lia|].
    rewrite <- app_assoc. f_equal.
    replace (Z.to_nat (offset + chunk - lo))
      with (Z.to_nat (offset - lo) + Z.to_nat chunk)%nat by lia.
    rewrite <- drop_drop. fold rest.
    replace (Z.to_nat (hi - offset))
      with (Z.to_nat chunk + Z.to_nat (hi - (offset + chunk)))%nat by lia.
    now rewrite take_take_drop.
Qed.

End ReadBack.

Section TreeSeparates.
Import FreeMap Inode.

Lemma NoDup_filter_lookup {A : Type} (P : A -> Prop) `{forall x, Decision (P x)}
    (l : list A) (i j : nat) (x : A) :
  NoDup (filter P l) -> l !! i = Some x -> l !! j = Some x -> P x -> i = j.
Proof.
  revert i j. induction l as [|y l IH]; intros i j Hnd Hi Hj Hx; [discriminate|].
  assert (NoDup (filter P l)) as Hnd'.
  { destruct (decide (P y)) as [Hy|Hy].
    - rewrite filter_cons_True in Hnd by exact Hy. now apply NoDup_cons in Hnd.
    - now rewrite filter_cons_False in Hnd by exact Hy. }
  assert (forall k, l !! k = Some y -> P y -> False) as Hfresh.
  { intros k Hk Hy. rewrite filter_cons_True in Hnd by exact Hy.
    apply NoDup_cons in Hnd as [Hnot _]. apply Hnot.
    apply list_elem_of_filter. split; [exact Hy|].
    apply list_elem_of_lookup. eauto. }
  destruct i as [|i], j as [|j]; cbn in Hi, Hj.
  - reflexivity.
  - injection Hi as ->. exfalso. eauto.
  - injection Hj as ->. exfalso. eauto.
  - f_equal. eauto.
Qed.

Lemma NoDup_flat_map_part {A B : Type} (f : A -> list B) (l : list A) (x : A) :
  NoDup (flat_map f l) -> x ∈ l -> NoDup (f x).
Proof.
  induction l as [|y l IH]; intros Hnd Hx; [inversion Hx|].
  cbn [flat_map] in Hnd. apply NoDup_app in Hnd as (Hy & _ & Hl).
  apply elem_of_cons in Hx as [->|Hx]; auto.
Qed.

Lemma NoDup_flat_map_apart {A B : Type} (f : A -> list B) (l : list A)
    (i j : nat) (x y : A) (z : B) :
  NoDup (flat_map f l) -> l !! i = Some x -> l !! j = Some y -> i <> j ->
  z ∈ f x -> z ∈ f y -> False.
Proof.
  revert i j. induction l as [|w l IH]; intros i j Hnd Hi Hj Hij Hx Hy; [discriminate|].
  cbn [flat_map] in Hnd. apply NoDup_app in Hnd as (_ & Hdis & Hl).
  assert (forall k v, l !! k = Some v -> z ∈ f v -> z ∈ flat_map f l) as Hin.
  { intros k v Hk Hv. apply list_elem_of_In, in_flat_map. exists v.
    split; apply list_elem_of_In; [|exact Hv]. apply list_elem_of_lookup. eauto. }
  destruct i as [|i], j as [|j]; cbn in Hi, Hj.
  - congruence.
  - injection Hi as ->. exact (Hdis z Hx (Hin _ _ Hj Hy)).
  - injection Hj as ->. exact (Hdis z Hy (Hin _ _ Hi Hx)).
  - apply (IH i j); auto.
Qed.

Lemma slots_of_at (n : nat) (a : list Z) (i : Z) :
  0 <= i < Z.of_nat n -> slots_of n a !! Z.to_nat i = Some (entry a i).
Proof.
  intros Hi. unfold slots_of. rewrite list_lookup_fmap, lookup_seq_lt by lia.
  cbn. now rewrite Z2Nat.id by lia.
Qed.

Lemma allocated_at (n : nat) (a : list Z) (i : Z) :
  0 <= i < Z.of_nat n -> entry a i <> 0 -> entry a i ∈ allocated (slots_of n a).
Proof.
  intros Hi Hne. unfold allocated. apply list_elem_of_filter. split; [exact Hne|].
  apply list_elem_of_lookup. exists (Z.to_nat i). now apply slots_of_at.
Qed.

Lemma allocated_once (n : nat) (a : list Z) (i j : Z) :
  NoDup (allocated (slots_of n a)) ->
  0 <= i < Z.of_nat n -> 0 <= j < Z.of_nat n ->
  entry a i <> 0 -> entry a i = entry a j -> i = j.
Proof.
  intros Hnd Hi Hj Hne Heq.
  assert (Z.to_nat i = Z.to_nat j); [|lia].
  apply (NoDup_filter_lookup (fun s : Z => s <> 0) (slots_of n a) _ _ (entry a i));
    [exact Hnd | now apply slots_of_at | rewrite Heq; now apply slots_of_at | exact Hne].
Qed.

(** Where the sector of an allocated position is stored. *)
Lemma data_place (st : gmap Z (list Z)) (ino : inode) (p s : Z) :
  0 <= p < inode_length st ino ->
  allocated_sector st ino (p ÷ 512) ->
  byte_to_sector st ino p = Some s ->
  let d := inode_of_sector (block_cache_read st (sector ino)) in
  let n := p ÷ 512 in
  let q := entry (pointer_block st (doubly_indirect_pointer d)) ((n - (12 + 128)) ÷ 128) in
  s <> 0 /\
  ((0 <= n < 12 /\ s = entry (direct_pointer d) n) \/
   (12 <= n < 12 + 128 /\ indirect_pointer d <> 0 /\
    s = entry (pointer_block st (indirect_pointer d)) (n - 12)) \/
   (12 + 128 <= n /\ 0 <= (n - (12 + 128)) ÷ 128 < 128 /\
    doubly_indirect_pointer d <> 0 /\ q <> 0 /\
    s = entry (pointer_block st q) (Z.rem (n - (12 + 128)) 128))).
Proof.
  intros Hp (Hidx & s' & Hs' & Hne) Hs. cbv zeta.
  assert (0 <= p ÷ 512 /\ 0 <= p ÷ 512 * 512 <= p /\ (p ÷ 512 * 512) ÷ 512 = p ÷ 512)
    as (Hn & Hfirst & Hq) by (Z.to_euclidean_division_equations; lia).
  unfold BLOCK_SECTOR_SIZE in Hs'.
  rewrite (byte_to_sector_same st ino _ p) in Hs' by (lia || exact Hq).
  assert (s' = s) as -> by congruence. split; [exact Hne|].
  rewrite byte_to_sector_index in Hs by exact Hp. cbv zeta in Hs.
  unfold index_to in Hidx.
  destruct (p ÷ 512 <? 12) eqn:B1.
  { apply Z.ltb_lt in B1. left. split; [lia | congruence]. }
  apply Z.ltb_ge in B1. destruct (p ÷ 512 <? 12 + 128) eqn:B2.
  { apply Z.ltb_lt in B2. right. left. split; [lia|].
    apply Forall_cons in Hidx as [Hi _]. split; [exact Hi | congruence]. }
  apply Z.ltb_ge in B2. destruct (p ÷ 512 <? 12 + 128 + 128 * 128) eqn:B3; [|discriminate].
  apply Z.ltb_lt in B3. right. right.
  apply Forall_cons in Hidx as [Hd Hidx]. apply Forall_cons in Hidx as [Hq' _].
  split; [lia|]. split; [Z.to_euclidean_division_equations; lia|].
  split; [exact Hd|]. split; [exact Hq'|]. congruence.
Qed.

Lemma NoDup_snoc_ne {A : Type} (l : list A) (x y : A) :
  NoDup (l ++ [x]) -> y ∈ l -> y <> x.
Proof.
  intros Hnd Hy ->. apply NoDup_app in Hnd as (_ & Hdis & _).
  apply (Hdis x Hy). constructor.
Qed.

(** In a well-formed tree the sectors of allocated positions are data
    sectors: none is the sector of the inode or an index block, and
    different sectors of the file have different sectors of the device. *)
Lemma tree_separates (fm : list bool) (st : gmap Z (list Z)) (ino : inode)
    (R : Z -> Prop) :
  tree_ok fm st (sector ino) (inode_of_sector (block_cache_read st (sector ino))) ->
  (forall p, R p -> 0 <= p < inode_length st ino /\ allocated_sector st ino (p ÷ 512)) ->
  (forall p, R p -> exists s, byte_to_sector st ino p = Some s) /\
  (forall p p' s k,
     R p -> R p' -> byte_to_sector st ino p = Some s ->
     k ∈ sector ino
       :: index_to st (inode_of_sector (block_cache_read st (sector ino))) (p' ÷ 512) ->
     s <> k) /\
  (forall p p' s,
     R p -> R p' -> byte_to_sector st ino p = Some s ->
     byte_to_sector st ino p' = Some s -> p ÷ 512 = p' ÷ 512).
Proof.
  intros (_ & _ & Hnd & _) HR.
  set (d := inode_of_sector (block_cache_read st (sector ino))) in *.
  unfold extent_sectors in Hnd.
  set (A := allocated (slots_of 12 (direct_pointer d))) in *.
  set (B := indirect_sectors st (indirect_pointer d)) in *.
  set (C := doubly_sectors st (doubly_indirect_pointer d)) in *.
  set (FM := flat_map (indirect_sectors st)
                      (slots_of 128 (pointer_block st (doubly_indirect_pointer d)))).
  apply NoDup_cons in Hnd as [Hsec Hnd].
  apply NoDup_app in Hnd as (HnA & HAx & Hnd).
  apply NoDup_app in Hnd as (HnB & HBC & HnC).
  assert (forall x, x ∈ A -> x ∈ B -> False) as HAB.
  { intros x Ha Hb. apply (HAx x Ha). apply elem_of_app. now left. }
  assert (forall x, x ∈ A -> x ∈ C -> False) as HAC.
  { intros x Ha Hc. apply (HAx x Ha). apply elem_of_app. now right. }
  assert (forall x, x ∈ A ++ B ++ C -> x <> sector ino) as HE.
  { intros x Hx ->. exact (Hsec Hx). }
  assert (indirect_pointer d <> 0 ->
          B = allocated (slots_of 128 (pointer_block st (indirect_pointer d)))
                ++ [indirect_pointer d]) as HB.
  { intros Hne. unfold B, indirect_sectors.
    destruct (indirect_pointer d =? 0) eqn:E; [apply Z.eqb_eq in E; lia | reflexivity]. }
  assert (doubly_indirect_pointer d <> 0 -> C = FM ++ [doubly_indirect_pointer d]) as HC.
  { intros Hne. unfold C, doubly_sectors.
    destruct (doubly_indirect_pointer d =? 0) eqn:E; [apply Z.eqb_eq in E; lia | reflexivity]. }
  assert (forall q, q <> 0 ->
            indirect_sectors st q = allocated (slots_of 128 (pointer_block st q)) ++ [q])
    as HQ.
  { intros q Hne. unfold indirect_sectors.
    destruct (q =? 0) eqn:E; [apply Z.eqb_eq in E; lia | reflexivity]. }
  assert (forall a z, 0 <= a < 128 ->
            z ∈ indirect_sectors st
                  (entry (pointer_block st (doubly_indirect_pointer d)) a) ->
            z ∈ FM) as HFM.
  { intros a z Ha Hz. apply list_elem_of_In, in_flat_map.
    exists (entry (pointer_block st (doubly_indirect_pointer d)) a).
    split; apply list_elem_of_In; [|exact Hz].
    apply list_elem_of_lookup. exists (Z.to_nat a). apply slots_of_at. lia. }
  (* where a data sector lies in the lists *)
  assert (forall p s, R p -> byte_to_sector st ino p = Some s ->
            (0 <= p ÷ 512 < 12 /\ s = entry (direct_pointer d) (p ÷ 512) /\ s <> 0 /\
             s ∈ A) \/
            (12 <= p ÷ 512 < 12 + 128 /\ indirect_pointer d <> 0 /\ s <> 0 /\
             s = entry (pointer_block st (indirect_pointer d)) (p ÷ 512 - 12) /\
             s ∈ allocated (slots_of 128 (pointer_block st (indirect_pointer d))) /\
             s ∈ B) \/
            (12 + 128 <= p ÷ 512 /\ 0 <= (p ÷ 512 - (12 + 128)) ÷ 128 < 128 /\
             doubly_indirect_pointer d <> 0 /\ s <> 0 /\
             entry (pointer_block st (doubly_indirect_pointer d))
                   ((p ÷ 512 - (12 + 128)) ÷ 128) <> 0 /\
             s = entry (pointer_block st
                          (entry (pointer_block st (doubly_indirect_pointer d))
                                 ((p ÷ 512 - (12 + 128)) ÷ 128)))
                       (Z.rem (p ÷ 512 - (12 + 128)) 128) /\
             s ∈ allocated
                   (slots_of 128
                      (pointer_block st
                         (entry (pointer_block st (doubly_indirect_pointer d))
                                ((p ÷ 512 - (12 + 128)) ÷ 128)))) /\
             s ∈ FM /\ s ∈ C)) as Hplace.
  { intros p s HRp Hs. destruct (HR p HRp) as [Hp Hal].
    destruct (data_place st ino p s Hp Hal Hs) as (Hne & Hcase). fold d in Hcase.
    destruct Hcase as [(Hn & Heq)|[(Hn & Hi & Heq)|(Hn & Ha & Hd & Hq & Heq)]].
    - left. repeat split; try assumption; try lia.
      rewrite Heq. apply allocated_at; [lia | now rewrite <- Heq].
    - right. left.
      assert (s ∈ allocated (slots_of 128 (pointer_block st (indirect_pointer d)))) as Hin.
      { rewrite Heq. apply allocated_at; [lia | now rewrite <- Heq]. }
      repeat split; try assumption; try lia.
      rewrite (HB Hi). apply elem_of_app. now left.
    - right. right.
      assert (s ∈ allocated
                (slots_of 128
                   (pointer_block st
                      (entry (pointer_block st (doubly_indirect_pointer d))
                             ((p ÷ 512 - (12 + 128)) ÷ 128))))) as Hin.
      { rewrite Heq. apply allocated_at; [|now rewrite <- Heq].
        Z.to_euclidean_division_equations; lia. }
      assert (s ∈ FM) as Hfm.
      { apply (HFM ((p ÷ 512 - (12 + 128)) ÷ 128)); [lia|].
        rewrite (HQ _ Hq). apply elem_of_app. now left. }
      repeat split; try assumption; try lia.
      rewrite (HC Hd). apply elem_of_app. now left. }
  assert (forall x, x ∈ FM -> doubly_indirect_pointer d <> 0 -> x ∈ C) as HFC.
  { intros x Hx Hd. rewrite (HC Hd). apply elem_of_app. now left. }
  split; [|split].
  - intros p HRp. destruct (HR p HRp) as [Hp (_ & s & Hs & _)].
    exists s. rewrite <- Hs. unfold BLOCK_SECTOR_SIZE.
    apply byte_to_sector_same; [exact Hp | | ];
      Z.to_euclidean_division_equations; lia.
  - intros p p' s k HRp HRp' Hs Hk.
    destruct (HR p' HRp') as [Hp' (Hidx' & _)]. fold d in Hidx'.
    apply elem_of_cons in Hk as [->|Hk].
    { apply HE.
      destruct (Hplace p s HRp Hs) as
        [(_ & _ & _ & Hin)|[(_ & _ & _ & _ & _ & Hin)|(_ & _ & _ & _ & _ & _ & _ & _ & Hin)]];
        rewrite !elem_of_app; auto. }
    unfold index_to in Hk, Hidx'.
    destruct (p' ÷ 512 <? 12) eqn:B1; [inversion Hk|].
    destruct (p' ÷ 512 <? 12 + 128) eqn:B2.
    { apply list_elem_of_singleton in Hk as ->.
      apply Forall_cons in Hidx' as [Hi _].
      assert (indirect_pointer d ∈ B) as HiB.
      { rewrite (HB Hi). apply elem_of_app. right. constructor. }
      destruct (Hplace p s HRp Hs) as
        [(_ & _ & _ & Hin)|[(_ & _ & _ & _ & Hin & _)|(_ & _ & _ & _ & _ & _ & _ & _ & Hin)]].
      - intros ->. exact (HAB _ Hin HiB).
      - apply (NoDup_snoc_ne _ _ _ ltac:(rewrite <- (HB Hi); exact HnB) Hin).
      - intros ->. exact (HBC _ HiB Hin). }
    apply Forall_cons in Hidx' as [Hd Hidx']. apply Forall_cons in Hidx' as [Hq' _].
    assert (0 <= (p' ÷ 512 - (12 + 128)) ÷ 128 < 128) as Ha'.
    { destruct (HR p' HRp') as [_ (_ & s' & Hs' & _)].
      unfold BLOCK_SECTOR_SIZE in Hs'.
      rewrite (byte_to_sector_same st ino _ p') in Hs'
        by (try exact Hp'; Z.to_euclidean_division_equations; lia).
      destruct (Hplace p' s' HRp' Hs') as [(Hn & _)|[(Hn & _)|(_ & Ha & _)]];
        [apply Z.ltb_ge in B1; lia | apply Z.ltb_ge in B2; lia | exact Ha]. }
    assert (doubly_indirect_pointer d ∈ C) as HdC.
    { rewrite (HC Hd). apply elem_of_app. right. constructor. }
    assert (entry (pointer_block st (doubly_indirect_pointer d))
                  ((p' ÷ 512 - (12 + 128)) ÷ 128)
            ∈ indirect_sectors st
                (entry (pointer_block st (doubly_indirect_pointer d))
                       ((p' ÷ 512 - (12 + 128)) ÷ 128))) as Hqq.
    { rewrite (HQ _ Hq'). apply elem_of_app. right. constructor. }
    pose proof (HFM _ _ Ha' Hqq) as HqF.
    apply elem_of_cons in Hk as [->|Hk].
    { destruct (Hplace p s HRp Hs) as
        [(_ & _ & _ & Hin)|[(_ & _ & _ & _ & _ & Hin)|(_ & _ & _ & _ & _ & _ & _ & Hin & _)]].
      - intros ->. exact (HAC _ Hin HdC).
      - intros ->. exact (HBC _ Hin HdC).
      - apply (NoDup_snoc_ne _ _ _ ltac:(rewrite <- (HC Hd); exact HnC) Hin). }
    apply list_elem_of_singleton in Hk as ->.
    destruct (Hplace p s HRp Hs) as
      [(_ & _ & _ & Hin)|[(_ & _ & _ & _ & _ & Hin)
                         |(_ & Ha & _ & _ & Hq & _ & Hin & _ & _)]].
    + intros ->. exact (HAC _ Hin (HFC _ HqF Hd)).
    + intros ->. exact (HBC _ Hin (HFC _ HqF Hd)).
    + assert (NoDup FM) as HnF.
      { rewrite (HC Hd) in HnC. now apply NoDup_app in HnC. }
      destruct (decide ((p ÷ 512 - (12 + 128)) ÷ 128 = (p' ÷ 512 - (12 + 128)) ÷ 128))
        as [Heq|Hneq].
      * rewrite <- Heq.
        apply (NoDup_snoc_ne _ _ _
                 ltac:(rewrite <- (HQ _ Hq);
                       apply (NoDup_flat_map_part _ _ _ HnF);
                       apply list_elem_of_lookup;
                       exists (Z.to_nat ((p ÷ 512 - (12 + 128)) ÷ 128));
                       apply slots_of_at; lia) Hin).
      * intros ->.
        eapply (NoDup_flat_map_apart (indirect_sectors st) _
                 (Z.to_nat ((p ÷ 512 - (12 + 128)) ÷ 128))
                 (Z.to_nat ((p' ÷ 512 - (12 + 128)) ÷ 128)) _ _
                 (entry (pointer_block st (doubly_indirect_pointer d))
                        ((p' ÷ 512 - (12 + 128)) ÷ 128)) HnF);
          [apply slots_of_at; lia | apply slots_of_at; lia | lia | | exact Hqq].
        rewrite (HQ _ Hq). apply elem_of_app. now left.
  - assert (forall p p' s, R p -> R p' -> byte_to_sector st ino p = Some s ->
              byte_to_sector st ino p' = Some s -> p ÷ 512 <= p' ÷ 512 ->
              p ÷ 512 = p' ÷ 512) as Hle.
    { intros p p' s HRp HRp' Hs Hs' Hord.
      destruct (Hplace p s HRp Hs) as
        [(Hn & Heq & Hne & Hin)|[(Hn & Hi & Hne & Heq & Hin & HinB)
                          |(Hn & Ha & Hd & Hne & Hq & Heq & Hin & HinF & HinC)]];
        destruct (Hplace p' s HRp' Hs') as
          [(Hn' & Heq' & _ & Hin')|[(Hn' & _ & _ & Heq' & Hin' & HinB')
                              |(Hn' & Ha' & _ & _ & Hq' & Heq' & Hin' & HinF' & HinC')]];
        try lia.
      - apply (allocated_once 12 (direct_pointer d)); try lia; try exact HnA; congruence.
      - exfalso. exact (HAB _ Hin HinB').
      - exfalso. exact (HAC _ Hin HinC').
      - assert (p ÷ 512 - 12 = p' ÷ 512 - 12); [|lia].
        apply (allocated_once 128 (pointer_block st (indirect_pointer d)));
          try lia; try congruence.
        rewrite (HB Hi) in HnB. now apply NoDup_app in HnB.
      - exfalso. exact (HBC _ HinB HinC').
      - assert (NoDup FM) as HnF.
        { rewrite (HC Hd) in HnC. now apply NoDup_app in HnC. }
        destruct (decide ((p ÷ 512 - (12 + 128)) ÷ 128 = (p' ÷ 512 - (12 + 128)) ÷ 128))
          as [Ea|Ea].
        + assert (Z.rem (p ÷ 512 - (12 + 128)) 128 = Z.rem (p' ÷ 512 - (12 + 128)) 128)
            as Eb.
          { apply (allocated_once 128
                     (pointer_block st
                        (entry (pointer_block st (doubly_indirect_pointer d))
                               ((p ÷ 512 - (12 + 128)) ÷ 128)))).
            - assert (NoDup (indirect_sectors st
                               (entry (pointer_block st (doubly_indirect_pointer d))
                                      ((p ÷ 512 - (12 + 128)) ÷ 128)))) as Hn1.
              { apply (NoDup_flat_map_part _ _ _ HnF). apply list_elem_of_lookup.
                exists (Z.to_nat ((p ÷ 512 - (12 + 128)) ÷ 128)).
                apply slots_of_at. lia. }
              rewrite (HQ _ Hq) in Hn1. now apply NoDup_app in Hn1.
            - Z.to_euclidean_division_equations; lia.
            - Z.to_euclidean_division_equations; lia.
            - congruence.
            - rewrite <- Heq. rewrite Ea. exact Heq'. }
          Z.to_euclidean_division_equations; lia.
        + exfalso.
          eapply (NoDup_flat_map_apart (indirect_sectors st) _
                   (Z.to_nat ((p ÷ 512 - (12 + 128)) ÷ 128))
                   (Z.to_nat ((p' ÷ 512 - (12 + 128)) ÷ 128)) _ _ s HnF);
            [apply slots_of_at; lia | apply slots_of_at; lia | lia | |].
          * rewrite (HQ _ Hq). apply elem_of_app. now left.
          * rewrite (HQ _ Hq'). apply elem_of_app. now left. }
    intros p p' s HRp HRp' Hs Hs'.
    destruct (Z.le_ge_cases (p ÷ 512) (p' ÷ 512)) as [Hord|Hord].
    + exact (Hle p p' s HRp HRp' Hs Hs' Hord).
    + symmetry. exact (Hle p' p s HRp' HRp Hs' Hs Hord).
Qed.

End TreeSeparates.

Section WriteRead.
Import FreeMap Inode.

(** A write inside the file, on a well-formed tree whose sectors for the
    positions in [R] are allocated: what it stores, and what it leaves. *)
Lemma inode_write_at_inside (fuel : nat) (dk : disk) (ino : inode) (buffer : list Z)
    (size offset : Z) (R : Z -> Prop) :
  deny_write_cnt ino = 0 ->
  tree_ok (free_map dk) (sectors dk) (sector ino)
          (inode_of_sector (block_cache_read (sectors dk) (sector ino))) ->
  whole_sectors (sectors dk) ->
  0 <= offset -> 0 < size -> offset + size <= inode_length (sectors dk) ino ->
  size <= Z.of_nat (List.length buffer) ->
  (forall p, R p -> 0 <= p < inode_length (sectors dk) ino /\
                    allocated_sector (sectors dk) ino (p ÷ 512)) ->
  (forall p, offset <= p < offset + size -> R p) ->
  exists st',
    inode_write_at fuel dk ino buffer size offset
      = IoDone (size, mk_disk (free_map dk) st') /\
    whole_sectors st' /\
    inode_length st' ino = inode_length (sectors dk) ino /\
    (forall p, R p -> byte_to_sector st' ino p = byte_to_sector (sectors dk) ino p) /\
    (forall p s, R p -> (p < offset \/ offset + size <= p) ->
       byte_to_sector (sectors dk) ino p = Some s ->
       block_cache_read st' s !! Z.to_nat (Z.rem p 512)
         = block_cache_read (sectors dk) s !! Z.to_nat (Z.rem p 512)) /\
    (forall p, offset <= p < offset + size ->
       exists s, byte_to_sector (sectors dk) ino p = Some s /\
                 block_cache_read st' s !! Z.to_nat (Z.rem p 512)
                   = buffer !! Z.to_nat (p - offset)).
Proof.
  intros Hdeny Htree Hw Hofs Hsize Hlen Hbuf HR Hrange.
  destruct (tree_separates _ _ _ R Htree HR) as (Hdata & Hsep & Hinj).
  destruct (write_loop_overwrite (sectors dk) ino R (fun p Hp => proj1 (HR p Hp))
              Hdata Hsep Hinj buffer offset (offset + size) Hofs ltac:(lia) Hrange
              (Z.to_nat size) (sectors dk) offset ltac:(lia) ltac:(lia) Hw
              ltac:(reflexivity))
    as (st' & Hrun & Hw' & Hframe & Hwritten).
  replace (offset + size - offset) with size in Hrun by lia.
  replace (offset - offset) with 0 in Hrun by lia.
  exists st'.
  assert (forall p k,
            R p ->
            k ∈ sector ino
              :: index_to (sectors dk)
                   (inode_of_sector (block_cache_read (sectors dk) (sector ino)))
                   (p ÷ 512) ->
            block_cache_read st' k = block_cache_read (sectors dk) k) as Hag.
  { intros p k HRp Hk. apply list_eq. intros i. apply Hframe.
    intros p' Hp' Hs' _. exact (Hsep p' p k k (Hrange p' Hp') HRp Hs' Hk eq_refl). }
  split; [|split; [exact Hw'|split; [|split; [|split]]]].
  - unfold inode_write_at. rewrite Hdeny. cbn [Z.eqb negb].
    unfold inode_length in Hlen.
    destruct (length _ <? size + offset) eqn:E; [apply Z.ltb_lt in E; lia|].
    now rewrite Hrun.
  - assert (R offset) as HRo by (apply Hrange; lia).
    apply (byte_to_sector_agree (sectors dk) st' ino offset (proj1 (HR _ HRo))).
    intros k Hk. exact (Hag offset k HRo Hk).
  - intros p HRp.
    apply (byte_to_sector_agree (sectors dk) st' ino p (proj1 (HR _ HRp))).
    intros k Hk. exact (Hag p k HRp Hk).
  - intros p s HRp Hout Hs. apply Hframe. intros p' Hp' Hs' Heq.
    pose proof (Hinj p p' s HRp (Hrange p' Hp') Hs Hs') as Hq.
    pose proof (proj1 (HR p HRp)) as Hp.
    assert (0 <= Z.rem p 512 /\ 0 <= Z.rem p' 512) as [? ?]
      by (Z.to_euclidean_division_equations; lia).
    assert (Z.rem p 512 = Z.rem p' 512) as Hr by lia.
    Z.to_euclidean_division_equations; lia.
  - exact Hwritten.
Qed.

Lemma sectors_in_range (offset size p : Z) :
  0 <= offset -> offset <= p < offset + size ->
  offset ÷ 512 <= p ÷ 512 <= (offset + size - 1) ÷ 512.
Proof. intros Ho Hp. Z.to_euclidean_division_equations; lia. Qed.

(** X25.  On a well-formed extent tree, [inode_write_at] inside the file
    (no growth, every sector of the range allocated, writes not denied)
    writes all [size] bytes, leaves the free map and the length alone,
    and [inode_read_at] of the same range then returns exactly the bytes
    written. *)
Theorem inode_write_then_read (fuel : nat) (dk : disk) (ino : inode)
    (buffer : list Z) (size offset : Z) :
  deny_write_cnt ino = 0 ->
  tree_ok (free_map dk) (sectors dk) (sector ino)
          (inode_of_sector (block_cache_read (sectors dk) (sector ino))) ->
  whole_sectors (sectors dk) ->
  0 <= offset -> 0 < size -> offset + size <= inode_length (sectors dk) ino ->
  size <= Z.of_nat (List.length buffer) ->
  (forall n, offset ÷ 512 <= n <= (offset + size - 1) ÷ 512 ->
             allocated_sector (sectors dk) ino n) ->
  exists dk',
    inode_write_at fuel dk ino buffer size offset = IoDone (size, dk') /\
    free_map dk' = free_map dk /\
    inode_length (sectors dk') ino = inode_length (sectors dk) ino /\
    inode_read_at (sectors dk') ino size offset
      = IoDone (size, take (Z.to_nat size) buffer).
Proof.
  intros Hdeny Htree Hw Hofs Hsize Hlen Hbuf Halloc.
  destruct (inode_write_at_inside fuel dk ino buffer size offset
              (fun p => offset <= p < offset + size) Hdeny Htree Hw Hofs Hsize Hlen Hbuf)
    as (st' & Hrun & Hw' & Hlen' & Hsame & _ & Hwritten).
  { intros p Hp. split; [lia|]. apply Halloc. now apply sectors_in_range. }
  { auto. }
  exists (mk_disk (free_map dk) st'). split; [exact Hrun|]. split; [reflexivity|].
  cbn [sectors]. split; [exact Hlen'|]. unfold inode_read_at.
  pose proof (read_loop_content st' ino buffer offset (offset + size) Hw' Hofs
                ltac:(lia) ltac:(lia)) as Hread.
  replace size with (offset + size - offset) at 2 by lia.
  rewrite Hread; [| |lia|lia].
  - replace (offset - offset) with 0 by lia. change (Z.to_nat 0) with 0%nat.
    rewrite drop_0. cbn [app]. f_equal. f_equal; [lia|]. f_equal. lia.
  - intros p Hp. destruct (Hwritten p Hp) as (s & Hs & Hb).
    exists s. split; [|exact Hb]. rewrite Hsame by exact Hp. exact Hs.
Qed.

(** [inode_read_at] is the same in two states that agree on the bytes of
    the range. *)
Lemma inode_read_at_agree (st st' : gmap Z (list Z)) (ino : inode) (size offset : Z) :
  whole_sectors st -> whole_sectors st' ->
  inode_length st' ino = inode_length st ino ->
  0 <= offset -> 0 <= size -> offset + size <= inode_length st ino ->
  (forall p, offset <= p < offset + size ->
     exists s, byte_to_sector st ino p = Some s /\
               byte_to_sector st' ino p = Some s /\
               block_cache_read st' s !! Z.to_nat (Z.rem p 512)
                 = block_cache_read st s !! Z.to_nat (Z.rem p 512)) ->
  inode_read_at st' ino size offset = inode_read_at st ino size offset.
Proof.
  intros Hw Hw' Hlen Hofs Hsize Hend Hbytes.
  set (byte_at := fun p =>
         match byte_to_sector st ino p with
         | Some s => default 0 (block_cache_read st s !! Z.to_nat (Z.rem p 512))
         | None => 0
         end).
  set (content := (fun i : nat => byte_at (offset + Z.of_nat i)) <$> seq 0 (Z.to_nat size)).
  assert (Z.of_nat (List.length content) = size) as Hcl.
  { unfold content. rewrite length_fmap, length_seq. lia. }
  assert (forall p, offset <= p < offset + size ->
            exists s, byte_to_sector st ino p = Some s /\
                      block_cache_read st s !! Z.to_nat (Z.rem p 512)
                        = content !! Z.to_nat (p - offset)) as Hst.
  { intros p Hp. destruct (Hbytes p Hp) as (s & Hs & _). exists s. split; [exact Hs|].
    unfold content. rewrite list_lookup_fmap, lookup_seq_lt by lia. cbn.
    replace (offset + Z.of_nat (Z.to_nat (p - offset))) with p by lia.
    unfold byte_at. rewrite Hs.
    destruct (block_cache_read st s !! Z.to_nat (Z.rem p 512)) as [b|] eqn:Eb;
      [reflexivity|].
    apply lookup_ge_None in Eb. rewrite (block_cache_read_length st s Hw) in Eb.
    exfalso. Z.to_euclidean_division_equations; lia. }
  unfold inode_read_at.
  replace size with (offset + size - offset) at 2 4 by lia.
  rewrite (read_loop_content st ino content offset (offset + size) Hw Hofs Hend
             ltac:(lia) Hst) by lia.
  rewrite (read_loop_content st' ino content offset (offset + size) Hw' Hofs
             ltac:(lia) ltac:(lia)); [reflexivity| |lia|lia].
  intros p Hp. destruct (Hbytes p Hp) as (s & Hs & Hs' & Hb).
  destruct (Hst p Hp) as (s2 & Hs2 & Hb2).
  assert (s2 = s) as -> by congruence. exists s. split; [exact Hs'|]. now rewrite Hb.
Qed.

(** X26.  Under the same conditions the write changes nothing else in the
    file: [inode_read_at] of any allocated range of the file that does
    not meet the range written returns what it returned before. *)
Theorem inode_write_keeps_rest (fuel : nat) (dk : disk) (ino : inode)
    (buffer : list Z) (size offset size2 offset2 : Z) :
  deny_write_cnt ino = 0 ->
  tree_ok (free_map dk) (sectors dk) (sector ino)
          (inode_of_sector (block_cache_read (sectors dk) (sector ino))) ->
  whole_sectors (sectors dk) ->
  0 <= offset -> 0 < size -> offset + size <= inode_length (sectors dk) ino ->
  size <= Z.of_nat (List.length buffer) ->
  (forall n, offset ÷ 512 <= n <= (offset + size - 1) ÷ 512 ->
             allocated_sector (sectors dk) ino n) ->
  0 <= offset2 -> 0 <= size2 -> offset2 + size2 <= inode_length (sectors dk) ino ->
  offset2 + size2 <= offset \/ offset + size <= offset2 ->
  (forall n, offset2 ÷ 512 <= n <= (offset2 + size2 - 1) ÷ 512 ->
             allocated_sector (sectors dk) ino n) ->
  exists dk',
    inode_write_at fuel dk ino buffer size offset = IoDone (size, dk') /\
    inode_read_at (sectors dk') ino size2 offset2
      = inode_read_at (sectors dk) ino size2 offset2.
Proof.
  intros Hdeny Htree Hw Hofs Hsize Hlen Hbuf Halloc Hofs2 Hsize2 Hlen2 Hapart Halloc2.
  set (R := fun p => offset <= p < offset + size \/ offset2 <= p < offset2 + size2).
  assert (forall p, R p -> 0 <= p < inode_length (sectors dk) ino /\
                           allocated_sector (sectors dk) ino (p ÷ 512)) as HR.
  { intros p [Hp|Hp]; (split; [lia|]).
    - apply Halloc. now apply sectors_in_range.
    - apply Halloc2. now apply sectors_in_range. }
  destruct (inode_write_at_inside fuel dk ino buffer size offset R
              Hdeny Htree Hw Hofs Hsize Hlen Hbuf HR)
    as (st' & Hrun & Hw' & Hlen' & Hsame & Hkept & _).
  { intros p Hp. now left. }
  destruct (tree_separates _ _ _ R Htree HR) as (Hdata & _ & _).
  exists (mk_disk (free_map dk) st'). split; [exact Hrun|]. cbn [sectors].
  apply inode_read_at_agree; try assumption.
  intros p Hp. assert (R p) as HRp by now right.
  destruct (Hdata p HRp) as [s Hs]. exists s. split; [exact Hs|].
  split; [now rewrite Hsame|]. apply Hkept; [exact HRp | lia | exact Hs].
Qed.

(** The sample file of 13 sectors and one byte. *)
Lemma sample_fs_tree_ok :
  tree_ok (free_map (fs_disk sample_fs)) (sectors (fs_disk sample_fs)) 2
          (inode_of_sector (block_cache_read (sectors (fs_disk sample_fs)) 2)).
Proof.
  apply (inode_create_tree_ok 1
           (mk_disk (<[2%nat := true]> (free_map (blank_disk 30))) ∅)
           (fs_disk sample_fs) 2 (13 * 512 + 1) 0).
  - lia.
  - lia.
  - vm_compute. discriminate.
  - reflexivity.
  - lia.
  - reflexivity.
  - vm_compute. reflexivity.
Qed.

Lemma sample_fs_whole : whole_sectors (sectors (fs_disk sample_fs)).
Proof.
  intros k v Hk.
  assert (map_Forall (fun _ (v : list Z) => List.length v = 512%nat)
                     (sectors (fs_disk sample_fs))) as Hall.
  { apply (bool_decide_unpack _). vm_compute. exact I. }
  exact (Hall k v Hk).
Qed.

Lemma sample_fs_allocated (n : Z) :
  0 <= n <= 13 -> allocated_sector (sectors (fs_disk sample_fs)) (mk_inode 2 1 false 0 0) n.
Proof.
  intros Hn. replace n with (Z.of_nat (Z.to_nat n)) by lia.
  assert (Z.to_nat n < 14)%nat as Hk by lia. revert Hk.
  generalize (Z.to_nat n). intros k Hk.
  do 14 (destruct k as [|k];
         [split; [vm_compute; repeat constructor; discriminate
                 |eexists; split; [vm_compute; reflexivity | discriminate]]|]).
  lia.
Qed.

Lemma inode_write_then_read_witness :
  exists dk',
    inode_write_at 0 (fs_disk sample_fs) (mk_inode 2 1 false 0 0)
                   (repeat 7 600%nat) 600 6000 = IoDone (600, dk') /\
    inode_read_at (sectors dk') (mk_inode 2 1 false 0 0) 600 6000
      = IoDone (600, repeat 7 600%nat).
Proof.
  destruct (inode_write_then_read 0 (fs_disk sample_fs) (mk_inode 2 1 false 0 0)
              (repeat 7 600%nat) 600 6000) as (dk' & Hrun & _ & _ & Hread).
  - reflexivity.
  - exact sample_fs_tree_ok.
  - exact sample_fs_whole.
  - lia.
  - lia.
  - vm_compute. discriminate.
  - rewrite repeat_length. lia.
  - intros n Hn. apply sample_fs_allocated.
    change (6000 ÷ 512) with 11 in Hn. change ((6000 + 600 - 1) ÷ 512) with 12 in Hn. lia.
  - exists dk'. split; [exact Hrun|]. rewrite Hread. reflexivity.
Defined.

Lemma inode_write_keeps_rest_witness :
  exists dk',
    inode_write_at 0 (fs_disk sample_fs) (mk_inode 2 1 false 0 0)
                   (repeat 7 600%nat) 600 6000 = IoDone (600, dk') /\
    inode_read_at (sectors dk') (mk_inode 2 1 false 0 0) 57 6600
      = inode_read_at (sectors (fs_disk sample_fs)) (mk_inode 2 1 false 0 0) 57 6600.
Proof.
  apply (inode_write_keeps_rest 0 (fs_disk sample_fs) (mk_inode 2 1 false 0 0)
           (repeat 7 600%nat) 600 6000 57 6600).
  - reflexivity.
  - exact sample_fs_tree_ok.
  - exact sample_fs_whole.
  - lia.
  - lia.
  - vm_compute. discriminate.
  - rewrite repeat_length. lia.
  - intros n Hn. apply sample_fs_allocated.
    change (6000 ÷ 512) with 11 in Hn. change ((6000 + 600 - 1) ÷ 512) with 12 in Hn. lia.
  - lia.
  - lia.
  - vm_compute. discriminate.
  - right. lia.
  - intros n Hn. apply sample_fs_allocated.
    change (6600 ÷ 512) with 12 in Hn. change ((6600 + 57 - 1) ÷ 512) with 13 in Hn. lia.
Defined.

End WriteRead.
